(** * One-particle system of the pairinteraction library

    A shallow embedding of [SystemOne.cpp] (basis construction, interaction
    cache, Hamiltonian assembly, symmetry setters, system combination) in its
    real-scalar configuration ([scalar_t = double]), of the storage helpers
    of [Hamiltonianmatrix.hpp] and of the Julia binding of the conserved
    momenta, together with the properties that the design document states
    about them and further properties that the code shows.

    Conventions of the embedding
    - [double] is IEEE binary64, embedded as Rocq's primitive [float];
      [std::abs], [std::sqrt], [==], [<] are the primitive operations.
    - The quantum numbers [j] and [m] and the conserved momenta are stored as
      [float] in the source and hold integer or half-integer values.  They are
      embedded by their doubles, as integers: [j = 3/2] is [3], [m = -1/2] is
      [-1], and the momentum [1] is [2].  [half k] writes the double of the
      integer [k].
    - A [std::set] is embedded as the list of its elements in iteration order,
      a [std::unordered_map] as a [gmap].
    - A member function is a function from the object before the call to an
      [outcome]: the object after a normal return, or the exception message
      together with the object as the exception leaves it. *)

From Stdlib Require Import ZArith List Bool Lia String Ascii PrimFloat Sorted.
From Stdlib Require Floats.
From stdpp Require Import base option list gmap strings pretty.
Import ListNotations.

Local Open Scope Z_scope.

(** ** Scalars *)

Module Scalar.

Definition scalar_t : Type := float.

(** [utils::conjugate] on a real scalar. *)
Definition conjugate (x : scalar_t) : scalar_t := x.

(** [a != b] on doubles. *)
Definition neq (a b : float) : bool := negb (PrimFloat.eqb a b).

(** [a > b] on doubles. *)
Definition gt (a b : float) : bool := PrimFloat.ltb b a.

Fixpoint of_pos (p : positive) : float :=
  match p with
  | xH => 1%float
  | xO q => (2 * of_pos q)%float
  | xI q => (2 * of_pos q + 1)%float
  end.

(** Conversion of an [int] to [double]. *)
Definition of_int (z : Z) : float :=
  match z with
  | Z0 => 0%float
  | Zpos p => of_pos p
  | Zneg p => (- of_pos p)%float
  end.

(** [std::pow(-1, i)] for an [int] exponent. *)
Definition pow_m1 (i : Z) : float :=
  if Z.even i then 1%float else (-1)%float.

(** [std::pow(-1, x)] for a floating exponent [x] given by its double
    [x2 = 2 x]: a sign when [x] is an integer, NaN otherwise. *)
Definition pow_m1_half (x2 : Z) : float :=
  if Z.even x2 then pow_m1 (x2 / 2) else nan.

(** [std::pow(x, n)] for a non-negative integer exponent, by repeated
    multiplication.  The value of the library function may differ from this
    product in the last bit. *)
Fixpoint pow (x : float) (n : nat) : float :=
  match n with
  | O => 1%float
  | S k => (x * pow x k)%float
  end.

(** [std::numeric_limits<double>::max()] and [lowest()]. *)
Definition double_max : float := 0x1.fffffffffffffp+1023%float.
Definition double_lowest : float := (- double_max)%float.

(** A real scalar of modulus one. *)
Definition is_sign (x : float) : Prop := x = 1%float \/ x = (-1)%float.

End Scalar.
Import Scalar.

(** ** Sparse matrices

    An [eigen_sparse_t] is embedded by its dimensions and its coefficients,
    row by row; a coefficient that is not stored is zero. *)

Record eigen_triplet_t := Triplet { t_row : nat; t_col : nat; t_value : scalar_t }.

Record eigen_sparse_t := Sparse { rows : nat; cols : nat; coeffs : list (list scalar_t) }.

Module Matrix.

Definition tabulate (n m : nat) (f : nat -> nat -> scalar_t) : eigen_sparse_t :=
  Sparse n m (map (fun r => map (f r) (seq 0 m)) (seq 0 n)).

Definition coeff (M : eigen_sparse_t) (r c : nat) : scalar_t :=
  nth c (nth r (coeffs M) []) 0%float.

(** A default-constructed matrix. *)
Definition empty : eigen_sparse_t := Sparse 0 0 [].

Definition at_position (r c : nat) (t : eigen_triplet_t) : bool :=
  Nat.eqb (t_row t) r && Nat.eqb (t_col t) c.

(** The values given for position [(r, c)], in the order of the triplets. *)
Definition values_at (ts : list eigen_triplet_t) (r c : nat) : list scalar_t :=
  map t_value (List.filter (at_position r c) ts).

(** Duplicated positions are summed up. *)
Definition sum_values (vs : list scalar_t) : scalar_t :=
  match vs with
  | [] => 0%float
  | v :: rest => fold_left PrimFloat.add rest v
  end.

(** [M.resize(n, m); M.setFromTriplets(ts.begin(), ts.end())]. *)
Definition setFromTriplets (n m : nat) (ts : list eigen_triplet_t) : eigen_sparse_t :=
  tabulate n m (fun r c => sum_values (values_at ts r c)).

(** [M.adjoint()]. *)
Definition adjoint (M : eigen_sparse_t) : eigen_sparse_t :=
  tabulate (cols M) (rows M) (fun r c => conjugate (coeff M c r)).

(** [M * x] and [x * M] for a scalar [x]. *)
Definition scale (M : eigen_sparse_t) (x : scalar_t) : eigen_sparse_t :=
  tabulate (rows M) (cols M) (fun r c => (coeff M r c * x)%float).

Definition scale_left (x : scalar_t) (M : eigen_sparse_t) : eigen_sparse_t :=
  tabulate (rows M) (cols M) (fun r c => (x * coeff M r c)%float).

(** [A + B] and [A - B]; the operands have the same dimensions. *)
Definition add (A B : eigen_sparse_t) : eigen_sparse_t :=
  tabulate (rows A) (cols A) (fun r c => (coeff A r c + coeff B r c)%float).

Definition sub (A B : eigen_sparse_t) : eigen_sparse_t :=
  tabulate (rows A) (cols A) (fun r c => (coeff A r c - coeff B r c)%float).

Definition dot (n : nat) (f g : nat -> scalar_t) : scalar_t :=
  fold_left (fun acc k => (acc + f k * g k)%float) (seq 0 n) 0%float.

(** [A * B]. *)
Definition mul (A B : eigen_sparse_t) : eigen_sparse_t :=
  tabulate (rows A) (cols B)
    (fun r c => dot (cols A) (fun k => coeff A r k) (fun k => coeff B k c)).

(** [M.selfadjointView<Eigen::Lower>()]: the lower triangle of [M],
    mirrored into the upper one. *)
Definition selfadjointView_Lower (M : eigen_sparse_t) : eigen_sparse_t :=
  tabulate (rows M) (cols M)
    (fun r c => if Nat.leb c r then coeff M r c else conjugate (coeff M c r)).

(** [basis.adjoint() * M * basis]. *)
Definition transformed (basis M : eigen_sparse_t) : eigen_sparse_t :=
  mul (mul (adjoint basis) M) basis.

(** [x != 0] for a coefficient. *)
Definition nonzero (x : scalar_t) : bool := neq x 0%float.

End Matrix.

(** ** One-particle states *)

(** [half k] is the embedding of the integer value [k] of a [float] quantum
    number or momentum. *)
Definition half (k : Z) : Z := 2 * k.

Module State.

(** Modelled from the spec: [StateOne] is declared in a header that is not
    among the sources.  A state has a species tag, the quantum numbers
    [n], [l], [j], [m], and an "artificial" flag; two states with the same
    fields are the same state; the reflection partner has [m] negated. *)
Record StateOne := Build {
  getSpecies : string;
  getN : Z;
  getL : Z;
  getJ : Z;   (* doubled *)
  getM : Z;   (* doubled *)
  isArtificial : bool
}.

(** [StateOne(species, n, l, j, m)]. *)
Definition make (species : string) (n l j m : Z) : StateOne :=
  Build species n l j m false.

(** [StateOne(label)], an artificial state. *)
Definition artificial (label : string) : StateOne :=
  Build label 0 0 0 0 true.

Definition getReflected (s : StateOne) : StateOne :=
  Build (getSpecies s) (getN s) (getL s) (getJ s) (- getM s) (isArtificial s).

#[global] Instance eq_dec : EqDecision StateOne.
Proof. solve_decision. Defined.

Definition eqb (a b : StateOne) : bool := bool_decide (a = b).

End State.
Abbreviation StateOne := State.StateOne.

(** ** Exceptions *)

Inductive outcome (A : Type) : Type :=
| Returns (a : A)
| Throws (what : string) (a : A).
Arguments Returns {A} a.
Arguments Throws {A} what a.

Definition returned {A} (o : outcome A) : bool :=
  match o with Returns _ => true | Throws _ _ => false end.

Definition after {A} (o : outcome A) : A :=
  match o with Returns a => a | Throws _ a => a end.

(** A range-based [for] whose body may throw: the exception ends the loop. *)
Fixpoint for_each {A S : Type} (body : A -> S -> outcome S) (l : list A) (st : S)
  : outcome S :=
  match l with
  | [] => Returns st
  | x :: xs =>
      match body x st with
      | Returns st' => for_each body xs st'
      | Throws e st' => Throws e st'
      end
  end.

(** ** Symmetries, fields *)

Inductive parity_t : Type := NA | EVEN | ODD.

#[global] Instance parity_eq_dec : EqDecision parity_t.
Proof. solve_decision. Defined.

(** Modelled from the spec: the constant [ARB] is declared in [dtypes.hpp],
    which is not among the sources; it is the distinguished "unrestricted"
    momentum, a value that no state has. *)
Definition ARB : Z := half 32767.

(** [std::array<double, 3>]. *)
Definition array3 : Type := (float * float * float)%type.
Definition at0 (a : array3) : float := fst (fst a).
Definition at1 (a : array3) : float := snd (fst a).
Definition at2 (a : array3) : float := snd a.

(** [a != b] on [std::array<double, 3>]: some component differs. *)
Definition array3_neq (a b : array3) : bool :=
  neq (at0 a) (at0 b) || neq (at1 a) (at1 b) || neq (at2 a) (at2 b).

(** Modelled from the spec: the state of the assembler is kept by
    [SystemBase], which is not among the sources (design document, 4.3). *)
Inductive AssemblerState : Type := Clean | ParametersDirty | SymmetryDirty.

(** [count] and [find] on a [std::set]. *)
Definition count (x : Z) (l : list Z) : nat := if bool_decide (x ∈ l) then 1%nat else 0%nat.
Definition contains (x : Z) (l : list Z) : bool := bool_decide (x ∈ l).
Definition contains_state (x : StateOne) (l : list StateOne) : bool := bool_decide (x ∈ l).

(** [m[k]] on a [std::unordered_map]: the value at [k], value-initialised
    when [k] is absent. *)
Definition at_key {K} `{Countable K} (m : gmap K float) (k : K) : float :=
  default 0%float (m !! k).
Definition matrix_at {K} `{Countable K} (m : gmap K eigen_sparse_t) (k : K) : eigen_sparse_t :=
  default Matrix.empty (m !! k).

(** ** External collaborators *)

(** The matrix-element source.  Its class is not among the sources; the
    object only calls it, and the calls are taken as pure functions of their
    arguments. *)
Record MatrixElementCache := {
  getEnergy : StateOne -> float;                          (* state.getEnergy(cache) *)
  getElectricDipole : StateOne -> StateOne -> float;
  getMagneticDipole : StateOne -> StateOne -> float;
  getDiamagnetism : StateOne -> StateOne -> Z -> float;
  getElectricMultipole : StateOne -> StateOne -> Z -> float
}.

(** Free functions and constants that [SystemOne.cpp] uses and that are
    declared in headers which are not among the sources. *)
Record Headers := {
  selectionRulesMultipoleNew : StateOne -> StateOne -> Z -> Z -> bool;
  selectionRulesMultipoleNew_order : StateOne -> StateOne -> Z -> bool; (* three arguments *)
  selectionRulesMomentumNew : StateOne -> StateOne -> Z -> bool;
  electron_rest_mass : float;
  coulombs_constant : float;
  elementary_charge : float;
  imaginary_unit : scalar_t;                              (* utils::imaginary_unit<scalar_t>() *)
  str : StateOne -> string                                (* state.str() *)
}.

(** ** The object *)

Record SystemOne := mkSystemOne {
  (* members inherited from SystemBase<StateOne> *)
  cache : MatrixElementCache;
  range_n : list Z;
  range_l : list Z;
  range_j : list Z;
  range_m : list Z;
  energy_min : float;
  energy_max : float;
  states_to_add : list StateOne;
  states : list StateOne;
  basisvectors : eigen_sparse_t;
  hamiltonian : eigen_sparse_t;
  assembler : AssemblerState;
  cerr : list string;
  (* members of SystemOne *)
  efield : array3;
  bfield : array3;
  efield_spherical : gmap Z float;
  bfield_spherical : gmap Z float;
  diamagnetism : bool;
  diamagnetism_terms : gmap (Z * Z) float;
  charge : Z;
  ordermax : nat;
  distance : float;
  species : string;
  sym_reflection : parity_t;
  sym_rotation : list Z;
  interaction_efield : gmap Z eigen_sparse_t;
  interaction_bfield : gmap Z eigen_sparse_t;
  interaction_diamagnetism : gmap (Z * Z) eigen_sparse_t;
  interaction_multipole : gmap Z eigen_sparse_t
}.

(** Assignment to one member; all others are kept. *)
Definition set_range_n (v : list Z) (s : SystemOne) : SystemOne :=
  mkSystemOne (cache s) v (range_l s) (range_j s) (range_m s) (energy_min s)
    (energy_max s) (states_to_add s) (states s) (basisvectors s) (hamiltonian s)
    (assembler s) (cerr s) (efield s) (bfield s) (efield_spherical s)
    (bfield_spherical s) (diamagnetism s) (diamagnetism_terms s) (charge s) (ordermax s)
    (distance s) (species s) (sym_reflection s) (sym_rotation s) (interaction_efield s)
    (interaction_bfield s) (interaction_diamagnetism s) (interaction_multipole s).

Definition set_range_l (v : list Z) (s : SystemOne) : SystemOne :=
  mkSystemOne (cache s) (range_n s) v (range_j s) (range_m s) (energy_min s)
    (energy_max s) (states_to_add s) (states s) (basisvectors s) (hamiltonian s)
    (assembler s) (cerr s) (efield s) (bfield s) (efield_spherical s)
    (bfield_spherical s) (diamagnetism s) (diamagnetism_terms s) (charge s) (ordermax s)
    (distance s) (species s) (sym_reflection s) (sym_rotation s) (interaction_efield s)
    (interaction_bfield s) (interaction_diamagnetism s) (interaction_multipole s).

Definition set_range_j (v : list Z) (s : SystemOne) : SystemOne :=
  mkSystemOne (cache s) (range_n s) (range_l s) v (range_m s) (energy_min s)
    (energy_max s) (states_to_add s) (states s) (basisvectors s) (hamiltonian s)
    (assembler s) (cerr s) (efield s) (bfield s) (efield_spherical s)
    (bfield_spherical s) (diamagnetism s) (diamagnetism_terms s) (charge s) (ordermax s)
    (distance s) (species s) (sym_reflection s) (sym_rotation s) (interaction_efield s)
    (interaction_bfield s) (interaction_diamagnetism s) (interaction_multipole s).

Definition set_range_m (v : list Z) (s : SystemOne) : SystemOne :=
  mkSystemOne (cache s) (range_n s) (range_l s) (range_j s) v (energy_min s)
    (energy_max s) (states_to_add s) (states s) (basisvectors s) (hamiltonian s)
    (assembler s) (cerr s) (efield s) (bfield s) (efield_spherical s)
    (bfield_spherical s) (diamagnetism s) (diamagnetism_terms s) (charge s) (ordermax s)
    (distance s) (species s) (sym_reflection s) (sym_rotation s) (interaction_efield s)
    (interaction_bfield s) (interaction_diamagnetism s) (interaction_multipole s).

Definition set_energy_min (v : float) (s : SystemOne) : SystemOne :=
  mkSystemOne (cache s) (range_n s) (range_l s) (range_j s) (range_m s) v (energy_max s)
    (states_to_add s) (states s) (basisvectors s) (hamiltonian s) (assembler s) (cerr s)
    (efield s) (bfield s) (efield_spherical s) (bfield_spherical s) (diamagnetism s)
    (diamagnetism_terms s) (charge s) (ordermax s) (distance s) (species s)
    (sym_reflection s) (sym_rotation s) (interaction_efield s) (interaction_bfield s)
    (interaction_diamagnetism s) (interaction_multipole s).

Definition set_energy_max (v : float) (s : SystemOne) : SystemOne :=
  mkSystemOne (cache s) (range_n s) (range_l s) (range_j s) (range_m s) (energy_min s) v
    (states_to_add s) (states s) (basisvectors s) (hamiltonian s) (assembler s) (cerr s)
    (efield s) (bfield s) (efield_spherical s) (bfield_spherical s) (diamagnetism s)
    (diamagnetism_terms s) (charge s) (ordermax s) (distance s) (species s)
    (sym_reflection s) (sym_rotation s) (interaction_efield s) (interaction_bfield s)
    (interaction_diamagnetism s) (interaction_multipole s).

Definition set_states_to_add (v : list StateOne) (s : SystemOne) : SystemOne :=
  mkSystemOne (cache s) (range_n s) (range_l s) (range_j s) (range_m s) (energy_min s)
    (energy_max s) v (states s) (basisvectors s) (hamiltonian s) (assembler s) (cerr s)
    (efield s) (bfield s) (efield_spherical s) (bfield_spherical s) (diamagnetism s)
    (diamagnetism_terms s) (charge s) (ordermax s) (distance s) (species s)
    (sym_reflection s) (sym_rotation s) (interaction_efield s) (interaction_bfield s)
    (interaction_diamagnetism s) (interaction_multipole s).

Definition set_states (v : list StateOne) (s : SystemOne) : SystemOne :=
  mkSystemOne (cache s) (range_n s) (range_l s) (range_j s) (range_m s) (energy_min s)
    (energy_max s) (states_to_add s) v (basisvectors s) (hamiltonian s) (assembler s)
    (cerr s) (efield s) (bfield s) (efield_spherical s) (bfield_spherical s)
    (diamagnetism s) (diamagnetism_terms s) (charge s) (ordermax s) (distance s)
    (species s) (sym_reflection s) (sym_rotation s) (interaction_efield s)
    (interaction_bfield s) (interaction_diamagnetism s) (interaction_multipole s).

Definition set_basisvectors (v : eigen_sparse_t) (s : SystemOne) : SystemOne :=
  mkSystemOne (cache s) (range_n s) (range_l s) (range_j s) (range_m s) (energy_min s)
    (energy_max s) (states_to_add s) (states s) v (hamiltonian s) (assembler s) (cerr s)
    (efield s) (bfield s) (efield_spherical s) (bfield_spherical s) (diamagnetism s)
    (diamagnetism_terms s) (charge s) (ordermax s) (distance s) (species s)
    (sym_reflection s) (sym_rotation s) (interaction_efield s) (interaction_bfield s)
    (interaction_diamagnetism s) (interaction_multipole s).

Definition set_hamiltonian (v : eigen_sparse_t) (s : SystemOne) : SystemOne :=
  mkSystemOne (cache s) (range_n s) (range_l s) (range_j s) (range_m s) (energy_min s)
    (energy_max s) (states_to_add s) (states s) (basisvectors s) v (assembler s)
    (cerr s) (efield s) (bfield s) (efield_spherical s) (bfield_spherical s)
    (diamagnetism s) (diamagnetism_terms s) (charge s) (ordermax s) (distance s)
    (species s) (sym_reflection s) (sym_rotation s) (interaction_efield s)
    (interaction_bfield s) (interaction_diamagnetism s) (interaction_multipole s).

Definition set_assembler (v : AssemblerState) (s : SystemOne) : SystemOne :=
  mkSystemOne (cache s) (range_n s) (range_l s) (range_j s) (range_m s) (energy_min s)
    (energy_max s) (states_to_add s) (states s) (basisvectors s) (hamiltonian s) v
    (cerr s) (efield s) (bfield s) (efield_spherical s) (bfield_spherical s)
    (diamagnetism s) (diamagnetism_terms s) (charge s) (ordermax s) (distance s)
    (species s) (sym_reflection s) (sym_rotation s) (interaction_efield s)
    (interaction_bfield s) (interaction_diamagnetism s) (interaction_multipole s).

Definition set_cerr (v : list string) (s : SystemOne) : SystemOne :=
  mkSystemOne (cache s) (range_n s) (range_l s) (range_j s) (range_m s) (energy_min s)
    (energy_max s) (states_to_add s) (states s) (basisvectors s) (hamiltonian s)
    (assembler s) v (efield s) (bfield s) (efield_spherical s) (bfield_spherical s)
    (diamagnetism s) (diamagnetism_terms s) (charge s) (ordermax s) (distance s)
    (species s) (sym_reflection s) (sym_rotation s) (interaction_efield s)
    (interaction_bfield s) (interaction_diamagnetism s) (interaction_multipole s).

Definition set_efield (v : array3) (s : SystemOne) : SystemOne :=
  mkSystemOne (cache s) (range_n s) (range_l s) (range_j s) (range_m s) (energy_min s)
    (energy_max s) (states_to_add s) (states s) (basisvectors s) (hamiltonian s)
    (assembler s) (cerr s) v (bfield s) (efield_spherical s) (bfield_spherical s)
    (diamagnetism s) (diamagnetism_terms s) (charge s) (ordermax s) (distance s)
    (species s) (sym_reflection s) (sym_rotation s) (interaction_efield s)
    (interaction_bfield s) (interaction_diamagnetism s) (interaction_multipole s).

Definition set_bfield (v : array3) (s : SystemOne) : SystemOne :=
  mkSystemOne (cache s) (range_n s) (range_l s) (range_j s) (range_m s) (energy_min s)
    (energy_max s) (states_to_add s) (states s) (basisvectors s) (hamiltonian s)
    (assembler s) (cerr s) (efield s) v (efield_spherical s) (bfield_spherical s)
    (diamagnetism s) (diamagnetism_terms s) (charge s) (ordermax s) (distance s)
    (species s) (sym_reflection s) (sym_rotation s) (interaction_efield s)
    (interaction_bfield s) (interaction_diamagnetism s) (interaction_multipole s).

Definition set_efield_spherical (v : gmap Z float) (s : SystemOne) : SystemOne :=
  mkSystemOne (cache s) (range_n s) (range_l s) (range_j s) (range_m s) (energy_min s)
    (energy_max s) (states_to_add s) (states s) (basisvectors s) (hamiltonian s)
    (assembler s) (cerr s) (efield s) (bfield s) v (bfield_spherical s) (diamagnetism s)
    (diamagnetism_terms s) (charge s) (ordermax s) (distance s) (species s)
    (sym_reflection s) (sym_rotation s) (interaction_efield s) (interaction_bfield s)
    (interaction_diamagnetism s) (interaction_multipole s).

Definition set_bfield_spherical (v : gmap Z float) (s : SystemOne) : SystemOne :=
  mkSystemOne (cache s) (range_n s) (range_l s) (range_j s) (range_m s) (energy_min s)
    (energy_max s) (states_to_add s) (states s) (basisvectors s) (hamiltonian s)
    (assembler s) (cerr s) (efield s) (bfield s) (efield_spherical s) v (diamagnetism s)
    (diamagnetism_terms s) (charge s) (ordermax s) (distance s) (species s)
    (sym_reflection s) (sym_rotation s) (interaction_efield s) (interaction_bfield s)
    (interaction_diamagnetism s) (interaction_multipole s).

Definition set_diamagnetism (v : bool) (s : SystemOne) : SystemOne :=
  mkSystemOne (cache s) (range_n s) (range_l s) (range_j s) (range_m s) (energy_min s)
    (energy_max s) (states_to_add s) (states s) (basisvectors s) (hamiltonian s)
    (assembler s) (cerr s) (efield s) (bfield s) (efield_spherical s)
    (bfield_spherical s) v (diamagnetism_terms s) (charge s) (ordermax s) (distance s)
    (species s) (sym_reflection s) (sym_rotation s) (interaction_efield s)
    (interaction_bfield s) (interaction_diamagnetism s) (interaction_multipole s).

Definition set_diamagnetism_terms (v : gmap (Z * Z) float) (s : SystemOne) : SystemOne :=
  mkSystemOne (cache s) (range_n s) (range_l s) (range_j s) (range_m s) (energy_min s)
    (energy_max s) (states_to_add s) (states s) (basisvectors s) (hamiltonian s)
    (assembler s) (cerr s) (efield s) (bfield s) (efield_spherical s)
    (bfield_spherical s) (diamagnetism s) v (charge s) (ordermax s) (distance s)
    (species s) (sym_reflection s) (sym_rotation s) (interaction_efield s)
    (interaction_bfield s) (interaction_diamagnetism s) (interaction_multipole s).

Definition set_charge (v : Z) (s : SystemOne) : SystemOne :=
  mkSystemOne (cache s) (range_n s) (range_l s) (range_j s) (range_m s) (energy_min s)
    (energy_max s) (states_to_add s) (states s) (basisvectors s) (hamiltonian s)
    (assembler s) (cerr s) (efield s) (bfield s) (efield_spherical s)
    (bfield_spherical s) (diamagnetism s) (diamagnetism_terms s) v (ordermax s)
    (distance s) (species s) (sym_reflection s) (sym_rotation s) (interaction_efield s)
    (interaction_bfield s) (interaction_diamagnetism s) (interaction_multipole s).

Definition set_ordermax (v : nat) (s : SystemOne) : SystemOne :=
  mkSystemOne (cache s) (range_n s) (range_l s) (range_j s) (range_m s) (energy_min s)
    (energy_max s) (states_to_add s) (states s) (basisvectors s) (hamiltonian s)
    (assembler s) (cerr s) (efield s) (bfield s) (efield_spherical s)
    (bfield_spherical s) (diamagnetism s) (diamagnetism_terms s) (charge s) v
    (distance s) (species s) (sym_reflection s) (sym_rotation s) (interaction_efield s)
    (interaction_bfield s) (interaction_diamagnetism s) (interaction_multipole s).

Definition set_distance (v : float) (s : SystemOne) : SystemOne :=
  mkSystemOne (cache s) (range_n s) (range_l s) (range_j s) (range_m s) (energy_min s)
    (energy_max s) (states_to_add s) (states s) (basisvectors s) (hamiltonian s)
    (assembler s) (cerr s) (efield s) (bfield s) (efield_spherical s)
    (bfield_spherical s) (diamagnetism s) (diamagnetism_terms s) (charge s) (ordermax s)
    v (species s) (sym_reflection s) (sym_rotation s) (interaction_efield s)
    (interaction_bfield s) (interaction_diamagnetism s) (interaction_multipole s).

Definition set_sym_reflection (v : parity_t) (s : SystemOne) : SystemOne :=
  mkSystemOne (cache s) (range_n s) (range_l s) (range_j s) (range_m s) (energy_min s)
    (energy_max s) (states_to_add s) (states s) (basisvectors s) (hamiltonian s)
    (assembler s) (cerr s) (efield s) (bfield s) (efield_spherical s)
    (bfield_spherical s) (diamagnetism s) (diamagnetism_terms s) (charge s) (ordermax s)
    (distance s) (species s) v (sym_rotation s) (interaction_efield s)
    (interaction_bfield s) (interaction_diamagnetism s) (interaction_multipole s).

Definition set_sym_rotation (v : list Z) (s : SystemOne) : SystemOne :=
  mkSystemOne (cache s) (range_n s) (range_l s) (range_j s) (range_m s) (energy_min s)
    (energy_max s) (states_to_add s) (states s) (basisvectors s) (hamiltonian s)
    (assembler s) (cerr s) (efield s) (bfield s) (efield_spherical s)
    (bfield_spherical s) (diamagnetism s) (diamagnetism_terms s) (charge s) (ordermax s)
    (distance s) (species s) (sym_reflection s) v (interaction_efield s)
    (interaction_bfield s) (interaction_diamagnetism s) (interaction_multipole s).

Definition set_interaction_efield (v : gmap Z eigen_sparse_t) (s : SystemOne) : SystemOne :=
  mkSystemOne (cache s) (range_n s) (range_l s) (range_j s) (range_m s) (energy_min s)
    (energy_max s) (states_to_add s) (states s) (basisvectors s) (hamiltonian s)
    (assembler s) (cerr s) (efield s) (bfield s) (efield_spherical s)
    (bfield_spherical s) (diamagnetism s) (diamagnetism_terms s) (charge s) (ordermax s)
    (distance s) (species s) (sym_reflection s) (sym_rotation s) v
    (interaction_bfield s) (interaction_diamagnetism s) (interaction_multipole s).

Definition set_interaction_bfield (v : gmap Z eigen_sparse_t) (s : SystemOne) : SystemOne :=
  mkSystemOne (cache s) (range_n s) (range_l s) (range_j s) (range_m s) (energy_min s)
    (energy_max s) (states_to_add s) (states s) (basisvectors s) (hamiltonian s)
    (assembler s) (cerr s) (efield s) (bfield s) (efield_spherical s)
    (bfield_spherical s) (diamagnetism s) (diamagnetism_terms s) (charge s) (ordermax s)
    (distance s) (species s) (sym_reflection s) (sym_rotation s) (interaction_efield s)
    v (interaction_diamagnetism s) (interaction_multipole s).

Definition set_interaction_diamagnetism (v : gmap (Z * Z) eigen_sparse_t) (s : SystemOne) : SystemOne :=
  mkSystemOne (cache s) (range_n s) (range_l s) (range_j s) (range_m s) (energy_min s)
    (energy_max s) (states_to_add s) (states s) (basisvectors s) (hamiltonian s)
    (assembler s) (cerr s) (efield s) (bfield s) (efield_spherical s)
    (bfield_spherical s) (diamagnetism s) (diamagnetism_terms s) (charge s) (ordermax s)
    (distance s) (species s) (sym_reflection s) (sym_rotation s) (interaction_efield s)
    (interaction_bfield s) v (interaction_multipole s).

Definition set_interaction_multipole (v : gmap Z eigen_sparse_t) (s : SystemOne) : SystemOne :=
  mkSystemOne (cache s) (range_n s) (range_l s) (range_j s) (range_m s) (energy_min s)
    (energy_max s) (states_to_add s) (states s) (basisvectors s) (hamiltonian s)
    (assembler s) (cerr s) (efield s) (bfield s) (efield_spherical s)
    (bfield_spherical s) (diamagnetism s) (diamagnetism_terms s) (charge s) (ordermax s)
    (distance s) (species s) (sym_reflection s) (sym_rotation s) (interaction_efield s)
    (interaction_bfield s) (interaction_diamagnetism s) v.

(** Modelled from the spec: [SystemBase::onParameterChange] and
    [onSymmetryChange] are not among the sources.  A parameter mutator makes
    the assembler [ParametersDirty], a symmetry mutator [SymmetryDirty], which
    supersedes [ParametersDirty]. *)
Definition onParameterChange (s : SystemOne) : SystemOne :=
  match assembler s with
  | SymmetryDirty => s
  | _ => set_assembler ParametersDirty s
  end.

Definition onSymmetryChange (s : SystemOne) : SystemOne :=
  set_assembler SymmetryDirty s.

(** [SystemOne::SystemOne(species, cache)]; the members of [SystemBase] are
    value-initialised, the energy window is unrestricted. *)
Definition constructor (species : string) (cache : MatrixElementCache) : SystemOne :=
  mkSystemOne cache [] [] [] [] double_lowest double_max [] []
    Matrix.empty Matrix.empty Clean []
    (0, 0, 0)%float (0, 0, 0)%float ∅ ∅ true ∅ 0 0 double_max species NA [ARB]
    ∅ ∅ ∅ ∅.

Definition getSpecies (s : SystemOne) : string := species s.

(** ** Field and parameter setters *)

(** [changeToSphericalbasis(field, field_spherical)], the overload for real
    spherical components: the exception, or the map after the three
    assignments. *)
Definition changeToSphericalbasis (field : array3) (field_spherical : gmap Z float)
  : string + gmap Z float :=
  if neq (at1 field) 0%float then
    inl "For fields with non-zero y-coordinates, a complex data type is needed."%string
  else
    inr (<[0 := at2 field]>
          (<[-1 := (at0 field / PrimFloat.sqrt 2)%float]>
            (<[1 := (- at0 field / PrimFloat.sqrt 2)%float]> field_spherical))).

Definition setEfield (field : array3) (s : SystemOne) : outcome SystemOne :=
  let s := onParameterChange s in
  let s := set_efield field s in
  match changeToSphericalbasis (efield s) (efield_spherical s) with
  | inl what => Throws what s
  | inr spherical => Returns (set_efield_spherical spherical s)
  end.

(** The six assignments to [diamagnetism_terms] at the end of [setBfield]. *)
Definition diamagnetism_terms_of (b : gmap Z float) (terms : gmap (Z * Z) float)
  : gmap (Z * Z) float :=
  let b0 := at_key b 0 in
  let bp := at_key b 1 in
  let bm := at_key b (-1) in
  <[(2, -2) := (bp * bp)%float]>
    (<[(2, 2) := (bm * bm)%float]>
      (<[(2, -1) := (b0 * bp)%float]>
        (<[(2, 1) := (b0 * bm)%float]>
          (<[(2, 0) := (b0 * b0 + bp * bm)%float]>
            (<[(0, 0) := (b0 * b0 - bp * bm * 2)%float]> terms))))).

Definition setBfield (field : array3) (s : SystemOne) : outcome SystemOne :=
  let s := onParameterChange s in
  let s := set_bfield field s in
  match changeToSphericalbasis (bfield s) (bfield_spherical s) with
  | inl what => Throws what s
  | inr spherical =>
      let s := set_bfield_spherical spherical s in
      Returns (set_diamagnetism_terms
                 (diamagnetism_terms_of (bfield_spherical s) (diamagnetism_terms s)) s)
  end.

Definition enableDiamagnetism (enable : bool) (s : SystemOne) : SystemOne :=
  set_diamagnetism enable (onParameterChange s).

Definition setIonCharge (c : Z) (s : SystemOne) : SystemOne :=
  set_charge c (onParameterChange s).

Definition setRydIonOrder (o : nat) (s : SystemOne) : SystemOne :=
  set_ordermax o (onParameterChange s).

Definition setRydIonDistance (d : float) (s : SystemOne) : SystemOne :=
  set_distance d (onParameterChange s).

(** ** Symmetry setters *)

Definition isRefelectionAndRotationCompatible (s : SystemOne) : bool :=
  if negb (Nat.eqb (count ARB (sym_rotation s)) 0) || bool_decide (sym_reflection s = NA)
  then true
  else forallb (fun m => negb (Nat.eqb (count (- m) (sym_rotation s)) 0)) (sym_rotation s).

Definition setConservedParityUnderReflection (parity : parity_t) (s : SystemOne)
  : outcome SystemOne :=
  let s := onSymmetryChange s in
  let s := set_sym_reflection parity s in
  if negb (isRefelectionAndRotationCompatible s) then
    Throws ("The conserved parity under reflection is not compatible to the " ++
            "previously specified conserved momenta.")%string s
  else Returns s.

Definition setConservedMomentaUnderRotation (momenta : list Z) (s : SystemOne)
  : outcome SystemOne :=
  if negb (Nat.eqb (count ARB momenta) 0) && Nat.ltb 1 (length momenta) then
    Throws ("If ARB (=arbitrary momentum) is specified, momenta must not be " ++
            "passed explicitely.")%string s
  else
    let s := onSymmetryChange s in
    let s := set_sym_rotation momenta s in
    if negb (isRefelectionAndRotationCompatible s) then
      Throws ("The conserved momenta are not compatible to the previously " ++
              "specified conserved parity under reflection.")%string s
    else Returns s.

(** The compatibility of a reflection parity and a set of conserved momenta,
    in the words of the design document: the parity is unset, or the momenta
    are the unrestricted sentinel, or with every kept momentum its negative
    is kept. *)
Definition compatible_spec (parity : parity_t) (momenta : list Z) : Prop :=
  parity = NA \/ momenta = [ARB] \/ (forall v, v ∈ momenta -> - v ∈ momenta).

(** The sentinel is never combined with explicit momenta. *)
Definition sentinel_alone (momenta : list Z) : Prop :=
  ARB ∈ momenta -> momenta = [ARB].

(** ** Combining two systems *)

Definition deleteInteraction (s : SystemOne) : SystemOne :=
  set_interaction_multipole ∅
    (set_interaction_diamagnetism ∅
      (set_interaction_bfield ∅
        (set_interaction_efield ∅ s))).

(** [set.insert(x)] and [set.insert(first, last)] on an ordered set. *)
Fixpoint set_insert (x : Z) (l : list Z) : list Z :=
  match l with
  | [] => [x]
  | y :: ys =>
      if x <? y then x :: l
      else if x =? y then l
      else y :: set_insert x ys
  end.

Definition set_insert_range (src dst : list Z) : list Z :=
  fold_left (fun acc x => set_insert x acc) src dst.

Definition incorporate_warning : string :=
  ("Warning: The systems differ in more than one symmetry. For the combined " ++
   "system, the notion of symmetries might be meaningless.")%string.

Definition incorporate (system : SystemOne) (s : SystemOne) : outcome SystemOne :=
  if negb (String.eqb (species s) (species system)) then
    Throws "The value of the variable 'element' must be the same for both systems."%string s
  else if array3_neq (efield s) (efield system) then
    Throws "The value of the variable 'distance' must be the same for both systems."%string s
  else if array3_neq (bfield s) (bfield system) then
    Throws "The value of the variable 'angle' must be the same for both systems."%string s
  else if negb (Bool.eqb (diamagnetism s) (diamagnetism system)) then
    Throws "The value of the variable 'ordermax' must be the same for both systems."%string s
  else
    let reflection_differs := bool_decide (sym_reflection s <> sym_reflection system) in
    let s := if reflection_differs then set_sym_reflection NA s else s in
    let rotation_differs :=
      negb (Nat.eqb (length (sym_rotation s)) (length (sym_rotation system))
            && bool_decide (sym_rotation s = sym_rotation system)) in
    let s :=
      if rotation_differs then
        if negb (Nat.eqb (count ARB (sym_rotation s)) 0)
           || negb (Nat.eqb (count ARB (sym_rotation system)) 0)
        then set_sym_rotation [ARB] s
        else set_sym_rotation (set_insert_range (sym_rotation system) (sym_rotation s)) s
      else s in
    let num_different_symmetries :=
      ((if reflection_differs then 1 else 0) + (if rotation_differs then 1 else 0))%nat in
    let s :=
      if Nat.ltb 1 num_different_symmetries then
        set_cerr (cerr s ++ [incorporate_warning]) s
      else s in
    Returns (deleteInteraction s).

(** ** Building the basis *)

(** Modelled from the spec: [SystemBase::checkIsEnergyValid] is not among the
    sources; a state outside the energy window is dropped, and a bound that
    was never set does not restrict. *)
Definition checkIsEnergyValid (energy : float) (s : SystemOne) : bool :=
  (PrimFloat.leb (energy_min s) energy || PrimFloat.eqb (energy_min s) double_lowest)
  && (PrimFloat.leb energy (energy_max s) || PrimFloat.eqb (energy_max s) double_max).

(** Modelled from the spec: [SystemBase::range] is not among the sources; it
    fills a set with [rmin, rmin + 1, ..., rmax].  [step] is [1] for a range
    of integers and [2] for a range of doubled values. *)
Definition range (rmin rmax step : Z) : list Z :=
  map (fun k => rmin + step * Z.of_nat k) (seq 0 (Z.to_nat ((rmax - rmin) / step + 1))).

(** [std::set_intersection] of two ordered sets. *)
Definition set_intersection (a b : list Z) : list Z :=
  List.filter (fun x => contains x b) a.

Definition back (str : string) : option ascii :=
  String.get (String.length str - 1) str.

Definition isdigit (c : ascii) : bool :=
  (48 <=? nat_of_ascii c)%nat && (nat_of_ascii c <=? 57)%nat.

(** The spin that [initializeBasis] reads off the species name, doubled:
    [0.5], or [(d - 1) / 2] when the name ends with the digit [d]. *)
Definition spin_of_species (species : string) : Z :=
  match back species with
  | Some c => if isdigit c then (Z.of_nat (nat_of_ascii c) - 48) - 1 else 1
  | None => 1
  end.

(** [std::to_string] of a [float] given by its double. *)
Definition to_string_half (x2 : Z) : string :=
  ((if (x2 <? 0)%Z then "-" else "") ++ pretty (Z.abs x2 / 2)%Z
   ++ (if Z.even x2 then ".000000" else ".500000"))%string.

(** The variables that the loops of [initializeBasis] update: the member
    [states], the local [idx] and the two local triplet lists, and the
    warnings written so far. *)
Record basis_build := BasisBuild {
  bb_states : list StateOne;
  bb_idx : nat;
  bb_basisvectors_triplets : list eigen_triplet_t;
  bb_hamiltonian_triplets : list eigen_triplet_t;
  bb_cerr : list string
}.

(** [states.get<1>().find(state)]: the index of a registered state. *)
Definition find_state (state : StateOne) (l : list StateOne) : option nat :=
  fst <$> list_find (fun x => x = state) l.

Definition addBasisvectors (state : StateOne) (idx : nat) (value : scalar_t)
  (bb : basis_build) : basis_build :=
  match find_state state (bb_states bb) with
  | Some row =>
      BasisBuild (bb_states bb) (bb_idx bb)
        (bb_basisvectors_triplets bb ++ [Triplet row idx value])
        (bb_hamiltonian_triplets bb) (bb_cerr bb)
  | None =>
      let row := length (bb_states bb) in
      BasisBuild (bb_states bb ++ [state]) (bb_idx bb)
        (bb_basisvectors_triplets bb ++ [Triplet row idx value])
        (bb_hamiltonian_triplets bb) (bb_cerr bb)
  end.

(** Whether a state is combined with its reflection partner. *)
Definition symmetrized (sym_reflection_local : parity_t) (state : StateOne) : bool :=
  bool_decide (sym_reflection_local <> NA) && negb (State.getM state =? 0).

(** The two coefficients of a symmetrized basis vector. *)
Definition first_coefficient : scalar_t := (1 / PrimFloat.sqrt 2)%float.

Definition second_coefficient (hdr : Headers) (sym_reflection_local : parity_t)
  (state : StateOne) : scalar_t :=
  let value := first_coefficient in
  let value :=
    (value * (pow_m1_half (2 * State.getL state + State.getM state - State.getJ state)
              * imaginary_unit hdr))%float in
  (value * (if bool_decide (sym_reflection_local = EVEN) then 1 else -1))%float.

Definition addSymmetrizedBasisvectors (hdr : Headers) (state : StateOne) (energy : float)
  (sym_reflection_local : parity_t) (bb : basis_build) : basis_build :=
  if symmetrized sym_reflection_local state && (State.getM state <? 0) then bb
  else
    let idx := bb_idx bb in
    let bb :=
      BasisBuild (bb_states bb) idx (bb_basisvectors_triplets bb)
        (bb_hamiltonian_triplets bb ++ [Triplet idx idx energy]) (bb_cerr bb) in
    let value := if symmetrized sym_reflection_local state then first_coefficient
                 else 1%float in
    let bb := addBasisvectors state idx value bb in
    let bb :=
      if symmetrized sym_reflection_local state then
        addBasisvectors (State.getReflected state) idx
          (second_coefficient hdr sym_reflection_local state) bb
      else bb in
    BasisBuild (bb_states bb) (S idx) (bb_basisvectors_triplets bb)
      (bb_hamiltonian_triplets bb) (bb_cerr bb).

(** The body of the loop over [m]. *)
Definition loop_m (hdr : Headers) (s : SystemOne) (n l j : Z) (energy : float)
  (range_allowed_m : list Z) (m : Z) (bb : basis_build) : outcome basis_build :=
  if Z.abs m >? j then Returns bb
  else
    let state := State.make (species s) n l j m in
    if bool_decide (sym_reflection s <> NA) && negb (State.getM state =? 0)
       && Nat.eqb (count (- State.getM state) range_allowed_m) 0
    then
      Throws ("The momentum " ++ to_string_half (- State.getM state)
              ++ " required by symmetries cannot be found.")%string bb
    else Returns (addSymmetrizedBasisvectors hdr state energy (sym_reflection s) bb).

(** The body of the loop over [j]; [s2] is the doubled spin. *)
Definition loop_j (hdr : Headers) (s : SystemOne) (s2 n l : Z) (j : Z) (bb : basis_build)
  : outcome basis_build :=
  if (Z.abs (j - 2 * l) >? s2) || (j <? 0) then Returns bb
  else
    let energy := getEnergy (cache s) (State.make (species s) n l j s2) in
    if negb (checkIsEnergyValid energy s) then Returns bb
    else
      let range_adapted_m := if bool_decide (range_m s = []) then range (- j) j 2
                             else range_m s in
      let range_allowed_m :=
        if Nat.eqb (count ARB (sym_rotation s)) 0
        then set_intersection (sym_rotation s) range_adapted_m
        else range_adapted_m in
      for_each (loop_m hdr s n l j energy range_allowed_m) range_allowed_m bb.

(** The body of the loop over [l]. *)
Definition loop_l (hdr : Headers) (s : SystemOne) (s2 n : Z) (l : Z) (bb : basis_build)
  : outcome basis_build :=
  if (l >? n - 1) || (l <? 0) then Returns bb
  else
    let range_adapted_j :=
      if bool_decide (range_j s = []) then range (Z.abs (2 * l - s2)) (2 * l + s2) 2
      else range_j s in
    for_each (loop_j hdr s s2 n l) range_adapted_j bb.

(** The body of the loop over [n]. *)
Definition loop_n (hdr : Headers) (s : SystemOne) (s2 : Z) (n : Z) (bb : basis_build)
  : outcome basis_build :=
  let range_adapted_l := if bool_decide (range_l s = []) then range 0 (n - 1) 1
                         else range_l s in
  for_each (loop_l hdr s s2 n) range_adapted_l bb.

(** The first loop over the user-defined states: they are checked. *)
Definition check_user_state (hdr : Headers) (s : SystemOne) (state : StateOne)
  (bb : basis_build) : outcome basis_build :=
  if contains_state state (bb_states bb) then
    Throws ("The state " ++ str hdr state
            ++ " is already contained in the list of states.")%string bb
  else if negb (State.isArtificial state)
          && negb (String.eqb (State.getSpecies state) (species s)) then
    Throws ("The state " ++ str hdr state ++ " is of the wrong species.")%string bb
  else Returns bb.

Definition artificial_warning : string :=
  "WARNING: Only permutation symmetry can be applied to artificial states.".

(** The symmetries that the second loop applies to a user-defined state. *)
Definition sym_reflection_local (s : SystemOne) (state : StateOne) : parity_t :=
  if State.isArtificial state then NA else sym_reflection s.

Definition sym_rotation_local (s : SystemOne) (state : StateOne) : list Z :=
  if State.isArtificial state then [ARB] else sym_rotation s.

(** The second loop over the user-defined states: they are added. *)
Definition add_user_state (hdr : Headers) (s : SystemOne) (state : StateOne)
  (bb : basis_build) : outcome basis_build :=
  let energy := if State.isArtificial state then 0%float
                else getEnergy (cache s) state in
  let bb :=
    if State.isArtificial state
       && (bool_decide (sym_reflection s <> NA) || Nat.eqb (count ARB (sym_rotation s)) 0)
    then BasisBuild (bb_states bb) (bb_idx bb) (bb_basisvectors_triplets bb)
           (bb_hamiltonian_triplets bb) (bb_cerr bb ++ [artificial_warning])
    else bb in
  if Nat.eqb (count ARB (sym_rotation_local s state)) 0
     && Nat.eqb (count (State.getM state) (sym_rotation_local s state)) 0
  then Returns bb
  else if bool_decide (sym_reflection_local s state <> NA)
          && negb (State.getM state =? 0)
          && negb (contains_state (State.getReflected state) (states_to_add s))
  then
    Throws ("The state " ++ str hdr (State.getReflected state)
            ++ " required by symmetries cannot be found.")%string bb
  else
    Returns (addSymmetrizedBasisvectors hdr state energy (sym_reflection_local s state) bb).

(** The object when an exception leaves [initializeBasis] in the middle of
    the loops: the states registered so far stay in the member [states]. *)
Definition interrupted (s : SystemOne) (bb : basis_build) : SystemOne :=
  set_cerr (bb_cerr bb) (set_states (bb_states bb) s).

(** The last part of [initializeBasis]: the matrices are built. *)
Definition build_data (s : SystemOne) (bb : basis_build) : SystemOne :=
  let s := interrupted s bb in
  let s := set_basisvectors
             (Matrix.setFromTriplets (length (states s)) (bb_idx bb)
                (bb_basisvectors_triplets bb)) s in
  set_hamiltonian
    (Matrix.setFromTriplets (bb_idx bb) (bb_idx bb) (bb_hamiltonian_triplets bb)) s.

(** The loops of [initializeBasis], from the state of the variables [bb]. *)
Definition enumerate_states (hdr : Headers) (s : SystemOne) (bb : basis_build)
  : outcome basis_build :=
  for_each (loop_n hdr s (spin_of_species (species s))) (range_n s) bb.

Definition user_defined_states (hdr : Headers) (s : SystemOne) (bb : basis_build)
  : outcome basis_build :=
  match for_each (check_user_state hdr s) (states_to_add s) bb with
  | Throws what bb => Throws what bb
  | Returns bb => for_each (add_user_state hdr s) (states_to_add s) bb
  end.

Definition initializeBasis (hdr : Headers) (s : SystemOne) : outcome SystemOne :=
  if bool_decide (range_n s = [])
     && (PrimFloat.eqb (energy_min s) double_lowest
         || PrimFloat.eqb (energy_max s) double_max)
  then
    Throws "The number of basis elements is infinite. The basis has to be restricted."%string s
  else if bool_decide (range_n s = []) then
    Throws ("The calculation of range_n via energy restrictions is not yet "
            ++ "implemented.")%string s
  else
    let bb := BasisBuild (states s) 0 [] [] (cerr s) in
    match enumerate_states hdr s bb with
    | Throws what bb => Throws what (interrupted s bb)
    | Returns bb =>
        match user_defined_states hdr s bb with
        | Throws what bb => Throws what (interrupted s bb)
        | Returns bb => Returns (build_data s bb)
        end
    end.

(** ** Building the interaction operators *)

(** The literal [1e-24], as the binary64 value nearest to it. *)
Definition tolerance : float := 0x1.357c299a88ea7p-80%float.

(** [above_tolerance x] is [std::abs(x) > tolerance]. *)
Definition above_tolerance (x : float) : bool := gt (PrimFloat.abs x) tolerance.

(** The calls to the selection rules and to the matrix-element source that
    the loop over the pairs of states issues, in their order. *)
Inductive call : Type :=
| Call_selectionRulesMultipoleNew (r c : StateOne) (kappa q : Z)
| Call_selectionRulesMultipoleNew_order (r c : StateOne) (order : Z)
| Call_selectionRulesMomentumNew (r c : StateOne) (q : Z)
| Call_getElectricDipole (r c : StateOne)
| Call_getMagneticDipole (r c : StateOne)
| Call_getDiamagnetism (r c : StateOne) (k : Z)
| Call_getElectricMultipole (r c : StateOne) (order : Z).

(** The states of a call. *)
Definition call_states (e : call) : StateOne * StateOne :=
  match e with
  | Call_selectionRulesMultipoleNew r c _ _
  | Call_selectionRulesMultipoleNew_order r c _
  | Call_selectionRulesMomentumNew r c _
  | Call_getElectricDipole r c
  | Call_getMagneticDipole r c
  | Call_getDiamagnetism r c _
  | Call_getElectricMultipole r c _ => (r, c)
  end.

(** An element of [states]: a state with its index. *)
Definition enumerated_state : Type := (nat * StateOne)%type.

Definition enumerated (l : list StateOne) : list enumerated_state :=
  imap (fun i x => (i, x)) l.

(** The components for which operators have to be built.  The code visits
    the entries of a [std::unordered_map], in an order that the language
    leaves open; here they come in the order of [map_to_list]. *)
Definition efield_range (s : SystemOne) : list Z :=
  map fst
    (List.filter
       (fun entry : Z * float =>
          negb (fst entry <? 0) && above_tolerance (snd entry)
          && bool_decide (interaction_efield s !! (- fst entry) = None))
       (map_to_list (efield_spherical s))).

Definition bfield_range (s : SystemOne) : list Z :=
  map fst
    (List.filter
       (fun entry : Z * float =>
          negb (fst entry <? 0) && above_tolerance (snd entry)
          && bool_decide (interaction_bfield s !! (- fst entry) = None))
       (map_to_list (bfield_spherical s))).

Definition diamagnetism_range (s : SystemOne) : list (Z * Z) :=
  map fst
    (List.filter
       (fun entry : (Z * Z) * float =>
          negb (snd (fst entry) <? 0) && diamagnetism s && above_tolerance (snd entry)
          && bool_decide (interaction_diamagnetism s !! fst entry = None))
       (map_to_list (diamagnetism_terms s))).

Definition multipole_range (s : SystemOne) : list Z :=
  if charge s =? 0 then []
  else List.filter (fun order => bool_decide (interaction_multipole s !! order = None))
         (map Z.of_nat (seq 1 (ordermax s))).

(** The local triplet lists of [initializeInteraction], and the calls made. *)
Record interaction_triplets := InteractionTriplets {
  interaction_efield_triplets : gmap Z (list eigen_triplet_t);
  interaction_bfield_triplets : gmap Z (list eigen_triplet_t);
  interaction_diamagnetism_triplets : gmap (Z * Z) (list eigen_triplet_t);
  interaction_multipole_triplets : gmap Z (list eigen_triplet_t);
  calls : list call
}.

(** [this->addTriplet(triplets[i], r_idx, c_idx, val)]. *)
Definition addTriplet {K} `{Countable K} (triplets : gmap K (list eigen_triplet_t)) (i : K)
  (r_idx c_idx : nat) (val : scalar_t) : gmap K (list eigen_triplet_t) :=
  <[i := default [] (triplets !! i) ++ [Triplet r_idx c_idx val]]> triplets.

Definition called (e : list call) (t : interaction_triplets) : interaction_triplets :=
  InteractionTriplets (interaction_efield_triplets t) (interaction_bfield_triplets t)
    (interaction_diamagnetism_triplets t) (interaction_multipole_triplets t)
    (calls t ++ e).

(** The loop over [erange] for one pair of states; it ends at the first
    component whose selection rule holds. *)
Fixpoint efield_loop (hdr : Headers) (mec : MatrixElementCache) (r c : enumerated_state)
  (erange : list Z) (t : interaction_triplets) : interaction_triplets :=
  match erange with
  | [] => t
  | i :: rest =>
      if (i =? 0) && (fst r <? fst c)%nat then efield_loop hdr mec r c rest t
      else
        let t := called [Call_selectionRulesMultipoleNew (snd r) (snd c) 1 i] t in
        if selectionRulesMultipoleNew hdr (snd r) (snd c) 1 i then
          let value := getElectricDipole mec (snd r) (snd c) in
          let t := called [Call_getElectricDipole (snd r) (snd c)] t in
          InteractionTriplets
            (addTriplet (interaction_efield_triplets t) i (fst r) (fst c) value)
            (interaction_bfield_triplets t) (interaction_diamagnetism_triplets t)
            (interaction_multipole_triplets t) (calls t)
        else efield_loop hdr mec r c rest t
  end.

(** The loop over [brange] for one pair of states. *)
Fixpoint bfield_loop (hdr : Headers) (mec : MatrixElementCache) (r c : enumerated_state)
  (brange : list Z) (t : interaction_triplets) : interaction_triplets :=
  match brange with
  | [] => t
  | i :: rest =>
      if (i =? 0) && (fst r <? fst c)%nat then bfield_loop hdr mec r c rest t
      else
        let t := called [Call_selectionRulesMomentumNew (snd r) (snd c) i] t in
        if selectionRulesMomentumNew hdr (snd r) (snd c) i then
          let value := getMagneticDipole mec (snd r) (snd c) in
          let t := called [Call_getMagneticDipole (snd r) (snd c)] t in
          InteractionTriplets (interaction_efield_triplets t)
            (addTriplet (interaction_bfield_triplets t) i (fst r) (fst c) value)
            (interaction_diamagnetism_triplets t) (interaction_multipole_triplets t)
            (calls t)
        else bfield_loop hdr mec r c rest t
  end.

(** The body of the loop over [drange] for one pair of states. *)
Definition diamagnetism_step (hdr : Headers) (mec : MatrixElementCache)
  (r c : enumerated_state) (t : interaction_triplets) (i : Z * Z) : interaction_triplets :=
  if (snd i =? 0) && (fst r <? fst c)%nat then t
  else
    let t := called [Call_selectionRulesMultipoleNew (snd r) (snd c) (fst i) (snd i)] t in
    if selectionRulesMultipoleNew hdr (snd r) (snd c) (fst i) (snd i) then
      let value := (1 / (8 * electron_rest_mass hdr)
                    * getDiamagnetism mec (snd r) (snd c) (fst i))%float in
      let t := called [Call_getDiamagnetism (snd r) (snd c) (fst i)] t in
      InteractionTriplets (interaction_efield_triplets t) (interaction_bfield_triplets t)
        (addTriplet (interaction_diamagnetism_triplets t) i (fst r) (fst c) value)
        (interaction_multipole_triplets t) (calls t)
    else t.

(** The body of the loop over [orange] for one pair of states. *)
Definition multipole_step (hdr : Headers) (mec : MatrixElementCache)
  (r c : enumerated_state) (t : interaction_triplets) (order : Z) : interaction_triplets :=
  let t := called [Call_selectionRulesMultipoleNew_order (snd r) (snd c) order] t in
  if selectionRulesMultipoleNew_order hdr (snd r) (snd c) order then
    let val := (- coulombs_constant hdr * elementary_charge hdr
                * getElectricMultipole mec (snd r) (snd c) order)%float in
    let t := called [Call_getElectricMultipole (snd r) (snd c) order] t in
    InteractionTriplets (interaction_efield_triplets t) (interaction_bfield_triplets t)
      (interaction_diamagnetism_triplets t)
      (addTriplet (interaction_multipole_triplets t) order (fst r) (fst c) val) (calls t)
  else t.

(** The ranges of one run of [initializeInteraction]. *)
Record ranges := Ranges {
  erange : list Z;
  brange : list Z;
  drange : list (Z * Z);
  orange : list Z
}.

(** What the loops do for the row entry [r] and the column entry [c], both
    not artificial.  [q] is the difference of the momenta, converted to
    [int]. *)
Definition pair_step (hdr : Headers) (mec : MatrixElementCache) (charge : Z) (rg : ranges)
  (c r : enumerated_state) (t : interaction_triplets) : interaction_triplets :=
  let t := efield_loop hdr mec r c (erange rg) t in
  let t := bfield_loop hdr mec r c (brange rg) t in
  let t := fold_left (diamagnetism_step hdr mec r c) (drange rg) t in
  if charge =? 0 then t
  else
    let q := Z.quot (State.getM (snd r) - State.getM (snd c)) 2 in
    if q =? 0 then fold_left (multipole_step hdr mec r c) (orange rg) t
    else t.

(** The loop over the row entries, for the column entry [c]. *)
Definition row_loop (hdr : Headers) (mec : MatrixElementCache) (charge : Z) (rg : ranges)
  (all : list enumerated_state) (t : interaction_triplets) (c : enumerated_state)
  : interaction_triplets :=
  if State.isArtificial (snd c) then t
  else
    fold_left
      (fun t r => if State.isArtificial (snd r) then t
                  else pair_step hdr mec charge rg c r t)
      all t.

(** The loop over the column entries. *)
Definition column_loop (hdr : Headers) (mec : MatrixElementCache) (charge : Z) (rg : ranges)
  (all : list enumerated_state) : interaction_triplets :=
  fold_left (row_loop hdr mec charge rg all) all (InteractionTriplets ∅ ∅ ∅ ∅ []).

(** One round of the last loops of [initializeInteraction]: the operator of
    key [i] is built from its triplets and transformed into the basis; for a
    component that is not zero the operator of the negated key is derived. *)
Definition build_operator {K} `{Countable K} (component : K -> Z) (negated : K -> K)
  (basis : eigen_sparse_t) (n : nat) (triplets : gmap K (list eigen_triplet_t))
  (interaction : gmap K eigen_sparse_t) (i : K) : gmap K eigen_sparse_t :=
  let built := Matrix.setFromTriplets n n (default [] (triplets !! i)) in
  if component i =? 0 then
    <[i := Matrix.transformed basis (Matrix.selfadjointView_Lower built)]> interaction
  else
    let transformed := Matrix.transformed basis built in
    <[negated i := Matrix.scale_left (pow_m1 (component i)) (Matrix.adjoint transformed)]>
      (<[i := transformed]> interaction).

Definition negated_component (i : Z * Z) : Z * Z := (fst i, - snd i).

Definition compute_ranges (s : SystemOne) : ranges :=
  Ranges (efield_range s) (bfield_range s) (diamagnetism_range s) (multipole_range s).

(** The operators after the last loops, for the ranges [rg] and the
    triplets [t]. *)
Definition build_interaction (rg : ranges) (t : interaction_triplets) (s : SystemOne)
  : SystemOne :=
  let n := length (states s) in
  let basis := basisvectors s in
  let s := set_interaction_efield
             (fold_left (build_operator id Z.opp basis n (interaction_efield_triplets t))
                (erange rg) (interaction_efield s)) s in
  let s := set_interaction_bfield
             (fold_left (build_operator id Z.opp basis n (interaction_bfield_triplets t))
                (brange rg) (interaction_bfield s)) s in
  let s := set_interaction_diamagnetism
             (fold_left
                (build_operator snd negated_component basis n
                   (interaction_diamagnetism_triplets t))
                (drange rg) (interaction_diamagnetism s)) s in
  if charge s =? 0 then s
  else
    set_interaction_multipole
      (fold_left (build_operator id Z.opp basis n (interaction_multipole_triplets t))
         (orange rg) (interaction_multipole s)) s.

(** [initializeInteraction].  The calls that ask the matrix-element source to
    precalculate its elements do not change the object and are left out. *)
Definition initializeInteraction (hdr : Headers) (s : SystemOne) : SystemOne :=
  let rg := compute_ranges s in
  if bool_decide (erange rg = []) && bool_decide (brange rg = [])
     && bool_decide (drange rg = []) && bool_decide (orange rg = [])
  then s
  else
    build_interaction rg
      (column_loop hdr (cache s) (charge s) rg (enumerated (states s))) s.

(** ** Assembling the Hamiltonian *)

(** The entry that [m[k]] creates when [k] is absent. *)
Definition touch {K V} `{Countable K} (k : K) (d : V) (m : gmap K V) : gmap K V :=
  match m !! k with
  | Some _ => m
  | None => <[k := d]> m
  end.

(** [hamiltonian += ...] or [hamiltonian -= ...]. *)
Inductive compound : Type := PlusAssign | MinusAssign.

Definition assign (op : compound) (h term : eigen_sparse_t) : eigen_sparse_t :=
  match op with
  | PlusAssign => Matrix.add h term
  | MinusAssign => Matrix.sub h term
  end.

(** [if (std::abs(efield_spherical[k]) > tolerance)
       hamiltonian op= interaction_efield[i] * efield_spherical[k];] *)
Definition efield_term (op : compound) (i k : Z) (s : SystemOne) : SystemOne :=
  let coefficient := at_key (efield_spherical s) k in
  let s := set_efield_spherical (touch k 0%float (efield_spherical s)) s in
  if above_tolerance coefficient then
    let operator := matrix_at (interaction_efield s) i in
    let s := set_interaction_efield (touch i Matrix.empty (interaction_efield s)) s in
    set_hamiltonian (assign op (hamiltonian s) (Matrix.scale operator coefficient)) s
  else s.

Definition bfield_term (op : compound) (i k : Z) (s : SystemOne) : SystemOne :=
  let coefficient := at_key (bfield_spherical s) k in
  let s := set_bfield_spherical (touch k 0%float (bfield_spherical s)) s in
  if above_tolerance coefficient then
    let operator := matrix_at (interaction_bfield s) i in
    let s := set_interaction_bfield (touch i Matrix.empty (interaction_bfield s)) s in
    set_hamiltonian (assign op (hamiltonian s) (Matrix.scale operator coefficient)) s
  else s.

(** [if (diamagnetism && std::abs(diamagnetism_terms[i]) > tolerance)
       hamiltonian op= interaction_diamagnetism[i] * diamagnetism_terms[i];]
    with the product multiplied by [factor] for the components that are
    not zero. *)
Definition diamagnetism_term (op : compound) (i : Z * Z) (factor : option float)
  (s : SystemOne) : SystemOne :=
  if diamagnetism s then
    let coefficient := at_key (diamagnetism_terms s) i in
    let s := set_diamagnetism_terms (touch i 0%float (diamagnetism_terms s)) s in
    if above_tolerance coefficient then
      let operator := matrix_at (interaction_diamagnetism s) i in
      let s := set_interaction_diamagnetism
                 (touch i Matrix.empty (interaction_diamagnetism s)) s in
      let term := Matrix.scale operator coefficient in
      let term := match factor with Some f => Matrix.scale term f | None => term end in
      set_hamiltonian (assign op (hamiltonian s) term) s
    else s
  else s.

(** The body of the loop over the orders of the multipole interaction. *)
Definition multipole_term (s : SystemOne) (order : nat) : SystemOne :=
  let powerlaw := (1 / pow (distance s) (order + 1))%float in
  let operator := matrix_at (interaction_multipole s) (Z.of_nat order) in
  let s := set_interaction_multipole
             (touch (Z.of_nat order) Matrix.empty (interaction_multipole s)) s in
  set_hamiltonian
    (Matrix.add (hamiltonian s)
       (Matrix.scale (Matrix.scale operator (of_int (charge s))) powerlaw)) s.

Definition sqrt3 : float := PrimFloat.sqrt 3.
Definition sqrt1_5 : float := PrimFloat.sqrt 1.5.

Definition addInteraction (s : SystemOne) : SystemOne :=
  let s := efield_term MinusAssign 0 0 s in
  let s := efield_term PlusAssign 1 (-1) s in
  let s := efield_term PlusAssign (-1) 1 s in
  let s := bfield_term MinusAssign 0 0 s in
  let s := bfield_term PlusAssign 1 (-1) s in
  let s := bfield_term PlusAssign (-1) 1 s in
  let s := diamagnetism_term PlusAssign (0, 0) None s in
  let s := diamagnetism_term MinusAssign (2, 0) None s in
  let s := diamagnetism_term PlusAssign (2, 1) (Some sqrt3) s in
  let s := diamagnetism_term PlusAssign (2, -1) (Some sqrt3) s in
  let s := diamagnetism_term MinusAssign (2, 2) (Some sqrt1_5) s in
  let s := diamagnetism_term MinusAssign (2, -2) (Some sqrt1_5) s in
  if negb (charge s =? 0) && neq (distance s) double_max then
    fold_left multipole_term (seq 1 (ordermax s)) s
  else s.

(** ** Frames of the field setters *)

(** The stored interaction operators are the same in [s'] as in [s]. *)
Definition same_operator_cache (s s' : SystemOne) : Prop :=
  interaction_efield s' = interaction_efield s
  /\ interaction_bfield s' = interaction_bfield s
  /\ interaction_diamagnetism s' = interaction_diamagnetism s
  /\ interaction_multipole s' = interaction_multipole s.

(** The members that are neither fields, nor coefficients derived from
    fields, nor operators, nor the state of the assembler are the same. *)
Definition same_configuration (s s' : SystemOne) : Prop :=
  cache s' = cache s
  /\ range_n s' = range_n s /\ range_l s' = range_l s
  /\ range_j s' = range_j s /\ range_m s' = range_m s
  /\ energy_min s' = energy_min s /\ energy_max s' = energy_max s
  /\ states_to_add s' = states_to_add s /\ states s' = states s
  /\ basisvectors s' = basisvectors s /\ hamiltonian s' = hamiltonian s
  /\ cerr s' = cerr s
  /\ diamagnetism s' = diamagnetism s /\ charge s' = charge s
  /\ ordermax s' = ordermax s /\ distance s' = distance s
  /\ species s' = species s
  /\ sym_reflection s' = sym_reflection s /\ sym_rotation s' = sym_rotation s.

Definition same_efield (s s' : SystemOne) : Prop :=
  efield s' = efield s /\ efield_spherical s' = efield_spherical s.

Definition same_bfield (s s' : SystemOne) : Prop :=
  bfield s' = bfield s /\ bfield_spherical s' = bfield_spherical s.

(** The frame of a field setter as the design document has it: nothing but
    the field vectors, their spherical components and the state of the
    assembler differs between [s] and [s']. *)
Definition only_fields_and_assembler_change (s s' : SystemOne) : Prop :=
  same_operator_cache s s' /\ same_configuration s s'
  /\ diamagnetism_terms s' = diamagnetism_terms s.

(** The energy window is unrestricted on one side at least. *)
Definition energy_unrestricted (s : SystemOne) : bool :=
  PrimFloat.eqb (energy_min s) double_lowest || PrimFloat.eqb (energy_max s) double_max.

Definition infinite_basis_error : string :=
  "The number of basis elements is infinite. The basis has to be restricted.".

Definition range_n_not_implemented_error : string :=
  ("The calculation of range_n via energy restrictions is not yet "
   ++ "implemented.")%string.

(** ** The total Hamiltonian as a sum of terms *)

(** A term of the total Hamiltonian: whether it enters the sum, whether it
    is added or subtracted, its stored operator, the coefficient that scales
    it, and a further factor. *)
Record interaction_term := Term {
  term_included : bool;
  term_op : compound;
  term_operator : eigen_sparse_t;
  term_coefficient : float;
  term_factor : option float
}.

Definition scaled (t : interaction_term) : eigen_sparse_t :=
  let m := Matrix.scale (term_operator t) (term_coefficient t) in
  match term_factor t with
  | Some f => Matrix.scale m f
  | None => m
  end.

(** The terms of the electric field, the magnetic field and the diamagnetic
    interaction: each enters the sum when its coefficient is above the
    tolerance (and, for the diamagnetic terms, diamagnetism is enabled). *)
Definition field_terms (s : SystemOne) : list interaction_term :=
  let e := at_key (efield_spherical s) in
  let b := at_key (bfield_spherical s) in
  let d := at_key (diamagnetism_terms s) in
  let E := matrix_at (interaction_efield s) in
  let B := matrix_at (interaction_bfield s) in
  let D := matrix_at (interaction_diamagnetism s) in
  let on := diamagnetism s in
  [ Term (above_tolerance (e 0)) MinusAssign (E 0) (e 0) None;
    Term (above_tolerance (e (-1))) PlusAssign (E 1) (e (-1)) None;
    Term (above_tolerance (e 1)) PlusAssign (E (-1)) (e 1) None;
    Term (above_tolerance (b 0)) MinusAssign (B 0) (b 0) None;
    Term (above_tolerance (b (-1))) PlusAssign (B 1) (b (-1)) None;
    Term (above_tolerance (b 1)) PlusAssign (B (-1)) (b 1) None;
    Term (on && above_tolerance (d (0, 0))) PlusAssign (D (0, 0)) (d (0, 0)) None;
    Term (on && above_tolerance (d (2, 0))) MinusAssign (D (2, 0)) (d (2, 0)) None;
    Term (on && above_tolerance (d (2, 1))) PlusAssign (D (2, 1)) (d (2, 1)) (Some sqrt3);
    Term (on && above_tolerance (d (2, -1))) PlusAssign (D (2, -1)) (d (2, -1))
      (Some sqrt3);
    Term (on && above_tolerance (d (2, 2))) MinusAssign (D (2, 2)) (d (2, 2))
      (Some sqrt1_5);
    Term (on && above_tolerance (d (2, -2))) MinusAssign (D (2, -2)) (d (2, -2))
      (Some sqrt1_5) ].

(** The coefficient of the multipole term of an order. *)
Definition powerlaw (s : SystemOne) (order : nat) : float :=
  (1 / pow (distance s) (order + 1))%float.

(** The terms of the interaction with an ion: all orders enter the sum when
    there is a charge and a distance was set. *)
Definition multipole_terms (s : SystemOne) : list interaction_term :=
  if negb (charge s =? 0) && neq (distance s) double_max then
    map (fun order =>
           Term true PlusAssign (matrix_at (interaction_multipole s) (Z.of_nat order))
             (of_int (charge s)) (Some (powerlaw s order)))
        (seq 1 (ordermax s))
  else [].

(** The sum of the terms that enter, on top of [h]. *)
Definition assemble (h : eigen_sparse_t) (terms : list interaction_term) : eigen_sparse_t :=
  fold_left (fun h t => if term_included t then assign (term_op t) h (scaled t) else h)
    terms h.

(** [s'] answers every read of a coefficient, of an operator and of a
    parameter as [s] does. *)
Definition same_reads (s s' : SystemOne) : Prop :=
  (forall k, at_key (efield_spherical s') k = at_key (efield_spherical s) k)
  /\ (forall k, at_key (bfield_spherical s') k = at_key (bfield_spherical s) k)
  /\ (forall k, at_key (diamagnetism_terms s') k = at_key (diamagnetism_terms s) k)
  /\ (forall k, matrix_at (interaction_efield s') k = matrix_at (interaction_efield s) k)
  /\ (forall k, matrix_at (interaction_bfield s') k = matrix_at (interaction_bfield s) k)
  /\ (forall k, matrix_at (interaction_diamagnetism s') k
                = matrix_at (interaction_diamagnetism s) k)
  /\ (forall k, matrix_at (interaction_multipole s') k
                = matrix_at (interaction_multipole s) k)
  /\ diamagnetism s' = diamagnetism s /\ charge s' = charge s
  /\ distance s' = distance s /\ ordermax s' = ordermax s.

(** A step of [addInteraction], seen from the object [s0] at the entry:
    [s] has the reads of [s0] and the terms [ts] on top of [h0]. *)
Definition assembled_so_far (s0 : SystemOne) (h0 : eigen_sparse_t)
  (ts : list interaction_term) (s : SystemOne) : Prop :=
  same_reads s0 s /\ hamiltonian s = assemble h0 ts.

(** ** What the loop over the pairs of states does *)

(** The triplets collected for a key. *)
Definition triplets_of {K} `{Countable K} (m : gmap K (list eigen_triplet_t)) (i : K)
  : list eigen_triplet_t :=
  default [] (m !! i).

(** For the component zero the pairs above the diagonal are passed over. *)
Definition above_diagonal (component : Z) (r c : enumerated_state) : bool :=
  (component =? 0) && (fst r <? fst c)%nat.

(** The pairs that the loops reach: both entries are in [states], and
    neither is artificial. *)
Definition reached (all : list enumerated_state) (r c : enumerated_state) : Prop :=
  r ∈ all /\ c ∈ all
  /\ State.isArtificial (snd r) = false /\ State.isArtificial (snd c) = false.

(** The conversion of the difference of the momenta to [int] gives zero. *)
Definition momentum_conserved (r c : enumerated_state) : bool :=
  Z.quot (State.getM (snd r) - State.getM (snd c)) 2 =? 0.

(** The values of the triplets. *)
Definition diamagnetism_value (hdr : Headers) (mec : MatrixElementCache)
  (r c : enumerated_state) (k : Z) : scalar_t :=
  (1 / (8 * electron_rest_mass hdr) * getDiamagnetism mec (snd r) (snd c) k)%float.

Definition multipole_value (hdr : Headers) (mec : MatrixElementCache)
  (r c : enumerated_state) (order : Z) : scalar_t :=
  (- coulombs_constant hdr * elementary_charge hdr
   * getElectricMultipole mec (snd r) (snd c) order)%float.

(** Every call and every triplet comes from a pair that the loops reach,
    and every triplet from a selection rule that holds. *)
Definition sound (hdr : Headers) (mec : MatrixElementCache) (charge : Z)
  (all : list enumerated_state) (t : interaction_triplets) : Prop :=
  (forall e, e ∈ calls t ->
     exists r c, reached all r c /\ call_states e = (snd r, snd c))
  /\ (forall i tr, tr ∈ triplets_of (interaction_efield_triplets t) i ->
        exists r c, reached all r c /\ above_diagonal i r c = false
          /\ selectionRulesMultipoleNew hdr (snd r) (snd c) 1 i = true
          /\ tr = Triplet (fst r) (fst c) (getElectricDipole mec (snd r) (snd c)))
  /\ (forall i tr, tr ∈ triplets_of (interaction_bfield_triplets t) i ->
        exists r c, reached all r c /\ above_diagonal i r c = false
          /\ selectionRulesMomentumNew hdr (snd r) (snd c) i = true
          /\ tr = Triplet (fst r) (fst c) (getMagneticDipole mec (snd r) (snd c)))
  /\ (forall i tr, tr ∈ triplets_of (interaction_diamagnetism_triplets t) i ->
        exists r c, reached all r c /\ above_diagonal (snd i) r c = false
          /\ selectionRulesMultipoleNew hdr (snd r) (snd c) (fst i) (snd i) = true
          /\ tr = Triplet (fst r) (fst c) (diamagnetism_value hdr mec r c (fst i)))
  /\ (forall i tr, tr ∈ triplets_of (interaction_multipole_triplets t) i ->
        exists r c, reached all r c /\ charge <> 0 /\ momentum_conserved r c = true
          /\ selectionRulesMultipoleNew_order hdr (snd r) (snd c) i = true
          /\ tr = Triplet (fst r) (fst c) (multipole_value hdr mec r c i)).

(** [t'] has the calls and the triplets of [t], and more. *)
Definition extends (t t' : interaction_triplets) : Prop :=
  (forall e, e ∈ calls t -> e ∈ calls t')
  /\ (forall i tr, tr ∈ triplets_of (interaction_efield_triplets t) i ->
        tr ∈ triplets_of (interaction_efield_triplets t') i)
  /\ (forall i tr, tr ∈ triplets_of (interaction_bfield_triplets t) i ->
        tr ∈ triplets_of (interaction_bfield_triplets t') i)
  /\ (forall i tr, tr ∈ triplets_of (interaction_diamagnetism_triplets t) i ->
        tr ∈ triplets_of (interaction_diamagnetism_triplets t') i)
  /\ (forall i tr, tr ∈ triplets_of (interaction_multipole_triplets t) i ->
        tr ∈ triplets_of (interaction_multipole_triplets t') i).

(** The selection rule of a component was consulted for the pair [(r, c)]
    and, if it holds, the matrix-element source was queried and the triplet
    was emitted. *)
Definition efield_done (hdr : Headers) (mec : MatrixElementCache) (r c : enumerated_state)
  (i : Z) (t : interaction_triplets) : Prop :=
  Call_selectionRulesMultipoleNew (snd r) (snd c) 1 i ∈ calls t
  /\ (selectionRulesMultipoleNew hdr (snd r) (snd c) 1 i = true ->
      Call_getElectricDipole (snd r) (snd c) ∈ calls t
      /\ Triplet (fst r) (fst c) (getElectricDipole mec (snd r) (snd c))
           ∈ triplets_of (interaction_efield_triplets t) i).

Definition bfield_done (hdr : Headers) (mec : MatrixElementCache) (r c : enumerated_state)
  (i : Z) (t : interaction_triplets) : Prop :=
  Call_selectionRulesMomentumNew (snd r) (snd c) i ∈ calls t
  /\ (selectionRulesMomentumNew hdr (snd r) (snd c) i = true ->
      Call_getMagneticDipole (snd r) (snd c) ∈ calls t
      /\ Triplet (fst r) (fst c) (getMagneticDipole mec (snd r) (snd c))
           ∈ triplets_of (interaction_bfield_triplets t) i).

Definition diamagnetism_done (hdr : Headers) (mec : MatrixElementCache)
  (r c : enumerated_state) (i : Z * Z) (t : interaction_triplets) : Prop :=
  Call_selectionRulesMultipoleNew (snd r) (snd c) (fst i) (snd i) ∈ calls t
  /\ (selectionRulesMultipoleNew hdr (snd r) (snd c) (fst i) (snd i) = true ->
      Call_getDiamagnetism (snd r) (snd c) (fst i) ∈ calls t
      /\ Triplet (fst r) (fst c) (diamagnetism_value hdr mec r c (fst i))
           ∈ triplets_of (interaction_diamagnetism_triplets t) i).

Definition multipole_done (hdr : Headers) (mec : MatrixElementCache)
  (r c : enumerated_state) (order : Z) (t : interaction_triplets) : Prop :=
  Call_selectionRulesMultipoleNew_order (snd r) (snd c) order ∈ calls t
  /\ (selectionRulesMultipoleNew_order hdr (snd r) (snd c) order = true ->
      Call_getElectricMultipole (snd r) (snd c) order ∈ calls t
      /\ Triplet (fst r) (fst c) (multipole_value hdr mec r c order)
           ∈ triplets_of (interaction_multipole_triplets t) order).

(** The component [i] of a range is the first, for the pair [(r, c)], that
    is not passed over and whose selection rule [rule] holds or fails: no
    component before it in the range stopped the loop. *)
Definition first_candidate (rule : Z -> bool) (r c : enumerated_state)
  (range_ : list Z) (i : Z) : Prop :=
  exists before behind,
    range_ = before ++ i :: behind
    /\ above_diagonal i r c = false
    /\ (forall i', i' ∈ before -> above_diagonal i' r c = false -> rule i' = false).

(** What the step for the pair [(r, c)] has done when it ends. *)
Definition pair_done (hdr : Headers) (mec : MatrixElementCache) (charge : Z)
  (r c : enumerated_state) (rg : ranges) (t : interaction_triplets) : Prop :=
  (forall i,
     first_candidate (selectionRulesMultipoleNew hdr (snd r) (snd c) 1) r c (erange rg) i ->
     efield_done hdr mec r c i t)
  /\ (forall i,
        first_candidate (selectionRulesMomentumNew hdr (snd r) (snd c)) r c (brange rg) i ->
        bfield_done hdr mec r c i t)
  /\ (forall i, i ∈ drange rg -> above_diagonal (snd i) r c = false ->
        diamagnetism_done hdr mec r c i t)
  /\ (charge <> 0 -> momentum_conserved r c = true ->
      forall order, order ∈ orange rg -> multipole_done hdr mec r c order t).

#[global] Instance call_eq_dec : EqDecision call.
Proof. solve_decision. Defined.

(** No call and no triplet of [t] is for the pair [(r, c)]. *)
Definition skipped (r c : enumerated_state) (t : interaction_triplets) : Prop :=
  (forall e, e ∈ calls t -> call_states e <> (snd r, snd c))
  /\ (forall i tr, tr ∈ triplets_of (interaction_efield_triplets t) i ->
        ~ (t_row tr = fst r /\ t_col tr = fst c))
  /\ (forall i tr, tr ∈ triplets_of (interaction_bfield_triplets t) i ->
        ~ (t_row tr = fst r /\ t_col tr = fst c))
  /\ (forall i tr, tr ∈ triplets_of (interaction_diamagnetism_triplets t) i ->
        ~ (t_row tr = fst r /\ t_col tr = fst c))
  /\ (forall i tr, tr ∈ triplets_of (interaction_multipole_triplets t) i ->
        ~ (t_row tr = fst r /\ t_col tr = fst c)).

(** ** Pairs of adjoint operators *)

(** The operator stored for the negated key is [(-1)^exponent] times the
    adjoint of the operator stored for the key [i]. *)
Definition adjoint_pair {K} `{Countable K} (negated : K -> K) (exponent : Z)
  (interaction : gmap K eigen_sparse_t) (i : K) : Prop :=
  exists M,
    interaction !! i = Some M
    /\ interaction !! negated i
       = Some (Matrix.scale_left (pow_m1 exponent) (Matrix.adjoint M)).

(** The operator of a component zero is stored once, built from triplets on
    and below the diagonal, which are mirrored when the operator is
    transformed into the basis. *)
Definition stored_once {K} `{Countable K} (basis : eigen_sparse_t) (n : nat)
  (interaction : gmap K eigen_sparse_t) (i : K) : Prop :=
  exists ts,
    (forall tr, tr ∈ ts -> (t_col tr <= t_row tr)%nat)
    /\ interaction !! i
       = Some (Matrix.transformed basis
                 (Matrix.selfadjointView_Lower (Matrix.setFromTriplets n n ts))).

(** The operators that one round of building stores for the key [i]. *)
Definition built {K} `{Countable K} (component : K -> Z) (negated : K -> K)
  (basis : eigen_sparse_t) (n : nat) (triplets : gmap K (list eigen_triplet_t))
  (interaction : gmap K eigen_sparse_t) (i : K) : Prop :=
  (component i <> 0 ->
   interaction !! i
   = Some (Matrix.transformed basis (Matrix.setFromTriplets n n (triplets_of triplets i)))
   /\ adjoint_pair negated (component i) interaction i)
  /\ (component i = 0 ->
      interaction !! i
      = Some (Matrix.transformed basis
                (Matrix.selfadjointView_Lower
                   (Matrix.setFromTriplets n n (triplets_of triplets i))))).

(** ** The shape of the basis *)

(** The triplets of a column, in their order. *)
Definition column_triplets (col : nat) (ts : list eigen_triplet_t) : list eigen_triplet_t :=
  List.filter (fun t => Nat.eqb (t_col t) col) ts.

(** A column is one registered state with the coefficient one, or a
    registered state and its registered reflection partner with the two
    coefficients of a symmetrized basis vector. *)
Inductive column_shape (hdr : Headers) (registry : list StateOne) (col : nat)
  (ts : list eigen_triplet_t) : Prop :=
| single_state (r : nat) (state : StateOne) :
    registry !! r = Some state ->
    ts = [Triplet r col 1%float] ->
    column_shape hdr registry col ts
| reflection_pair (r1 r2 : nat) (state : StateOne) (parity : parity_t) :
    registry !! r1 = Some state ->
    registry !! r2 = Some (State.getReflected state) ->
    State.getM state <> 0 ->
    ts = [Triplet r1 col first_coefficient;
          Triplet r2 col (second_coefficient hdr parity state)] ->
    column_shape hdr registry col ts.

(** What the loops of [initializeBasis] keep true of their variables. *)
Definition basis_invariant (hdr : Headers) (bb : basis_build) : Prop :=
  NoDup (bb_states bb)
  /\ (forall tr, tr ∈ bb_basisvectors_triplets bb -> (t_col tr < bb_idx bb)%nat)
  /\ (forall col, (col < bb_idx bb)%nat ->
        column_shape hdr (bb_states bb) col
          (column_triplets col (bb_basisvectors_triplets bb))).

(** The rows of a column whose coefficient is not zero are the rows [rs]. *)
Definition nonzero_rows (M : eigen_sparse_t) (col : nat) (rs : list nat) : Prop :=
  forall r, (r < rows M)%nat -> (Matrix.nonzero (Matrix.coeff M r col) = true <-> r ∈ rs).

(** [j - m] is an integer. *)
Definition integral_projection (state : StateOne) : Prop :=
  Z.even (State.getJ state - State.getM state) = true.

(** A column of the basis has one row that is not zero, or two: the rows
    of a state and of its reflection partner, with coefficients of magnitude
    [1 / sqrt 2]. *)
Definition basis_column (registry : list StateOne) (basis : eigen_sparse_t) (col : nat)
  : Prop :=
  (exists r, (r < rows basis)%nat /\ nonzero_rows basis col [r])
  \/ (exists r1 r2 state,
        r1 <> r2
        /\ registry !! r1 = Some state
        /\ registry !! r2 = Some (State.getReflected state)
        /\ State.getM (State.getReflected state) = - State.getM state
        /\ State.getM state <> 0
        /\ nonzero_rows basis col [r1; r2]
        /\ PrimFloat.abs (Matrix.coeff basis r1 col) = first_coefficient
        /\ PrimFloat.abs (Matrix.coeff basis r2 col) = first_coefficient).

(** A column as the code builds it: as [basis_column], but the second
    coefficient has the magnitude [1 / sqrt 2] only when [j - m] of the state
    is an integer; otherwise [std::pow(-1, l + m - j)] has an exponent that
    is not an integer, and the coefficient is NaN. *)
Definition built_column (registry : list StateOne) (basis : eigen_sparse_t) (col : nat)
  : Prop :=
  (exists r, (r < rows basis)%nat /\ nonzero_rows basis col [r])
  \/ (exists r1 r2 state,
        r1 <> r2
        /\ registry !! r1 = Some state
        /\ registry !! r2 = Some (State.getReflected state)
        /\ State.getM (State.getReflected state) = - State.getM state
        /\ State.getM state <> 0
        /\ nonzero_rows basis col [r1; r2]
        /\ PrimFloat.abs (Matrix.coeff basis r1 col) = first_coefficient
        /\ (integral_projection state ->
            PrimFloat.abs (Matrix.coeff basis r2 col) = first_coefficient)
        /\ (~ integral_projection state ->
            PrimFloat.is_nan (Matrix.coeff basis r2 col) = true)).

(** ** The user-defined states *)

(** The state is not artificial and of another species than the system. *)
Definition wrong_species (s : SystemOne) (state : StateOne) : Prop :=
  State.isArtificial state = false /\ State.getSpecies state <> species s.

(** The rotation symmetry keeps the state: it is artificial, or the momenta
    are unrestricted, or its momentum is a conserved one. *)
Definition kept_by_rotation (s : SystemOne) (state : StateOne) : Prop :=
  State.isArtificial state = true
  \/ ARB ∈ sym_rotation s \/ State.getM state ∈ sym_rotation s.

(** The reflection symmetry combines the state with its mirror partner. *)
Definition mirror_required (s : SystemOne) (state : StateOne) : Prop :=
  State.isArtificial state = false /\ sym_reflection s <> NA /\ State.getM state <> 0.

(** The reasons for which the build refuses a user-defined state, given the
    registry after the enumeration. *)
Definition refused (s : SystemOne) (registry : list StateOne) (state : StateOne) : Prop :=
  state ∈ registry
  \/ wrong_species s state
  \/ (kept_by_rotation s state /\ mirror_required s state
      /\ State.getReflected state ∉ states_to_add s).

(** ** Transforming the interaction operators *)

(** [transformator.adjoint() * entry.second * transformator] for every entry
    of the four maps. *)
Definition transformInteraction (transformator : eigen_sparse_t) (s : SystemOne)
  : SystemOne :=
  let s := set_interaction_efield
             (Matrix.transformed transformator <$> interaction_efield s) s in
  let s := set_interaction_bfield
             (Matrix.transformed transformator <$> interaction_bfield s) s in
  let s := set_interaction_diamagnetism
             (Matrix.transformed transformator <$> interaction_diamagnetism s) s in
  set_interaction_multipole
    (Matrix.transformed transformator <$> interaction_multipole s) s.

(** ** Real and complex storage ([Hamiltonianmatrix.hpp]) *)

Module Storage.

(** Modelled from the spec: the type [storage_double] is declared in
    [dtypes.hpp], which is not among the sources; it is taken to be [double],
    as its name says, so that storing a coefficient does not round it. *)
Definition storage_double : Type := float.

(** [std::complex<double>]. *)
Record complex := Complex { real : storage_double; imag : storage_double }.

(** The pairs that the loop of [mergeComplex] reads: it runs over [real] and
    reads [imag] along; [imag] has to be as long as [real], and what it holds
    beyond is not read. *)
Fixpoint paired (real_ imag_ : list float) : list complex :=
  match real_, imag_ with
  | r :: real_', i :: imag_' => Complex r i :: paired real_' imag_'
  | _, _ => []
  end.

(** [mergeComplex] for a complex scalar type: the pairs are appended to
    [complex]. *)
Definition mergeComplex_complex (real_ imag_ : list float) (c : list complex)
  : list complex :=
  c ++ paired real_ imag_.

(** [mergeComplex] for a real scalar type: [imag] is not used, [complex] is
    replaced. *)
Definition mergeComplex_real (real_ imag_ : list float) (c : list float) : list float :=
  real_.

(** [splitComplex] for a complex scalar type; the two vectors are appended
    to. *)
Definition splitComplex_complex (real_ imag_ : list float) (c : list complex)
  : list float * list float :=
  (real_ ++ map real c, imag_ ++ map imag c).

(** [splitComplex] for a real scalar type: [imag] becomes empty, [real] is
    replaced. *)
Definition splitComplex_real (real_ imag_ : list float) (c : list float)
  : list float * list float :=
  (c, []).

End Storage.

(** ** The Julia binding of the conserved momenta ([julia_hooks_pi.cpp]) *)

(** The set that the loop of insertions builds from the array. *)
Definition momenta_of_array (momenta_jl : list Z) : list Z :=
  fold_left (fun momenta x => set_insert x momenta) momenta_jl [].

Definition julia_setConservedMomentaUnderRotation (momenta_jl : list Z) (s : SystemOne)
  : outcome SystemOne :=
  setConservedMomentaUnderRotation (momenta_of_array momenta_jl) s.

(** ** Dimensions of the operators *)

(** An operator is stored, with the dimensions of the Hamiltonian. *)
Definition fits_hamiltonian (s : SystemOne) (o : option eigen_sparse_t) : Prop :=
  exists M, o = Some M
            /\ rows M = rows (hamiltonian s) /\ cols M = cols (hamiltonian s).

(** ** What [addInteraction] leaves behind *)

(** Every operator stored in [s] is stored in [s'] as it is. *)
Definition keeps_operators (s s' : SystemOne) : Prop :=
  interaction_efield s ⊆ interaction_efield s'
  /\ interaction_bfield s ⊆ interaction_bfield s'
  /\ interaction_diamagnetism s ⊆ interaction_diamagnetism s'
  /\ interaction_multipole s ⊆ interaction_multipole s'.

(** The members that [addInteraction] does not write to. *)
Definition same_basis_and_settings (s s' : SystemOne) : Prop :=
  cache s' = cache s
  /\ range_n s' = range_n s /\ range_l s' = range_l s
  /\ range_j s' = range_j s /\ range_m s' = range_m s
  /\ energy_min s' = energy_min s /\ energy_max s' = energy_max s
  /\ states_to_add s' = states_to_add s /\ states s' = states s
  /\ basisvectors s' = basisvectors s
  /\ assembler s' = assembler s /\ cerr s' = cerr s
  /\ efield s' = efield s /\ bfield s' = bfield s
  /\ species s' = species s
  /\ sym_reflection s' = sym_reflection s /\ sym_rotation s' = sym_rotation s.

(** [s'] differs from [s] in the Hamiltonian and in entries that an access
    [m[k]] to an absent key has created. *)
Definition default_entries_only (s s' : SystemOne) : Prop :=
  same_reads s s' /\ keeps_operators s s' /\ same_basis_and_settings s s'.

(** The keys that [setEfield] and [setBfield] write to. *)
Definition spherical_keys : list Z := [-1; 0; 1].

Definition diamagnetism_keys : list (Z * Z) :=
  [(0, 0); (2, 0); (2, 1); (2, -1); (2, 2); (2, -2)].

(** The key of every operator that [addInteraction] reads for a term that it
    includes is stored in [s']. *)
Definition reads_marked (s s' : SystemOne) : Prop :=
  (forall k, k ∈ spherical_keys ->
     above_tolerance (at_key (efield_spherical s) k) = true ->
     is_Some (interaction_efield s' !! (- k)))
  /\ (forall k, k ∈ spherical_keys ->
        above_tolerance (at_key (bfield_spherical s) k) = true ->
        is_Some (interaction_bfield s' !! (- k)))
  /\ (forall k, k ∈ diamagnetism_keys ->
        diamagnetism s = true ->
        above_tolerance (at_key (diamagnetism_terms s) k) = true ->
        is_Some (interaction_diamagnetism s' !! k))
  /\ (charge s <> 0 -> neq (distance s) double_max = true ->
      forall order, order ∈ seq 1 (ordermax s) ->
        is_Some (interaction_multipole s' !! Z.of_nat order)).

(** The map [m] has no key outside [keys]. *)
Definition keys_within {K V} `{Countable K} (m : gmap K V) (keys : list K) : Prop :=
  dom m ⊆ (list_to_set keys : gset K).

(** ** The states that pass the loops of [initializeBasis] *)

(** A state that passes the restrictions of the quantum numbers, of the
    energy and of the conserved momenta. *)
Definition passes_restrictions (s : SystemOne) (state : StateOne) : Prop :=
  State.getSpecies state = species s /\ State.isArtificial state = false
  /\ State.getN state ∈ range_n s
  /\ (range_l s = [] \/ State.getL state ∈ range_l s)
  /\ 0 <= State.getL state <= State.getN state - 1
  /\ (range_j s = [] \/ State.getJ state ∈ range_j s)
  /\ 0 <= State.getJ state
  /\ Z.abs (State.getJ state - 2 * State.getL state) <= spin_of_species (species s)
  /\ checkIsEnergyValid
       (getEnergy (cache s)
          (State.make (species s) (State.getN state) (State.getL state)
             (State.getJ state) (spin_of_species (species s)))) s = true
  /\ (range_m s = [] \/ State.getM state ∈ range_m s)
  /\ Z.abs (State.getM state) <= State.getJ state
  /\ (ARB ∈ sym_rotation s \/ State.getM state ∈ sym_rotation s).

(** Every state of the registry was registered before, or passes the restrictions, or
    is one of the user-defined states. *)
Definition registered_for_a_reason (s : SystemOne) (registry : list StateOne) : Prop :=
  forall state, state ∈ registry ->
    state ∈ states s \/ passes_restrictions s state \/ state ∈ states_to_add s.

(** The triplets are on the diagonal. *)
Definition on_diagonal (ts : list eigen_triplet_t) : Prop :=
  forall tr, tr ∈ ts -> t_row tr = t_col tr.

(** [s] reads as [s0], with the operators and the Hamiltonian of [s0]. *)
Definition quiet (s0 s : SystemOne) : Prop :=
  same_reads s0 s /\ same_operator_cache s0 s /\ hamiltonian s = hamiltonian s0.

(** ** The ranges of the loops of [initializeBasis] *)

(** The local sets [range_adapted_l], [range_adapted_j], [range_adapted_m]
    and [range_allowed_m] of [initializeBasis]. *)
Definition range_adapted_l (s : SystemOne) (n : Z) : list Z :=
  if bool_decide (range_l s = []) then range 0 (n - 1) 1 else range_l s.

Definition range_adapted_j (s : SystemOne) (l : Z) : list Z :=
  if bool_decide (range_j s = [])
  then range (Z.abs (2 * l - spin_of_species (species s)))
         (2 * l + spin_of_species (species s)) 2
  else range_j s.

Definition range_adapted_m (s : SystemOne) (j : Z) : list Z :=
  if bool_decide (range_m s = []) then range (- j) j 2 else range_m s.

Definition range_allowed_m (s : SystemOne) (j : Z) : list Z :=
  if Nat.eqb (count ARB (sym_rotation s)) 0
  then set_intersection (sym_rotation s) (range_adapted_m s j)
  else range_adapted_m s j.

(** ** The order of the calls *)

(** The coefficients that guard the reading of an operator of a negative
    component in [addInteraction] are above the tolerance only if those are
    that make [initializeInteraction] build the operator. *)
Definition guards_consistent (s : SystemOne) : Prop :=
  (above_tolerance (at_key (efield_spherical s) (-1)) = true ->
   above_tolerance (at_key (efield_spherical s) 1) = true)
  /\ (above_tolerance (at_key (bfield_spherical s) (-1)) = true ->
      above_tolerance (at_key (bfield_spherical s) 1) = true)
  /\ (above_tolerance (at_key (diamagnetism_terms s) (2, -1)) = true ->
      above_tolerance (at_key (diamagnetism_terms s) (2, 1)) = true)
  /\ (above_tolerance (at_key (diamagnetism_terms s) (2, -2)) = true ->
      above_tolerance (at_key (diamagnetism_terms s) (2, 2)) = true).

(** [s] reads as [s0], with the operators of [s0]. *)
Definition cache_kept (s0 s : SystemOne) : Prop :=
  same_reads s0 s /\ same_operator_cache s0 s.

(** ** Two runs of [initializeBasis] *)

(** The variables [bb'] of a second run against the variables [bb] of the
    first run, whose registry is [registry] in the end: the second run has
    the whole registry from its start, and everything else is the same. *)
Definition second_run (registry : list StateOne) (bb bb' : basis_build) : Prop :=
  bb_states bb' = registry
  /\ bb_idx bb' = bb_idx bb
  /\ bb_basisvectors_triplets bb' = bb_basisvectors_triplets bb
  /\ bb_hamiltonian_triplets bb' = bb_hamiltonian_triplets bb
  /\ bb_cerr bb' = bb_cerr bb.

(** ** Instances for the examples *)

Module Example.

(** A matrix-element source: every energy is zero, every element is one. *)
Definition mec : MatrixElementCache :=
  {| getEnergy := fun _ => 0%float;
     getElectricDipole := fun _ _ => 1%float;
     getMagneticDipole := fun _ _ => 1%float;
     getDiamagnetism := fun _ _ _ => 1%float;
     getElectricMultipole := fun _ _ _ => 1%float |}.

(** Selection rules that compare the momenta only, constants equal to one. *)
Definition hdr : Headers :=
  {| selectionRulesMultipoleNew :=
       fun r c _ q => State.getM r =? State.getM c + half q;
     selectionRulesMultipoleNew_order := fun _ _ _ => true;
     selectionRulesMomentumNew :=
       fun r c q => State.getM r =? State.getM c + half q;
     electron_rest_mass := 1%float;
     coulombs_constant := 1%float;
     elementary_charge := 1%float;
     imaginary_unit := 1%float;
     str := State.getSpecies |}.

(** A freshly constructed system. *)
Definition fresh : SystemOne := constructor "Rb" mec.

(** The fresh system with the energy window [[-1, 1]] and no restriction
    of [n]. *)
Definition windowed : SystemOne :=
  set_energy_max 1%float (set_energy_min (-1)%float fresh).

(** The system restricted to [n = 1], with its basis. *)
Definition ground : SystemOne :=
  after (initializeBasis hdr (set_range_n [1] fresh)).

(** The same with an ion of charge 1 at the distance [2^50], the multipole
    interaction of order 1 built. *)
Definition ion : SystemOne :=
  initializeInteraction hdr
    (after (initializeBasis hdr
              (setRydIonDistance 0x1p+50%float
                 (setRydIonOrder 1 (setIonCharge 1 (set_range_n [1] fresh)))))).

(** Selection rules that always hold. *)
Definition permissive : Headers :=
  {| selectionRulesMultipoleNew := fun _ _ _ _ => true;
     selectionRulesMultipoleNew_order := fun _ _ _ => true;
     selectionRulesMomentumNew := fun _ _ _ => true;
     electron_rest_mass := 1%float;
     coulombs_constant := 1%float;
     elementary_charge := 1%float;
     imaginary_unit := 1%float;
     str := State.getSpecies |}.

(** The system restricted to [n = 1] with one artificial state added, its
    basis built, in an electric field along x. *)
Definition with_dark : SystemOne :=
  after (setEfield (1, 0, 0)%float
           (after (initializeBasis permissive
                     (set_states_to_add [State.artificial "dark"]
                        (set_range_n [1] fresh))))).

(** The triplets and calls of [initializeInteraction] for this system. *)
Definition with_dark_loop : interaction_triplets :=
  column_loop permissive (cache with_dark) (charge with_dark) (compute_ranges with_dark)
    (enumerated (states with_dark)).

(** The four states [n = 2], [l = 1], [j = 3/2] in a magnetic field with
    components along x and z, the basis and the interaction operators
    built. *)
Definition magnetic : SystemOne :=
  initializeInteraction hdr
    (after (initializeBasis hdr
              (after (setBfield (1, 0, 1)%float
                        (set_range_j [3] (set_range_l [1] (set_range_n [2] fresh))))))).

(** The system restricted to [n = 1] with the conserved momenta
    [{-3/2, 3/2}] and even parity under reflection, and the user-defined
    state [n = 5], [l = 0], [j = 1/2], [m = 1/2]. *)
Definition rotating : SystemOne :=
  set_states_to_add [State.make "Rb" 5 0 1 1]
    (after (setConservedParityUnderReflection EVEN
              (after (setConservedMomentaUnderRotation [-3; 3]
                        (set_range_n [1] fresh))))).

(** The system restricted to [n = 1] with even parity under reflection. *)
Definition mirrored : SystemOne :=
  after (setConservedParityUnderReflection EVEN (set_range_n [1] fresh)).

(** The system restricted to [n = 1] with one artificial state to add. *)
Definition dark : SystemOne :=
  set_states_to_add [State.artificial "dark"] (set_range_n [1] fresh).

(** The four states of [magnetic], before the operators are built. *)
Definition magnetic_basis : SystemOne :=
  after (initializeBasis hdr
           (after (setBfield (1, 0, 1)%float
                     (set_range_j [3] (set_range_l [1] (set_range_n [2] fresh)))))).

(** The fresh system with the conserved momenta [{-3/2, 3/2}] and with the
    conserved momenta [{-1/2, 1/2}]. *)
Definition three_halves : SystemOne :=
  after (setConservedMomentaUnderRotation [-3; 3] fresh).

Definition one_half : SystemOne :=
  after (setConservedMomentaUnderRotation [-1; 1] fresh).

(** The fresh system with the conserved momentum [1/2] alone. *)
Definition lopsided : SystemOne :=
  after (setConservedMomentaUnderRotation [1] fresh).

(** The states [n = 2], [l = 1], [j = 3/2] restricted to [m = -1] and
    [m = 1], which differ from [j] by half an integer, with even parity
    under reflection; and the system with its basis. *)
Definition skewed : SystemOne :=
  after (setConservedParityUnderReflection EVEN
           (set_range_m [half (-1); half 1]
              (set_range_j [3] (set_range_l [1] (set_range_n [2] fresh))))).

Definition skewed_basis : SystemOne := after (initializeBasis hdr skewed).

(** The system restricted to [n = 1] and [m = 3/2], which no state has,
    with the conserved momentum [1/2] alone, on which the setter of the
    parity has been refused and has left the even parity, and the
    user-defined states [n = 5], [l = 0], [j = 1/2] with [m = -1/2] and
    [m = 1/2]. *)
Definition lopsided_pair : SystemOne :=
  set_states_to_add [State.make "Rb" 5 0 1 (-1); State.make "Rb" 5 0 1 1]
    (after (setConservedParityUnderReflection EVEN
              (after (setConservedMomentaUnderRotation [1]
                        (set_range_m [3] (set_range_n [1] fresh)))))).

End Example.

(** * Properties *)

(** ** Field setters *)

Lemma setEfield_returned field s :
  returned (setEfield field s) = negb (neq (at1 field) 0%float).
Proof.
  unfold setEfield, changeToSphericalbasis; cbn.
  now destruct (neq (at1 field) 0%float).
Qed.

Lemma setBfield_returned field s :
  returned (setBfield field s) = negb (neq (at1 field) 0%float).
Proof.
  unfold setBfield, changeToSphericalbasis; cbn.
  now destruct (neq (at1 field) 0%float).
Qed.

(** C10: in the real-scalar configuration [setEfield] and [setBfield] throw
    exactly when the y-component of the field is not zero; the object that the
    exception leaves behind has the new Cartesian field, and the spherical
    components it had before the call. *)
Theorem field_setters_throw_iff_y_nonzero (field : array3) (s : SystemOne) :
  (returned (setEfield field s) = false <-> neq (at1 field) 0%float = true)
  /\ (returned (setBfield field s) = false <-> neq (at1 field) 0%float = true)
  /\ (returned (setEfield field s) = false ->
      efield (after (setEfield field s)) = field
      /\ efield_spherical (after (setEfield field s)) = efield_spherical s)
  /\ (returned (setBfield field s) = false ->
      bfield (after (setBfield field s)) = field
      /\ bfield_spherical (after (setBfield field s)) = bfield_spherical s
      /\ diamagnetism_terms (after (setBfield field s)) = diamagnetism_terms s).
Proof.
  rewrite setEfield_returned, setBfield_returned.
  repeat split.
  - now destruct (neq (at1 field) 0%float).
  - intros ->; reflexivity.
  - now destruct (neq (at1 field) 0%float).
  - intros ->; reflexivity.
  - unfold setEfield, changeToSphericalbasis; cbn.
    destruct (neq (at1 field) 0%float); [|discriminate].
    cbn. unfold onParameterChange. now destruct (assembler s).
  - unfold setEfield, changeToSphericalbasis; cbn.
    destruct (neq (at1 field) 0%float); [|discriminate].
    cbn. unfold onParameterChange. now destruct (assembler s).
  - unfold setBfield, changeToSphericalbasis; cbn.
    destruct (neq (at1 field) 0%float); [|discriminate].
    cbn. unfold onParameterChange. now destruct (assembler s).
  - unfold setBfield, changeToSphericalbasis; cbn.
    destruct (neq (at1 field) 0%float); [|discriminate].
    cbn. unfold onParameterChange. now destruct (assembler s).
  - unfold setBfield, changeToSphericalbasis; cbn.
    destruct (neq (at1 field) 0%float); [|discriminate].
    cbn. unfold onParameterChange. now destruct (assembler s).
Qed.

(** A field along y makes both setters throw, and the field is stored. *)
Lemma field_setters_throw_iff_y_nonzero_witness :
  returned (setEfield (0, 1, 0)%float Example.fresh) = false
  /\ efield (after (setEfield (0, 1, 0)%float Example.fresh)) = (0, 1, 0)%float
  /\ efield_spherical (after (setEfield (0, 1, 0)%float Example.fresh)) = ∅.
Proof.
  pose proof (field_setters_throw_iff_y_nonzero (0, 1, 0)%float Example.fresh)
    as (He & _ & Hafter & _).
  assert (Hthrows : returned (setEfield (0, 1, 0)%float Example.fresh) = false)
    by (apply He; reflexivity).
  destruct (Hafter Hthrows) as (H1 & H2).
  repeat split; assumption.
Defined.

Lemma onParameterChange_frame s :
  same_operator_cache s (onParameterChange s)
  /\ same_configuration s (onParameterChange s)
  /\ same_efield s (onParameterChange s) /\ same_bfield s (onParameterChange s)
  /\ diamagnetism_terms (onParameterChange s) = diamagnetism_terms s.
Proof.
  unfold onParameterChange, same_operator_cache, same_configuration, same_efield,
    same_bfield.
  destruct (assembler s); cbn; repeat split; reflexivity.
Qed.

(** C9, as stated, fails: setting a magnetic field along z on a fresh system
    changes the diamagnetism coefficients, which are neither a field vector
    nor its spherical components. *)
Lemma setBfield_changes_diamagnetism_terms :
  ~ only_fields_and_assembler_change Example.fresh
      (after (setBfield (0, 0, 1)%float Example.fresh)).
Proof.
  intros (_ & _ & H).
  apply (f_equal (fun m => m !! (0, 0))) in H.
  vm_compute in H. discriminate H.
Qed.

(** C9, amended: [setEfield] and [setBfield] leave every stored interaction
    operator as it is, whether they return or throw.  [setEfield] changes at
    most the electric field, its spherical components and the state of the
    assembler; [setBfield] changes at most the magnetic field, its spherical
    components, the diamagnetism coefficients computed from them, and the
    state of the assembler. *)
Theorem field_setters_keep_operator_cache (field : array3) (s : SystemOne) :
  (same_operator_cache s (after (setEfield field s))
   /\ same_configuration s (after (setEfield field s))
   /\ same_bfield s (after (setEfield field s))
   /\ diamagnetism_terms (after (setEfield field s)) = diamagnetism_terms s)
  /\ (same_operator_cache s (after (setBfield field s))
      /\ same_configuration s (after (setBfield field s))
      /\ same_efield s (after (setBfield field s))).
Proof.
  destruct (onParameterChange_frame s) as (Hc & Hconf & He & Hb & Hd).
  unfold same_operator_cache, same_configuration, same_efield, same_bfield in *.
  unfold setEfield, setBfield, changeToSphericalbasis; cbn.
  destruct (neq (at1 field) 0%float); cbn; intuition.
Qed.

(** ** Symmetry setters *)

Lemma count_nonzero x l : negb (Nat.eqb (count x l) 0) = true <-> x ∈ l.
Proof.
  unfold count. destruct (bool_decide_reflect (x ∈ l)); cbn; split; auto; discriminate.
Qed.

Lemma count_zero x l : Nat.eqb (count x l) 0 = true <-> x ∉ l.
Proof.
  unfold count. destruct (bool_decide_reflect (x ∈ l)); cbn; split; auto;
    try discriminate; contradiction.
Qed.

(** What the compatibility check computes. *)
Lemma isRefelectionAndRotationCompatible_spec s :
  isRefelectionAndRotationCompatible s = true <->
  ARB ∈ sym_rotation s \/ sym_reflection s = NA
  \/ (forall v, v ∈ sym_rotation s -> - v ∈ sym_rotation s).
Proof.
  unfold isRefelectionAndRotationCompatible.
  destruct (negb (Nat.eqb (count ARB (sym_rotation s)) 0)) eqn:Harb; cbn.
  - apply count_nonzero in Harb. tauto.
  - assert (Hnarb : ARB ∉ sym_rotation s).
    { intros Hin. apply count_nonzero in Hin. congruence. }
    destruct (bool_decide_reflect (sym_reflection s = NA)) as [Hna | Hna].
    + tauto.
    + rewrite forallb_forall. split.
      * intros H. right; right. intros v Hv.
        apply count_nonzero, H, list_elem_of_In, Hv.
      * intros [H | [H | H]]; [contradiction | contradiction |].
        intros v Hv. apply count_nonzero, H, list_elem_of_In, Hv.
Qed.

(** Under the invariant that the sentinel stands alone, the check decides
    the compatibility of the design document. *)
Lemma isRefelectionAndRotationCompatible_compatible_spec s :
  sentinel_alone (sym_rotation s) ->
  isRefelectionAndRotationCompatible s = true <->
  compatible_spec (sym_reflection s) (sym_rotation s).
Proof.
  intros Halone. rewrite isRefelectionAndRotationCompatible_spec.
  unfold compatible_spec. split.
  - intros [H | [H | H]]; auto.
  - intros [H | [H | H]]; auto.
    left. rewrite H. apply list_elem_of_here.
Qed.

Lemma sentinel_not_misused momenta :
  negb (Nat.eqb (count ARB momenta) 0) && Nat.ltb 1 (length momenta) = false ->
  sentinel_alone momenta.
Proof.
  intros H Hin. apply count_nonzero in Hin. rewrite Hin, andb_true_l in H.
  apply Nat.ltb_ge in H.
  destruct momenta as [|a [|b l]]; cbn in H; try lia.
  - apply count_nonzero in Hin. inversion Hin.
  - apply count_nonzero in Hin. apply list_elem_of_singleton in Hin. now subst.
Qed.

(** The sentinel stands alone in a constructed system, and the setters and
    the combination of systems keep it so. *)
Lemma sentinel_alone_constructor species mec :
  sentinel_alone (sym_rotation (constructor species mec)).
Proof. intros _. reflexivity. Qed.

Lemma sentinel_alone_setConservedMomentaUnderRotation momenta s :
  sentinel_alone (sym_rotation s) ->
  sentinel_alone (sym_rotation (after (setConservedMomentaUnderRotation momenta s))).
Proof.
  intros Hs. unfold setConservedMomentaUnderRotation.
  destruct (negb (Nat.eqb (count ARB momenta) 0) && Nat.ltb 1 (length momenta)) eqn:E.
  - exact Hs.
  - apply sentinel_not_misused in E.
    match goal with |- context [if ?b then _ else _] => destruct b end; exact E.
Qed.

Lemma sentinel_alone_setConservedParityUnderReflection parity s :
  sentinel_alone (sym_rotation s) ->
  sentinel_alone (sym_rotation (after (setConservedParityUnderReflection parity s))).
Proof.
  intros Hs. unfold setConservedParityUnderReflection.
  match goal with |- context [if ?b then _ else _] => destruct b end; exact Hs.
Qed.

(** C4, as stated, fails: on a fresh system no parity is set, so every set of
    momenta is compatible, but the sentinel together with the momentum 1 is
    refused. *)
Lemma setConservedMomentaUnderRotation_refuses_compatible :
  ~ (returned (setConservedMomentaUnderRotation [half 1; ARB] Example.fresh) = true
     <-> compatible_spec (sym_reflection Example.fresh) [half 1; ARB]).
Proof.
  intros [_ H].
  assert (Hc : compatible_spec (sym_reflection Example.fresh) [half 1; ARB])
    by (left; reflexivity).
  specialize (H Hc). vm_compute in H. discriminate H.
Qed.

(** C4, amended: setting a parity returns exactly when the parity and the
    stored momenta are compatible; setting momenta returns exactly when the
    set does not combine the sentinel with other momenta and is compatible
    with the stored parity; otherwise the setter throws.  Momenta [{1, -1}]
    and then parity even are accepted, momenta [{1}] and then parity even are
    refused. *)
Theorem symmetry_setters_return_iff_compatible :
  (forall parity s, sentinel_alone (sym_rotation s) ->
     (returned (setConservedParityUnderReflection parity s) = true
      <-> compatible_spec parity (sym_rotation s)))
  /\ (forall momenta s,
        returned (setConservedMomentaUnderRotation momenta s) = true
        <-> ~ (ARB ∈ momenta /\ (1 < length momenta)%nat)
            /\ compatible_spec (sym_reflection s) momenta)
  /\ (forall species mec,
        returned (setConservedMomentaUnderRotation [half (-1); half 1]
                    (constructor species mec)) = true
        /\ returned (setConservedParityUnderReflection EVEN
                       (after (setConservedMomentaUnderRotation [half (-1); half 1]
                                 (constructor species mec)))) = true)
  /\ (forall species mec,
        returned (setConservedMomentaUnderRotation [half 1]
                    (constructor species mec)) = true
        /\ returned (setConservedParityUnderReflection EVEN
                       (after (setConservedMomentaUnderRotation [half 1]
                                 (constructor species mec)))) = false).
Proof.
  split; [|split; [|split]].
  - intros parity s Halone. unfold setConservedParityUnderReflection.
    set (s' := set_sym_reflection parity (onSymmetryChange s)).
    pose proof (isRefelectionAndRotationCompatible_compatible_spec s') as Hs.
    change (sym_rotation s') with (sym_rotation s) in Hs.
    change (sym_reflection s') with parity in Hs.
    rewrite <- (Hs Halone).
    destruct (isRefelectionAndRotationCompatible s'); cbn; split; auto; discriminate.
  - intros momenta s. unfold setConservedMomentaUnderRotation.
    destruct (negb (Nat.eqb (count ARB momenta) 0) && Nat.ltb 1 (length momenta)) eqn:E.
    + cbn. split; [discriminate|]. intros [Hn _]. exfalso. apply Hn.
      apply andb_true_iff in E as [E1 E2].
      apply count_nonzero in E1. apply Nat.ltb_lt in E2. auto.
    + set (s' := set_sym_rotation momenta (onSymmetryChange s)).
      pose proof (isRefelectionAndRotationCompatible_compatible_spec s') as Hs.
      change (sym_rotation s') with momenta in Hs.
      change (sym_reflection s') with (sym_reflection s) in Hs.
      rewrite <- (Hs (sentinel_not_misused _ E)).
      assert (Hn : ~ (ARB ∈ momenta /\ (1 < length momenta)%nat)).
      { intros [H1 H2]. apply count_nonzero in H1. apply Nat.ltb_lt in H2.
        rewrite H1, H2 in E. discriminate E. }
      destruct (isRefelectionAndRotationCompatible s'); cbn; split; auto;
        try discriminate; intros [_ H]; discriminate H.
  - intros species mec. split; reflexivity.
  - intros species mec. split; reflexivity.
Qed.

(** The parity setter on a system whose momenta are [{-1, 1}]. *)
Lemma symmetry_setters_return_iff_compatible_witness :
  sentinel_alone [half (-1); half 1]
  /\ (returned (setConservedParityUnderReflection ODD
                  (set_sym_rotation [half (-1); half 1] Example.fresh)) = true
      <-> compatible_spec ODD [half (-1); half 1]).
Proof.
  assert (Halone : sentinel_alone [half (-1); half 1]).
  { intros Hin. exfalso. vm_compute in Hin.
    apply list_elem_of_In in Hin. cbn in Hin. intuition discriminate. }
  split; [exact Halone|].
  destruct symmetry_setters_return_iff_compatible as (Hparity & _).
  exact (Hparity ODD (set_sym_rotation [half (-1); half 1] Example.fresh) Halone).
Defined.

(** ** Ordered sets *)

Lemma elem_of_set_insert x l v : v ∈ set_insert x l <-> v = x \/ v ∈ l.
Proof.
  induction l as [|y ys IH]; cbn.
  - rewrite list_elem_of_singleton. split; [auto|]. intros [H | H]; [exact H | inversion H].
  - destruct (Z.ltb_spec x y) as [Hlt | Hge]; [apply elem_of_cons|].
    destruct (Z.eqb_spec x y) as [-> | Hne].
    + rewrite elem_of_cons. tauto.
    + rewrite !elem_of_cons, IH. tauto.
Qed.

Lemma elem_of_set_insert_range src : forall dst v,
  v ∈ set_insert_range src dst <-> v ∈ src \/ v ∈ dst.
Proof.
  unfold set_insert_range.
  induction src as [|x src IH]; intros dst v; cbn [fold_left].
  - split; [auto|]. intros [H | H]; [inversion H | exact H].
  - rewrite IH, elem_of_set_insert, elem_of_cons. tauto.
Qed.

Lemma set_insert_sorted x l :
  StronglySorted Z.lt l -> StronglySorted Z.lt (set_insert x l).
Proof.
  induction l as [|y ys IH]; intros Hl; cbn.
  - constructor; constructor.
  - apply StronglySorted_inv in Hl as (Hys & Hy).
    destruct (Z.ltb_spec x y) as [Hlt | Hge].
    + constructor; [now constructor|]. constructor; [exact Hlt|].
      eapply Forall_impl; [exact Hy|]. intros z Hz. cbn in Hz. lia.
    + destruct (Z.eqb_spec x y) as [-> | Hne]; [now constructor|].
      constructor; [auto|]. apply Forall_forall. intros z Hz.
      apply elem_of_set_insert in Hz as [-> | Hz]; [lia|].
      rewrite Forall_forall in Hy. now apply Hy.
Qed.

Lemma sorted_sets_equal : forall l1 l2,
  StronglySorted Z.lt l1 -> StronglySorted Z.lt l2 ->
  (forall v, v ∈ l1 <-> v ∈ l2) -> l1 = l2.
Proof.
  induction l1 as [|a l1 IH]; intros [|b l2] H1 H2 Hsame.
  - reflexivity.
  - exfalso. assert (H : b ∈ []) by (apply Hsame, list_elem_of_here). inversion H.
  - exfalso. assert (H : a ∈ []) by (apply Hsame, list_elem_of_here). inversion H.
  - apply StronglySorted_inv in H1 as (H1 & Ha).
    apply StronglySorted_inv in H2 as (H2 & Hb).
    rewrite Forall_forall in Ha, Hb.
    assert (Hab : a = b).
    { assert (Ha' : a ∈ b :: l2) by (apply Hsame, list_elem_of_here).
      assert (Hb' : b ∈ a :: l1) by (apply Hsame, list_elem_of_here).
      apply elem_of_cons in Ha' as [E | Ha']; [exact E|].
      apply elem_of_cons in Hb' as [E | Hb']; [now symmetry|].
      specialize (Ha b Hb'). specialize (Hb a Ha'). lia. }
    subst b. f_equal. apply IH; [exact H1 | exact H2|].
    intros v. split; intros Hv.
    + assert (Hv' : v ∈ a :: l2) by (apply Hsame; now apply list_elem_of_further).
      apply elem_of_cons in Hv' as [-> | Hv']; [|exact Hv'].
      specialize (Ha a Hv). lia.
    + assert (Hv' : v ∈ a :: l1) by (apply Hsame; now apply list_elem_of_further).
      apply elem_of_cons in Hv' as [-> | Hv']; [|exact Hv'].
      specialize (Hb a Hv). lia.
Qed.

Lemma set_insert_range_sorted src : forall dst,
  StronglySorted Z.lt dst -> StronglySorted Z.lt (set_insert_range src dst).
Proof.
  unfold set_insert_range.
  induction src as [|x src IH]; intros dst Hdst; cbn [fold_left]; [exact Hdst|].
  apply IH, set_insert_sorted, Hdst.
Qed.

(** ** Combining two systems *)

Lemma incorporate_outcome (system s : SystemOne) :
  (returned (incorporate system s) = false
   <-> species s <> species system
       \/ array3_neq (efield s) (efield system) = true
       \/ array3_neq (bfield s) (bfield system) = true
       \/ diamagnetism s <> diamagnetism system)
  /\ (returned (incorporate system s) = true ->
      sym_reflection (after (incorporate system s))
      = (if decide (sym_reflection s = sym_reflection system) then sym_reflection s
         else NA)
      /\ sym_rotation (after (incorporate system s))
         = (if decide (sym_rotation s = sym_rotation system) then sym_rotation s
            else if decide (ARB ∈ sym_rotation s \/ ARB ∈ sym_rotation system)
                 then [ARB]
                 else set_insert_range (sym_rotation system) (sym_rotation s))
      /\ cerr (after (incorporate system s))
         = (if decide (sym_reflection s <> sym_reflection system
                       /\ sym_rotation s <> sym_rotation system)
            then cerr s ++ [incorporate_warning] else cerr s)).
Proof.
  unfold incorporate.
  destruct (String.eqb_spec (species s) (species system)) as [Hsp | Hsp]; cbn [negb];
    [|split; [split; [auto | reflexivity] | discriminate]].
  destruct (array3_neq (efield s) (efield system)) eqn:He;
    [split; [split; [auto | reflexivity] | discriminate]|].
  destruct (array3_neq (bfield s) (bfield system)) eqn:Hb;
    [split; [split; [auto | reflexivity] | discriminate]|].
  destruct (Bool.eqb_spec (diamagnetism s) (diamagnetism system)) as [Hd | Hd];
    cbn [negb]; [|split; [split; [auto | reflexivity] | discriminate]].
  split.
  { cbn. split; [discriminate|]. intros [H | [H | [H | H]]]; congruence. }
  intros _.
  destruct (decide (sym_reflection s = sym_reflection system)) as [Hr | Hr].
  - rewrite (bool_decide_eq_false_2 (sym_reflection s <> sym_reflection system))
      by (intros H; apply H, Hr).
    destruct (decide (sym_rotation s = sym_rotation system)) as [Ht | Ht].
    + rewrite (bool_decide_eq_true_2 _ Ht), Ht, Nat.eqb_refl.
      cbn. rewrite decide_False by tauto. auto.
    + rewrite (bool_decide_eq_false_2 _ Ht), andb_false_r.
      cbn [negb]. rewrite (decide_False (P := _ /\ _)) by tauto.
      destruct (decide (ARB ∈ sym_rotation s \/ ARB ∈ sym_rotation system))
        as [Ha | Ha].
      * assert (E : negb (Nat.eqb (count ARB (sym_rotation s)) 0)
                    || negb (Nat.eqb (count ARB (sym_rotation system)) 0) = true).
        { apply orb_true_iff. rewrite !count_nonzero. exact Ha. }
        rewrite E. cbn. auto.
      * assert (E : negb (Nat.eqb (count ARB (sym_rotation s)) 0)
                    || negb (Nat.eqb (count ARB (sym_rotation system)) 0) = false).
        { apply not_true_is_false. rewrite orb_true_iff, !count_nonzero. exact Ha. }
        rewrite E. cbn. auto.
  - rewrite (bool_decide_eq_true_2 (sym_reflection s <> sym_reflection system))
      by exact Hr.
    cbn [sym_rotation set_sym_reflection].
    destruct (decide (sym_rotation s = sym_rotation system)) as [Ht | Ht].
    + rewrite (bool_decide_eq_true_2 _ Ht), Ht, Nat.eqb_refl.
      cbn. rewrite decide_False by tauto. auto.
    + rewrite (bool_decide_eq_false_2 _ Ht), andb_false_r.
      cbn [negb]. rewrite (decide_True (P := _ /\ _)) by tauto.
      destruct (decide (ARB ∈ sym_rotation s \/ ARB ∈ sym_rotation system))
        as [Ha | Ha].
      * assert (E : negb (Nat.eqb (count ARB (sym_rotation s)) 0)
                    || negb (Nat.eqb (count ARB (sym_rotation system)) 0) = true).
        { apply orb_true_iff. rewrite !count_nonzero. exact Ha. }
        rewrite E. cbn. auto.
      * assert (E : negb (Nat.eqb (count ARB (sym_rotation s)) 0)
                    || negb (Nat.eqb (count ARB (sym_rotation system)) 0) = false).
        { apply not_true_is_false. rewrite orb_true_iff, !count_nonzero. exact Ha. }
        rewrite E. cbn. auto.
Qed.

(** C7: [incorporate] throws exactly when the two systems differ in the
    species, in the electric field, in the magnetic field or in the
    diamagnetism flag.  When they agree on these it returns, whatever their
    symmetries: a parity that differs becomes [NA], momenta that differ
    become the sentinel or the union of both sets, and a warning is written
    exactly when both symmetries differ.  The union is the set whose members
    are the momenta of the one system and of the other, and it is ordered
    without repetition as the set of the object was. *)
Theorem incorporate_throws_iff_parameters_differ (system s : SystemOne) :
  (returned (incorporate system s) = false
   <-> species s <> species system
       \/ array3_neq (efield s) (efield system) = true
       \/ array3_neq (bfield s) (bfield system) = true
       \/ diamagnetism s <> diamagnetism system)
  /\ (returned (incorporate system s) = true ->
      sym_reflection (after (incorporate system s))
      = (if decide (sym_reflection s = sym_reflection system) then sym_reflection s
         else NA)
      /\ sym_rotation (after (incorporate system s))
         = (if decide (sym_rotation s = sym_rotation system) then sym_rotation s
            else if decide (ARB ∈ sym_rotation s \/ ARB ∈ sym_rotation system)
                 then [ARB]
                 else set_insert_range (sym_rotation system) (sym_rotation s))
      /\ cerr (after (incorporate system s))
         = (if decide (sym_reflection s <> sym_reflection system
                       /\ sym_rotation s <> sym_rotation system)
            then cerr s ++ [incorporate_warning] else cerr s)
      /\ (ARB ∉ sym_rotation s -> ARB ∉ sym_rotation system ->
          forall v, v ∈ sym_rotation (after (incorporate system s))
                    <-> v ∈ sym_rotation s \/ v ∈ sym_rotation system)
      /\ (StronglySorted Z.lt (sym_rotation s) ->
          StronglySorted Z.lt (sym_rotation (after (incorporate system s))))).
Proof.
  destruct (incorporate_outcome system s) as (Hthrows & Hreturns).
  split; [exact Hthrows|].
  intros Hreturned.
  destruct (Hreturns Hreturned) as (Hreflection & Hrotation & Hcerr).
  split; [exact Hreflection|]. split; [exact Hrotation|]. split; [exact Hcerr|].
  rewrite Hrotation. clear Hthrows Hreturns Hreflection Hrotation Hcerr.
  split.
  - intros Hs Hsystem v.
    destruct (decide (sym_rotation s = sym_rotation system)) as [Hsame | Hdiffer].
    + rewrite <- Hsame. tauto.
    + rewrite decide_False by tauto.
      rewrite elem_of_set_insert_range. tauto.
  - intros Hsorted.
    destruct (decide (sym_rotation s = sym_rotation system)); [exact Hsorted|].
    destruct (decide (ARB ∈ sym_rotation s \/ ARB ∈ sym_rotation system)).
    + constructor; constructor.
    + apply set_insert_range_sorted, Hsorted.
Qed.

(** Two systems of one species without fields.  The one has even parity and
    the momenta [{-3/2, 3/2}], the other no parity and the momenta
    [{-1/2, 1/2}]: they are combined into a system without parity whose
    momenta are the union of both sets, with a warning.  When the other is
    the fresh system, the momenta become the sentinel. *)
Lemma incorporate_throws_iff_parameters_differ_witness :
  returned (incorporate Example.one_half
              (set_sym_reflection EVEN Example.three_halves)) = true
  /\ sym_reflection (after (incorporate Example.one_half
                              (set_sym_reflection EVEN Example.three_halves))) = NA
  /\ sym_rotation (after (incorporate Example.one_half
                            (set_sym_reflection EVEN Example.three_halves)))
     = [-3; -1; 1; 3]
  /\ cerr (after (incorporate Example.one_half
                    (set_sym_reflection EVEN Example.three_halves)))
     = [incorporate_warning]
  /\ (forall v, v ∈ sym_rotation (after (incorporate Example.one_half
                                           (set_sym_reflection EVEN Example.three_halves)))
                <-> v ∈ [-3; 3] \/ v ∈ [-1; 1])
  /\ StronglySorted Z.lt
       (sym_rotation (after (incorporate Example.one_half
                               (set_sym_reflection EVEN Example.three_halves))))
  /\ sym_rotation (after (incorporate Example.fresh
                            (set_sym_reflection EVEN Example.three_halves))) = [ARB].
Proof.
  assert (Hret : returned (incorporate Example.one_half
                             (set_sym_reflection EVEN Example.three_halves)) = true)
    by reflexivity.
  split; [exact Hret|].
  destruct (incorporate_throws_iff_parameters_differ Example.one_half
              (set_sym_reflection EVEN Example.three_halves))
    as (_ & H).
  destruct (H Hret) as (H1 & H2 & H3 & H4 & H5).
  split; [|split; [|split; [|split; [|split]]]].
  - rewrite H1. reflexivity.
  - rewrite H2. reflexivity.
  - rewrite H3. reflexivity.
  - apply H4.
    + apply (bool_decide_eq_false_1 _). vm_compute. reflexivity.
    + apply (bool_decide_eq_false_1 _). vm_compute. reflexivity.
  - apply H5. repeat constructor.
  - assert (Hfresh : returned (incorporate Example.fresh
                                 (set_sym_reflection EVEN Example.three_halves)) = true)
      by reflexivity.
    destruct (incorporate_throws_iff_parameters_differ Example.fresh
                (set_sym_reflection EVEN Example.three_halves))
      as (_ & H').
    destruct (H' Hfresh) as (_ & H2' & _).
    rewrite H2'. reflexivity.
Defined.

(** ** Building the basis without a restriction of n *)

(** C3, as stated, fails: with no restriction of [n] and the finite energy
    window [[-1, 1]] the build does not succeed; it throws, and the object is
    as before. *)
Lemma initializeBasis_finite_window_throws :
  range_n Example.windowed = []
  /\ energy_unrestricted Example.windowed = false
  /\ ~ returned (initializeBasis Example.hdr Example.windowed) = true
  /\ initializeBasis Example.hdr Example.windowed
     = Throws range_n_not_implemented_error Example.windowed.
Proof.
  split; [reflexivity|]. split; [reflexivity|]. split.
  - intros H. vm_compute in H. discriminate H.
  - reflexivity.
Qed.

(** C3, amended: whenever the set of [n] is empty, [initializeBasis] throws
    and leaves the object as it was: the error of the infinite basis when the
    energy window is unrestricted on either side, and the error that the
    derivation of the range of [n] is not implemented when the window is
    finite. *)
Theorem initializeBasis_empty_range_n_throws (hdr : Headers) (s : SystemOne) :
  range_n s = [] ->
  initializeBasis hdr s
  = Throws (if energy_unrestricted s then infinite_basis_error
            else range_n_not_implemented_error) s.
Proof.
  intros Hn. unfold initializeBasis, energy_unrestricted.
  rewrite (bool_decide_eq_true_2 _ Hn). cbn [andb].
  now destruct (PrimFloat.eqb (energy_min s) double_lowest
                || PrimFloat.eqb (energy_max s) double_max).
Qed.

Lemma initializeBasis_empty_range_n_throws_witness :
  range_n Example.fresh = []
  /\ initializeBasis Example.hdr Example.fresh
     = Throws infinite_basis_error Example.fresh.
Proof.
  split; [reflexivity|].
  exact (initializeBasis_empty_range_n_throws Example.hdr Example.fresh eq_refl).
Defined.

(** ** Assembling the Hamiltonian *)

Lemma at_key_touch {K} `{Countable K} (k k' : K) (m : gmap K float) :
  at_key (touch k 0%float m) k' = at_key m k'.
Proof.
  unfold touch, at_key. destruct (m !! k) eqn:E; [reflexivity|].
  destruct (decide (k = k')) as [<- | Hne].
  - now rewrite lookup_insert_eq, E.
  - now rewrite lookup_insert_ne.
Qed.

Lemma matrix_at_touch {K} `{Countable K} (k k' : K) (m : gmap K eigen_sparse_t) :
  matrix_at (touch k Matrix.empty m) k' = matrix_at m k'.
Proof.
  unfold touch, matrix_at. destruct (m !! k) eqn:E; [reflexivity|].
  destruct (decide (k = k')) as [<- | Hne].
  - now rewrite lookup_insert_eq, E.
  - now rewrite lookup_insert_ne.
Qed.

Lemma same_reads_refl s : same_reads s s.
Proof. unfold same_reads; repeat split; reflexivity. Qed.

Lemma same_reads_trans s1 s2 s3 : same_reads s1 s2 -> same_reads s2 s3 -> same_reads s1 s3.
Proof.
  unfold same_reads.
  intros (A1 & A2 & A3 & A4 & A5 & A6 & A7 & A8 & A9 & A10 & A11)
         (B1 & B2 & B3 & B4 & B5 & B6 & B7 & B8 & B9 & B10 & B11).
  repeat split; intros; congruence.
Qed.

Ltac same_reads_step :=
  unfold same_reads; cbn;
  repeat split; intros; rewrite ?at_key_touch, ?matrix_at_touch; reflexivity.

Lemma efield_term_spec op i k s :
  same_reads s (efield_term op i k s)
  /\ hamiltonian (efield_term op i k s)
     = assemble (hamiltonian s)
         [Term (above_tolerance (at_key (efield_spherical s) k)) op
            (matrix_at (interaction_efield s) i) (at_key (efield_spherical s) k) None].
Proof.
  unfold efield_term, assemble.
  destruct (above_tolerance (at_key (efield_spherical s) k)); cbn;
    (split; [same_reads_step | reflexivity]).
Qed.

Lemma bfield_term_spec op i k s :
  same_reads s (bfield_term op i k s)
  /\ hamiltonian (bfield_term op i k s)
     = assemble (hamiltonian s)
         [Term (above_tolerance (at_key (bfield_spherical s) k)) op
            (matrix_at (interaction_bfield s) i) (at_key (bfield_spherical s) k) None].
Proof.
  unfold bfield_term, assemble.
  destruct (above_tolerance (at_key (bfield_spherical s) k)); cbn;
    (split; [same_reads_step | reflexivity]).
Qed.

Lemma diamagnetism_term_spec op i factor s :
  same_reads s (diamagnetism_term op i factor s)
  /\ hamiltonian (diamagnetism_term op i factor s)
     = assemble (hamiltonian s)
         [Term (diamagnetism s && above_tolerance (at_key (diamagnetism_terms s) i)) op
            (matrix_at (interaction_diamagnetism s) i)
            (at_key (diamagnetism_terms s) i) factor].
Proof.
  unfold diamagnetism_term, assemble.
  destruct (diamagnetism s); cbn [andb];
    [|split; [apply same_reads_refl | reflexivity]].
  destruct (above_tolerance (at_key (diamagnetism_terms s) i)); cbn;
    (split; [same_reads_step | destruct factor; reflexivity]).
Qed.

Lemma multipole_term_spec s order :
  same_reads s (multipole_term s order)
  /\ hamiltonian (multipole_term s order)
     = assemble (hamiltonian s)
         [Term true PlusAssign (matrix_at (interaction_multipole s) (Z.of_nat order))
            (of_int (charge s)) (Some (powerlaw s order))].
Proof.
  unfold multipole_term, assemble. cbn. split; [same_reads_step | reflexivity].
Qed.

Lemma assemble_app h t1 t2 : assemble h (t1 ++ t2) = assemble (assemble h t1) t2.
Proof. unfold assemble. apply fold_left_app. Qed.

(** The loop over the orders adds one term per order. *)
Lemma multipole_loop_spec orders : forall s0 s,
  same_reads s0 s ->
  same_reads s0 (fold_left multipole_term orders s)
  /\ hamiltonian (fold_left multipole_term orders s)
     = assemble (hamiltonian s)
         (map (fun order =>
                 Term true PlusAssign (matrix_at (interaction_multipole s0) (Z.of_nat order))
                   (of_int (charge s0)) (Some (powerlaw s0 order)))
              orders).
Proof.
  induction orders as [|order orders IH]; intros s0 s Hs; cbn [fold_left map].
  - split; [exact Hs | reflexivity].
  - destruct (multipole_term_spec s order) as (Hr & Hh).
    destruct (IH s0 (multipole_term s order) (same_reads_trans _ _ _ Hs Hr)) as (Hr' & Hh').
    split; [exact Hr'|].
    rewrite Hh', Hh.
    destruct Hs as (_ & _ & _ & _ & _ & _ & Hm & _ & Hc & Hd & _).
    unfold powerlaw. rewrite Hm, Hc, Hd. reflexivity.
Qed.

Lemma efield_term_step s0 h0 ts s op i k :
  assembled_so_far s0 h0 ts s ->
  assembled_so_far s0 h0
    (ts ++ [Term (above_tolerance (at_key (efield_spherical s0) k)) op
              (matrix_at (interaction_efield s0) i) (at_key (efield_spherical s0) k) None])
    (efield_term op i k s).
Proof.
  intros (Hr & Hh). destruct (efield_term_spec op i k s) as (Hr' & Hh').
  split; [eapply same_reads_trans; eassumption|].
  rewrite assemble_app, <- Hh, Hh'.
  destruct Hr as (He & _ & _ & HE & _). now rewrite He, HE.
Qed.

Lemma bfield_term_step s0 h0 ts s op i k :
  assembled_so_far s0 h0 ts s ->
  assembled_so_far s0 h0
    (ts ++ [Term (above_tolerance (at_key (bfield_spherical s0) k)) op
              (matrix_at (interaction_bfield s0) i) (at_key (bfield_spherical s0) k) None])
    (bfield_term op i k s).
Proof.
  intros (Hr & Hh). destruct (bfield_term_spec op i k s) as (Hr' & Hh').
  split; [eapply same_reads_trans; eassumption|].
  rewrite assemble_app, <- Hh, Hh'.
  destruct Hr as (_ & Hb & _ & _ & HB & _). now rewrite Hb, HB.
Qed.

Lemma diamagnetism_term_step s0 h0 ts s op i factor :
  assembled_so_far s0 h0 ts s ->
  assembled_so_far s0 h0
    (ts ++ [Term (diamagnetism s0 && above_tolerance (at_key (diamagnetism_terms s0) i))
              op (matrix_at (interaction_diamagnetism s0) i)
              (at_key (diamagnetism_terms s0) i) factor])
    (diamagnetism_term op i factor s).
Proof.
  intros (Hr & Hh). destruct (diamagnetism_term_spec op i factor s) as (Hr' & Hh').
  split; [eapply same_reads_trans; eassumption|].
  rewrite assemble_app, <- Hh, Hh'.
  destruct Hr as (_ & _ & Hd & _ & _ & HD & _ & Hon & _). now rewrite Hd, HD, Hon.
Qed.

(** C6, as stated, fails: with the charge 1, the order 1 and the distance
    [2^50] the coefficient of the multipole term is [2^-100], below the
    tolerance, and the term is still added to the Hamiltonian. *)
Lemma addInteraction_adds_negligible_multipole_term :
  above_tolerance (of_int (charge Example.ion) * powerlaw Example.ion 1)%float = false
  /\ PrimFloat.eqb (Matrix.coeff (hamiltonian Example.ion) 0 0) 0 = true
  /\ PrimFloat.ltb (Matrix.coeff (hamiltonian (addInteraction Example.ion)) 0 0) 0 = true
  /\ hamiltonian (addInteraction Example.ion) <> hamiltonian Example.ion.
Proof.
  assert (H1 : PrimFloat.eqb (Matrix.coeff (hamiltonian Example.ion) 0 0) 0 = true)
    by (vm_compute; reflexivity).
  assert (H2 : PrimFloat.ltb
                 (Matrix.coeff (hamiltonian (addInteraction Example.ion)) 0 0) 0 = true)
    by (vm_compute; reflexivity).
  split; [vm_compute; reflexivity|]. split; [exact H1|]. split; [exact H2|].
  intros Heq. rewrite Heq in H2. vm_compute in H2. discriminate H2.
Qed.

(** C6, amended: [addInteraction] adds to the field-free operator the listed
    terms, in their order: each term is its stored operator scaled by its
    coefficient, the diamagnetic components 1 and -1 of rank 2 further by
    [sqrt 3] and the components 2 and -2 by [sqrt 1.5]; the terms of the
    component 0 of both fields and the diamagnetic terms (2, 0), (2, 2),
    (2, -2) are subtracted.  A term of the electric field, of the magnetic
    field or of the diamagnetic interaction whose coefficient is not above
    [1e-24] is left out; the multipole terms are all added when the charge is
    not zero and a distance was set, whatever the size of their
    coefficient. *)
Theorem addInteraction_assembles_terms (s : SystemOne) :
  hamiltonian (addInteraction s)
  = assemble (hamiltonian s) (field_terms s ++ multipole_terms s)
  /\ Forall (fun t => term_included t = true -> above_tolerance (term_coefficient t) = true)
       (field_terms s)
  /\ Forall (fun t => term_included t = true) (multipole_terms s).
Proof.
  split; [|split].
  - assert (H0 : assembled_so_far s (hamiltonian s) [] s)
      by (split; [apply same_reads_refl | reflexivity]).
    unfold addInteraction.
    apply (efield_term_step _ _ _ _ MinusAssign 0 0) in H0.
    apply (efield_term_step _ _ _ _ PlusAssign 1 (-1)) in H0.
    apply (efield_term_step _ _ _ _ PlusAssign (-1) 1) in H0.
    apply (bfield_term_step _ _ _ _ MinusAssign 0 0) in H0.
    apply (bfield_term_step _ _ _ _ PlusAssign 1 (-1)) in H0.
    apply (bfield_term_step _ _ _ _ PlusAssign (-1) 1) in H0.
    apply (diamagnetism_term_step _ _ _ _ PlusAssign (0, 0) None) in H0.
    apply (diamagnetism_term_step _ _ _ _ MinusAssign (2, 0) None) in H0.
    apply (diamagnetism_term_step _ _ _ _ PlusAssign (2, 1) (Some sqrt3)) in H0.
    apply (diamagnetism_term_step _ _ _ _ PlusAssign (2, -1) (Some sqrt3)) in H0.
    apply (diamagnetism_term_step _ _ _ _ MinusAssign (2, 2) (Some sqrt1_5)) in H0.
    apply (diamagnetism_term_step _ _ _ _ MinusAssign (2, -2) (Some sqrt1_5)) in H0.
    cbn [app] in H0. fold (field_terms s) in H0.
    match type of H0 with assembled_so_far _ _ _ ?s12 => set (s' := s12) in * end.
    destruct H0 as (Hr & Hh).
    assert (Hc : charge s' = charge s) by apply Hr.
    assert (Hd : distance s' = distance s) by apply Hr.
    assert (Ho : ordermax s' = ordermax s) by apply Hr.
    unfold multipole_terms. rewrite Hc, Hd, Ho.
    destruct (negb (charge s =? 0) && neq (distance s) double_max).
    + destruct (multipole_loop_spec (seq 1 (ordermax s)) s s' Hr) as (_ & Hm).
      rewrite Hm, Hh, assemble_app. reflexivity.
    + rewrite app_nil_r. exact Hh.
  - unfold field_terms. repeat constructor; cbn; intros H;
      try exact H; apply andb_true_iff in H; apply H.
  - unfold multipole_terms.
    destruct (negb (charge s =? 0) && neq (distance s) double_max); [|constructor].
    apply Forall_forall. intros t Ht.
    apply list_elem_of_In, in_map_iff in Ht as (order & <- & _).
    reflexivity.
Qed.

(** ** The loop over the pairs of states *)

Lemma triplets_of_addTriplet {K} `{Countable K} (m : gmap K (list eigen_triplet_t))
  (i i' : K) r c v tr :
  tr ∈ triplets_of (addTriplet m i r c v) i'
  <-> tr ∈ triplets_of m i' \/ (i' = i /\ tr = Triplet r c v).
Proof.
  unfold triplets_of, addTriplet.
  destruct (decide (i = i')) as [<- | Hne].
  - rewrite lookup_insert_eq. cbn. rewrite elem_of_app, list_elem_of_singleton.
    intuition.
  - rewrite lookup_insert_ne by exact Hne. intuition congruence.
Qed.

Lemma extends_refl t : extends t t.
Proof. unfold extends; repeat split; auto. Qed.

Lemma extends_trans t1 t2 t3 : extends t1 t2 -> extends t2 t3 -> extends t1 t3.
Proof.
  intros (A1 & A2 & A3 & A4 & A5) (B1 & B2 & B3 & B4 & B5).
  unfold extends; repeat split; auto.
Qed.

Lemma extends_called e t : extends t (called e t).
Proof.
  unfold extends, called; cbn. repeat split; auto.
  intros x Hx. apply elem_of_app. now left.
Qed.

Lemma called_calls e t x : x ∈ calls (called e t) <-> x ∈ calls t \/ x ∈ e.
Proof. unfold called; cbn. apply elem_of_app. Qed.

(** A fold of steps that extend extends. *)
Lemma fold_left_extends {A} (f : interaction_triplets -> A -> interaction_triplets) l :
  (forall t a, extends t (f t a)) -> forall t, extends t (fold_left f l t).
Proof.
  intros Hf. induction l as [|a l IH]; intros t; cbn.
  - apply extends_refl.
  - eapply extends_trans; [apply Hf | apply IH].
Qed.

(** What the step for one element of a fold establishes, and later steps
    keep, holds at the end. *)
Lemma fold_left_establishes {A} (f : interaction_triplets -> A -> interaction_triplets)
  (Q : interaction_triplets -> Prop) l x :
  (forall t a, extends t (f t a)) ->
  (forall t t', extends t t' -> Q t -> Q t') ->
  (forall t, Q (f t x)) ->
  x ∈ l -> forall t, Q (fold_left f l t).
Proof.
  intros Hf Hmono Hx. induction l as [|a l IH]; intros Hin t.
  - inversion Hin.
  - cbn. apply elem_of_cons in Hin as [-> | Hin].
    + eapply Hmono; [apply fold_left_extends, Hf | apply Hx].
    + apply IH, Hin.
Qed.

Section PairOfStates.

Variable hdr : Headers.
Variable mec : MatrixElementCache.
Variable charge : Z.
Variable all : list enumerated_state.
Variables r c : enumerated_state.

Lemma efield_loop_extends erange : forall t, extends t (efield_loop hdr mec r c erange t).
Proof.
  induction erange as [|i rest IH]; intros t; cbn [efield_loop].
  - apply extends_refl.
  - destruct ((i =? 0) && (fst r <? fst c)%nat); [apply IH|].
    destruct (selectionRulesMultipoleNew hdr (snd r) (snd c) 1 i).
    + unfold extends; cbn. repeat split; auto.
      * intros e He. rewrite !elem_of_app. auto.
      * intros i' tr Htr. apply triplets_of_addTriplet. now left.
    + eapply extends_trans; [apply extends_called | apply IH].
Qed.

Lemma bfield_loop_extends brange : forall t, extends t (bfield_loop hdr mec r c brange t).
Proof.
  induction brange as [|i rest IH]; intros t; cbn [bfield_loop].
  - apply extends_refl.
  - destruct ((i =? 0) && (fst r <? fst c)%nat); [apply IH|].
    destruct (selectionRulesMomentumNew hdr (snd r) (snd c) i).
    + unfold extends; cbn. repeat split; auto.
      * intros e He. rewrite !elem_of_app. auto.
      * intros i' tr Htr. apply triplets_of_addTriplet. now left.
    + eapply extends_trans; [apply extends_called | apply IH].
Qed.

Lemma diamagnetism_step_extends t i : extends t (diamagnetism_step hdr mec r c t i).
Proof.
  unfold diamagnetism_step.
  destruct ((snd i =? 0) && (fst r <? fst c)%nat); [apply extends_refl|].
  destruct (selectionRulesMultipoleNew hdr (snd r) (snd c) (fst i) (snd i)).
  - unfold extends; cbn. repeat split; auto.
    + intros e He. rewrite !elem_of_app. auto.
    + intros i' tr Htr. apply triplets_of_addTriplet. now left.
  - apply extends_called.
Qed.

Lemma multipole_step_extends t order : extends t (multipole_step hdr mec r c t order).
Proof.
  unfold multipole_step.
  destruct (selectionRulesMultipoleNew_order hdr (snd r) (snd c) order).
  - unfold extends; cbn. repeat split; auto.
    + intros e He. rewrite !elem_of_app. auto.
    + intros i' tr Htr. apply triplets_of_addTriplet. now left.
  - apply extends_called.
Qed.

Lemma pair_step_extends rg t : extends t (pair_step hdr mec charge rg c r t).
Proof.
  unfold pair_step.
  assert (H3 : extends t
                 (fold_left (diamagnetism_step hdr mec r c) (drange rg)
                    (bfield_loop hdr mec r c (brange rg)
                       (efield_loop hdr mec r c (erange rg) t)))).
  { eapply extends_trans; [apply efield_loop_extends|].
    eapply extends_trans; [apply bfield_loop_extends|].
    apply fold_left_extends, diamagnetism_step_extends. }
  destruct (charge =? 0); [exact H3|].
  destruct (Z.quot (State.getM (snd r) - State.getM (snd c)) 2 =? 0); [|exact H3].
  eapply extends_trans; [exact H3|].
  apply fold_left_extends, multipole_step_extends.
Qed.

End PairOfStates.

Section Soundness.

Variable hdr : Headers.
Variable mec : MatrixElementCache.
Variable charge : Z.
Variable all : list enumerated_state.
Variables r c : enumerated_state.
Hypothesis Hreached : reached all r c.

Lemma sound_called es t :
  (forall e, e ∈ es -> call_states e = (snd r, snd c)) ->
  sound hdr mec charge all t -> sound hdr mec charge all (called es t).
Proof.
  intros Hes (Hc & HE & HB & HD & HO). unfold sound, called; cbn.
  repeat split; auto.
  intros e He. apply elem_of_app in He as [He | He]; [auto|].
  exists r, c. auto.
Qed.

Lemma sound_efield_triplet i t :
  above_diagonal i r c = false ->
  selectionRulesMultipoleNew hdr (snd r) (snd c) 1 i = true ->
  sound hdr mec charge all t ->
  sound hdr mec charge all
    (InteractionTriplets
       (addTriplet (interaction_efield_triplets t) i (fst r) (fst c)
          (getElectricDipole mec (snd r) (snd c)))
       (interaction_bfield_triplets t) (interaction_diamagnetism_triplets t)
       (interaction_multipole_triplets t) (calls t)).
Proof.
  intros Hd Hs (Hc & HE & HB & HD & HO). unfold sound; cbn.
  repeat split; auto.
  intros i' tr Htr. apply triplets_of_addTriplet in Htr as [Htr | [-> ->]]; [auto|].
  exists r, c. auto.
Qed.

Lemma sound_bfield_triplet i t :
  above_diagonal i r c = false ->
  selectionRulesMomentumNew hdr (snd r) (snd c) i = true ->
  sound hdr mec charge all t ->
  sound hdr mec charge all
    (InteractionTriplets (interaction_efield_triplets t)
       (addTriplet (interaction_bfield_triplets t) i (fst r) (fst c)
          (getMagneticDipole mec (snd r) (snd c)))
       (interaction_diamagnetism_triplets t) (interaction_multipole_triplets t)
       (calls t)).
Proof.
  intros Hd Hs (Hc & HE & HB & HD & HO). unfold sound; cbn.
  repeat split; auto.
  intros i' tr Htr. apply triplets_of_addTriplet in Htr as [Htr | [-> ->]]; [auto|].
  exists r, c. auto.
Qed.

Lemma sound_diamagnetism_triplet i t :
  above_diagonal (snd i) r c = false ->
  selectionRulesMultipoleNew hdr (snd r) (snd c) (fst i) (snd i) = true ->
  sound hdr mec charge all t ->
  sound hdr mec charge all
    (InteractionTriplets (interaction_efield_triplets t) (interaction_bfield_triplets t)
       (addTriplet (interaction_diamagnetism_triplets t) i (fst r) (fst c)
          (diamagnetism_value hdr mec r c (fst i)))
       (interaction_multipole_triplets t) (calls t)).
Proof.
  intros Hd Hs (Hc & HE & HB & HD & HO). unfold sound; cbn.
  repeat split; auto.
  intros i' tr Htr. apply triplets_of_addTriplet in Htr as [Htr | [-> ->]]; [auto|].
  exists r, c. auto.
Qed.

Lemma sound_multipole_triplet order t :
  charge <> 0 ->
  momentum_conserved r c = true ->
  selectionRulesMultipoleNew_order hdr (snd r) (snd c) order = true ->
  sound hdr mec charge all t ->
  sound hdr mec charge all
    (InteractionTriplets (interaction_efield_triplets t) (interaction_bfield_triplets t)
       (interaction_diamagnetism_triplets t)
       (addTriplet (interaction_multipole_triplets t) order (fst r) (fst c)
          (multipole_value hdr mec r c order))
       (calls t)).
Proof.
  intros Hch Hq Hs (Hc & HE & HB & HD & HO). unfold sound; cbn.
  repeat split; auto.
  intros i' tr Htr. apply triplets_of_addTriplet in Htr as [Htr | [-> ->]]; [auto|].
  exists r, c. auto.
Qed.

Ltac one_call :=
  let e := fresh "e" in let He := fresh "He" in
  intros e He; apply list_elem_of_singleton in He; subst e; reflexivity.

Lemma efield_loop_sound erange : forall t,
  sound hdr mec charge all t -> sound hdr mec charge all (efield_loop hdr mec r c erange t).
Proof.
  induction erange as [|i rest IH]; intros t Ht; cbn [efield_loop]; [exact Ht|].
  destruct ((i =? 0) && (fst r <? fst c)%nat) eqn:Hd; [apply IH, Ht|].
  destruct (selectionRulesMultipoleNew hdr (snd r) (snd c) 1 i) eqn:Hs.
  - apply (sound_efield_triplet i _ Hd Hs).
    apply sound_called; [one_call|]. apply sound_called; [one_call | exact Ht].
  - apply IH. apply sound_called; [one_call | exact Ht].
Qed.

Lemma bfield_loop_sound brange : forall t,
  sound hdr mec charge all t -> sound hdr mec charge all (bfield_loop hdr mec r c brange t).
Proof.
  induction brange as [|i rest IH]; intros t Ht; cbn [bfield_loop]; [exact Ht|].
  destruct ((i =? 0) && (fst r <? fst c)%nat) eqn:Hd; [apply IH, Ht|].
  destruct (selectionRulesMomentumNew hdr (snd r) (snd c) i) eqn:Hs.
  - apply (sound_bfield_triplet i _ Hd Hs).
    apply sound_called; [one_call|]. apply sound_called; [one_call | exact Ht].
  - apply IH. apply sound_called; [one_call | exact Ht].
Qed.

Lemma diamagnetism_step_sound t i :
  sound hdr mec charge all t -> sound hdr mec charge all (diamagnetism_step hdr mec r c t i).
Proof.
  intros Ht. unfold diamagnetism_step.
  destruct ((snd i =? 0) && (fst r <? fst c)%nat) eqn:Hd; [exact Ht|].
  destruct (selectionRulesMultipoleNew hdr (snd r) (snd c) (fst i) (snd i)) eqn:Hs.
  - apply (sound_diamagnetism_triplet i _ Hd Hs).
    apply sound_called; [one_call|]. apply sound_called; [one_call | exact Ht].
  - apply sound_called; [one_call | exact Ht].
Qed.

Lemma multipole_step_sound t order :
  charge <> 0 -> momentum_conserved r c = true ->
  sound hdr mec charge all t -> sound hdr mec charge all (multipole_step hdr mec r c t order).
Proof.
  intros Hch Hq Ht. unfold multipole_step.
  destruct (selectionRulesMultipoleNew_order hdr (snd r) (snd c) order) eqn:Hs.
  - apply (sound_multipole_triplet order _ Hch Hq Hs).
    apply sound_called; [one_call|]. apply sound_called; [one_call | exact Ht].
  - apply sound_called; [one_call | exact Ht].
Qed.

Lemma fold_left_sound {A} (f : interaction_triplets -> A -> interaction_triplets) l :
  (forall t a, sound hdr mec charge all t -> sound hdr mec charge all (f t a)) ->
  forall t, sound hdr mec charge all t -> sound hdr mec charge all (fold_left f l t).
Proof.
  intros Hf. induction l as [|a l IH]; intros t Ht; cbn; [exact Ht|].
  apply IH, Hf, Ht.
Qed.

Lemma pair_step_sound rg t :
  sound hdr mec charge all t -> sound hdr mec charge all (pair_step hdr mec charge rg c r t).
Proof.
  intros Ht. unfold pair_step.
  assert (H3 : sound hdr mec charge all
                 (fold_left (diamagnetism_step hdr mec r c) (drange rg)
                    (bfield_loop hdr mec r c (brange rg)
                       (efield_loop hdr mec r c (erange rg) t)))).
  { apply fold_left_sound; [intros; now apply diamagnetism_step_sound|].
    apply bfield_loop_sound, efield_loop_sound, Ht. }
  destruct (Z.eqb_spec charge 0) as [Hch | Hch]; [exact H3|].
  destruct (Z.quot (State.getM (snd r) - State.getM (snd c)) 2 =? 0) eqn:Hq;
    [|exact H3].
  apply fold_left_sound; [|exact H3].
  intros t' order Ht'. now apply multipole_step_sound.
Qed.

End Soundness.

Section Completeness.

Variable hdr : Headers.
Variable mec : MatrixElementCache.
Variable charge : Z.
Variables r c : enumerated_state.

Lemma efield_done_extends i t t' :
  extends t t' -> efield_done hdr mec r c i t -> efield_done hdr mec r c i t'.
Proof.
  intros (Hc & HE & _) (H1 & H2). split; [auto|].
  intros Hs. destruct (H2 Hs). auto.
Qed.

Lemma bfield_done_extends i t t' :
  extends t t' -> bfield_done hdr mec r c i t -> bfield_done hdr mec r c i t'.
Proof.
  intros (Hc & _ & HB & _) (H1 & H2). split; [auto|].
  intros Hs. destruct (H2 Hs). auto.
Qed.

Lemma diamagnetism_done_extends i t t' :
  extends t t' -> diamagnetism_done hdr mec r c i t -> diamagnetism_done hdr mec r c i t'.
Proof.
  intros (Hc & _ & _ & HD & _) (H1 & H2). split; [auto|].
  intros Hs. destruct (H2 Hs). auto.
Qed.

Lemma multipole_done_extends i t t' :
  extends t t' -> multipole_done hdr mec r c i t -> multipole_done hdr mec r c i t'.
Proof.
  intros (Hc & _ & _ & _ & HO) (H1 & H2). split; [auto|].
  intros Hs. destruct (H2 Hs). auto.
Qed.

Lemma efield_loop_complete before : forall i behind t,
  above_diagonal i r c = false ->
  (forall i', i' ∈ before -> above_diagonal i' r c = false ->
     selectionRulesMultipoleNew hdr (snd r) (snd c) 1 i' = false) ->
  efield_done hdr mec r c i (efield_loop hdr mec r c (before ++ i :: behind) t).
Proof.
  unfold above_diagonal.
  induction before as [|b before IH]; intros i behind t Hi Hbefore; cbn [app efield_loop].
  - rewrite Hi.
    destruct (selectionRulesMultipoleNew hdr (snd r) (snd c) 1 i) eqn:Hs.
    + unfold efield_done. cbn. rewrite !elem_of_app, !list_elem_of_singleton. split; [auto|].
      intros _. split; [auto|]. apply triplets_of_addTriplet. auto.
    + eapply efield_done_extends; [apply efield_loop_extends|].
      split; [|congruence]. apply called_calls. right. apply list_elem_of_here.
  - assert (Hrest : forall i', i' ∈ before ->
                      (i' =? 0) && (fst r <? fst c)%nat = false ->
                      selectionRulesMultipoleNew hdr (snd r) (snd c) 1 i' = false).
    { intros i' Hin. apply Hbefore. now apply list_elem_of_further. }
    destruct ((b =? 0) && (fst r <? fst c)%nat) eqn:Hb; [now apply IH|].
    rewrite (Hbefore b (list_elem_of_here _ _) Hb). now apply IH.
Qed.

Lemma bfield_loop_complete before : forall i behind t,
  above_diagonal i r c = false ->
  (forall i', i' ∈ before -> above_diagonal i' r c = false ->
     selectionRulesMomentumNew hdr (snd r) (snd c) i' = false) ->
  bfield_done hdr mec r c i (bfield_loop hdr mec r c (before ++ i :: behind) t).
Proof.
  unfold above_diagonal.
  induction before as [|b before IH]; intros i behind t Hi Hbefore; cbn [app bfield_loop].
  - rewrite Hi.
    destruct (selectionRulesMomentumNew hdr (snd r) (snd c) i) eqn:Hs.
    + unfold bfield_done. cbn. rewrite !elem_of_app, !list_elem_of_singleton. split; [auto|].
      intros _. split; [auto|]. apply triplets_of_addTriplet. auto.
    + eapply bfield_done_extends; [apply bfield_loop_extends|].
      split; [|congruence]. apply called_calls. right. apply list_elem_of_here.
  - assert (Hrest : forall i', i' ∈ before ->
                      (i' =? 0) && (fst r <? fst c)%nat = false ->
                      selectionRulesMomentumNew hdr (snd r) (snd c) i' = false).
    { intros i' Hin. apply Hbefore. now apply list_elem_of_further. }
    destruct ((b =? 0) && (fst r <? fst c)%nat) eqn:Hb; [now apply IH|].
    rewrite (Hbefore b (list_elem_of_here _ _) Hb). now apply IH.
Qed.

Lemma diamagnetism_step_complete i t :
  above_diagonal (snd i) r c = false ->
  diamagnetism_done hdr mec r c i (diamagnetism_step hdr mec r c t i).
Proof.
  unfold above_diagonal, diamagnetism_step, diamagnetism_done. intros ->.
  destruct (selectionRulesMultipoleNew hdr (snd r) (snd c) (fst i) (snd i)) eqn:Hs.
  - cbn. rewrite !elem_of_app, !list_elem_of_singleton. split; [auto|].
    intros _. split; [auto|]. apply triplets_of_addTriplet. auto.
  - split; [|congruence]. apply called_calls. right. apply list_elem_of_here.
Qed.

Lemma multipole_step_complete order t :
  multipole_done hdr mec r c order (multipole_step hdr mec r c t order).
Proof.
  unfold multipole_step, multipole_done.
  destruct (selectionRulesMultipoleNew_order hdr (snd r) (snd c) order) eqn:Hs.
  - cbn. rewrite !elem_of_app, !list_elem_of_singleton. split; [auto|].
    intros _. split; [auto|]. apply triplets_of_addTriplet. auto.
  - split; [|congruence]. apply called_calls. right. apply list_elem_of_here.
Qed.

Lemma pair_done_extends rg t t' :
  extends t t' -> pair_done hdr mec charge r c rg t -> pair_done hdr mec charge r c rg t'.
Proof.
  intros Hext (HE & HB & HD & HO). unfold pair_done. split; [|split; [|split]].
  - intros i Hi. eapply efield_done_extends; eauto.
  - intros i Hi. eapply bfield_done_extends; eauto.
  - intros i Hi Hd. eapply diamagnetism_done_extends; eauto.
  - intros Hch Hq order Ho. eapply multipole_done_extends; eauto.
Qed.

Lemma pair_step_complete rg t :
  pair_done hdr mec charge r c rg (pair_step hdr mec charge rg c r t).
Proof.
  unfold pair_done. split; [|split; [|split]].
  - intros i (before & behind & Hr & Hi & Hbefore).
    unfold pair_step. rewrite Hr.
    set (t1 := efield_loop hdr mec r c (before ++ i :: behind) t).
    assert (Hdone : efield_done hdr mec r c i t1)
      by apply (efield_loop_complete before i behind t Hi Hbefore).
    assert (H3 : extends t1
                   (fold_left (diamagnetism_step hdr mec r c) (drange rg)
                      (bfield_loop hdr mec r c (brange rg) t1))).
    { eapply extends_trans; [apply bfield_loop_extends|].
      apply fold_left_extends, diamagnetism_step_extends. }
    apply (efield_done_extends i t1); [|exact Hdone].
    destruct (charge =? 0); [exact H3|].
    destruct (Z.quot (State.getM (snd r) - State.getM (snd c)) 2 =? 0); [|exact H3].
    eapply extends_trans; [exact H3|].
    apply fold_left_extends, multipole_step_extends.
  - intros i (before & behind & Hr & Hi & Hbefore).
    unfold pair_step. rewrite Hr.
    set (t1 := efield_loop hdr mec r c (erange rg) t).
    set (t2 := bfield_loop hdr mec r c (before ++ i :: behind) t1).
    assert (Hdone : bfield_done hdr mec r c i t2)
      by apply (bfield_loop_complete before i behind t1 Hi Hbefore).
    assert (H3 : extends t2 (fold_left (diamagnetism_step hdr mec r c) (drange rg) t2))
      by apply fold_left_extends, diamagnetism_step_extends.
    apply (bfield_done_extends i t2); [|exact Hdone].
    destruct (charge =? 0); [exact H3|].
    destruct (Z.quot (State.getM (snd r) - State.getM (snd c)) 2 =? 0); [|exact H3].
    eapply extends_trans; [exact H3|].
    apply fold_left_extends, multipole_step_extends.
  - intros i Hi Hd. unfold pair_step.
    set (t2 := bfield_loop hdr mec r c (brange rg)
                 (efield_loop hdr mec r c (erange rg) t)).
    assert (H3 : diamagnetism_done hdr mec r c i
                   (fold_left (diamagnetism_step hdr mec r c) (drange rg) t2)).
    { apply (fold_left_establishes _ _ _ i).
      - apply diamagnetism_step_extends.
      - intros ? ?. apply diamagnetism_done_extends.
      - intros t'. now apply diamagnetism_step_complete.
      - exact Hi. }
    destruct (charge =? 0); [exact H3|].
    destruct (Z.quot (State.getM (snd r) - State.getM (snd c)) 2 =? 0); [|exact H3].
    eapply diamagnetism_done_extends; [|exact H3].
    apply fold_left_extends, multipole_step_extends.
  - intros Hch Hq order Ho. unfold pair_step.
    destruct (Z.eqb_spec charge 0) as [? | _]; [contradiction|].
    unfold momentum_conserved in Hq. rewrite Hq.
    apply (fold_left_establishes _ _ _ order).
    + apply multipole_step_extends.
    + intros ? ?. apply multipole_done_extends.
    + intros t'. apply multipole_step_complete.
    + exact Ho.
Qed.

End Completeness.

Section LoopOverPairs.

Variable hdr : Headers.
Variable mec : MatrixElementCache.
Variable charge : Z.
Variable rg : ranges.
Variable all : list enumerated_state.

Lemma row_loop_extends l t c : extends t (row_loop hdr mec charge rg l t c).
Proof.
  unfold row_loop. destruct (State.isArtificial (snd c)); [apply extends_refl|].
  apply fold_left_extends. intros t' r.
  destruct (State.isArtificial (snd r)); [apply extends_refl | apply pair_step_extends].
Qed.

Lemma row_loop_sound l t c :
  (forall r, r ∈ l -> r ∈ all) -> c ∈ all ->
  sound hdr mec charge all t -> sound hdr mec charge all (row_loop hdr mec charge rg l t c).
Proof.
  intros Hl Hc. unfold row_loop.
  destruct (State.isArtificial (snd c)) eqn:Hac; [auto|].
  revert t. induction l as [|r l IH]; intros t Ht; cbn [fold_left]; [exact Ht|].
  apply IH.
  - intros r' Hr'. apply Hl. now apply list_elem_of_further.
  - destruct (State.isArtificial (snd r)) eqn:Har; [exact Ht|].
    apply pair_step_sound; [|exact Ht].
    unfold reached. repeat split; auto. apply Hl, list_elem_of_here.
Qed.

Lemma column_loop_sound : sound hdr mec charge all (column_loop hdr mec charge rg all).
Proof.
  unfold column_loop.
  assert (H0 : sound hdr mec charge all (InteractionTriplets ∅ ∅ ∅ ∅ [])).
  { unfold sound, triplets_of; cbn. split; [intros e H; inversion H|].
    repeat split; intros i tr H; rewrite lookup_empty in H; inversion H. }
  assert (Hgen : forall l t, (forall c, c ∈ l -> c ∈ all) ->
                   sound hdr mec charge all t ->
                   sound hdr mec charge all
                     (fold_left (row_loop hdr mec charge rg all) l t)).
  { induction l as [|c l IH]; intros t Hl Ht; cbn [fold_left]; [exact Ht|].
    apply IH.
    - intros c' Hc'. apply Hl. now apply list_elem_of_further.
    - apply row_loop_sound; auto. apply Hl, list_elem_of_here. }
  apply Hgen; auto.
Qed.

Lemma column_loop_complete r c :
  reached all r c -> pair_done hdr mec charge r c rg (column_loop hdr mec charge rg all).
Proof.
  intros (Hr & Hc & Har & Hac). unfold column_loop.
  apply (fold_left_establishes _ _ _ c).
  - intros t c'. apply row_loop_extends.
  - intros t t'. apply pair_done_extends.
  - intros t. unfold row_loop. rewrite Hac.
    apply (fold_left_establishes _ _ _ r).
    + intros t' r'.
      destruct (State.isArtificial (snd r')); [apply extends_refl | apply pair_step_extends].
    + intros t1 t2. apply pair_done_extends.
    + intros t'. rewrite Har. apply pair_step_complete.
    + exact Hr.
  - exact Hc.
Qed.

End LoopOverPairs.

Lemma enumerated_lookup {A} (l : list A) (x : nat * A) :
  x ∈ imap (fun i a => (i, a)) l <-> l !! fst x = Some (snd x).
Proof.
  rewrite elem_of_lookup_imap. split.
  - intros (i & a & -> & Hl). exact Hl.
  - intros Hl. exists (fst x), (snd x). split; [now destruct x | exact Hl].
Qed.

Lemma enumerated_index r r' (l : list StateOne) :
  r ∈ enumerated l -> r' ∈ enumerated l -> fst r = fst r' -> snd r = snd r'.
Proof.
  unfold enumerated. rewrite !enumerated_lookup. intros H1 H2 E.
  rewrite E in H1. congruence.
Qed.

(** The pairs with an artificial state leave no trace. *)
Lemma column_loop_skips hdr mec charge rg (l : list StateOne) r c :
  r ∈ enumerated l -> c ∈ enumerated l ->
  State.isArtificial (snd r) = true \/ State.isArtificial (snd c) = true ->
  skipped r c (column_loop hdr mec charge rg (enumerated l)).
Proof.
  intros Hr Hc Hart.
  destruct (column_loop_sound hdr mec charge rg (enumerated l))
    as (Hcalls & HE & HB & HD & HO).
  assert (Hpair : forall r' c', reached (enumerated l) r' c' ->
                    ~ (fst r' = fst r /\ fst c' = fst c)).
  { intros r' c' (Hr' & Hc' & Har' & Hac') (E1 & E2).
    apply (enumerated_index _ _ _ Hr' Hr) in E1.
    apply (enumerated_index _ _ _ Hc' Hc) in E2.
    destruct Hart; congruence. }
  unfold skipped. split; [|split; [|split; [|split]]].
  - intros e He Heq. destruct (Hcalls e He) as (r' & c' & (_ & _ & Har' & Hac') & Hs).
    rewrite Hs in Heq. injection Heq as E1 E2. destruct Hart; congruence.
  - intros i tr Htr. destruct (HE i tr Htr) as (r' & c' & Hre & _ & _ & ->).
    apply (Hpair r' c' Hre).
  - intros i tr Htr. destruct (HB i tr Htr) as (r' & c' & Hre & _ & _ & ->).
    apply (Hpair r' c' Hre).
  - intros i tr Htr. destruct (HD i tr Htr) as (r' & c' & Hre & _ & _ & ->).
    apply (Hpair r' c' Hre).
  - intros i tr Htr. destruct (HO i tr Htr) as (r' & c' & Hre & _ & _ & _ & ->).
    apply (Hpair r' c' Hre).
Qed.

(** C5, as stated, fails: in a basis with the two states of [n = 1] and one
    artificial state, in an electric field along x and with selection rules
    that always hold, the pair of the first state and the artificial state
    has only one artificial state, but no selection rule is consulted for
    it. *)
Lemma interaction_loop_skips_pair_with_one_artificial_state :
  let r : enumerated_state := (0%nat, State.make "Rb" 1 0 1 (-1)) in
  let c : enumerated_state := (2%nat, State.artificial "dark") in
  r ∈ enumerated (states Example.with_dark)
  /\ c ∈ enumerated (states Example.with_dark)
  /\ State.isArtificial (snd r) = false
  /\ State.isArtificial (snd c) = true
  /\ erange (compute_ranges Example.with_dark) = [1]
  /\ selectionRulesMultipoleNew Example.permissive (snd r) (snd c) 1 1 = true
  /\ ~ efield_done Example.permissive Example.mec r c 1 Example.with_dark_loop.
Proof.
  cbv zeta. split; [|split; [|split; [|split; [|split; [|split]]]]].
  - apply enumerated_lookup. vm_compute. reflexivity.
  - apply enumerated_lookup. vm_compute. reflexivity.
  - reflexivity.
  - reflexivity.
  - vm_compute. reflexivity.
  - reflexivity.
  - intros (Hcall & _).
    apply (bool_decide_eq_true_2 _) in Hcall. vm_compute in Hcall. discriminate Hcall.
Qed.

(** C5, amended: the double loop of [initializeInteraction] passes over a
    pair of basis states whenever at least one of the two states is
    artificial (not only when both are): no selection rule is consulted, no
    matrix element queried and no triplet emitted for it.  For a pair of two
    states that are not artificial the selection rule is consulted for every
    component of the diamagnetic range, for every order of the multipole
    range when there is a charge and the momentum is conserved, and for the
    components of the electric and the magnetic range up to the first whose
    rule holds; the component zero is passed over for the pairs above the
    diagonal.  When a consulted rule holds, the matrix-element source is
    queried and the triplet of the pair is emitted.  Every triplet comes from
    such a pair and a rule that holds. *)
Theorem interaction_loop_skips_artificial_states (hdr : Headers) (mec : MatrixElementCache)
  (charge : Z) (rg : ranges) (l : list StateOne) :
  (forall r c, r ∈ enumerated l -> c ∈ enumerated l ->
     State.isArtificial (snd r) = true \/ State.isArtificial (snd c) = true ->
     skipped r c (column_loop hdr mec charge rg (enumerated l)))
  /\ (forall r c, reached (enumerated l) r c ->
        pair_done hdr mec charge r c rg (column_loop hdr mec charge rg (enumerated l)))
  /\ sound hdr mec charge (enumerated l) (column_loop hdr mec charge rg (enumerated l)).
Proof.
  split; [|split].
  - intros r c. apply column_loop_skips.
  - intros r c. apply column_loop_complete.
  - apply column_loop_sound.
Qed.

(** ** The operators of negated components *)

Section BuildOperators.

Context {K : Type} `{Countable K}.
Variable component : K -> Z.
Variable negated : K -> K.
Variable basis : eigen_sparse_t.
Variable n : nat.
Variable triplets : gmap K (list eigen_triplet_t).

Hypothesis component_negated : forall k, component (negated k) = - component k.
Hypothesis negated_inj : forall k k', negated k = negated k' -> k = k'.

(** A round leaves the other keys alone. *)
Lemma build_operator_other interaction j k :
  k <> j -> (component j <> 0 -> k <> negated j) ->
  build_operator component negated basis n triplets interaction j !! k = interaction !! k.
Proof.
  intros Hj Hn. unfold build_operator.
  destruct (Z.eqb_spec (component j) 0) as [E | E].
  - now rewrite lookup_insert_ne.
  - rewrite !lookup_insert_ne; auto. intros E'. apply (Hn E). now symmetry.
Qed.

Lemma build_operators_other keys : forall interaction k,
  k ∉ keys -> (forall j, j ∈ keys -> component j <> 0 -> k <> negated j) ->
  fold_left (build_operator component negated basis n triplets) keys interaction !! k = interaction !! k.
Proof.
  induction keys as [|j keys IH]; intros interaction k Hk Hn; cbn [fold_left];
    [reflexivity|].
  rewrite IH.
  - apply build_operator_other.
    + intros ->. apply Hk, list_elem_of_here.
    + apply Hn, list_elem_of_here.
  - intros Hin. apply Hk. now apply list_elem_of_further.
  - intros j' Hj'. apply Hn. now apply list_elem_of_further.
Qed.

(** What a round stores for its own key. *)
Lemma build_operator_key interaction i :
  built component negated basis n triplets (build_operator component negated basis n triplets interaction i) i.
Proof.
  unfold built, build_operator, adjoint_pair, triplets_of. split.
  - intros Hc. destruct (Z.eqb_spec (component i) 0) as [E | E]; [contradiction|].
    assert (Hne : negated i <> i).
    { intros E'. apply (f_equal component) in E'.
      rewrite component_negated in E'. lia. }
    split.
    + rewrite lookup_insert_ne by exact Hne. apply lookup_insert_eq.
    + eexists. split.
      * rewrite lookup_insert_ne by exact Hne. apply lookup_insert_eq.
      * apply lookup_insert_eq.
  - intros Hc. destruct (Z.eqb_spec (component i) 0) as [E | E]; [|contradiction].
    apply lookup_insert_eq.
Qed.

(** After the loop over keys without repetition and with components that
    are not negative, every key has what its round stored. *)
Lemma build_operators_built keys : forall interaction i,
  NoDup keys -> (forall k, k ∈ keys -> 0 <= component k) ->
  i ∈ keys ->
  built component negated basis n triplets (fold_left (build_operator component negated basis n triplets) keys interaction) i.
Proof.
  induction keys as [|j keys IH]; intros interaction i Hnd Hpos Hi.
  - inversion Hi.
  - apply NoDup_cons in Hnd as (Hj & Hnd). cbn [fold_left].
    apply elem_of_cons in Hi as [-> | Hi].
    2:{ apply IH; auto. intros k Hk. apply Hpos. now apply list_elem_of_further. }
    pose proof (build_operator_key interaction j) as (Hnz & Hz).
    assert (Hkeep : fold_left (build_operator component negated basis n triplets) keys (build_operator component negated basis n triplets interaction j) !! j
                    = build_operator component negated basis n triplets interaction j !! j).
    { apply build_operators_other; [exact Hj|].
      intros j' Hj' Hc' E. apply (f_equal component) in E.
      rewrite component_negated in E.
      pose proof (Hpos j (list_elem_of_here _ _)).
      pose proof (Hpos j' (list_elem_of_further _ _ _ Hj')). lia. }
    unfold built. split.
    + intros Hc. destruct (Hnz Hc) as (H1 & M & H2 & H3).
      assert (Hkeep' : fold_left (build_operator component negated basis n triplets) keys (build_operator component negated basis n triplets interaction j) !! negated j
                       = build_operator component negated basis n triplets interaction j !! negated j).
      { apply build_operators_other.
        - intros Hin. pose proof (Hpos _ (list_elem_of_further _ _ _ Hin)) as Hp.
          rewrite component_negated in Hp.
          pose proof (Hpos j (list_elem_of_here _ _)). lia.
        - intros j' Hj' _ E. apply negated_inj in E. subst j'. contradiction. }
      split; [now rewrite Hkeep|].
      exists M. now rewrite Hkeep, Hkeep'.
    + intros Hc. rewrite Hkeep. now apply Hz.
Qed.

End BuildOperators.

(** The ranges have no repetition, and their components are not negative. *)
Lemma NoDup_fst_filter {A B} (P : A * B -> bool) (l : list (A * B)) :
  NoDup (map fst l) -> NoDup (map fst (List.filter P l)).
Proof.
  induction l as [|x l IH]; cbn; [auto|].
  intros Hnd. apply NoDup_cons in Hnd as (Hx & Hnd).
  destruct (P x); cbn; [|auto].
  apply NoDup_cons. split; [|auto].
  intros Hin. apply Hx.
  apply list_elem_of_In, in_map_iff in Hin as (y & Hy & Hin).
  apply filter_In in Hin as (Hin & _).
  apply list_elem_of_In, in_map_iff. eauto.
Qed.

Lemma NoDup_list_filter {A} (P : A -> bool) (l : list A) :
  NoDup l -> NoDup (List.filter P l).
Proof.
  induction l as [|x l IH]; cbn; [auto|].
  intros Hnd. apply NoDup_cons in Hnd as (Hx & Hnd).
  destruct (P x); [|auto].
  apply NoDup_cons. split; [|auto].
  intros Hin. apply Hx. apply list_elem_of_In, filter_In in Hin as (Hin & _).
  now apply list_elem_of_In.
Qed.

Lemma NoDup_keys {K V} `{Countable K} (m : gmap K V) : NoDup (map fst (map_to_list m)).
Proof. exact (NoDup_fst_map_to_list m). Qed.

Lemma in_filtered_keys {A B} (P : A * B -> bool) (l : list (A * B)) k :
  k ∈ map fst (List.filter P l) -> exists v, (k, v) ∈ l /\ P (k, v) = true.
Proof.
  intros Hin. apply list_elem_of_In, in_map_iff in Hin as ((k' & v) & <- & Hin).
  apply filter_In in Hin as (Hin & HP). exists v. split; [|exact HP].
  now apply list_elem_of_In.
Qed.

Lemma efield_range_spec s :
  NoDup (efield_range s) /\ (forall k, k ∈ efield_range s -> 0 <= k).
Proof.
  unfold efield_range. split; [apply NoDup_fst_filter, NoDup_keys|].
  intros k Hk. apply in_filtered_keys in Hk as (v & _ & HP). cbn in HP.
  apply andb_true_iff in HP as (HP & _). apply andb_true_iff in HP as (HP & _).
  apply negb_true_iff, Z.ltb_ge in HP. exact HP.
Qed.

Lemma bfield_range_spec s :
  NoDup (bfield_range s) /\ (forall k, k ∈ bfield_range s -> 0 <= k).
Proof.
  unfold bfield_range. split; [apply NoDup_fst_filter, NoDup_keys|].
  intros k Hk. apply in_filtered_keys in Hk as (v & _ & HP). cbn in HP.
  apply andb_true_iff in HP as (HP & _). apply andb_true_iff in HP as (HP & _).
  apply negb_true_iff, Z.ltb_ge in HP. exact HP.
Qed.

Lemma diamagnetism_range_spec s :
  NoDup (diamagnetism_range s) /\ (forall k, k ∈ diamagnetism_range s -> 0 <= snd k).
Proof.
  unfold diamagnetism_range. split; [apply NoDup_fst_filter, NoDup_keys|].
  intros k Hk. apply in_filtered_keys in Hk as (v & _ & HP). cbn in HP.
  apply andb_true_iff in HP as (HP & _). apply andb_true_iff in HP as (HP & _).
  apply andb_true_iff in HP as (HP & _).
  apply negb_true_iff, Z.ltb_ge in HP. exact HP.
Qed.

Lemma multipole_range_spec s :
  NoDup (multipole_range s)
  /\ (forall k, k ∈ multipole_range s -> 0 < k /\ charge s <> 0).
Proof.
  unfold multipole_range.
  destruct (Z.eqb_spec (charge s) 0) as [E | E].
  - split; [constructor|]. intros k Hk. inversion Hk.
  - split.
    + apply NoDup_list_filter.
      change (NoDup (Z.of_nat <$> seq 1 (ordermax s))).
      apply (NoDup_fmap_2 _), NoDup_seq.
    + intros k Hk. apply list_elem_of_In, filter_In in Hk as (Hk & _).
      apply in_map_iff in Hk as (o & <- & Ho). apply in_seq in Ho. split; [lia | exact E].
Qed.

(** The triplets of a component zero are on and below the diagonal. *)
Lemma sound_lower_triangle hdr mec charge all t :
  sound hdr mec charge all t ->
  (forall tr, tr ∈ triplets_of (interaction_efield_triplets t) 0 ->
     (t_col tr <= t_row tr)%nat)
  /\ (forall tr, tr ∈ triplets_of (interaction_bfield_triplets t) 0 ->
        (t_col tr <= t_row tr)%nat)
  /\ (forall k tr, tr ∈ triplets_of (interaction_diamagnetism_triplets t) (k, 0) ->
        (t_col tr <= t_row tr)%nat).
Proof.
  intros (_ & HE & HB & HD & _). unfold above_diagonal in *. repeat split.
  - intros tr Htr. destruct (HE 0 tr Htr) as (r & c & _ & Hd & _ & ->). cbn in *.
    apply Nat.ltb_ge in Hd. exact Hd.
  - intros tr Htr. destruct (HB 0 tr Htr) as (r & c & _ & Hd & _ & ->). cbn in *.
    apply Nat.ltb_ge in Hd. exact Hd.
  - intros k tr Htr. destruct (HD (k, 0) tr Htr) as (r & c & _ & Hd & _ & ->). cbn in *.
    apply Nat.ltb_ge in Hd. exact Hd.
Qed.

Lemma negated_component_spec k : snd (negated_component k) = - snd k.
Proof. reflexivity. Qed.

Lemma negated_component_inj k k' : negated_component k = negated_component k' -> k = k'.
Proof.
  destruct k as [a b], k' as [a' b']. unfold negated_component; cbn.
  intros E. injection E as -> E. f_equal. lia.
Qed.

Lemma opp_spec (k : Z) : id (- k) = - id k.
Proof. reflexivity. Qed.

Lemma build_interaction_fields rg t s :
  interaction_efield (build_interaction rg t s)
  = fold_left (build_operator id Z.opp (basisvectors s) (length (states s))
                 (interaction_efield_triplets t))
      (erange rg) (interaction_efield s)
  /\ interaction_bfield (build_interaction rg t s)
     = fold_left (build_operator id Z.opp (basisvectors s) (length (states s))
                    (interaction_bfield_triplets t))
         (brange rg) (interaction_bfield s)
  /\ interaction_diamagnetism (build_interaction rg t s)
     = fold_left (build_operator snd negated_component (basisvectors s)
                    (length (states s)) (interaction_diamagnetism_triplets t))
         (drange rg) (interaction_diamagnetism s)
  /\ (charge s <> 0 ->
      interaction_multipole (build_interaction rg t s)
      = fold_left (build_operator id Z.opp (basisvectors s) (length (states s))
                     (interaction_multipole_triplets t))
          (orange rg) (interaction_multipole s)).
Proof.
  unfold build_interaction. cbn.
  destruct (Z.eqb_spec (charge s) 0) as [E | E]; cbn; repeat split; auto.
  intros; contradiction.
Qed.

(** C1, as stated, fails: for the four states [n = 2], [l = 1], [j = 3/2] in
    a magnetic field with components along x and z, the stored diamagnetic
    operator of rank 2 and component -1 is not [(+1) = (-1)^2] times the
    adjoint of the operator of component 1; their coefficients at row 0,
    column 1 are [-0.125] and [0.125]. *)
Lemma diamagnetic_component_one_not_adjoint_with_rank_sign :
  (2, 1) ∈ drange (compute_ranges
                     (after (initializeBasis Example.hdr
                        (after (setBfield (1, 0, 1)%float
                           (set_range_j [3] (set_range_l [1]
                              (set_range_n [2] Example.fresh))))))))
  /\ ~ adjoint_pair negated_component 2
         (interaction_diamagnetism Example.magnetic) (2, 1).
Proof.
  split.
  - apply (bool_decide_eq_true_1 _). vm_compute. reflexivity.
  - intros (M & HM & Hneg).
    assert (Hstored :
              PrimFloat.ltb
                (Matrix.coeff
                   (matrix_at (interaction_diamagnetism Example.magnetic) (2, -1)) 0 1) 0
              = true) by (vm_compute; reflexivity).
    assert (Hclaimed :
              PrimFloat.ltb
                (Matrix.coeff
                   (Matrix.scale_left (pow_m1 2)
                      (Matrix.adjoint
                         (matrix_at (interaction_diamagnetism Example.magnetic) (2, 1))))
                   0 1) 0
              = false) by (vm_compute; reflexivity).
    unfold matrix_at in Hstored, Hclaimed.
    change (negated_component (2, 1)) with (2, -1) in Hneg.
    rewrite HM in Hclaimed. rewrite Hneg in Hstored.
    cbn [from_option id] in Hstored, Hclaimed.
    rewrite Hclaimed in Hstored. discriminate Hstored.
Qed.

(** C1, amended: after [initializeInteraction], for every family and every
    operator built for a component [c] that is not zero, the operator stored
    for [-c] is [(-1)^c] times the adjoint of the operator stored for [c];
    the exponent is the component (for the multipole family the order, which
    is the key), not the rank.  For the fields (rank 1, component 1), the
    diamagnetic components 2 and the multipole orders this is [(-1)^rank];
    for the diamagnetic component 1 of rank 2 the sign is [-1].  The
    operator of a component 0 is stored once, built from triplets on and
    below the diagonal that are mirrored by the self-adjoint view when the
    operator is transformed into the basis. *)
Theorem initializeInteraction_adjoint_components (hdr : Headers) (s : SystemOne) :
  (forall i, i ∈ efield_range s -> i <> 0 ->
     adjoint_pair Z.opp i (interaction_efield (initializeInteraction hdr s)) i)
  /\ (forall i, i ∈ bfield_range s -> i <> 0 ->
        adjoint_pair Z.opp i (interaction_bfield (initializeInteraction hdr s)) i)
  /\ (forall i, i ∈ diamagnetism_range s -> snd i <> 0 ->
        adjoint_pair negated_component (snd i)
          (interaction_diamagnetism (initializeInteraction hdr s)) i)
  /\ (forall i, i ∈ multipole_range s ->
        adjoint_pair Z.opp i (interaction_multipole (initializeInteraction hdr s)) i)
  /\ (0 ∈ efield_range s ->
      stored_once (basisvectors s) (length (states s))
        (interaction_efield (initializeInteraction hdr s)) 0)
  /\ (0 ∈ bfield_range s ->
      stored_once (basisvectors s) (length (states s))
        (interaction_bfield (initializeInteraction hdr s)) 0)
  /\ (forall k, (k, 0) ∈ diamagnetism_range s ->
        stored_once (basisvectors s) (length (states s))
          (interaction_diamagnetism (initializeInteraction hdr s)) (k, 0)).
Proof.
  unfold initializeInteraction. cbn [erange brange drange orange compute_ranges].
  destruct (bool_decide (efield_range s = []) && bool_decide (bfield_range s = [])
            && bool_decide (diamagnetism_range s = [])
            && bool_decide (multipole_range s = [])) eqn:Hnothing.
  { apply andb_true_iff in Hnothing as (Hnothing & Ho).
    apply andb_true_iff in Hnothing as (Hnothing & Hd).
    apply andb_true_iff in Hnothing as (He & Hb).
    apply bool_decide_eq_true_1 in He, Hb, Hd, Ho. rewrite He, Hb, Hd, Ho.
    repeat split; intros; match goal with H : _ ∈ [] |- _ => inversion H end. }
  set (rg := compute_ranges s).
  set (t := column_loop hdr (cache s) (charge s) rg (enumerated (states s))).
  destruct (build_interaction_fields rg t s) as (HE & HB & HD & HO).
  destruct (efield_range_spec s) as (HEnd & HEpos).
  destruct (bfield_range_spec s) as (HBnd & HBpos).
  destruct (diamagnetism_range_spec s) as (HDnd & HDpos).
  destruct (multipole_range_spec s) as (HOnd & HOpos).
  destruct (sound_lower_triangle _ _ _ _ _
              (column_loop_sound hdr (cache s) (charge s) rg (enumerated (states s))))
    as (HEl & HBl & HDl).
  fold t in HEl, HBl, HDl.
  split; [|split; [|split; [|split; [|split; [|split]]]]].
  - intros i Hi Hnz. rewrite HE.
    apply (build_operators_built id Z.opp _ _ _ opp_spec Z.opp_inj _ _ i HEnd HEpos Hi).
    exact Hnz.
  - intros i Hi Hnz. rewrite HB.
    apply (build_operators_built id Z.opp _ _ _ opp_spec Z.opp_inj _ _ i HBnd HBpos Hi).
    exact Hnz.
  - intros i Hi Hnz. rewrite HD.
    apply (build_operators_built snd negated_component _ _ _ negated_component_spec
             negated_component_inj _ _ i HDnd HDpos Hi).
    exact Hnz.
  - intros i Hi. destruct (HOpos i Hi) as (Hpos & Hch). rewrite (HO Hch).
    assert (HOpos' : forall k, k ∈ multipole_range s -> 0 <= id k).
    { intros k Hk. destruct (HOpos k Hk). unfold id. lia. }
    apply (build_operators_built id Z.opp _ _ _ opp_spec Z.opp_inj _ _ i HOnd HOpos' Hi).
    unfold id. lia.
  - intros Hi. rewrite HE. exists (triplets_of (interaction_efield_triplets t) 0).
    split; [exact HEl|].
    apply (build_operators_built id Z.opp _ _ _ opp_spec Z.opp_inj _ _ 0 HEnd HEpos Hi).
    reflexivity.
  - intros Hi. rewrite HB. exists (triplets_of (interaction_bfield_triplets t) 0).
    split; [exact HBl|].
    apply (build_operators_built id Z.opp _ _ _ opp_spec Z.opp_inj _ _ 0 HBnd HBpos Hi).
    reflexivity.
  - intros k Hi. rewrite HD.
    exists (triplets_of (interaction_diamagnetism_triplets t) (k, 0)).
    split; [apply HDl|].
    apply (build_operators_built snd negated_component _ _ _ negated_component_spec
             negated_component_inj _ _ (k, 0) HDnd HDpos Hi).
    reflexivity.
Qed.

(** ** The loops of initializeBasis *)

(** A loop keeps what its body keeps. *)
Lemma for_each_invariant {A S} (P : S -> Prop) (body : A -> S -> outcome S) l :
  (forall x st, P st -> P (after (body x st))) ->
  forall st, P st -> P (after (for_each body l st)).
Proof.
  intros Hbody. induction l as [|x l IH]; intros st Hst; cbn; [exact Hst|].
  specialize (Hbody x st Hst).
  destruct (body x st) as [st' | e st']; cbn in *; auto.
Qed.

Lemma find_state_Some state l row :
  find_state state l = Some row -> l !! row = Some state.
Proof.
  unfold find_state. destruct (list_find (fun x => x = state) l) as [[i x]|] eqn:E;
    [|discriminate].
  cbn. intros [= <-]. apply list_find_Some in E as (Hl & -> & _). exact Hl.
Qed.

Lemma find_state_None state l : find_state state l = None -> state ∉ l.
Proof.
  unfold find_state. destruct (list_find (fun x => x = state) l) as [[i x]|] eqn:E;
    [discriminate|].
  intros _ Hin. apply list_find_None in E. rewrite Forall_forall in E.
  now apply (E state Hin).
Qed.

(** [addBasisvectors] appends one triplet, whose row is the row of the
    state, registered before or now. *)
Lemma addBasisvectors_spec state idx value bb :
  NoDup (bb_states bb) ->
  exists row,
    bb_basisvectors_triplets (addBasisvectors state idx value bb)
    = bb_basisvectors_triplets bb ++ [Triplet row idx value]
    /\ bb_states (addBasisvectors state idx value bb) !! row = Some state
    /\ NoDup (bb_states (addBasisvectors state idx value bb))
    /\ (forall i x, bb_states bb !! i = Some x ->
          bb_states (addBasisvectors state idx value bb) !! i = Some x)
    /\ (forall x, x ∈ bb_states (addBasisvectors state idx value bb)
                  <-> x ∈ bb_states bb \/ x = state)
    /\ bb_idx (addBasisvectors state idx value bb) = bb_idx bb
    /\ bb_hamiltonian_triplets (addBasisvectors state idx value bb)
       = bb_hamiltonian_triplets bb
    /\ bb_cerr (addBasisvectors state idx value bb) = bb_cerr bb.
Proof.
  intros Hnd. unfold addBasisvectors.
  destruct (find_state state (bb_states bb)) as [row|] eqn:E; cbn.
  - exists row. apply find_state_Some in E. repeat split; auto.
    + intros [Hx | ->]; [exact Hx|]. eapply list_elem_of_lookup_2, E.
  - exists (length (bb_states bb)). apply find_state_None in E. repeat split; auto.
    + now apply list_lookup_middle.
    + apply NoDup_app. repeat split; [exact Hnd | | apply NoDup_singleton].
      intros x Hx Hx'. apply list_elem_of_singleton in Hx'. now subst.
    + intros i x Hi. rewrite lookup_app_l; [exact Hi|]. eapply lookup_lt_Some, Hi.
    + rewrite elem_of_app, list_elem_of_singleton. auto.
    + rewrite elem_of_app, list_elem_of_singleton. auto.
Qed.

Lemma column_shape_extends hdr registry registry' col ts :
  (forall i x, registry !! i = Some x -> registry' !! i = Some x) ->
  column_shape hdr registry col ts -> column_shape hdr registry' col ts.
Proof.
  intros Hext [r state Hr Hts | r1 r2 state parity H1 H2 Hm Hts].
  - apply (single_state hdr registry' col ts r state); auto.
  - apply (reflection_pair hdr registry' col ts r1 r2 state parity); auto.
Qed.

Lemma column_triplets_app col ts ts' :
  column_triplets col (ts ++ ts') = column_triplets col ts ++ column_triplets col ts'.
Proof. unfold column_triplets. apply List.filter_app. Qed.

Lemma column_triplets_none col ts :
  (forall tr, tr ∈ ts -> t_col tr <> col) -> column_triplets col ts = [].
Proof.
  induction ts as [|t ts IH]; intros H; cbn; [reflexivity|].
  destruct (Nat.eqb_spec (t_col t) col) as [E | E].
  - exfalso. apply (H t); [apply list_elem_of_here | exact E].
  - apply IH. intros tr Htr. apply H. now apply list_elem_of_further.
Qed.

Lemma column_triplets_new col ts news :
  (forall tr, tr ∈ ts -> (t_col tr < col)%nat) ->
  (forall tr, tr ∈ news -> t_col tr = col) ->
  column_triplets col (ts ++ news) = news.
Proof.
  intros Hold Hnew. rewrite column_triplets_app, column_triplets_none.
  - cbn. unfold column_triplets. induction news as [|t news IH]; cbn; [reflexivity|].
    rewrite (Hnew t (list_elem_of_here _ _)), Nat.eqb_refl. f_equal.
    apply IH. intros tr Htr. apply Hnew. now apply list_elem_of_further.
  - intros tr Htr. specialize (Hold tr Htr). lia.
Qed.

Lemma column_triplets_old col ts news :
  (forall tr, tr ∈ news -> t_col tr <> col) ->
  column_triplets col (ts ++ news) = column_triplets col ts.
Proof.
  intros Hnew. rewrite column_triplets_app, (column_triplets_none col news Hnew).
  apply app_nil_r.
Qed.

(** [addSymmetrizedBasisvectors] keeps the invariant of the loops. *)
Lemma addSymmetrizedBasisvectors_invariant hdr state energy parity bb :
  basis_invariant hdr bb ->
  basis_invariant hdr (addSymmetrizedBasisvectors hdr state energy parity bb).
Proof.
  intros (Hnd & Hcols & Hshape). unfold addSymmetrizedBasisvectors.
  destruct (symmetrized parity state && (State.getM state <? 0)); [now repeat split|].
  set (bb1 := BasisBuild (bb_states bb) (bb_idx bb) (bb_basisvectors_triplets bb)
                (bb_hamiltonian_triplets bb ++ [Triplet (bb_idx bb) (bb_idx bb) energy])
                (bb_cerr bb)).
  destruct (symmetrized parity state) eqn:Hsym.
  - destruct (addBasisvectors_spec state (bb_idx bb) first_coefficient bb1 Hnd)
      as (r1 & Ht1 & Hr1 & Hnd1 & Hext1 & _).
    set (bb2 := addBasisvectors state (bb_idx bb) first_coefficient bb1) in *.
    destruct (addBasisvectors_spec (State.getReflected state) (bb_idx bb)
                (second_coefficient hdr parity state) bb2 Hnd1)
      as (r2 & Ht2 & Hr2 & Hnd2 & Hext2 & _).
    set (bb3 := addBasisvectors (State.getReflected state) (bb_idx bb)
                  (second_coefficient hdr parity state) bb2) in *.
    assert (Hts : bb_basisvectors_triplets bb3
                  = bb_basisvectors_triplets bb
                    ++ [Triplet r1 (bb_idx bb) first_coefficient;
                        Triplet r2 (bb_idx bb) (second_coefficient hdr parity state)]).
    { rewrite Ht2, Ht1. cbn. now rewrite <- app_assoc. }
    unfold basis_invariant. cbn [bb_states bb_idx bb_basisvectors_triplets].
    rewrite Hts. split; [exact Hnd2|]. split.
    + intros tr Htr. apply elem_of_app in Htr as [Htr | Htr].
      * specialize (Hcols tr Htr). lia.
      * apply elem_of_cons in Htr as [-> | Htr]; [cbn; lia|].
        apply list_elem_of_singleton in Htr as ->. cbn; lia.
    + intros col Hcol. destruct (decide (col = bb_idx bb)) as [-> | Hne].
      * rewrite column_triplets_new; [|exact Hcols|].
        2:{ intros tr Htr. apply elem_of_cons in Htr as [-> | Htr]; [reflexivity|].
            now apply list_elem_of_singleton in Htr as ->. }
        apply (reflection_pair hdr _ _ _ r1 r2 state parity); auto.
        unfold symmetrized in Hsym. apply andb_true_iff in Hsym as (_ & Hm).
        apply negb_true_iff, Z.eqb_neq in Hm. exact Hm.
      * rewrite column_triplets_old.
        2:{ intros tr Htr. apply elem_of_cons in Htr as [-> | Htr]; [cbn; lia|].
            apply list_elem_of_singleton in Htr as ->. cbn; lia. }
        eapply column_shape_extends; [|apply Hshape; lia].
        intros i x Hi. apply Hext2, Hext1. exact Hi.
  - destruct (addBasisvectors_spec state (bb_idx bb) 1%float bb1 Hnd)
      as (r1 & Ht1 & Hr1 & Hnd1 & Hext1 & _).
    set (bb2 := addBasisvectors state (bb_idx bb) 1%float bb1) in *.
    unfold basis_invariant. cbn [bb_states bb_idx bb_basisvectors_triplets].
    rewrite Ht1. cbn [bb_basisvectors_triplets bb1]. split; [exact Hnd1|]. split.
    + intros tr Htr. apply elem_of_app in Htr as [Htr | Htr].
      * specialize (Hcols tr Htr). lia.
      * apply list_elem_of_singleton in Htr as ->. cbn; lia.
    + intros col Hcol. destruct (decide (col = bb_idx bb)) as [-> | Hne].
      * rewrite column_triplets_new; [|exact Hcols|].
        2:{ intros tr Htr. now apply list_elem_of_singleton in Htr as ->. }
        apply (single_state hdr _ _ _ r1 state); auto.
      * rewrite column_triplets_old.
        2:{ intros tr Htr. apply list_elem_of_singleton in Htr as ->. cbn; lia. }
        eapply column_shape_extends; [|apply Hshape; lia].
        intros i x Hi. apply Hext1. exact Hi.
Qed.

Section LoopsKeepInvariant.

Variable hdr : Headers.
Variable s : SystemOne.

Lemma loop_m_invariant n l j energy allowed m bb :
  basis_invariant hdr bb ->
  basis_invariant hdr (after (loop_m hdr s n l j energy allowed m bb)).
Proof.
  intros Hbb. unfold loop_m.
  destruct (Z.abs m >? j); [exact Hbb|].
  match goal with |- context [if ?b then _ else _] => destruct b end; [exact Hbb|].
  cbn. now apply addSymmetrizedBasisvectors_invariant.
Qed.

Lemma loop_j_invariant s2 n l j bb :
  basis_invariant hdr bb -> basis_invariant hdr (after (loop_j hdr s s2 n l j bb)).
Proof.
  intros Hbb. unfold loop_j.
  destruct ((Z.abs (j - 2 * l) >? s2) || (j <? 0)); [exact Hbb|].
  destruct (negb (checkIsEnergyValid _ s)); [exact Hbb|].
  apply for_each_invariant; [|exact Hbb].
  intros m bb'. apply loop_m_invariant.
Qed.

Lemma loop_l_invariant s2 n l bb :
  basis_invariant hdr bb -> basis_invariant hdr (after (loop_l hdr s s2 n l bb)).
Proof.
  intros Hbb. unfold loop_l.
  destruct ((l >? n - 1) || (l <? 0)); [exact Hbb|].
  apply for_each_invariant; [|exact Hbb].
  intros j bb'. apply loop_j_invariant.
Qed.

Lemma loop_n_invariant s2 n bb :
  basis_invariant hdr bb -> basis_invariant hdr (after (loop_n hdr s s2 n bb)).
Proof.
  intros Hbb. unfold loop_n.
  apply for_each_invariant; [|exact Hbb].
  intros l bb'. apply loop_l_invariant.
Qed.

Lemma enumerate_states_invariant bb :
  basis_invariant hdr bb -> basis_invariant hdr (after (enumerate_states hdr s bb)).
Proof.
  intros Hbb. unfold enumerate_states.
  apply for_each_invariant; [|exact Hbb].
  intros n bb'. apply loop_n_invariant.
Qed.

Lemma check_user_state_after state bb : after (check_user_state hdr s state bb) = bb.
Proof.
  unfold check_user_state.
  destruct (contains_state state (bb_states bb)); [reflexivity|].
  now destruct (negb (State.isArtificial state)
                && negb (String.eqb (State.getSpecies state) (species s))).
Qed.

Lemma add_user_state_invariant state bb :
  basis_invariant hdr bb -> basis_invariant hdr (after (add_user_state hdr s state bb)).
Proof.
  intros Hbb. unfold add_user_state.
  match goal with
  | |- context [if ?b then BasisBuild ?a1 ?a2 ?a3 ?a4 ?a5 else bb] =>
      set (bb1 := if b then BasisBuild a1 a2 a3 a4 a5 else bb)
  end.
  assert (Hbb1 : basis_invariant hdr bb1).
  { unfold bb1. match goal with |- context [if ?b then _ else _] => destruct b end;
      [exact Hbb | exact Hbb]. }
  clearbody bb1.
  repeat match goal with
         | |- context [if ?b then _ else _] => destruct b; [exact Hbb1|]
         end.
  cbn. now apply addSymmetrizedBasisvectors_invariant.
Qed.

Lemma user_defined_states_invariant bb :
  basis_invariant hdr bb -> basis_invariant hdr (after (user_defined_states hdr s bb)).
Proof.
  intros Hbb. unfold user_defined_states.
  pose proof (for_each_invariant (basis_invariant hdr) (check_user_state hdr s)
                (states_to_add s)) as Hcheck.
  specialize (Hcheck (fun x st H => eq_ind_r _ H (check_user_state_after x st)) bb Hbb).
  destruct (for_each (check_user_state hdr s) (states_to_add s) bb) as [bb' | e bb'];
    cbn in Hcheck; [|exact Hcheck].
  apply for_each_invariant; [|exact Hcheck].
  intros state bb''. apply add_user_state_invariant.
Qed.

End LoopsKeepInvariant.

(** A basis that [initializeBasis] returns is built from variables that
    satisfy the invariant of the loops. *)
Lemma initializeBasis_returns hdr s s' :
  NoDup (states s) ->
  initializeBasis hdr s = Returns s' ->
  exists bb, basis_invariant hdr bb /\ s' = build_data s bb.
Proof.
  intros Hnd. unfold initializeBasis.
  destruct (bool_decide (range_n s = [])
            && (PrimFloat.eqb (energy_min s) double_lowest
                || PrimFloat.eqb (energy_max s) double_max)); [discriminate|].
  destruct (bool_decide (range_n s = [])); [discriminate|].
  set (bb0 := BasisBuild (states s) 0 [] [] (cerr s)).
  assert (H0 : basis_invariant hdr bb0).
  { unfold basis_invariant, bb0; cbn. split; [exact Hnd|].
    split; [intros tr Htr; inversion Htr | intros col Hcol; lia]. }
  pose proof (enumerate_states_invariant hdr s bb0 H0) as H1.
  destruct (enumerate_states hdr s bb0) as [bb1 | e bb1]; [|discriminate].
  cbn in H1.
  pose proof (user_defined_states_invariant hdr s bb1 H1) as H2.
  destruct (user_defined_states hdr s bb1) as [bb2 | e bb2]; [|discriminate].
  cbn in H2. intros [= <-]. exists bb2. split; [exact H2 | reflexivity].
Qed.

(** ** The columns of the basis *)

Lemma nth_map_seq {A} (g : nat -> A) (d : A) m c :
  (c < m)%nat -> nth c (map g (seq 0 m)) d = g c.
Proof.
  intros Hc.
  rewrite (nth_indep _ d (g 0%nat)) by (rewrite length_map, length_seq; exact Hc).
  rewrite map_nth, seq_nth by exact Hc. reflexivity.
Qed.

Lemma coeff_tabulate n m f r c :
  (r < n)%nat -> (c < m)%nat -> Matrix.coeff (Matrix.tabulate n m f) r c = f r c.
Proof.
  intros Hr Hc. unfold Matrix.coeff, Matrix.tabulate; cbn [coeffs].
  rewrite (nth_map_seq (fun r => map (f r) (seq 0 m)) [] n r Hr).
  apply (nth_map_seq (f r) 0%float m c Hc).
Qed.

Lemma values_at_column ts r c :
  Matrix.values_at ts r c
  = map t_value (List.filter (fun t => Nat.eqb (t_row t) r) (column_triplets c ts)).
Proof.
  unfold Matrix.values_at, column_triplets, Matrix.at_position. f_equal.
  induction ts as [|t ts IH]; cbn; [reflexivity|].
  destruct (Nat.eqb (t_col t) c); cbn.
  - rewrite andb_true_r. destruct (Nat.eqb (t_row t) r); now rewrite IH.
  - rewrite andb_false_r. exact IH.
Qed.

Lemma first_coefficient_nonzero : Matrix.nonzero first_coefficient = true.
Proof. vm_compute. reflexivity. Qed.

Lemma first_coefficient_abs : PrimFloat.abs first_coefficient = first_coefficient.
Proof. vm_compute. reflexivity. Qed.

Lemma second_coefficient_nonzero hdr parity state :
  is_sign (imaginary_unit hdr) ->
  Matrix.nonzero (second_coefficient hdr parity state) = true.
Proof.
  intros Hunit. unfold second_coefficient, pow_m1_half, pow_m1.
  destruct Hunit as [-> | ->];
    destruct (Z.even (2 * State.getL state + State.getM state - State.getJ state));
    try destruct (Z.even ((2 * State.getL state + State.getM state - State.getJ state) / 2));
    destruct (bool_decide (parity = EVEN)); vm_compute; reflexivity.
Qed.

Lemma second_coefficient_abs hdr parity state :
  is_sign (imaginary_unit hdr) -> integral_projection state ->
  PrimFloat.abs (second_coefficient hdr parity state) = first_coefficient.
Proof.
  intros Hunit Hint. unfold second_coefficient, pow_m1_half, pow_m1.
  assert (E : Z.even (2 * State.getL state + State.getM state - State.getJ state) = true).
  { unfold integral_projection in Hint. apply Z.even_spec in Hint as (k & Hk).
    apply Z.even_spec. exists (State.getL state - k). lia. }
  rewrite E.
  destruct Hunit as [-> | ->];
    destruct (Z.even ((2 * State.getL state + State.getM state - State.getJ state) / 2));
    destruct (bool_decide (parity = EVEN)); vm_compute; reflexivity.
Qed.

Lemma second_coefficient_nan hdr parity state :
  is_sign (imaginary_unit hdr) -> ~ integral_projection state ->
  PrimFloat.is_nan (second_coefficient hdr parity state) = true.
Proof.
  intros Hunit Hint. unfold second_coefficient, pow_m1_half.
  destruct (Z.even (2 * State.getL state + State.getM state - State.getJ state)) eqn:E.
  - exfalso. apply Hint. unfold integral_projection.
    apply Z.even_spec in E as (k & Hk).
    apply Z.even_spec. exists (State.getL state - k). lia.
  - destruct Hunit as [-> | ->];
      destruct (bool_decide (parity = EVEN)); vm_compute; reflexivity.
Qed.

Lemma reflected_differs state : State.getM state <> 0 -> State.getReflected state <> state.
Proof.
  intros Hm E. apply (f_equal State.getM) in E. cbn in E. lia.
Qed.

(** A column of the shape that the loops keep is a column as the code
    builds it. *)
Lemma column_shape_built_column hdr registry idx ts col :
  is_sign (imaginary_unit hdr) ->
  NoDup registry -> (col < idx)%nat ->
  column_shape hdr registry col (column_triplets col ts) ->
  built_column registry (Matrix.setFromTriplets (length registry) idx ts) col.
Proof.
  intros Hunit Hnd Hcol [r state Hr Hts | r1 r2 state parity H1 H2 Hm Hts].
  - left. exists r. split; [cbn; eapply lookup_lt_Some, Hr|].
    intros r' Hr'. cbn in Hr'. unfold Matrix.setFromTriplets.
    rewrite coeff_tabulate by assumption. rewrite values_at_column, Hts. cbn.
    rewrite list_elem_of_singleton.
    destruct (Nat.eqb_spec r r') as [-> | Hne]; cbn.
    + split; [reflexivity|]. intros _. vm_compute. reflexivity.
    + split; [|intros ->; contradiction]. vm_compute. discriminate.
  - right. exists r1, r2, state.
    assert (Hne : r1 <> r2).
    { intros ->. rewrite H1 in H2. injection H2 as E.
      symmetry in E. now apply reflected_differs in E. }
    assert (Hl1 : (r1 < length registry)%nat) by (eapply lookup_lt_Some, H1).
    assert (Hl2 : (r2 < length registry)%nat) by (eapply lookup_lt_Some, H2).
    assert (Hcoeff : forall r', (r' < length registry)%nat ->
              Matrix.coeff (Matrix.setFromTriplets (length registry) idx ts) r' col
              = if Nat.eqb r1 r' then first_coefficient
                else if Nat.eqb r2 r' then second_coefficient hdr parity state
                     else 0%float).
    { intros r' Hr'. unfold Matrix.setFromTriplets.
      rewrite coeff_tabulate by assumption. rewrite values_at_column, Hts. cbn.
      destruct (Nat.eqb_spec r1 r') as [E1 | E1];
        destruct (Nat.eqb_spec r2 r') as [E2 | E2]; cbn; try reflexivity.
      exfalso. apply Hne. congruence. }
    assert (Hsecond : Matrix.coeff (Matrix.setFromTriplets (length registry) idx ts) r2 col
                      = second_coefficient hdr parity state).
    { rewrite (Hcoeff r2 Hl2), Nat.eqb_refl.
      destruct (Nat.eqb_spec r1 r2) as [E | _]; [contradiction | reflexivity]. }
    split; [exact Hne|]. split; [exact H1|]. split; [exact H2|].
    split; [reflexivity|]. split; [exact Hm|]. split; [|split; [|split]].
    + intros r' Hr'. cbn in Hr'. rewrite (Hcoeff r' Hr').
      rewrite elem_of_cons, list_elem_of_singleton.
      destruct (Nat.eqb_spec r1 r') as [E1 | E1].
      * split; [auto|]. intros _. apply first_coefficient_nonzero.
      * destruct (Nat.eqb_spec r2 r') as [E2 | E2].
        -- split; [auto|]. intros _. now apply second_coefficient_nonzero.
        -- split; [vm_compute; discriminate|]. intros [E | E]; congruence.
    + rewrite (Hcoeff r1 Hl1), Nat.eqb_refl. apply first_coefficient_abs.
    + intros Hint. rewrite Hsecond. now apply second_coefficient_abs.
    + intros Hint. rewrite Hsecond. now apply second_coefficient_nan.
Qed.

(** When [j - m] is an integer for every registered state, a column as the
    code builds it is a column as the design document describes it. *)
Lemma built_column_basis_column registry basis col :
  (forall state, state ∈ registry -> integral_projection state) ->
  built_column registry basis col -> basis_column registry basis col.
Proof.
  intros Hphys [Hsingle | (r1 & r2 & state & Hne & H1 & H2 & Hm & Hm0 & Hrows & Ha1 & Ha2 & _)].
  - left. exact Hsingle.
  - right. exists r1, r2, state. repeat (split; [assumption|]).
    apply Ha2. eapply Hphys, list_elem_of_lookup_2, H1.
Qed.

(** C2, as stated, fails.  The system restricted to [n = 2], [l = 1],
    [j = 3/2] and [m] in [{-1, 1}] with even parity under reflection has a
    basis: its registry holds the states [m = 1] and [m = -1], and its one
    column has the coefficient [1 / sqrt 2] in the first row and NaN in the
    second, which is not of the magnitude [1 / sqrt 2]. *)
Lemma initializeBasis_coefficient_is_nan :
  NoDup (states Example.skewed)
  /\ is_sign (imaginary_unit Example.hdr)
  /\ initializeBasis Example.hdr Example.skewed = Returns Example.skewed_basis
  /\ states Example.skewed_basis = [State.make "Rb" 2 1 3 2; State.make "Rb" 2 1 3 (-2)]
  /\ cols (basisvectors Example.skewed_basis) = 1%nat
  /\ Matrix.coeff (basisvectors Example.skewed_basis) 0 0 = first_coefficient
  /\ PrimFloat.is_nan (Matrix.coeff (basisvectors Example.skewed_basis) 1 0) = true
  /\ ~ basis_column (states Example.skewed_basis) (basisvectors Example.skewed_basis) 0.
Proof.
  split; [constructor|]. split; [left; reflexivity|].
  split; [vm_compute; reflexivity|]. split; [vm_compute; reflexivity|].
  split; [vm_compute; reflexivity|]. split; [vm_compute; reflexivity|].
  split; [vm_compute; reflexivity|].
  assert (Hrows : rows (basisvectors Example.skewed_basis) = 2%nat)
    by (vm_compute; reflexivity).
  assert (Hfirst : Matrix.nonzero (Matrix.coeff (basisvectors Example.skewed_basis) 0 0)
                   = true) by (vm_compute; reflexivity).
  assert (Hsecond : Matrix.nonzero (Matrix.coeff (basisvectors Example.skewed_basis) 1 0)
                    = true) by (vm_compute; reflexivity).
  assert (Hmagnitude :
            PrimFloat.eqb (PrimFloat.abs (Matrix.coeff (basisvectors Example.skewed_basis) 1 0))
              first_coefficient = false) by (vm_compute; reflexivity).
  assert (Hself : PrimFloat.eqb first_coefficient first_coefficient = true)
    by (vm_compute; reflexivity).
  intros [(r & _ & Hr) | (r1 & r2 & state & Hne & _ & _ & _ & _ & Hr & Ha1 & Ha2)].
  - assert (H0 : 0%nat ∈ [r]) by (apply Hr; [rewrite Hrows; lia | exact Hfirst]).
    assert (H1 : 1%nat ∈ [r]) by (apply Hr; [rewrite Hrows; lia | exact Hsecond]).
    apply list_elem_of_singleton in H0, H1. congruence.
  - assert (H1 : 1%nat ∈ [r1; r2]) by (apply Hr; [rewrite Hrows; lia | exact Hsecond]).
    assert (H0 : 0%nat ∈ [r1; r2]) by (apply Hr; [rewrite Hrows; lia | exact Hfirst]).
    apply elem_of_cons in H1 as [<- | H1].
    + apply elem_of_cons in H0 as [E | H0]; [discriminate E|].
      apply list_elem_of_singleton in H0 as <-.
      rewrite Ha1 in Hmagnitude. rewrite Hself in Hmagnitude. discriminate.
    + apply list_elem_of_singleton in H1 as <-.
      rewrite Ha2 in Hmagnitude. rewrite Hself in Hmagnitude. discriminate.
Qed.

(** C2: in every basis that [initializeBasis] returns from a registry
    without repetition no two registered states are equal, and, the
    imaginary unit of the real configuration being a sign, every column of
    the basis-change matrix has one row or two rows that are not zero; when
    there are two, they are the rows of a state and of its reflection
    partner (the same state with [m] negated), the first coefficient has the
    magnitude [1 / sqrt 2], and the second has this magnitude when [j - m]
    of the state is an integer and is NaN otherwise.  When [j - m] is an
    integer for every registered state, every column is as the design
    document describes it. *)
Theorem initializeBasis_unique_states_and_columns (hdr : Headers) (s s' : SystemOne) :
  NoDup (states s) ->
  is_sign (imaginary_unit hdr) ->
  initializeBasis hdr s = Returns s' ->
  NoDup (states s')
  /\ rows (basisvectors s') = length (states s')
  /\ (forall col, (col < cols (basisvectors s'))%nat ->
        built_column (states s') (basisvectors s') col)
  /\ ((forall state, state ∈ states s' -> integral_projection state) ->
      forall col, (col < cols (basisvectors s'))%nat ->
        basis_column (states s') (basisvectors s') col).
Proof.
  intros Hnd Hunit Hret.
  destruct (initializeBasis_returns hdr s s' Hnd Hret) as (bb & (Hnd' & Hcols & Hshape) & ->).
  unfold build_data, interrupted; cbn.
  assert (Hbuilt : forall col, (col < bb_idx bb)%nat ->
            built_column (bb_states bb)
              (Matrix.setFromTriplets (length (bb_states bb)) (bb_idx bb)
                 (bb_basisvectors_triplets bb)) col).
  { intros col Hcol. apply (column_shape_built_column hdr); auto. }
  split; [exact Hnd'|]. split; [reflexivity|]. split; [exact Hbuilt|].
  intros Hphys col Hcol.
  apply built_column_basis_column; [exact Hphys | apply Hbuilt, Hcol].
Qed.

(** ** The user-defined states *)

Lemma addBasisvectors_states state idx value bb x :
  x ∈ bb_states (addBasisvectors state idx value bb) <-> x ∈ bb_states bb \/ x = state.
Proof.
  unfold addBasisvectors.
  destruct (find_state state (bb_states bb)) as [row|] eqn:E; cbn.
  - apply find_state_Some in E. split; [auto|].
    intros [Hx | ->]; [exact Hx|]. eapply list_elem_of_lookup_2, E.
  - rewrite elem_of_app, list_elem_of_singleton. tauto.
Qed.

(** The states that [addSymmetrizedBasisvectors] registers. *)
Lemma addSymmetrizedBasisvectors_states hdr state energy parity bb x :
  x ∈ bb_states (addSymmetrizedBasisvectors hdr state energy parity bb)
  <-> x ∈ bb_states bb
      \/ (symmetrized parity state && (State.getM state <? 0) = false
          /\ (x = state
              \/ (symmetrized parity state = true /\ x = State.getReflected state))).
Proof.
  unfold addSymmetrizedBasisvectors.
  destruct (symmetrized parity state && (State.getM state <? 0)) eqn:Hskip.
  - split; [auto|]. intros [Hx | (Hf & _)]; [exact Hx | discriminate].
  - cbn [bb_states]. destruct (symmetrized parity state).
    + rewrite !addBasisvectors_states. cbn [bb_states]. intuition.
    + rewrite !addBasisvectors_states. cbn [bb_states]. intuition discriminate.
Qed.

Section UserDefinedStates.

Variable hdr : Headers.
Variable s : SystemOne.

Lemma symmetrized_local state :
  symmetrized (sym_reflection_local s state) state = true <-> mirror_required s state.
Proof.
  unfold symmetrized, sym_reflection_local, mirror_required.
  destruct (State.isArtificial state); cbn.
  - rewrite bool_decide_eq_false_2 by (intros H; now apply H).
    cbn. split; [discriminate | intros (H & _); discriminate].
  - rewrite andb_true_iff, bool_decide_eq_true, negb_true_iff, Z.eqb_neq. tauto.
Qed.

Lemma skipped_by_rotation state :
  Nat.eqb (count ARB (sym_rotation_local s state)) 0
  && Nat.eqb (count (State.getM state) (sym_rotation_local s state)) 0 = true
  <-> ~ kept_by_rotation s state.
Proof.
  unfold sym_rotation_local, kept_by_rotation.
  rewrite andb_true_iff, !count_zero.
  destruct (State.isArtificial state).
  - split; [|intros H; exfalso; apply H; auto].
    intros (H & _). exfalso. apply H, list_elem_of_here.
  - split; [intros (H1 & H2) [H | [H | H]]; [discriminate | auto | auto]|].
    intros H. split; intros Hin; apply H; auto.
Qed.

(** The three ways in which the body of the second loop ends. *)
Lemma add_user_state_cases state bb :
  (~ kept_by_rotation s state
   /\ exists bb', add_user_state hdr s state bb = Returns bb'
                  /\ bb_states bb' = bb_states bb)
  \/ (kept_by_rotation s state /\ mirror_required s state
      /\ (State.getReflected state ∉ states_to_add s)
      /\ exists what bb', add_user_state hdr s state bb = Throws what bb'
                          /\ bb_states bb' = bb_states bb)
  \/ (kept_by_rotation s state
      /\ ~ (mirror_required s state /\ State.getReflected state ∉ states_to_add s)
      /\ exists energy bb1,
           bb_states bb1 = bb_states bb
           /\ add_user_state hdr s state bb
              = Returns (addSymmetrizedBasisvectors hdr state energy
                           (sym_reflection_local s state) bb1)).
Proof.
  unfold add_user_state.
  match goal with
  | |- context [if ?b then BasisBuild ?a1 ?a2 ?a3 ?a4 ?a5 else bb] =>
      set (bb1 := if b then BasisBuild a1 a2 a3 a4 a5 else bb)
  end.
  assert (Hbb1 : bb_states bb1 = bb_states bb).
  { unfold bb1. now match goal with |- context [if ?b then _ else _] => destruct b end. }
  clearbody bb1.
  destruct (Nat.eqb (count ARB (sym_rotation_local s state)) 0
            && Nat.eqb (count (State.getM state) (sym_rotation_local s state)) 0)
    eqn:Hskip.
  - left. apply skipped_by_rotation in Hskip. split; [exact Hskip|]. eauto.
  - assert (Hkept : kept_by_rotation s state).
    { destruct (decide (State.isArtificial state = true)) as [Ha | Ha]; [now left|].
      apply not_true_iff_false in Hskip.
      rewrite skipped_by_rotation in Hskip.
      unfold kept_by_rotation in *.
      destruct (decide (ARB ∈ sym_rotation s)) as [H1 | H1]; [auto|].
      destruct (decide (State.getM state ∈ sym_rotation s)) as [H2 | H2]; [auto|].
      exfalso. apply Hskip. intros [H | [H | H]]; contradiction. }
    right.
    destruct (bool_decide (sym_reflection_local s state <> NA)
              && negb (State.getM state =? 0)
              && negb (contains_state (State.getReflected state) (states_to_add s)))
      eqn:Hthrow.
    + left. apply andb_true_iff in Hthrow as (Hsym & Hmiss).
      apply symmetrized_local in Hsym.
      apply negb_true_iff, bool_decide_eq_false in Hmiss.
      repeat split; auto; try apply Hsym. eauto.
    + right. split; [exact Hkept|]. split; [|eauto].
      intros (Hreq & Hmiss). apply symmetrized_local in Hreq.
      unfold symmetrized in Hreq. rewrite Hreq in Hthrow. cbn in Hthrow.
      apply negb_false_iff, bool_decide_eq_true in Hthrow. contradiction.
Qed.

(** The first loop does not change the variables; it throws exactly for a
    state that is registered or of the wrong species. *)
Lemma check_loop_spec l bb :
  after (for_each (check_user_state hdr s) l bb) = bb
  /\ (returned (for_each (check_user_state hdr s) l bb) = false
      <-> exists state, state ∈ l
            /\ (state ∈ bb_states bb \/ wrong_species s state)).
Proof.
  induction l as [|state l (IH1 & IH2)]; cbn.
  - split; [reflexivity|]. split; [discriminate|]. intros (x & Hx & _). inversion Hx.
  - unfold check_user_state at 1 3. unfold contains_state.
    destruct (bool_decide_reflect (state ∈ bb_states bb)) as [Hin | Hin].
    { cbn. split; [reflexivity|]. split; [|reflexivity].
      intros _. exists state. split; [apply list_elem_of_here | auto]. }
    destruct (State.isArtificial state) eqn:Ha; cbn [negb andb].
    { split; [exact IH1|]. rewrite IH2. split.
      - intros (x & Hx & H). exists x. split; [now apply list_elem_of_further | exact H].
      - intros (x & Hx & H). apply elem_of_cons in Hx as [-> | Hx]; [|eauto].
        destruct H as [H | (H & _)]; [contradiction | congruence]. }
    destruct (String.eqb_spec (State.getSpecies state) (species s)) as [Hs | Hs]; cbn.
    { split; [exact IH1|]. rewrite IH2. split.
      - intros (x & Hx & H). exists x. split; [now apply list_elem_of_further | exact H].
      - intros (x & Hx & H). apply elem_of_cons in Hx as [-> | Hx]; [|eauto].
        destruct H as [H | (_ & H)]; contradiction. }
    split; [reflexivity|]. split; [|reflexivity].
    intros _. exists state. split; [apply list_elem_of_here|]. right. split; auto.
Qed.

(** The second loop throws exactly for a state that the rotation symmetry
    keeps and whose required mirror partner is missing. *)
Lemma add_loop_throws l : forall bb,
  returned (for_each (add_user_state hdr s) l bb) = false
  <-> exists state, state ∈ l
        /\ kept_by_rotation s state /\ mirror_required s state
        /\ State.getReflected state ∉ states_to_add s.
Proof.
  induction l as [|state l IH]; intros bb; cbn.
  - split; [discriminate|]. intros (x & Hx & _). inversion Hx.
  - destruct (add_user_state_cases state bb)
      as [(Hk & bb' & -> & _)
         | [(Hk & Hr & Hm & e & bb' & -> & _) | (Hk & Hn & energy & bb1 & _ & ->)]].
    + rewrite IH. split.
      * intros (x & Hx & H). exists x. split; [now apply list_elem_of_further | exact H].
      * intros (x & Hx & H). apply elem_of_cons in Hx as [-> | Hx]; [|eauto].
        destruct H as (H & _). contradiction.
    + cbn. split; [|reflexivity]. intros _. exists state.
      split; [apply list_elem_of_here | auto].
    + rewrite IH. split.
      * intros (x & Hx & H). exists x. split; [now apply list_elem_of_further | exact H].
      * intros (x & Hx & H). apply elem_of_cons in Hx as [-> | Hx]; [|eauto].
        exfalso. apply Hn. tauto.
Qed.

End UserDefinedStates.

Section UserDefinedStatesRegistered.

Variable hdr : Headers.
Variable s : SystemOne.

(** What the second loop has registered when it returns. *)
Lemma add_loop_registers l : forall bb bb',
  for_each (add_user_state hdr s) l bb = Returns bb' ->
  (forall x, x ∈ bb_states bb -> x ∈ bb_states bb')
  /\ (forall state, state ∈ l -> kept_by_rotation s state ->
        ~ (mirror_required s state /\ State.getM state < 0) ->
        state ∈ bb_states bb')
  /\ (forall state, state ∈ l -> kept_by_rotation s state ->
        mirror_required s state -> 0 < State.getM state ->
        State.getReflected state ∈ bb_states bb')
  /\ (forall x, x ∈ bb_states bb' ->
        x ∈ bb_states bb \/ x ∈ l
        \/ exists state, state ∈ l /\ kept_by_rotation s state
             /\ mirror_required s state /\ x = State.getReflected state).
Proof.
  induction l as [|state l IH]; intros bb bb'; cbn.
  - intros [= <-]. repeat split; auto; intros ? H; inversion H.
  - destruct (add_user_state_cases hdr s state bb)
      as [(Hk & bb1 & -> & Hs1)
         | [(Hk & Hr & Hm & e & bb1 & -> & _) | (Hk & Hn & energy & bb1 & Hs1 & ->)]].
    + intros Hloop. destruct (IH bb1 bb' Hloop) as (I1 & I2 & I3 & I4).
      rewrite Hs1 in I1, I4. split; [exact I1|]. split; [|split].
      * intros x Hx Hkx Hnx. apply elem_of_cons in Hx as [-> | Hx]; [contradiction|].
        now apply I2.
      * intros x Hx Hkx Hrx Hpx. apply elem_of_cons in Hx as [-> | Hx]; [contradiction|].
        now apply I3.
      * intros x Hx. destruct (I4 x Hx) as [H | [H | (y & Hy & H)]]; [auto | |].
        -- right; left. now apply list_elem_of_further.
        -- right; right. exists y. split; [now apply list_elem_of_further | exact H].
    + discriminate.
    + set (bb2 := addSymmetrizedBasisvectors hdr state energy
                    (sym_reflection_local s state) bb1).
      intros Hloop. destruct (IH bb2 bb' Hloop) as (I1 & I2 & I3 & I4).
      assert (Hbb2 : forall x, x ∈ bb_states bb2
                <-> x ∈ bb_states bb
                    \/ (symmetrized (sym_reflection_local s state) state
                        && (State.getM state <? 0) = false
                        /\ (x = state
                            \/ (symmetrized (sym_reflection_local s state) state = true
                                /\ x = State.getReflected state)))).
      { intros x. unfold bb2. rewrite addSymmetrizedBasisvectors_states, Hs1.
        reflexivity. }
      split; [|split; [|split]].
      * intros x Hx. apply I1, Hbb2. now left.
      * intros x Hx Hkx Hnx. apply elem_of_cons in Hx as [-> | Hx]; [|now apply I2].
        apply I1, Hbb2. right. split; [|now left].
        apply not_true_iff_false. intros Hc. apply Hnx.
        apply andb_true_iff in Hc as (Hc1 & Hc2).
        apply symmetrized_local in Hc1. apply Z.ltb_lt in Hc2. auto.
      * intros x Hx Hkx Hrx Hpx. apply elem_of_cons in Hx as [-> | Hx]; [|now apply I3].
        apply I1, Hbb2. right. split.
        -- apply andb_false_iff. right. apply Z.ltb_ge. lia.
        -- right. split; [now apply symmetrized_local | reflexivity].
      * intros x Hx. destruct (I4 x Hx) as [H | [H | (y & Hy & H)]].
        -- apply Hbb2 in H as [H | (_ & [-> | (Hsym & ->)])]; [auto | |].
           ++ right; left. apply list_elem_of_here.
           ++ right; right. exists state. apply symmetrized_local in Hsym.
              split; [apply list_elem_of_here | auto].
        -- right; left. now apply list_elem_of_further.
        -- right; right. exists y. split; [now apply list_elem_of_further | exact H].
Qed.

(** A state is registered by the second loop for its own sake only when the
    rotation symmetry keeps it. *)
Lemma add_loop_registered_only l : forall bb bb',
  for_each (add_user_state hdr s) l bb = Returns bb' ->
  forall x, x ∈ bb_states bb' ->
    x ∈ bb_states bb
    \/ (x ∈ l /\ kept_by_rotation s x)
    \/ exists state, state ∈ l /\ kept_by_rotation s state
          /\ mirror_required s state /\ x = State.getReflected state.
Proof.
  induction l as [|state l IH]; intros bb bb'; cbn.
  - intros [= <-] x Hx. now left.
  - destruct (add_user_state_cases hdr s state bb)
      as [(Hk & bb1 & -> & Hs1)
         | [(Hk & Hr & Hm & e & bb1 & -> & _) | (Hk & Hn & energy & bb1 & Hs1 & ->)]].
    + intros Hloop x Hx.
      destruct (IH bb1 bb' Hloop x Hx) as [H | [(H & Hkx) | (y & Hy & H)]].
      * left. now rewrite <- Hs1.
      * right; left. split; [now apply list_elem_of_further | exact Hkx].
      * right; right. exists y. split; [now apply list_elem_of_further | exact H].
    + discriminate.
    + intros Hloop x Hx.
      destruct (IH _ bb' Hloop x Hx) as [H | [(H & Hkx) | (y & Hy & H)]].
      * apply addSymmetrizedBasisvectors_states in H
          as [H | (_ & [-> | (Hsym & ->)])].
        -- left. now rewrite <- Hs1.
        -- right; left. split; [apply list_elem_of_here | exact Hk].
        -- right; right. exists state. apply symmetrized_local in Hsym.
           split; [apply list_elem_of_here | auto].
      * right; left. split; [now apply list_elem_of_further | exact Hkx].
      * right; right. exists y. split; [now apply list_elem_of_further | exact H].
Qed.

Lemma user_defined_states_registered_only bb bb' :
  user_defined_states hdr s bb = Returns bb' ->
  forall x, x ∈ bb_states bb' ->
    x ∈ bb_states bb
    \/ (x ∈ states_to_add s /\ kept_by_rotation s x)
    \/ exists state, state ∈ states_to_add s /\ kept_by_rotation s state
          /\ mirror_required s state /\ x = State.getReflected state.
Proof.
  unfold user_defined_states.
  destruct (check_loop_spec hdr s (states_to_add s) bb) as (Hafter & _).
  destruct (for_each (check_user_state hdr s) (states_to_add s) bb) as [bb0 | e bb0];
    cbn in Hafter; subst bb0; [|discriminate].
  apply add_loop_registered_only.
Qed.

Lemma reflected_reflected state : State.getReflected (State.getReflected state) = state.
Proof. destruct state; unfold State.getReflected; cbn. now rewrite Z.opp_involutive. Qed.

Lemma mirror_required_reflected state :
  mirror_required s state -> mirror_required s (State.getReflected state).
Proof. unfold mirror_required; cbn. intros (H1 & H2 & H3). repeat split; auto; lia. Qed.

(** With compatible symmetries the mirror partner of a kept state is kept. *)
Lemma kept_by_rotation_reflected state :
  isRefelectionAndRotationCompatible s = true ->
  mirror_required s state -> kept_by_rotation s state ->
  kept_by_rotation s (State.getReflected state).
Proof.
  intros Hc (Ha & Hna & _) [H | [H | H]]; [congruence | right; now left|].
  apply isRefelectionAndRotationCompatible_spec in Hc as [Hc | [Hc | Hc]];
    [right; now left | contradiction|].
  right; right. cbn. now apply Hc.
Qed.

(** The outcome of the two loops over the user-defined states. *)
Lemma user_defined_states_spec bb :
  (returned (user_defined_states hdr s bb) = false
   <-> exists state, state ∈ states_to_add s /\ refused s (bb_states bb) state)
  /\ (forall bb', user_defined_states hdr s bb = Returns bb' ->
        (forall x, x ∈ bb_states bb' -> x ∈ bb_states bb \/ x ∈ states_to_add s)
        /\ (isRefelectionAndRotationCompatible s = true ->
            forall state, state ∈ states_to_add s -> kept_by_rotation s state ->
              state ∈ bb_states bb')).
Proof.
  unfold user_defined_states.
  destruct (check_loop_spec hdr s (states_to_add s) bb) as (Hafter & Hcheck).
  pose proof (add_loop_throws hdr s (states_to_add s)) as Hadd.
  destruct (for_each (check_user_state hdr s) (states_to_add s) bb) as [bb0 | e bb0];
    cbn in Hafter, Hcheck; subst bb0.
  - assert (Hclean : forall state, state ∈ states_to_add s ->
                       ~ (state ∈ bb_states bb \/ wrong_species s state)).
    { intros state Hin Hbad.
      assert (Hf : true = false) by (apply Hcheck; eauto). discriminate Hf. }
    split.
    + rewrite Hadd. unfold refused. split.
      * intros (x & Hx & H). exists x. split; [exact Hx | auto].
      * intros (x & Hx & [H | [H | H]]); [| |eauto];
          exfalso; apply (Hclean x Hx); auto.
    + intros bb' Hloop.
      assert (Hret : returned (for_each (add_user_state hdr s) (states_to_add s) bb)
                     = true) by now rewrite Hloop.
      assert (Hmirror : forall state, state ∈ states_to_add s ->
                kept_by_rotation s state -> mirror_required s state ->
                State.getReflected state ∈ states_to_add s).
      { intros state Hin Hk Hr.
        destruct (decide (State.getReflected state ∈ states_to_add s)) as [H | H];
          [exact H|].
        assert (Hf : returned (for_each (add_user_state hdr s) (states_to_add s) bb)
                     = false) by (apply Hadd; eauto).
        congruence. }
      destruct (add_loop_registers _ _ _ Hloop) as (I1 & I2 & I3 & I4).
      split.
      * intros x Hx. destruct (I4 x Hx) as [H | [H | (y & Hy & Hk & Hr & ->)]]; auto.
      * intros Hcompat state Hin Hk.
        destruct (decide (mirror_required s state /\ State.getM state < 0))
          as [(Hr & Hneg) | Hn]; [|now apply I2].
        rewrite <- (reflected_reflected state). apply I3.
        -- now apply Hmirror.
        -- now apply kept_by_rotation_reflected.
        -- now apply mirror_required_reflected.
        -- cbn. lia.
  - split.
    + cbn. split; [|reflexivity]. intros _.
      destruct Hcheck as (Hcheck & _). destruct (Hcheck eq_refl) as (x & Hx & H).
      exists x. split; [exact Hx|]. unfold refused. tauto.
    + intros bb' Hf. discriminate Hf.
Qed.

End UserDefinedStatesRegistered.

(** C8, as stated, fails: with even parity under reflection and the
    conserved momenta [{-3/2, 3/2}] the user-defined state with [m = 1/2]
    has no mirror partner among the user-defined states, but the build
    returns; the state is passed over by the rotation symmetry and is not
    registered. *)
Lemma initializeBasis_passes_over_state_without_mirror :
  let state := State.make "Rb" 5 0 1 1 in
  state ∈ states_to_add Example.rotating
  /\ sym_reflection Example.rotating = EVEN
  /\ State.getM state <> 0
  /\ (State.getReflected state ∉ states_to_add Example.rotating)
  /\ returned (initializeBasis Example.hdr Example.rotating) = true
  /\ state ∉ states (after (initializeBasis Example.hdr Example.rotating)).
Proof.
  cbv zeta. split; [apply list_elem_of_here|]. split; [reflexivity|].
  split; [discriminate|]. split; [|split].
  - intros Hin. apply (bool_decide_eq_true_2 _) in Hin. vm_compute in Hin.
    discriminate Hin.
  - vm_compute. reflexivity.
  - intros Hin. apply (bool_decide_eq_true_2 _) in Hin. vm_compute in Hin.
    discriminate Hin.
Qed.

(** C8, amended: when the enumeration has returned, [initializeBasis] throws
    exactly if some user-defined state is already registered, or is not
    artificial and of another species, or is kept by the rotation symmetry
    (it is artificial, or the momenta are unrestricted, or its [m] is a
    conserved momentum), is not artificial, has [m] other than zero under an
    active reflection symmetry, and has no mirror partner among the
    user-defined states.  When the build returns, the states registered
    after the enumeration are user-defined states, and with compatible
    symmetries every user-defined state that the rotation symmetry keeps is
    registered.  A state that the rotation symmetry does not keep is
    registered only as the mirror partner of a user-defined state that it
    keeps; with compatible symmetries it is not registered. *)
Theorem initializeBasis_user_defined_states (hdr : Headers) (s : SystemOne)
  (bb : basis_build) :
  range_n s <> [] ->
  enumerate_states hdr s (BasisBuild (states s) 0 [] [] (cerr s)) = Returns bb ->
  (returned (initializeBasis hdr s) = false
   <-> exists state, state ∈ states_to_add s /\ refused s (bb_states bb) state)
  /\ (returned (initializeBasis hdr s) = true ->
      (forall x, x ∈ states (after (initializeBasis hdr s)) ->
         x ∈ bb_states bb \/ x ∈ states_to_add s)
      /\ (isRefelectionAndRotationCompatible s = true ->
          forall state, state ∈ states_to_add s -> kept_by_rotation s state ->
            state ∈ states (after (initializeBasis hdr s)))
      /\ (forall x, x ∈ states (after (initializeBasis hdr s)) ->
            x ∈ bb_states bb
            \/ (x ∈ states_to_add s /\ kept_by_rotation s x)
            \/ exists state, state ∈ states_to_add s /\ kept_by_rotation s state
                  /\ mirror_required s state /\ x = State.getReflected state)
      /\ (isRefelectionAndRotationCompatible s = true ->
          forall state, state ∈ states_to_add s -> ~ kept_by_rotation s state ->
            state ∉ states (after (initializeBasis hdr s)))).
Proof.
  intros Hn Henum. unfold initializeBasis.
  rewrite (bool_decide_eq_false_2 _ Hn). cbn [andb]. rewrite Henum.
  destruct (user_defined_states_spec hdr s bb) as (Hthrows & Hreturns).
  pose proof (user_defined_states_registered_only hdr s bb) as Honly.
  destruct (user_defined_states hdr s bb) as [bb' | e bb'].
  - split.
    + rewrite <- Hthrows. reflexivity.
    + intros _. destruct (Hreturns bb' eq_refl) as (H1 & H2).
      specialize (Honly bb' eq_refl).
      split; [exact H1|]. split; [exact H2|]. split; [exact Honly|].
      intros Hcompatible state Hin Hskipped Hregistered.
      destruct (Honly state Hregistered)
        as [Hbefore | [(_ & Hkept) | (partner & _ & Hkept & Hmirror & ->)]].
      * assert (Hf : returned (Returns (A := basis_build) bb') = false).
        { apply Hthrows. exists state. split; [exact Hin | now left]. }
        discriminate Hf.
      * contradiction.
      * apply Hskipped. now apply kept_by_rotation_reflected.
  - split.
    + rewrite <- Hthrows. reflexivity.
    + discriminate.
Qed.

(** The artificial state added to the system restricted to [n = 1] is
    registered.  The state with [m = 1/2] added to the system with the
    conserved momenta [{-3/2, 3/2}] and even parity is not. *)
Lemma initializeBasis_user_defined_states_witness :
  range_n Example.dark <> []
  /\ returned (initializeBasis Example.hdr Example.dark) = true
  /\ State.artificial "dark" ∈ states (after (initializeBasis Example.hdr Example.dark))
  /\ range_n Example.rotating <> []
  /\ returned (initializeBasis Example.hdr Example.rotating) = true
  /\ isRefelectionAndRotationCompatible Example.rotating = true
  /\ ~ kept_by_rotation Example.rotating (State.make "Rb" 5 0 1 1)
  /\ State.make "Rb" 5 0 1 1
       ∉ states (after (initializeBasis Example.hdr Example.rotating)).
Proof.
  assert (Hn : range_n Example.dark <> []) by discriminate.
  split; [exact Hn|].
  assert (Hret : returned (initializeBasis Example.hdr Example.dark) = true)
    by (vm_compute; reflexivity).
  split; [exact Hret|].
  assert (Henum : enumerate_states Example.hdr Example.dark
                    (BasisBuild (states Example.dark) 0 [] [] (cerr Example.dark))
                  = Returns (after (enumerate_states Example.hdr Example.dark
                                      (BasisBuild (states Example.dark) 0 [] []
                                         (cerr Example.dark)))))
    by (vm_compute; reflexivity).
  destruct (initializeBasis_user_defined_states Example.hdr Example.dark _ Hn Henum)
    as (_ & Hreg).
  destruct (Hreg Hret) as (_ & Hall & _).
  split.
  { apply Hall.
    - vm_compute. reflexivity.
    - apply list_elem_of_here.
    - left. reflexivity. }
  assert (Hn' : range_n Example.rotating <> []) by discriminate.
  split; [exact Hn'|].
  assert (Hret' : returned (initializeBasis Example.hdr Example.rotating) = true)
    by (vm_compute; reflexivity).
  split; [exact Hret'|].
  assert (Hcompatible : isRefelectionAndRotationCompatible Example.rotating = true)
    by (vm_compute; reflexivity).
  split; [exact Hcompatible|].
  assert (Hskipped : ~ kept_by_rotation Example.rotating (State.make "Rb" 5 0 1 1)).
  { intros [H | [H | H]]; [discriminate H | |];
      apply (bool_decide_eq_true_2 _) in H; vm_compute in H; discriminate H. }
  split; [exact Hskipped|].
  assert (Henum' : enumerate_states Example.hdr Example.rotating
                     (BasisBuild (states Example.rotating) 0 [] [] (cerr Example.rotating))
                   = Returns (after (enumerate_states Example.hdr Example.rotating
                                       (BasisBuild (states Example.rotating) 0 [] []
                                          (cerr Example.rotating)))))
    by (vm_compute; reflexivity).
  destruct (initializeBasis_user_defined_states Example.hdr Example.rotating _ Hn' Henum')
    as (_ & Hreg').
  destruct (Hreg' Hret') as (_ & _ & _ & Hnone).
  apply Hnone; [exact Hcompatible | apply list_elem_of_here | exact Hskipped].
Defined.

(** On an object whose symmetries a refused setter has left incompatible,
    a user-defined state that the rotation symmetry does not keep is
    registered as the mirror partner of the one that it keeps. *)
Lemma initializeBasis_registers_mirror_partner_of_kept_state :
  let down := State.make "Rb" 5 0 1 (-1) in
  let up := State.make "Rb" 5 0 1 1 in
  isRefelectionAndRotationCompatible Example.lopsided_pair = false
  /\ states_to_add Example.lopsided_pair = [down; up]
  /\ ~ kept_by_rotation Example.lopsided_pair down
  /\ kept_by_rotation Example.lopsided_pair up
  /\ mirror_required Example.lopsided_pair up
  /\ down = State.getReflected up
  /\ returned (initializeBasis Example.hdr Example.lopsided_pair) = true
  /\ down ∈ states (after (initializeBasis Example.hdr Example.lopsided_pair)).
Proof.
  cbv zeta. split; [vm_compute; reflexivity|]. split; [reflexivity|].
  split; [|split; [|split; [|split; [|split]]]].
  - intros [H | [H | H]]; [discriminate H | |];
      apply (bool_decide_eq_true_2 _) in H; vm_compute in H; discriminate H.
  - right; right. apply (bool_decide_eq_true_1 _). vm_compute. reflexivity.
  - split; [reflexivity|]. split; discriminate.
  - reflexivity.
  - vm_compute. reflexivity.
  - apply (bool_decide_eq_true_1 _). vm_compute. reflexivity.
Qed.

(** The basis of the system restricted to [n = 1] with even parity under
    reflection: the states are distinct and the columns as described.  The
    one column of the basis whose states have [j = 3/2] and [m] in
    [{-1, 1}] is as the code builds it. *)
Lemma initializeBasis_unique_states_and_columns_witness :
  NoDup (states Example.mirrored)
  /\ is_sign (imaginary_unit Example.hdr)
  /\ NoDup (states (after (initializeBasis Example.hdr Example.mirrored)))
  /\ (forall col,
        (col < cols (basisvectors (after (initializeBasis Example.hdr Example.mirrored))))%nat ->
        built_column (states (after (initializeBasis Example.hdr Example.mirrored)))
          (basisvectors (after (initializeBasis Example.hdr Example.mirrored))) col)
  /\ (forall col,
        (col < cols (basisvectors (after (initializeBasis Example.hdr Example.mirrored))))%nat ->
        basis_column (states (after (initializeBasis Example.hdr Example.mirrored)))
          (basisvectors (after (initializeBasis Example.hdr Example.mirrored))) col)
  /\ built_column (states Example.skewed_basis) (basisvectors Example.skewed_basis) 0.
Proof.
  assert (Hnd : NoDup (states Example.mirrored)) by constructor.
  assert (Hunit : is_sign (imaginary_unit Example.hdr)) by (left; reflexivity).
  assert (Hret : initializeBasis Example.hdr Example.mirrored
                 = Returns (after (initializeBasis Example.hdr Example.mirrored)))
    by (vm_compute; reflexivity).
  assert (Hphys : forall state,
            state ∈ states (after (initializeBasis Example.hdr Example.mirrored)) ->
            integral_projection state).
  { intros state Hin. vm_compute in Hin.
    apply elem_of_cons in Hin as [-> | Hin]; [reflexivity|].
    apply elem_of_cons in Hin as [-> | Hin]; [reflexivity|].
    inversion Hin. }
  destruct (initializeBasis_unique_states_and_columns Example.hdr Example.mirrored _
              Hnd Hunit Hret) as (H1 & _ & H3 & H4).
  split; [exact Hnd|]. split; [exact Hunit|]. split; [exact H1|].
  split; [exact H3|]. split; [exact (H4 Hphys)|].
  assert (Hnd' : NoDup (states Example.skewed)) by constructor.
  assert (Hret' : initializeBasis Example.hdr Example.skewed = Returns Example.skewed_basis)
    by (vm_compute; reflexivity).
  destruct (initializeBasis_unique_states_and_columns Example.hdr Example.skewed _
              Hnd' Hunit Hret') as (_ & _ & H3' & _).
  apply H3'. apply Nat.ltb_lt. vm_compute. reflexivity.
Defined.

(** The operators of the diamagnetic component 1 of rank 2 in the example
    with a magnetic field: the operator of component -1 is [-1] times the
    adjoint. *)
Lemma initializeInteraction_adjoint_components_witness :
  (2, 1) ∈ diamagnetism_range Example.magnetic_basis
  /\ adjoint_pair negated_component 1
       (interaction_diamagnetism
          (initializeInteraction Example.hdr Example.magnetic_basis)) (2, 1).
Proof.
  assert (Hin : (2, 1) ∈ diamagnetism_range Example.magnetic_basis)
    by (apply (bool_decide_eq_true_1 _); vm_compute; reflexivity).
  split; [exact Hin|].
  destruct (initializeInteraction_adjoint_components Example.hdr Example.magnetic_basis)
    as (_ & _ & Hd & _).
  apply (Hd (2, 1) Hin). discriminate.
Defined.

(** The pair of the two states of [n = 1] is reached by the loop of the
    example with an artificial state, the pair with the artificial state is
    passed over. *)
Lemma interaction_loop_skips_artificial_states_witness :
  skipped (0%nat, State.make "Rb" 1 0 1 (-1)) (2%nat, State.artificial "dark")
    Example.with_dark_loop
  /\ efield_done Example.permissive Example.mec
       (1%nat, State.make "Rb" 1 0 1 1) (0%nat, State.make "Rb" 1 0 1 (-1)) 1
       Example.with_dark_loop.
Proof.
  destruct (interaction_loop_skips_artificial_states Example.permissive
              (cache Example.with_dark) (charge Example.with_dark)
              (compute_ranges Example.with_dark) (states Example.with_dark))
    as (Hskip & Hdone & _).
  split.
  - apply Hskip.
    + apply enumerated_lookup. vm_compute. reflexivity.
    + apply enumerated_lookup. vm_compute. reflexivity.
    + right. reflexivity.
  - assert (Hreached : reached (enumerated (states Example.with_dark))
                         (1%nat, State.make "Rb" 1 0 1 1)
                         (0%nat, State.make "Rb" 1 0 1 (-1))).
    { repeat split; try reflexivity; apply enumerated_lookup; vm_compute; reflexivity. }
    destruct (Hdone _ _ Hreached) as (HE & _).
    apply HE. exists [], []. split; [vm_compute; reflexivity|].
    split; [reflexivity|]. intros i' Hi'. inversion Hi'.
Defined.

(** * Further properties of the code *)

(** ** The cache of interaction operators *)

Lemma build_operator_is_Some {K} `{Countable K} (component : K -> Z) (negated : K -> K)
  basis n (triplets : gmap K (list eigen_triplet_t)) interaction j k :
  is_Some (interaction !! k) ->
  is_Some (build_operator component negated basis n triplets interaction j !! k).
Proof.
  intros Hk. unfold build_operator.
  destruct (component j =? 0).
  - destruct (decide (j = k)) as [-> | Hne];
      [rewrite lookup_insert_eq; eauto | now rewrite lookup_insert_ne].
  - destruct (decide (negated j = k)) as [-> | Hne];
      [rewrite lookup_insert_eq; eauto | rewrite lookup_insert_ne by exact Hne].
    destruct (decide (j = k)) as [-> | Hne'];
      [rewrite lookup_insert_eq; eauto | now rewrite lookup_insert_ne].
Qed.

Lemma build_operators_is_Some {K} `{Countable K} (component : K -> Z) (negated : K -> K)
  basis n (triplets : gmap K (list eigen_triplet_t)) keys : forall interaction k,
  is_Some (interaction !! k) ->
  is_Some (fold_left (build_operator component negated basis n triplets) keys interaction
           !! k).
Proof.
  induction keys as [|j keys IH]; intros interaction k Hk; cbn [fold_left]; [exact Hk|].
  apply IH, build_operator_is_Some, Hk.
Qed.

(** After the loop, the key of every round and its negated key are stored. *)
Lemma build_operators_present {K} `{Countable K} (component : K -> Z) (negated : K -> K)
  basis n (triplets : gmap K (list eigen_triplet_t)) keys interaction i :
  (forall k, component (negated k) = - component k) ->
  (forall k k', negated k = negated k' -> k = k') ->
  (forall k, component k = 0 -> negated k = k) ->
  NoDup keys -> (forall k, k ∈ keys -> 0 <= component k) -> i ∈ keys ->
  is_Some (fold_left (build_operator component negated basis n triplets) keys interaction
           !! i)
  /\ is_Some (fold_left (build_operator component negated basis n triplets) keys
                interaction !! negated i).
Proof.
  intros Hneg Hinj Hzero Hnd Hpos Hi.
  destruct (build_operators_built component negated basis n triplets Hneg Hinj keys
              interaction i Hnd Hpos Hi) as (Hnz & Hz).
  destruct (Z.eq_dec (component i) 0) as [E | E].
  - rewrite (Hzero i E), (Hz E). split; eauto.
  - destruct (Hnz E) as (H1 & M & H2 & H3). rewrite H1, H3. split; eauto.
Qed.

Lemma list_filter_nil {A} (P : A -> bool) (l : list A) :
  (forall x, x ∈ l -> P x = false) -> List.filter P l = [].
Proof.
  induction l as [|x l IH]; intros H; cbn; [reflexivity|].
  rewrite (H x (list_elem_of_here _ _)). apply IH.
  intros y Hy. apply H. now apply list_elem_of_further.
Qed.

Lemma in_range_of_filter {A B} (P : A * B -> bool) (l : list (A * B)) x :
  x ∈ l -> P x = true -> fst x ∈ map fst (List.filter P l).
Proof.
  intros Hx HP. apply list_elem_of_In, in_map, filter_In.
  split; [now apply list_elem_of_In | exact HP].
Qed.

Lemma negated_component_zero (k : Z * Z) : snd k = 0 -> negated_component k = k.
Proof. destruct k as [a b]; unfold negated_component; cbn. now intros ->. Qed.

Lemma opp_zero (k : Z) : id k = 0 -> - k = k.
Proof. unfold id. lia. Qed.

Lemma build_interaction_frame rg t s :
  same_configuration s (build_interaction rg t s)
  /\ same_efield s (build_interaction rg t s)
  /\ same_bfield s (build_interaction rg t s)
  /\ diamagnetism_terms (build_interaction rg t s) = diamagnetism_terms s
  /\ assembler (build_interaction rg t s) = assembler s.
Proof.
  unfold build_interaction, same_configuration, same_efield, same_bfield. cbn.
  destruct (charge s =? 0); cbn; repeat split; reflexivity.
Qed.

Lemma build_interaction_multipole_unchanged rg t s :
  charge s = 0 ->
  interaction_multipole (build_interaction rg t s) = interaction_multipole s.
Proof. intros E. unfold build_interaction. cbn. rewrite E. reflexivity. Qed.

Section RangesAfterBuilding.

Variable hdr : Headers.
Variable s : SystemOne.

Let rg := compute_ranges s.
Let t := column_loop hdr (cache s) (charge s) rg (enumerated (states s)).
Let s' := build_interaction rg t s.

Lemma efield_range_after_building : efield_range s' = [].
Proof.
  destruct (build_interaction_fields rg t s) as (HE & _).
  destruct (build_interaction_frame rg t s) as (_ & (_ & Hsph) & _).
  destruct (efield_range_spec s) as (Hnd & Hpos).
  unfold efield_range at 1, s'. rewrite Hsph.
  rewrite list_filter_nil; [reflexivity|].
  intros [k v] Hin. cbn [fst snd].
  destruct (negb (k <? 0) && above_tolerance v) eqn:Hcond; [|reflexivity].
  cbn [andb]. apply bool_decide_eq_false. intros Hnone.
  assert (Hsome : is_Some (interaction_efield (build_interaction rg t s) !! (- k))).
  { rewrite HE.
    destruct (interaction_efield s !! (- k)) as [M|] eqn:Hbefore.
    - apply build_operators_is_Some. rewrite Hbefore. eauto.
    - apply (build_operators_present id Z.opp _ _ _ _ _ k opp_spec Z.opp_inj opp_zero
               Hnd Hpos).
      apply (in_range_of_filter _ _ (k, v) Hin). cbn [fst snd].
      rewrite Hcond. cbn [andb]. now apply bool_decide_eq_true. }
  rewrite Hnone in Hsome. now destruct Hsome.
Qed.

Lemma bfield_range_after_building : bfield_range s' = [].
Proof.
  destruct (build_interaction_fields rg t s) as (_ & HB & _).
  destruct (build_interaction_frame rg t s) as (_ & _ & (_ & Hsph) & _).
  destruct (bfield_range_spec s) as (Hnd & Hpos).
  unfold bfield_range at 1, s'. rewrite Hsph.
  rewrite list_filter_nil; [reflexivity|].
  intros [k v] Hin. cbn [fst snd].
  destruct (negb (k <? 0) && above_tolerance v) eqn:Hcond; [|reflexivity].
  cbn [andb]. apply bool_decide_eq_false. intros Hnone.
  assert (Hsome : is_Some (interaction_bfield (build_interaction rg t s) !! (- k))).
  { rewrite HB.
    destruct (interaction_bfield s !! (- k)) as [M|] eqn:Hbefore.
    - apply build_operators_is_Some. rewrite Hbefore. eauto.
    - apply (build_operators_present id Z.opp _ _ _ _ _ k opp_spec Z.opp_inj opp_zero
               Hnd Hpos).
      apply (in_range_of_filter _ _ (k, v) Hin). cbn [fst snd].
      rewrite Hcond. cbn [andb]. now apply bool_decide_eq_true. }
  rewrite Hnone in Hsome. now destruct Hsome.
Qed.

Lemma diamagnetism_range_after_building : diamagnetism_range s' = [].
Proof.
  destruct (build_interaction_fields rg t s) as (_ & _ & HD & _).
  destruct (build_interaction_frame rg t s)
    as ((_&_&_&_&_&_&_&_&_&_&_&_&Hon&_) & _ & _ & Hterms & _).
  destruct (diamagnetism_range_spec s) as (Hnd & Hpos).
  unfold diamagnetism_range at 1, s'. rewrite Hterms, Hon.
  rewrite list_filter_nil; [reflexivity|].
  intros [k v] Hin. cbn [fst snd].
  destruct (negb (snd k <? 0) && diamagnetism s && above_tolerance v) eqn:Hcond;
    [|reflexivity].
  cbn [andb]. apply bool_decide_eq_false. intros Hnone.
  assert (Hsome : is_Some (interaction_diamagnetism (build_interaction rg t s) !! k)).
  { rewrite HD.
    destruct (interaction_diamagnetism s !! k) as [M|] eqn:Hbefore.
    - apply build_operators_is_Some. rewrite Hbefore. eauto.
    - apply (build_operators_present snd negated_component _ _ _ _ _ k
               negated_component_spec negated_component_inj negated_component_zero
               Hnd Hpos).
      apply (in_range_of_filter _ _ (k, v) Hin). cbn [fst snd].
      rewrite Hcond. cbn [andb]. now apply bool_decide_eq_true. }
  rewrite Hnone in Hsome. now destruct Hsome.
Qed.

Lemma multipole_range_after_building : multipole_range s' = [].
Proof.
  destruct (build_interaction_fields rg t s) as (_ & _ & _ & HO).
  destruct (build_interaction_frame rg t s)
    as ((_&_&_&_&_&_&_&_&_&_&_&_&_&Hch&Hom&_) & _).
  destruct (multipole_range_spec s) as (Hnd & Hpos).
  unfold multipole_range at 1, s'. rewrite Hch, Hom.
  destruct (Z.eqb_spec (charge s) 0) as [E | E]; [reflexivity|].
  rewrite list_filter_nil; [reflexivity|].
  intros order Hin. apply bool_decide_eq_false. intros Hnone.
  assert (Hsome : is_Some (interaction_multipole (build_interaction rg t s) !! order)).
  { rewrite (HO E).
    destruct (interaction_multipole s !! order) as [M|] eqn:Hbefore.
    - apply build_operators_is_Some. rewrite Hbefore. eauto.
    - assert (Hpos' : forall k, k ∈ multipole_range s -> 0 <= id k).
      { intros k Hk. destruct (Hpos k Hk). unfold id. lia. }
      apply (build_operators_present id Z.opp _ _ _ _ _ order opp_spec Z.opp_inj opp_zero
               Hnd Hpos').
      unfold multipole_range. destruct (Z.eqb_spec (charge s) 0) as [? | _];
        [contradiction|].
      apply list_elem_of_In, filter_In. split; [now apply list_elem_of_In|].
      now apply bool_decide_eq_true. }
  rewrite Hnone in Hsome. now destruct Hsome.
Qed.

End RangesAfterBuilding.

(** X1: [initializeInteraction] is idempotent: the operators that a call has
    stored are found by the next call, which builds nothing and returns the
    object as it is. *)
Theorem initializeInteraction_idempotent (hdr : Headers) (s : SystemOne) :
  initializeInteraction hdr (initializeInteraction hdr s) = initializeInteraction hdr s.
Proof.
  destruct (bool_decide (efield_range s = []) && bool_decide (bfield_range s = [])
            && bool_decide (diamagnetism_range s = [])
            && bool_decide (multipole_range s = [])) eqn:Hnothing.
  - assert (E : initializeInteraction hdr s = s).
    { unfold initializeInteraction. cbn [erange brange drange orange compute_ranges].
      now rewrite Hnothing. }
    now rewrite !E.
  - assert (E : initializeInteraction hdr s
                = build_interaction (compute_ranges s)
                    (column_loop hdr (cache s) (charge s) (compute_ranges s)
                       (enumerated (states s))) s).
    { unfold initializeInteraction. cbn [erange brange drange orange compute_ranges].
      now rewrite Hnothing. }
    rewrite E. unfold initializeInteraction.
    cbn [erange brange drange orange compute_ranges].
    rewrite (efield_range_after_building hdr s), (bfield_range_after_building hdr s),
      (diamagnetism_range_after_building hdr s), (multipole_range_after_building hdr s).
    reflexivity.
Qed.

Lemma build_operators_untouched {K} `{Countable K} (component : K -> Z) (negated : K -> K)
  basis n (triplets : gmap K (list eigen_triplet_t)) keys interaction k :
  (forall k, negated (negated k) = k) ->
  k ∉ keys -> negated k ∉ keys ->
  fold_left (build_operator component negated basis n triplets) keys interaction !! k
  = interaction !! k.
Proof.
  intros Hinv Hk Hnk. apply build_operators_other; [exact Hk|].
  intros j Hj _ E. apply Hnk. rewrite E, Hinv. exact Hj.
Qed.

Lemma negated_component_involutive k : negated_component (negated_component k) = k.
Proof.
  destruct k as [a b]; unfold negated_component; cbn. now rewrite Z.opp_involutive.
Qed.

(** X2: [initializeInteraction] changes nothing but the four maps of
    operators; in these it never removes an entry, and it leaves alone every
    entry whose key is neither in the range it builds nor the negative of
    such a key. *)
Theorem initializeInteraction_changes_only_built_operators (hdr : Headers)
  (s : SystemOne) :
  (same_configuration s (initializeInteraction hdr s)
   /\ same_efield s (initializeInteraction hdr s)
   /\ same_bfield s (initializeInteraction hdr s)
   /\ diamagnetism_terms (initializeInteraction hdr s) = diamagnetism_terms s
   /\ assembler (initializeInteraction hdr s) = assembler s)
  /\ (forall k, k ∉ efield_range s -> - k ∉ efield_range s ->
        interaction_efield (initializeInteraction hdr s) !! k = interaction_efield s !! k)
  /\ (forall k, k ∉ bfield_range s -> - k ∉ bfield_range s ->
        interaction_bfield (initializeInteraction hdr s) !! k = interaction_bfield s !! k)
  /\ (forall k, k ∉ diamagnetism_range s -> negated_component k ∉ diamagnetism_range s ->
        interaction_diamagnetism (initializeInteraction hdr s) !! k
        = interaction_diamagnetism s !! k)
  /\ (forall k, k ∉ multipole_range s -> - k ∉ multipole_range s ->
        interaction_multipole (initializeInteraction hdr s) !! k
        = interaction_multipole s !! k)
  /\ (forall k, is_Some (interaction_efield s !! k) ->
        is_Some (interaction_efield (initializeInteraction hdr s) !! k))
  /\ (forall k, is_Some (interaction_bfield s !! k) ->
        is_Some (interaction_bfield (initializeInteraction hdr s) !! k))
  /\ (forall k, is_Some (interaction_diamagnetism s !! k) ->
        is_Some (interaction_diamagnetism (initializeInteraction hdr s) !! k))
  /\ (forall k, is_Some (interaction_multipole s !! k) ->
        is_Some (interaction_multipole (initializeInteraction hdr s) !! k)).
Proof.
  unfold initializeInteraction.
  destruct (bool_decide (erange (compute_ranges s) = [])
            && bool_decide (brange (compute_ranges s) = [])
            && bool_decide (drange (compute_ranges s) = [])
            && bool_decide (orange (compute_ranges s) = [])).
  { unfold same_configuration, same_efield, same_bfield. repeat split; auto. }
  set (rg := compute_ranges s).
  set (t := column_loop hdr (cache s) (charge s) rg (enumerated (states s))).
  destruct (build_interaction_fields rg t s) as (HE & HB & HD & HO).
  split; [apply build_interaction_frame|].
  assert (HO' : interaction_multipole (build_interaction rg t s)
                = fold_left (build_operator id Z.opp (basisvectors s) (length (states s))
                               (interaction_multipole_triplets t))
                    (multipole_range s) (interaction_multipole s)).
  { destruct (Z.eq_dec (charge s) 0) as [E | E]; [|exact (HO E)].
    rewrite (build_interaction_multipole_unchanged rg t s E).
    unfold multipole_range. now rewrite E. }
  rewrite HE, HB, HD, HO'. cbn [erange brange drange orange rg compute_ranges].
  repeat split.
  - intros k. apply build_operators_untouched, Z.opp_involutive.
  - intros k. apply build_operators_untouched, Z.opp_involutive.
  - intros k. apply build_operators_untouched, negated_component_involutive.
  - intros k. apply build_operators_untouched, Z.opp_involutive.
  - intros k. apply build_operators_is_Some.
  - intros k. apply build_operators_is_Some.
  - intros k. apply build_operators_is_Some.
  - intros k. apply build_operators_is_Some.
Qed.

Lemma initializeBasis_returns_build_data hdr s s' :
  initializeBasis hdr s = Returns s' -> exists bb, s' = build_data s bb.
Proof.
  unfold initializeBasis.
  destruct (bool_decide (range_n s = [])
            && (PrimFloat.eqb (energy_min s) double_lowest
                || PrimFloat.eqb (energy_max s) double_max)); [discriminate|].
  destruct (bool_decide (range_n s = [])); [discriminate|].
  destruct (enumerate_states hdr s _) as [bb1 | e bb1]; [|discriminate].
  destruct (user_defined_states hdr s bb1) as [bb2 | e bb2]; [|discriminate].
  intros [= <-]. eauto.
Qed.

Section OperatorsFitHamiltonian.

Context {K : Type} `{Countable K}.
Variable component : K -> Z.
Variable negated : K -> K.
Variable s : SystemOne.
Variable triplets : gmap K (list eigen_triplet_t).

Hypothesis component_negated : forall k, component (negated k) = - component k.
Hypothesis negated_inj : forall k k', negated k = negated k' -> k = k'.
Hypothesis negated_zero : forall k, component k = 0 -> negated k = k.
Hypothesis square : rows (hamiltonian s) = cols (basisvectors s)
                    /\ cols (hamiltonian s) = cols (basisvectors s).

Lemma build_operators_fit keys interaction i :
  NoDup keys -> (forall k, k ∈ keys -> 0 <= component k) -> i ∈ keys ->
  fits_hamiltonian s
    (fold_left (build_operator component negated (basisvectors s) (length (states s))
                  triplets) keys interaction !! i)
  /\ fits_hamiltonian s
       (fold_left (build_operator component negated (basisvectors s) (length (states s))
                     triplets) keys interaction !! negated i).
Proof.
  intros Hnd Hpos Hi. destruct square as (Hr & Hc).
  destruct (build_operators_built component negated (basisvectors s) (length (states s))
              triplets component_negated negated_inj keys interaction i Hnd Hpos Hi)
    as (Hnz & Hz).
  unfold fits_hamiltonian.
  destruct (Z.eq_dec (component i) 0) as [E | E].
  - rewrite (negated_zero i E), (Hz E). split; eexists; (split; [reflexivity|]);
      cbn; now rewrite Hr, Hc.
  - destruct (Hnz E) as (H1 & M & H2 & H3). rewrite H3.
    rewrite H1 in H2 |- *. injection H2 as <-.
    split; eexists; (split; [reflexivity|]); cbn; now rewrite Hr, Hc.
Qed.

End OperatorsFitHamiltonian.

(** X3: on a system whose basis [initializeBasis] has built, the Hamiltonian
    is square with one row per basis vector, and every operator that
    [initializeInteraction] builds, for a key of a range or its negative, has
    the dimensions of the Hamiltonian. *)
Theorem initializeInteraction_operators_fit_hamiltonian (hdr : Headers)
  (s0 s : SystemOne) :
  initializeBasis hdr s0 = Returns s ->
  (rows (hamiltonian s) = cols (basisvectors s)
   /\ cols (hamiltonian s) = cols (basisvectors s))
  /\ (forall i, i ∈ efield_range s ->
        fits_hamiltonian s (interaction_efield (initializeInteraction hdr s) !! i)
        /\ fits_hamiltonian s (interaction_efield (initializeInteraction hdr s) !! (- i)))
  /\ (forall i, i ∈ bfield_range s ->
        fits_hamiltonian s (interaction_bfield (initializeInteraction hdr s) !! i)
        /\ fits_hamiltonian s (interaction_bfield (initializeInteraction hdr s) !! (- i)))
  /\ (forall i, i ∈ diamagnetism_range s ->
        fits_hamiltonian s (interaction_diamagnetism (initializeInteraction hdr s) !! i)
        /\ fits_hamiltonian s
             (interaction_diamagnetism (initializeInteraction hdr s)
              !! negated_component i))
  /\ (forall i, i ∈ multipole_range s ->
        fits_hamiltonian s (interaction_multipole (initializeInteraction hdr s) !! i)
        /\ fits_hamiltonian s
             (interaction_multipole (initializeInteraction hdr s) !! (- i))).
Proof.
  intros Hbasis.
  assert (Hsquare : rows (hamiltonian s) = cols (basisvectors s)
                    /\ cols (hamiltonian s) = cols (basisvectors s)).
  { apply initializeBasis_returns_build_data in Hbasis as (bb & ->). split; reflexivity. }
  split; [exact Hsquare|].
  unfold initializeInteraction. cbn [erange brange drange orange compute_ranges].
  destruct (bool_decide (efield_range s = []) && bool_decide (bfield_range s = [])
            && bool_decide (diamagnetism_range s = [])
            && bool_decide (multipole_range s = [])) eqn:Hnothing.
  { apply andb_true_iff in Hnothing as (Hnothing & Ho).
    apply andb_true_iff in Hnothing as (Hnothing & Hd).
    apply andb_true_iff in Hnothing as (He & Hb).
    apply bool_decide_eq_true_1 in He, Hb, Hd, Ho. rewrite He, Hb, Hd, Ho.
    repeat split; intros; match goal with H : _ ∈ [] |- _ => inversion H end. }
  set (rg := compute_ranges s).
  set (t := column_loop hdr (cache s) (charge s) rg (enumerated (states s))).
  destruct (build_interaction_fields rg t s) as (HE & HB & HD & HO).
  destruct (efield_range_spec s) as (HEnd & HEpos).
  destruct (bfield_range_spec s) as (HBnd & HBpos).
  destruct (diamagnetism_range_spec s) as (HDnd & HDpos).
  destruct (multipole_range_spec s) as (HOnd & HOpos).
  split; [|split; [|split]].
  - intros i Hi. rewrite HE.
    apply (build_operators_fit id Z.opp s _ opp_spec Z.opp_inj opp_zero Hsquare); auto.
  - intros i Hi. rewrite HB.
    apply (build_operators_fit id Z.opp s _ opp_spec Z.opp_inj opp_zero Hsquare); auto.
  - intros i Hi. rewrite HD.
    apply (build_operators_fit snd negated_component s _ negated_component_spec
             negated_component_inj negated_component_zero Hsquare); auto.
  - intros i Hi. destruct (HOpos i Hi) as (_ & Hch). rewrite (HO Hch).
    apply (build_operators_fit id Z.opp s _ opp_spec Z.opp_inj opp_zero Hsquare); auto.
    intros k Hk. destruct (HOpos k Hk). unfold id. lia.
Qed.

(** The example with a magnetic field: the diamagnetic operators fit. *)
Lemma initializeInteraction_operators_fit_hamiltonian_witness :
  fits_hamiltonian Example.magnetic_basis
    (interaction_diamagnetism (initializeInteraction Example.hdr Example.magnetic_basis)
     !! (2, 1))
  /\ fits_hamiltonian Example.magnetic_basis
       (interaction_diamagnetism (initializeInteraction Example.hdr Example.magnetic_basis)
        !! (2, -1)).
Proof.
  assert (Hbasis :
            initializeBasis Example.hdr
              (after (setBfield (1, 0, 1)%float
                        (set_range_j [3] (set_range_l [1]
                           (set_range_n [2] Example.fresh)))))
            = Returns Example.magnetic_basis) by (vm_compute; reflexivity).
  destruct (initializeInteraction_operators_fit_hamiltonian Example.hdr _ _ Hbasis)
    as (_ & _ & _ & Hd & _).
  apply (Hd (2, 1)).
  apply (bool_decide_eq_true_1 _). vm_compute. reflexivity.
Defined.

(** ** The entries that [addInteraction] creates *)

Lemma touch_subseteq {K V} `{Countable K} (k : K) (d : V) (m : gmap K V) :
  m ⊆ touch k d m.
Proof.
  unfold touch. destruct (m !! k) eqn:E; [reflexivity | now apply insert_subseteq].
Qed.

Lemma touch_is_Some {K V} `{Countable K} (k : K) (d : V) (m : gmap K V) :
  is_Some (touch k d m !! k).
Proof.
  unfold touch. destruct (m !! k) eqn:E; [rewrite E; eauto|].
  rewrite lookup_insert_eq. eauto.
Qed.

Lemma subseteq_is_Some {K V} `{Countable K} (m m' : gmap K V) k :
  m ⊆ m' -> is_Some (m !! k) -> is_Some (m' !! k).
Proof. intros Hsub (v & Hv). exists v. exact (lookup_weaken _ _ _ _ Hv Hsub). Qed.

Lemma keeps_operators_refl s : keeps_operators s s.
Proof. unfold keeps_operators. repeat split; reflexivity. Qed.

Lemma same_basis_and_settings_refl s : same_basis_and_settings s s.
Proof. unfold same_basis_and_settings. repeat split; reflexivity. Qed.

Lemma default_entries_only_refl s : default_entries_only s s.
Proof.
  split; [apply same_reads_refl|].
  split; [apply keeps_operators_refl | apply same_basis_and_settings_refl].
Qed.

Lemma default_entries_only_trans s1 s2 s3 :
  default_entries_only s1 s2 -> default_entries_only s2 s3 -> default_entries_only s1 s3.
Proof.
  intros (R1 & (E1 & B1 & D1 & O1) & S1) (R2 & (E2 & B2 & D2 & O2) & S2).
  split; [eapply same_reads_trans; eassumption|]. split.
  - unfold keeps_operators. repeat split; etransitivity; eassumption.
  - unfold same_basis_and_settings in *.
    destruct S1 as (?&?&?&?&?&?&?&?&?&?&?&?&?&?&?&?&?).
    destruct S2 as (?&?&?&?&?&?&?&?&?&?&?&?&?&?&?&?&?).
    repeat split; congruence.
Qed.

Ltac default_entries_step :=
  split; [assumption|];
  split; [unfold keeps_operators; cbn; repeat split;
          first [reflexivity | apply touch_subseteq]
         | unfold same_basis_and_settings; cbn; repeat split; reflexivity].

Lemma efield_term_default_entries op i k s :
  default_entries_only s (efield_term op i k s).
Proof.
  destruct (efield_term_spec op i k s) as (Hr & _). revert Hr. unfold efield_term.
  destruct (above_tolerance (at_key (efield_spherical s) k)); intros Hr;
    default_entries_step.
Qed.

Lemma bfield_term_default_entries op i k s :
  default_entries_only s (bfield_term op i k s).
Proof.
  destruct (bfield_term_spec op i k s) as (Hr & _). revert Hr. unfold bfield_term.
  destruct (above_tolerance (at_key (bfield_spherical s) k)); intros Hr;
    default_entries_step.
Qed.

Lemma diamagnetism_term_default_entries op i factor s :
  default_entries_only s (diamagnetism_term op i factor s).
Proof.
  destruct (diamagnetism_term_spec op i factor s) as (Hr & _). revert Hr.
  unfold diamagnetism_term.
  destruct (diamagnetism s); [|intros _; apply default_entries_only_refl].
  destruct (above_tolerance (at_key (diamagnetism_terms s) i)); intros Hr;
    default_entries_step.
Qed.

Lemma multipole_term_default_entries s order :
  default_entries_only s (multipole_term s order).
Proof.
  destruct (multipole_term_spec s order) as (Hr & _). revert Hr. unfold multipole_term.
  intros Hr. default_entries_step.
Qed.

Lemma multipole_loop_default_entries orders : forall s,
  default_entries_only s (fold_left multipole_term orders s)
  /\ (forall order, order ∈ orders ->
        is_Some (interaction_multipole (fold_left multipole_term orders s)
                 !! Z.of_nat order)).
Proof.
  induction orders as [|o orders IH]; intros s; cbn [fold_left].
  - split; [apply default_entries_only_refl|]. intros order Ho. inversion Ho.
  - destruct (IH (multipole_term s o)) as (Hd & Hin).
    split; [eapply default_entries_only_trans;
            [apply multipole_term_default_entries | exact Hd]|].
    intros order Ho. apply elem_of_cons in Ho as [-> | Ho]; [|auto].
    destruct Hd as (_ & (_ & _ & _ & Hsub) & _).
    apply (subseteq_is_Some _ _ _ Hsub). unfold multipole_term. cbn.
    apply touch_is_Some.
Qed.

(** A term that is included leaves the key of its operator behind. *)
Lemma efield_term_marks s0 op i k s :
  default_entries_only s0 s ->
  above_tolerance (at_key (efield_spherical s0) k) = true ->
  is_Some (interaction_efield (efield_term op i k s) !! i).
Proof.
  intros ((He & _) & _) Habove. unfold efield_term. rewrite He, Habove. cbn.
  apply touch_is_Some.
Qed.

Lemma bfield_term_marks s0 op i k s :
  default_entries_only s0 s ->
  above_tolerance (at_key (bfield_spherical s0) k) = true ->
  is_Some (interaction_bfield (bfield_term op i k s) !! i).
Proof.
  intros ((_ & Hb & _) & _) Habove. unfold bfield_term. rewrite Hb, Habove. cbn.
  apply touch_is_Some.
Qed.

Lemma diamagnetism_term_marks s0 op i factor s :
  default_entries_only s0 s ->
  diamagnetism s0 = true ->
  above_tolerance (at_key (diamagnetism_terms s0) i) = true ->
  is_Some (interaction_diamagnetism (diamagnetism_term op i factor s) !! i).
Proof.
  intros ((_ & _ & Hd & _ & _ & _ & _ & Hon & _) & _) Henabled Habove.
  unfold diamagnetism_term. rewrite Hon, Henabled, Hd, Habove. cbn.
  apply touch_is_Some.
Qed.

Lemma addInteraction_leaves s :
  default_entries_only s (addInteraction s) /\ reads_marked s (addInteraction s).
Proof.
  unfold addInteraction.
  set (s1 := efield_term MinusAssign 0 0 s).
  set (s2 := efield_term PlusAssign 1 (-1) s1).
  set (s3 := efield_term PlusAssign (-1) 1 s2).
  set (s4 := bfield_term MinusAssign 0 0 s3).
  set (s5 := bfield_term PlusAssign 1 (-1) s4).
  set (s6 := bfield_term PlusAssign (-1) 1 s5).
  set (s7 := diamagnetism_term PlusAssign (0, 0) None s6).
  set (s8 := diamagnetism_term MinusAssign (2, 0) None s7).
  set (s9 := diamagnetism_term PlusAssign (2, 1) (Some sqrt3) s8).
  set (s10 := diamagnetism_term PlusAssign (2, -1) (Some sqrt3) s9).
  set (s11 := diamagnetism_term MinusAssign (2, 2) (Some sqrt1_5) s10).
  set (s12 := diamagnetism_term MinusAssign (2, -2) (Some sqrt1_5) s11).
  set (s' := if negb (charge s12 =? 0) && neq (distance s12) double_max
             then fold_left multipole_term (seq 1 (ordermax s12)) s12 else s12).
  pose proof (default_entries_only_refl s) as T0.
  pose proof (default_entries_only_trans _ _ _ T0
                (efield_term_default_entries MinusAssign 0 0 s) : _ s s1) as T1.
  pose proof (default_entries_only_trans _ _ _ T1
                (efield_term_default_entries PlusAssign 1 (-1) s1) : _ s s2) as T2.
  pose proof (default_entries_only_trans _ _ _ T2
                (efield_term_default_entries PlusAssign (-1) 1 s2) : _ s s3) as T3.
  pose proof (default_entries_only_trans _ _ _ T3
                (bfield_term_default_entries MinusAssign 0 0 s3) : _ s s4) as T4.
  pose proof (default_entries_only_trans _ _ _ T4
                (bfield_term_default_entries PlusAssign 1 (-1) s4) : _ s s5) as T5.
  pose proof (default_entries_only_trans _ _ _ T5
                (bfield_term_default_entries PlusAssign (-1) 1 s5) : _ s s6) as T6.
  pose proof (default_entries_only_trans _ _ _ T6
                (diamagnetism_term_default_entries PlusAssign (0, 0) None s6) : _ s s7)
    as T7.
  pose proof (default_entries_only_trans _ _ _ T7
                (diamagnetism_term_default_entries MinusAssign (2, 0) None s7) : _ s s8)
    as T8.
  pose proof (default_entries_only_trans _ _ _ T8
                (diamagnetism_term_default_entries PlusAssign (2, 1) (Some sqrt3) s8)
              : _ s s9) as T9.
  pose proof (default_entries_only_trans _ _ _ T9
                (diamagnetism_term_default_entries PlusAssign (2, -1) (Some sqrt3) s9)
              : _ s s10) as T10.
  pose proof (default_entries_only_trans _ _ _ T10
                (diamagnetism_term_default_entries MinusAssign (2, 2) (Some sqrt1_5) s10)
              : _ s s11) as T11.
  pose proof (default_entries_only_trans _ _ _ T11
                (diamagnetism_term_default_entries MinusAssign (2, -2) (Some sqrt1_5) s11)
              : _ s s12) as T12.
  assert (U12 : default_entries_only s12 s').
  { unfold s'. destruct (negb (charge s12 =? 0) && neq (distance s12) double_max);
      [apply multipole_loop_default_entries | apply default_entries_only_refl]. }
  pose proof (default_entries_only_trans _ _ _
                (diamagnetism_term_default_entries MinusAssign (2, -2) (Some sqrt1_5) s11
                 : _ s11 s12) U12) as U11.
  pose proof (default_entries_only_trans _ _ _
                (diamagnetism_term_default_entries MinusAssign (2, 2) (Some sqrt1_5) s10
                 : _ s10 s11) U11) as U10.
  pose proof (default_entries_only_trans _ _ _
                (diamagnetism_term_default_entries PlusAssign (2, -1) (Some sqrt3) s9
                 : _ s9 s10) U10) as U9.
  pose proof (default_entries_only_trans _ _ _
                (diamagnetism_term_default_entries PlusAssign (2, 1) (Some sqrt3) s8
                 : _ s8 s9) U9) as U8.
  pose proof (default_entries_only_trans _ _ _
                (diamagnetism_term_default_entries MinusAssign (2, 0) None s7
                 : _ s7 s8) U8) as U7.
  pose proof (default_entries_only_trans _ _ _
                (diamagnetism_term_default_entries PlusAssign (0, 0) None s6
                 : _ s6 s7) U7) as U6.
  pose proof (default_entries_only_trans _ _ _
                (bfield_term_default_entries PlusAssign (-1) 1 s5 : _ s5 s6) U6) as U5.
  pose proof (default_entries_only_trans _ _ _
                (bfield_term_default_entries PlusAssign 1 (-1) s4 : _ s4 s5) U5) as U4.
  pose proof (default_entries_only_trans _ _ _
                (bfield_term_default_entries MinusAssign 0 0 s3 : _ s3 s4) U4) as U3.
  pose proof (default_entries_only_trans _ _ _
                (efield_term_default_entries PlusAssign (-1) 1 s2 : _ s2 s3) U3) as U2.
  pose proof (default_entries_only_trans _ _ _
                (efield_term_default_entries PlusAssign 1 (-1) s1 : _ s1 s2) U2) as U1.
  split; [exact (default_entries_only_trans _ _ _ T12 U12)|].
  split; [|split; [|split]].
  - intros k Hk Habove. apply list_elem_of_In in Hk. cbn in Hk.
    destruct Hk as [<- | [<- | [<- | []]]]; cbn [Z.opp Pos.succ].
    + destruct U2 as (_ & (Hsub & _) & _). apply (subseteq_is_Some _ _ _ Hsub).
      exact (efield_term_marks s PlusAssign 1 (-1) s1 T1 Habove).
    + destruct U1 as (_ & (Hsub & _) & _). apply (subseteq_is_Some _ _ _ Hsub).
      exact (efield_term_marks s MinusAssign 0 0 s T0 Habove).
    + destruct U3 as (_ & (Hsub & _) & _). apply (subseteq_is_Some _ _ _ Hsub).
      exact (efield_term_marks s PlusAssign (-1) 1 s2 T2 Habove).
  - intros k Hk Habove. apply list_elem_of_In in Hk. cbn in Hk.
    destruct Hk as [<- | [<- | [<- | []]]]; cbn [Z.opp Pos.succ].
    + destruct U5 as (_ & (_ & Hsub & _) & _). apply (subseteq_is_Some _ _ _ Hsub).
      exact (bfield_term_marks s PlusAssign 1 (-1) s4 T4 Habove).
    + destruct U4 as (_ & (_ & Hsub & _) & _). apply (subseteq_is_Some _ _ _ Hsub).
      exact (bfield_term_marks s MinusAssign 0 0 s3 T3 Habove).
    + destruct U6 as (_ & (_ & Hsub & _) & _). apply (subseteq_is_Some _ _ _ Hsub).
      exact (bfield_term_marks s PlusAssign (-1) 1 s5 T5 Habove).
  - intros k Hk Hon Habove. apply list_elem_of_In in Hk. cbn in Hk.
    destruct Hk as [<- | [<- | [<- | [<- | [<- | [<- | []]]]]]].
    + destruct U7 as (_ & (_ & _ & Hsub & _) & _). apply (subseteq_is_Some _ _ _ Hsub).
      exact (diamagnetism_term_marks s PlusAssign (0, 0) None s6 T6 Hon Habove).
    + destruct U8 as (_ & (_ & _ & Hsub & _) & _). apply (subseteq_is_Some _ _ _ Hsub).
      exact (diamagnetism_term_marks s MinusAssign (2, 0) None s7 T7 Hon Habove).
    + destruct U9 as (_ & (_ & _ & Hsub & _) & _). apply (subseteq_is_Some _ _ _ Hsub).
      exact (diamagnetism_term_marks s PlusAssign (2, 1) (Some sqrt3) s8 T8 Hon Habove).
    + destruct U10 as (_ & (_ & _ & Hsub & _) & _). apply (subseteq_is_Some _ _ _ Hsub).
      exact (diamagnetism_term_marks s PlusAssign (2, -1) (Some sqrt3) s9 T9 Hon Habove).
    + destruct U11 as (_ & (_ & _ & Hsub & _) & _). apply (subseteq_is_Some _ _ _ Hsub).
      exact (diamagnetism_term_marks s MinusAssign (2, 2) (Some sqrt1_5) s10 T10 Hon
               Habove).
    + destruct U12 as (_ & (_ & _ & Hsub & _) & _). apply (subseteq_is_Some _ _ _ Hsub).
      exact (diamagnetism_term_marks s MinusAssign (2, -2) (Some sqrt1_5) s11 T11 Hon
               Habove).
  - intros Hcharge Hdistance order Horder.
    destruct T12 as ((_ & _ & _ & _ & _ & _ & _ & _ & Hc & Hd & Ho) & _).
    unfold s'. rewrite Hc, Hd, Ho, Hdistance.
    destruct (Z.eqb_spec (charge s) 0) as [E | _]; [contradiction|]. cbn [negb andb].
    now apply multipole_loop_default_entries.
Qed.

(** X4: besides the Hamiltonian, [addInteraction] changes the object only by
    the entries that its accesses to absent keys create: every stored
    operator stays as it is, every coefficient and every operator reads as
    before, and the basis and the settings are untouched. *)
Theorem addInteraction_creates_default_entries_only (s : SystemOne) :
  default_entries_only s (addInteraction s).
Proof.
  pose proof (default_entries_only_refl s) as H0.
  unfold addInteraction.
  apply (fun H => default_entries_only_trans _ _ _ H
                    (efield_term_default_entries MinusAssign 0 0 _)) in H0.
  apply (fun H => default_entries_only_trans _ _ _ H
                    (efield_term_default_entries PlusAssign 1 (-1) _)) in H0.
  apply (fun H => default_entries_only_trans _ _ _ H
                    (efield_term_default_entries PlusAssign (-1) 1 _)) in H0.
  apply (fun H => default_entries_only_trans _ _ _ H
                    (bfield_term_default_entries MinusAssign 0 0 _)) in H0.
  apply (fun H => default_entries_only_trans _ _ _ H
                    (bfield_term_default_entries PlusAssign 1 (-1) _)) in H0.
  apply (fun H => default_entries_only_trans _ _ _ H
                    (bfield_term_default_entries PlusAssign (-1) 1 _)) in H0.
  apply (fun H => default_entries_only_trans _ _ _ H
                    (diamagnetism_term_default_entries PlusAssign (0, 0) None _)) in H0.
  apply (fun H => default_entries_only_trans _ _ _ H
                    (diamagnetism_term_default_entries MinusAssign (2, 0) None _)) in H0.
  apply (fun H => default_entries_only_trans _ _ _ H
                    (diamagnetism_term_default_entries PlusAssign (2, 1) (Some sqrt3) _))
    in H0.
  apply (fun H => default_entries_only_trans _ _ _ H
                    (diamagnetism_term_default_entries PlusAssign (2, -1) (Some sqrt3) _))
    in H0.
  apply (fun H => default_entries_only_trans _ _ _ H
                    (diamagnetism_term_default_entries MinusAssign (2, 2) (Some sqrt1_5) _))
    in H0.
  apply (fun H => default_entries_only_trans _ _ _ H
                    (diamagnetism_term_default_entries MinusAssign (2, -2) (Some sqrt1_5)
                       _)) in H0.
  match type of H0 with default_entries_only _ ?s12 => set (s' := s12) in * end.
  destruct (negb (charge s' =? 0) && neq (distance s') double_max); [|exact H0].
  eapply default_entries_only_trans; [exact H0|].
  apply multipole_loop_default_entries.
Qed.

Lemma above_tolerance_zero : above_tolerance 0 = false.
Proof. vm_compute. reflexivity. Qed.

Lemma keys_within_spec {K V} `{Countable K} (m : gmap K V) (keys : list K) k :
  keys_within m keys -> is_Some (m !! k) -> k ∈ keys.
Proof.
  intros Hsub Hk. apply elem_of_dom in Hk. apply Hsub in Hk.
  now apply elem_of_list_to_set in Hk.
Qed.

Lemma above_tolerance_stored {K} `{Countable K} (m : gmap K float) k :
  above_tolerance (at_key m k) = true -> is_Some (m !! k).
Proof.
  unfold at_key. destruct (m !! k); [eauto|].
  change (default 0%float None) with 0%float. now rewrite above_tolerance_zero.
Qed.

Lemma stored_at_key {K} `{Countable K} (m : gmap K float) k v :
  (k, v) ∈ map_to_list m -> at_key m k = v.
Proof. intros Hin. apply elem_of_map_to_list in Hin. unfold at_key. now rewrite Hin. Qed.

(** X5: when the coefficient maps hold no other keys than the field setters
    write, and the multipole terms are switched off or a distance is set,
    [addInteraction] leaves nothing for [initializeInteraction] to build: an
    operator that was missing when [addInteraction] read it stays the empty
    matrix that the access created. *)
Theorem initializeInteraction_after_addInteraction (hdr : Headers) (s : SystemOne) :
  keys_within (efield_spherical s) spherical_keys ->
  keys_within (bfield_spherical s) spherical_keys ->
  keys_within (diamagnetism_terms s) diamagnetism_keys ->
  charge s = 0 \/ neq (distance s) double_max = true ->
  initializeInteraction hdr (addInteraction s) = addInteraction s.
Proof.
  intros HkE HkB HkD Hmultipole.
  destruct (addInteraction_leaves s)
    as ((Hreads & _ & _) & (HmE & HmB & HmD & HmO)).
  destruct Hreads as (He & Hb & Hd & _ & _ & _ & _ & Hon & Hc & Hdist & Hom).
  assert (HE : efield_range (addInteraction s) = []).
  { unfold efield_range. rewrite list_filter_nil; [reflexivity|].
    intros [k v] Hin. cbn [fst snd].
    destruct (negb (k <? 0) && above_tolerance v) eqn:Hcond; [|reflexivity].
    cbn [andb]. apply bool_decide_eq_false. intros Hnone.
    apply andb_true_iff in Hcond as (_ & Habove).
    apply stored_at_key in Hin. rewrite He in Hin. rewrite <- Hin in Habove.
    pose proof (keys_within_spec _ _ k HkE (above_tolerance_stored _ _ Habove)) as Hk.
    destruct (HmE k Hk Habove) as (M & HM). congruence. }
  assert (HB : bfield_range (addInteraction s) = []).
  { unfold bfield_range. rewrite list_filter_nil; [reflexivity|].
    intros [k v] Hin. cbn [fst snd].
    destruct (negb (k <? 0) && above_tolerance v) eqn:Hcond; [|reflexivity].
    cbn [andb]. apply bool_decide_eq_false. intros Hnone.
    apply andb_true_iff in Hcond as (_ & Habove).
    apply stored_at_key in Hin. rewrite Hb in Hin. rewrite <- Hin in Habove.
    pose proof (keys_within_spec _ _ k HkB (above_tolerance_stored _ _ Habove)) as Hk.
    destruct (HmB k Hk Habove) as (M & HM). congruence. }
  assert (HD : diamagnetism_range (addInteraction s) = []).
  { unfold diamagnetism_range. rewrite list_filter_nil; [reflexivity|].
    intros [k v] Hin. cbn [fst snd].
    destruct (negb (snd k <? 0) && diamagnetism (addInteraction s) && above_tolerance v)
      eqn:Hcond; [|reflexivity].
    cbn [andb]. apply bool_decide_eq_false. intros Hnone.
    apply andb_true_iff in Hcond as (Hcond & Habove).
    apply andb_true_iff in Hcond as (_ & Henabled). rewrite Hon in Henabled.
    apply stored_at_key in Hin. rewrite Hd in Hin. rewrite <- Hin in Habove.
    pose proof (keys_within_spec _ _ k HkD (above_tolerance_stored _ _ Habove)) as Hk.
    destruct (HmD k Hk Henabled Habove) as (M & HM). congruence. }
  assert (HO : multipole_range (addInteraction s) = []).
  { unfold multipole_range. rewrite Hc, Hom.
    destruct (Z.eqb_spec (charge s) 0) as [E | E]; [reflexivity|].
    destruct Hmultipole as [? | Hdistance]; [contradiction|].
    rewrite list_filter_nil; [reflexivity|].
    intros order Hin. apply bool_decide_eq_false. intros Hnone.
    apply list_elem_of_In, in_map_iff in Hin as (o & <- & Ho).
    apply list_elem_of_In in Ho.
    destruct (HmO E Hdistance o Ho) as (M & HM). congruence. }
  unfold initializeInteraction. cbn [erange brange drange orange compute_ranges].
  rewrite HE, HB, HD, HO. reflexivity.
Qed.

(** The example in a magnetic field, its operators built. *)
Lemma initializeInteraction_after_addInteraction_witness :
  initializeInteraction Example.hdr (addInteraction Example.magnetic)
  = addInteraction Example.magnetic.
Proof.
  apply initializeInteraction_after_addInteraction.
  - unfold keys_within. apply (bool_decide_eq_true_1 _). vm_compute. reflexivity.
  - unfold keys_within. apply (bool_decide_eq_true_1 _). vm_compute. reflexivity.
  - unfold keys_within. apply (bool_decide_eq_true_1 _). vm_compute. reflexivity.
  - left. vm_compute. reflexivity.
Defined.

(** ** Transforming the operators *)

Lemma fmap_lookup_None {K} `{Countable K} (f : eigen_sparse_t -> eigen_sparse_t)
  (m : gmap K eigen_sparse_t) k :
  bool_decide ((f <$> m) !! k = None) = bool_decide (m !! k = None).
Proof.
  rewrite lookup_fmap. destruct (m !! k); reflexivity.
Qed.

Lemma transformInteraction_ranges T s :
  compute_ranges (transformInteraction T s) = compute_ranges s.
Proof.
  unfold compute_ranges, efield_range, bfield_range, diamagnetism_range, multipole_range,
    transformInteraction. cbn.
  f_equal.
  - f_equal. apply filter_ext. intros [k v]. now rewrite fmap_lookup_None.
  - f_equal. apply filter_ext. intros [k v]. now rewrite fmap_lookup_None.
  - f_equal. apply filter_ext. intros [k v]. now rewrite fmap_lookup_None.
  - destruct (charge s =? 0); [reflexivity|].
    apply filter_ext. intros k. now rewrite fmap_lookup_None.
Qed.

Lemma initializeInteraction_ranges hdr s :
  compute_ranges (initializeInteraction hdr s) = Ranges [] [] [] [].
Proof.
  unfold initializeInteraction. cbn [erange brange drange orange compute_ranges].
  destruct (bool_decide (efield_range s = []) && bool_decide (bfield_range s = [])
            && bool_decide (diamagnetism_range s = [])
            && bool_decide (multipole_range s = [])) eqn:Hnothing.
  - apply andb_true_iff in Hnothing as (Hnothing & Ho).
    apply andb_true_iff in Hnothing as (Hnothing & Hd).
    apply andb_true_iff in Hnothing as (He & Hb).
    apply bool_decide_eq_true_1 in He, Hb, Hd, Ho.
    unfold compute_ranges. now rewrite He, Hb, Hd, Ho.
  - unfold compute_ranges at 1.
    now rewrite (efield_range_after_building hdr s), (bfield_range_after_building hdr s),
      (diamagnetism_range_after_building hdr s), (multipole_range_after_building hdr s).
Qed.

Lemma transformed_lookup {K} `{Countable K} T (m : gmap K eigen_sparse_t) k M :
  (Matrix.transformed T <$> m) !! k = Some M -> rows M = cols T /\ cols M = cols T.
Proof.
  rewrite lookup_fmap. destruct (m !! k); cbn; [|discriminate].
  intros [= <-]. split; reflexivity.
Qed.

(** X6: [transformInteraction] adds and removes no operator, so the
    operators that are due to be built are the same before and after it;
    every transformed operator is square with as many rows as the
    transformator has columns; and a call of [initializeInteraction] that
    follows the transformation of the operators it had built leaves the
    transformed operators as they are. *)
Theorem transformInteraction_keeps_keys (hdr : Headers) (transformator : eigen_sparse_t)
  (s : SystemOne) :
  compute_ranges (transformInteraction transformator s) = compute_ranges s
  /\ ((forall k M, interaction_efield (transformInteraction transformator s) !! k = Some M ->
         rows M = cols transformator /\ cols M = cols transformator)
      /\ (forall k M,
            interaction_bfield (transformInteraction transformator s) !! k = Some M ->
            rows M = cols transformator /\ cols M = cols transformator)
      /\ (forall k M,
            interaction_diamagnetism (transformInteraction transformator s) !! k = Some M ->
            rows M = cols transformator /\ cols M = cols transformator)
      /\ (forall k M,
            interaction_multipole (transformInteraction transformator s) !! k = Some M ->
            rows M = cols transformator /\ cols M = cols transformator))
  /\ initializeInteraction hdr
       (transformInteraction transformator (initializeInteraction hdr s))
     = transformInteraction transformator (initializeInteraction hdr s).
Proof.
  split; [apply transformInteraction_ranges|]. split.
  - unfold transformInteraction. cbn.
    split; [|split; [|split]]; intros k M HM; apply (transformed_lookup _ _ _ _ HM).
  - pose proof (transformInteraction_ranges transformator (initializeInteraction hdr s))
      as Hranges.
    rewrite initializeInteraction_ranges in Hranges.
    unfold initializeInteraction at 1. rewrite Hranges. reflexivity.
Qed.

(** ** The loops of [initializeBasis], for any invariant *)

Lemma for_each_invariant_in {A S} (P : S -> Prop) (body : A -> S -> outcome S) l :
  (forall x st, x ∈ l -> P st -> P (after (body x st))) ->
  forall st, P st -> P (after (for_each body l st)).
Proof.
  induction l as [|x l IH]; intros Hbody st Hst; cbn; [exact Hst|].
  pose proof (Hbody x st (list_elem_of_here _ _) Hst) as Hx.
  destruct (body x st) as [st' | e st']; cbn in *; [|exact Hx].
  apply IH; [|exact Hx]. intros y st'' Hy. apply Hbody. now apply list_elem_of_further.
Qed.

Section LoopsKeep.

Variable hdr : Headers.
Variable s : SystemOne.
Variable P : basis_build -> Prop.

Hypothesis P_add : forall state energy parity bb,
  P bb -> P (addSymmetrizedBasisvectors hdr state energy parity bb).
Hypothesis P_cerr : forall bb cerr',
  P bb ->
  P (BasisBuild (bb_states bb) (bb_idx bb) (bb_basisvectors_triplets bb)
       (bb_hamiltonian_triplets bb) cerr').

Lemma loop_m_keeps n l j energy allowed m bb :
  P bb -> P (after (loop_m hdr s n l j energy allowed m bb)).
Proof.
  intros Hbb. unfold loop_m. destruct (Z.abs m >? j); [exact Hbb|].
  match goal with |- context [if ?b then _ else _] => destruct b end; [exact Hbb|].
  cbn. now apply P_add.
Qed.

Lemma loop_j_keeps s2 n l j bb : P bb -> P (after (loop_j hdr s s2 n l j bb)).
Proof.
  intros Hbb. unfold loop_j.
  destruct ((Z.abs (j - 2 * l) >? s2) || (j <? 0)); [exact Hbb|].
  destruct (negb (checkIsEnergyValid _ s)); [exact Hbb|].
  apply for_each_invariant; [|exact Hbb]. intros m bb'. apply loop_m_keeps.
Qed.

Lemma loop_l_keeps s2 n l bb : P bb -> P (after (loop_l hdr s s2 n l bb)).
Proof.
  intros Hbb. unfold loop_l. destruct ((l >? n - 1) || (l <? 0)); [exact Hbb|].
  apply for_each_invariant; [|exact Hbb]. intros j bb'. apply loop_j_keeps.
Qed.

Lemma loop_n_keeps s2 n bb : P bb -> P (after (loop_n hdr s s2 n bb)).
Proof.
  intros Hbb. unfold loop_n.
  apply for_each_invariant; [|exact Hbb]. intros l bb'. apply loop_l_keeps.
Qed.

Lemma enumerate_states_keeps bb : P bb -> P (after (enumerate_states hdr s bb)).
Proof.
  intros Hbb. unfold enumerate_states.
  apply for_each_invariant; [|exact Hbb]. intros n bb'. apply loop_n_keeps.
Qed.

Lemma add_user_state_keeps state bb :
  P bb -> P (after (add_user_state hdr s state bb)).
Proof.
  intros Hbb. unfold add_user_state.
  match goal with
  | |- context [if ?b then BasisBuild ?a1 ?a2 ?a3 ?a4 ?a5 else bb] =>
      set (bb1 := if b then BasisBuild a1 a2 a3 a4 a5 else bb)
  end.
  assert (Hbb1 : P bb1).
  { unfold bb1. match goal with |- context [if ?b then _ else _] => destruct b end;
      [now apply P_cerr | exact Hbb]. }
  clearbody bb1.
  repeat match goal with
         | |- context [if ?b then _ else _] => destruct b; [exact Hbb1|]
         end.
  cbn. now apply P_add.
Qed.

Lemma user_defined_states_keeps bb :
  P bb -> P (after (user_defined_states hdr s bb)).
Proof.
  intros Hbb. unfold user_defined_states.
  pose proof (for_each_invariant P (check_user_state hdr s) (states_to_add s)) as Hcheck.
  specialize (Hcheck (fun x st H => eq_ind_r _ H (check_user_state_after hdr s x st))
                bb Hbb).
  destruct (for_each (check_user_state hdr s) (states_to_add s) bb) as [bb' | e bb'];
    cbn in Hcheck; [|exact Hcheck].
  apply for_each_invariant; [|exact Hcheck].
  intros state bb''. apply add_user_state_keeps.
Qed.

(** The three ways in which [initializeBasis] ends. *)
Lemma initializeBasis_keeps :
  P (BasisBuild (states s) 0 [] [] (cerr s)) ->
  (exists what, initializeBasis hdr s = Throws what s)
  \/ (exists bb, P bb
        /\ ((exists what, initializeBasis hdr s = Throws what (interrupted s bb))
            \/ initializeBasis hdr s = Returns (build_data s bb))).
Proof.
  intros H0. unfold initializeBasis.
  destruct (bool_decide (range_n s = [])
            && (PrimFloat.eqb (energy_min s) double_lowest
                || PrimFloat.eqb (energy_max s) double_max)); [left; eauto|].
  destruct (bool_decide (range_n s = [])); [left; eauto|].
  right.
  pose proof (enumerate_states_keeps _ H0) as H1.
  destruct (enumerate_states hdr s _) as [bb1 | e bb1]; cbn in H1; [|eauto 6].
  pose proof (user_defined_states_keeps _ H1) as H2.
  destruct (user_defined_states hdr s bb1) as [bb2 | e bb2]; cbn in H2; eauto 6.
Qed.

End LoopsKeep.

(** ** The field-free Hamiltonian *)

Lemma addBasisvectors_hamiltonian_triplets state idx value bb :
  bb_hamiltonian_triplets (addBasisvectors state idx value bb)
  = bb_hamiltonian_triplets bb.
Proof. unfold addBasisvectors. now destruct (find_state state (bb_states bb)). Qed.

Lemma addSymmetrizedBasisvectors_on_diagonal hdr state energy parity bb :
  on_diagonal (bb_hamiltonian_triplets bb) ->
  on_diagonal
    (bb_hamiltonian_triplets (addSymmetrizedBasisvectors hdr state energy parity bb)).
Proof.
  intros Hbb. unfold addSymmetrizedBasisvectors.
  destruct (symmetrized parity state && (State.getM state <? 0)); [exact Hbb|].
  cbn [bb_hamiltonian_triplets].
  destruct (symmetrized parity state);
    rewrite ?addBasisvectors_hamiltonian_triplets; cbn [bb_hamiltonian_triplets];
    intros tr Htr; apply elem_of_app in Htr as [Htr | Htr]; auto;
    apply list_elem_of_singleton in Htr as ->; reflexivity.
Qed.

Lemma coeff_tabulate_outside n m f r c :
  ~ ((r < n)%nat /\ (c < m)%nat) -> Matrix.coeff (Matrix.tabulate n m f) r c = 0%float.
Proof.
  intros Hout. unfold Matrix.coeff, Matrix.tabulate; cbn [coeffs].
  destruct (Nat.lt_ge_cases r n) as [Hr | Hr].
  - rewrite (nth_map_seq (fun r => map (f r) (seq 0 m)) [] n r Hr).
    apply nth_overflow. rewrite length_map, length_seq. lia.
  - rewrite (nth_overflow _ []) by (rewrite length_map, length_seq; exact Hr).
    now destruct c.
Qed.

Lemma values_at_off_diagonal ts r c :
  on_diagonal ts -> r <> c -> Matrix.values_at ts r c = [].
Proof.
  intros Hdiag Hne. unfold Matrix.values_at.
  rewrite list_filter_nil; [reflexivity|].
  intros tr Htr. unfold Matrix.at_position.
  destruct (Nat.eqb_spec (t_row tr) r) as [Er | Er]; [|reflexivity].
  destruct (Nat.eqb_spec (t_col tr) c) as [Ec | Ec]; [|reflexivity].
  exfalso. apply Hne. rewrite <- Er, <- Ec. now apply Hdiag.
Qed.

(** X7: the Hamiltonian that [initializeBasis] builds is diagonal: it is
    square with one row per basis vector, and every coefficient off the
    diagonal is zero. *)
Theorem initializeBasis_hamiltonian_is_diagonal (hdr : Headers) (s s' : SystemOne) :
  initializeBasis hdr s = Returns s' ->
  rows (hamiltonian s') = cols (basisvectors s')
  /\ cols (hamiltonian s') = cols (basisvectors s')
  /\ forall r c, r <> c -> Matrix.coeff (hamiltonian s') r c = 0%float.
Proof.
  intros Hreturns.
  destruct (initializeBasis_keeps hdr s (fun bb => on_diagonal (bb_hamiltonian_triplets bb))
              (addSymmetrizedBasisvectors_on_diagonal hdr) (fun bb _ H => H))
    as [(what & Hthrows) | (bb & Hbb & [(what & Hthrows) | Hbuilt])];
    try congruence.
  { intros tr Htr. inversion Htr. }
  rewrite Hbuilt in Hreturns. injection Hreturns as <-.
  split; [reflexivity|]. split; [reflexivity|].
  intros r c Hne. unfold build_data. cbn [hamiltonian set_hamiltonian].
  unfold Matrix.setFromTriplets.
  destruct (Nat.lt_ge_cases r (bb_idx bb)) as [Hr | Hr];
    [destruct (Nat.lt_ge_cases c (bb_idx bb)) as [Hc | Hc]|].
  - rewrite coeff_tabulate by assumption.
    now rewrite values_at_off_diagonal.
  - apply coeff_tabulate_outside. lia.
  - apply coeff_tabulate_outside. lia.
Qed.

(** The system restricted to [n = 1]. *)
Lemma initializeBasis_hamiltonian_is_diagonal_witness :
  rows (hamiltonian Example.ground) = cols (basisvectors Example.ground)
  /\ cols (hamiltonian Example.ground) = cols (basisvectors Example.ground)
  /\ forall r c, r <> c -> Matrix.coeff (hamiltonian Example.ground) r c = 0%float.
Proof.
  apply (initializeBasis_hamiltonian_is_diagonal Example.hdr
           (set_range_n [1] Example.fresh)).
  vm_compute. reflexivity.
Defined.

(** ** The states that [initializeBasis] registers *)

Section RegisteredForAReason.

Variable hdr : Headers.
Variable s : SystemOne.

Let reasoned (bb : basis_build) : Prop := registered_for_a_reason s (bb_states bb).

Lemma loop_m_reasoned n l j allowed m bb :
  n ∈ range_n s ->
  (range_l s = [] \/ l ∈ range_l s) -> 0 <= l <= n - 1 ->
  (range_j s = [] \/ j ∈ range_j s) -> 0 <= j ->
  Z.abs (j - 2 * l) <= spin_of_species (species s) ->
  checkIsEnergyValid
    (getEnergy (cache s) (State.make (species s) n l j (spin_of_species (species s)))) s
  = true ->
  (forall m', m' ∈ allowed ->
     (range_m s = [] \/ m' ∈ range_m s) /\ (ARB ∈ sym_rotation s \/ m' ∈ sym_rotation s)) ->
  m ∈ allowed ->
  reasoned bb ->
  reasoned
    (after (loop_m hdr s n l j
              (getEnergy (cache s)
                 (State.make (species s) n l j (spin_of_species (species s))))
              allowed m bb)).
Proof.
  intros Hn Hl Hl' Hj Hj' Hspin Henergy Hallowed Hm Hbb. unfold loop_m.
  destruct (Z.abs m >? j) eqn:Habs; [exact Hbb|]. rewrite Z.gtb_ltb in Habs. apply Z.ltb_ge in Habs.
  destruct (bool_decide (sym_reflection s <> NA)
            && negb (State.getM (State.make (species s) n l j m) =? 0)
            && Nat.eqb (count (- State.getM (State.make (species s) n l j m)) allowed) 0)
    eqn:Hthrow; [exact Hbb|].
  cbn [after]. intros x Hx.
  apply addSymmetrizedBasisvectors_states in Hx
    as [Hx | (_ & [-> | (Hsym & ->)])]; [exact (Hbb x Hx)| |].
  - right; left. destruct (Hallowed m Hm) as (Hrange & Hrotation).
    unfold passes_restrictions. cbn. repeat split; auto; lia.
  - right; left.
    unfold symmetrized in Hsym. rewrite Hsym in Hthrow. cbn [andb] in Hthrow.
    apply Nat.eqb_neq in Hthrow.
    assert (Hmirror : - m ∈ allowed).
    { cbn in Hthrow. unfold count in Hthrow.
      destruct (bool_decide (- m ∈ allowed)) eqn:E; [|contradiction].
      now apply bool_decide_eq_true_1 in E. }
    destruct (Hallowed (- m) Hmirror) as (Hrange & Hrotation).
    unfold passes_restrictions. cbn. repeat split; auto; lia.
Qed.

Lemma enumerate_states_reasoned bb :
  reasoned bb -> reasoned (after (enumerate_states hdr s bb)).
Proof.
  intros Hbb. unfold enumerate_states.
  apply for_each_invariant_in; [|exact Hbb]. clear bb Hbb. intros n bb Hn Hbb.
  unfold loop_n. apply for_each_invariant_in; [|exact Hbb]. clear bb Hbb.
  intros l bb Hl Hbb.
  assert (Hl' : range_l s = [] \/ l ∈ range_l s).
  { destruct (bool_decide (range_l s = [])) eqn:E;
      [left; now apply bool_decide_eq_true_1 in E | right; exact Hl]. }
  clear Hl. unfold loop_l.
  destruct ((l >? n - 1) || (l <? 0)) eqn:Hbounds; [exact Hbb|].
  apply orb_false_iff in Hbounds as (Hupper & Hlower).
  rewrite Z.gtb_ltb in Hupper. apply Z.ltb_ge in Hupper. apply Z.ltb_ge in Hlower.
  apply for_each_invariant_in; [|exact Hbb]. clear bb Hbb. intros j bb Hj Hbb.
  assert (Hj' : range_j s = [] \/ j ∈ range_j s).
  { destruct (bool_decide (range_j s = [])) eqn:E;
      [left; now apply bool_decide_eq_true_1 in E | right; exact Hj]. }
  clear Hj. unfold loop_j.
  destruct ((Z.abs (j - 2 * l) >? spin_of_species (species s)) || (j <? 0)) eqn:Hspin;
    [exact Hbb|].
  apply orb_false_iff in Hspin as (Hspin & Hpos).
  rewrite Z.gtb_ltb in Hspin. apply Z.ltb_ge in Hspin. apply Z.ltb_ge in Hpos.
  destruct (checkIsEnergyValid
              (getEnergy (cache s)
                 (State.make (species s) n l j (spin_of_species (species s)))) s)
    eqn:Henergy; [|exact Hbb].
  cbn [negb].
  set (adapted := if bool_decide (range_m s = []) then range (- j) j 2 else range_m s).
  set (allowed := if Nat.eqb (count ARB (sym_rotation s)) 0
                  then set_intersection (sym_rotation s) adapted else adapted).
  assert (Hadapted : forall m', m' ∈ adapted -> range_m s = [] \/ m' ∈ range_m s).
  { intros m' Hm'. unfold adapted in Hm'.
    destruct (bool_decide (range_m s = [])) eqn:E;
      [left; now apply bool_decide_eq_true_1 in E | right; exact Hm']. }
  assert (Hallowed : forall m', m' ∈ allowed ->
            (range_m s = [] \/ m' ∈ range_m s)
            /\ (ARB ∈ sym_rotation s \/ m' ∈ sym_rotation s)).
  { intros m' Hm'. unfold allowed in Hm'.
    destruct (Nat.eqb (count ARB (sym_rotation s)) 0) eqn:E.
    - unfold set_intersection in Hm'.
      apply list_elem_of_In, filter_In in Hm' as (Hrot & Hin).
      apply list_elem_of_In in Hrot. apply bool_decide_eq_true_1 in Hin. auto.
    - split; [auto|]. left. apply count_nonzero. now rewrite E. }
  apply for_each_invariant_in; [|exact Hbb]. clear bb Hbb. intros m bb Hm Hbb.
  now apply loop_m_reasoned.
Qed.

Lemma add_user_state_reasoned state bb :
  state ∈ states_to_add s ->
  reasoned bb -> reasoned (after (add_user_state hdr s state bb)).
Proof.
  intros Hstate Hbb. unfold add_user_state.
  match goal with
  | |- context [if ?b then BasisBuild ?a1 ?a2 ?a3 ?a4 ?a5 else bb] =>
      set (bb1 := if b then BasisBuild a1 a2 a3 a4 a5 else bb)
  end.
  assert (Hbb1 : reasoned bb1).
  { unfold bb1. match goal with |- context [if ?b then _ else _] => destruct b end;
      exact Hbb. }
  clearbody bb1.
  destruct (Nat.eqb (count ARB (sym_rotation_local s state)) 0
            && Nat.eqb (count (State.getM state) (sym_rotation_local s state)) 0);
    [exact Hbb1|].
  destruct (bool_decide (sym_reflection_local s state <> NA)
            && negb (State.getM state =? 0)
            && negb (contains_state (State.getReflected state) (states_to_add s)))
    eqn:Hthrow; [exact Hbb1|].
  cbn [after]. intros x Hx.
  apply addSymmetrizedBasisvectors_states in Hx
    as [Hx | (_ & [-> | (Hsym & ->)])]; [exact (Hbb1 x Hx) | auto |].
  right; right. unfold symmetrized in Hsym. rewrite Hsym in Hthrow.
  cbn [andb] in Hthrow. apply negb_false_iff in Hthrow.
  now apply bool_decide_eq_true_1 in Hthrow.
Qed.

Lemma user_defined_states_reasoned bb :
  reasoned bb -> reasoned (after (user_defined_states hdr s bb)).
Proof.
  intros Hbb. unfold user_defined_states.
  pose proof (for_each_invariant reasoned (check_user_state hdr s) (states_to_add s))
    as Hcheck.
  specialize (Hcheck (fun x st H => eq_ind_r _ H (check_user_state_after hdr s x st))
                bb Hbb).
  destruct (for_each (check_user_state hdr s) (states_to_add s) bb) as [bb' | e bb'];
    cbn in Hcheck; [|exact Hcheck].
  apply for_each_invariant_in; [|exact Hcheck].
  intros state bb'' Hstate. now apply add_user_state_reasoned.
Qed.

End RegisteredForAReason.

(** X8: whether [initializeBasis] returns or throws, every state that the
    registry holds afterwards was registered before the call, or passes the
    restrictions of the quantum numbers, of the energy and of the conserved
    momenta, or is one of the user-defined states. *)
Theorem initializeBasis_respects_restrictions (hdr : Headers) (s : SystemOne) :
  registered_for_a_reason s (states (after (initializeBasis hdr s))).
Proof.
  assert (H0 : registered_for_a_reason s (states s)) by (intros x Hx; now left).
  unfold initializeBasis.
  destruct (bool_decide (range_n s = [])
            && (PrimFloat.eqb (energy_min s) double_lowest
                || PrimFloat.eqb (energy_max s) double_max)); [exact H0|].
  destruct (bool_decide (range_n s = [])); [exact H0|].
  pose proof (enumerate_states_reasoned hdr s (BasisBuild (states s) 0 [] [] (cerr s)) H0)
    as H1.
  destruct (enumerate_states hdr s _) as [bb1 | e bb1]; cbn in H1; [|exact H1].
  pose proof (user_defined_states_reasoned hdr s bb1 H1) as H2.
  destruct (user_defined_states hdr s bb1) as [bb2 | e bb2]; cbn in H2; exact H2.
Qed.

Lemma addSymmetrizedBasisvectors_prefix hdr registry state energy parity bb :
  registry `prefix_of` bb_states bb ->
  registry `prefix_of` bb_states (addSymmetrizedBasisvectors hdr state energy parity bb).
Proof.
  assert (Hadd : forall state idx value bb,
            registry `prefix_of` bb_states bb ->
            registry `prefix_of` bb_states (addBasisvectors state idx value bb)).
  { intros state' idx value bb' Hbb'. unfold addBasisvectors.
    destruct (find_state state' (bb_states bb')); cbn; [exact Hbb'|].
    now apply prefix_app_r. }
  intros Hbb. unfold addSymmetrizedBasisvectors.
  destruct (symmetrized parity state && (State.getM state <? 0)); [exact Hbb|].
  cbn [bb_states]. destruct (symmetrized parity state); repeat apply Hadd; exact Hbb.
Qed.

(** X9: [initializeBasis] only appends to the registry of states: the states
    registered before the call keep their indices, whether it returns or
    throws.  When it throws, the basis vectors and the Hamiltonian are as
    they were before the call, also when states were registered already. *)
Theorem initializeBasis_appends_to_registry (hdr : Headers) (s : SystemOne) :
  states s `prefix_of` states (after (initializeBasis hdr s))
  /\ (returned (initializeBasis hdr s) = false ->
      basisvectors (after (initializeBasis hdr s)) = basisvectors s
      /\ hamiltonian (after (initializeBasis hdr s)) = hamiltonian s).
Proof.
  destruct (initializeBasis_keeps hdr s (fun bb => states s `prefix_of` bb_states bb)
              (fun state energy parity bb =>
                 addSymmetrizedBasisvectors_prefix hdr (states s) state energy parity bb)
              (fun bb _ H => H))
    as [(what & ->) | (bb & Hbb & [(what & ->) | ->])]; cbn.
  - reflexivity.
  - split; [reflexivity | auto].
  - split; [exact Hbb | auto].
  - split; [exact Hbb | discriminate].
Qed.

(** ** Combining the symmetries of two systems *)

Lemma incorporate_symmetries system s s' :
  incorporate system s = Returns s' ->
  sym_reflection s'
  = (if bool_decide (sym_reflection s <> sym_reflection system) then NA
     else sym_reflection s)
  /\ sym_rotation s'
     = (if bool_decide (sym_rotation s = sym_rotation system) then sym_rotation s
        else if bool_decide (ARB ∈ sym_rotation s \/ ARB ∈ sym_rotation system) then [ARB]
             else set_insert_range (sym_rotation system) (sym_rotation s))
  /\ same_operator_cache (deleteInteraction s) s'.
Proof.
  unfold incorporate.
  destruct (negb (String.eqb (species s) (species system))); [discriminate|].
  destruct (array3_neq (efield s) (efield system)); [discriminate|].
  destruct (array3_neq (bfield s) (bfield system)); [discriminate|].
  destruct (negb (Bool.eqb (diamagnetism s) (diamagnetism system))); [discriminate|].
  intros [= <-].
  assert (Hrot : forall r : parity_t,
            sym_rotation (if bool_decide (sym_reflection s <> sym_reflection system)
                          then set_sym_reflection r s else s) = sym_rotation s).
  { intros r. now destruct (bool_decide (sym_reflection s <> sym_reflection system)). }
  set (s1 := if bool_decide (sym_reflection s <> sym_reflection system)
             then set_sym_reflection NA s else s) in *.
  assert (Hrefl : sym_reflection s1
                  = if bool_decide (sym_reflection s <> sym_reflection system) then NA
                    else sym_reflection s).
  { unfold s1. now destruct (bool_decide (sym_reflection s <> sym_reflection system)). }
  specialize (Hrot NA). fold s1 in Hrot.
  assert (Hdiffers :
            negb (Nat.eqb (length (sym_rotation s1)) (length (sym_rotation system))
                  && bool_decide (sym_rotation s1 = sym_rotation system))
            = negb (bool_decide (sym_rotation s = sym_rotation system))).
  { rewrite Hrot.
    destruct (bool_decide_reflect (sym_rotation s = sym_rotation system)) as [E | E].
    - now rewrite E, Nat.eqb_refl.
    - now rewrite andb_false_r. }
  assert (Hsentinel :
            negb (Nat.eqb (count ARB (sym_rotation s1)) 0)
            || negb (Nat.eqb (count ARB (sym_rotation system)) 0)
            = bool_decide (ARB ∈ sym_rotation s \/ ARB ∈ sym_rotation system)).
  { rewrite Hrot. unfold count.
    destruct (bool_decide_reflect (ARB ∈ sym_rotation s)) as [E1 | E1];
      destruct (bool_decide_reflect (ARB ∈ sym_rotation system)) as [E2 | E2]; cbn;
      symmetry; first [apply bool_decide_eq_true; tauto | apply bool_decide_eq_false; tauto]. }
  rewrite Hdiffers, Hsentinel.
  clearbody s1.
  destruct (bool_decide (sym_rotation s = sym_rotation system));
    destruct (bool_decide (ARB ∈ sym_rotation s \/ ARB ∈ sym_rotation system));
    destruct (bool_decide (sym_reflection s <> sym_reflection system));
    cbn; unfold same_operator_cache; cbn; rewrite ?Hrot, ?Hrefl; repeat split; reflexivity.
Qed.

(** X10: when [incorporate] returns, the symmetries of the combined system
    are compatible if those of both systems were; the unrestricted sentinel
    stays alone in the set of conserved momenta; without the sentinel the
    conserved momenta are those of the one system or of the other; when the
    two sets differ and one of them is unrestricted, so is the combination;
    and each of the four maps of operators is empty. *)
Theorem incorporate_combines_symmetries (system s s' : SystemOne) :
  incorporate system s = Returns s' ->
  (isRefelectionAndRotationCompatible s = true ->
   isRefelectionAndRotationCompatible system = true ->
   isRefelectionAndRotationCompatible s' = true)
  /\ (sentinel_alone (sym_rotation s) -> sentinel_alone (sym_rotation s'))
  /\ (ARB ∉ sym_rotation s -> ARB ∉ sym_rotation system ->
      forall v, v ∈ sym_rotation s' <-> v ∈ sym_rotation s \/ v ∈ sym_rotation system)
  /\ (ARB ∈ sym_rotation s \/ ARB ∈ sym_rotation system ->
      sym_rotation s <> sym_rotation system -> sym_rotation s' = [ARB])
  /\ interaction_efield s' = ∅
  /\ interaction_bfield s' = ∅
  /\ interaction_diamagnetism s' = ∅
  /\ interaction_multipole s' = ∅.
Proof.
  intros Hreturns.
  destruct (incorporate_symmetries system s s' Hreturns) as (Hrefl & Hrot & Hcache).
  split; [|split; [|split; [|split]]].
  - rewrite !isRefelectionAndRotationCompatible_spec. rewrite Hrefl, Hrot.
    intros Hs Hsystem.
    destruct (bool_decide_reflect (sym_reflection s <> sym_reflection system))
      as [Hdiff | Hsame]; [auto|].
    apply dec_stable in Hsame.
    destruct (bool_decide_reflect (sym_rotation s = sym_rotation system)); [exact Hs|].
    destruct (bool_decide_reflect (ARB ∈ sym_rotation s \/ ARB ∈ sym_rotation system))
      as [Harb | Hnone]; [left; apply list_elem_of_here|].
    destruct Hs as [Hs | [Hs | Hs]]; [tauto | auto |].
    destruct Hsystem as [Hsystem | [Hsystem | Hsystem]]; [tauto | rewrite Hsame; auto |].
    right; right. intros v. rewrite !elem_of_set_insert_range.
    intros [Hv | Hv]; auto.
  - unfold sentinel_alone. rewrite Hrot. intros Hs.
    destruct (bool_decide_reflect (sym_rotation s = sym_rotation system)); [exact Hs|].
    destruct (bool_decide_reflect (ARB ∈ sym_rotation s \/ ARB ∈ sym_rotation system))
      as [Harb | Hnone]; [reflexivity|].
    rewrite elem_of_set_insert_range. tauto.
  - intros Hs Hsystem v. rewrite Hrot.
    destruct (bool_decide_reflect (sym_rotation s = sym_rotation system)) as [E | E];
      [rewrite <- E; tauto|].
    destruct (bool_decide_reflect (ARB ∈ sym_rotation s \/ ARB ∈ sym_rotation system))
      as [Harb | Hnone]; [tauto|].
    rewrite elem_of_set_insert_range. tauto.
  - intros Harb Hdiff. rewrite Hrot.
    rewrite bool_decide_eq_false_2 by exact Hdiff.
    now rewrite bool_decide_eq_true_2 by exact Harb.
  - destruct Hcache as (Hefield & Hbfield & Hdiamagnetism & Hmultipole).
    cbn in Hefield, Hbfield, Hdiamagnetism, Hmultipole.
    rewrite Hefield, Hbfield, Hdiamagnetism, Hmultipole. repeat split.
Qed.

(** Two systems with the conserved momenta [{-3/2, 3/2}] and
    [{-1/2, 1/2}]; and the system in a magnetic field, whose operators are
    built, combined with itself. *)
Lemma incorporate_combines_symmetries_witness :
  isRefelectionAndRotationCompatible
    (after (incorporate Example.one_half Example.three_halves)) = true
  /\ (1 ∈ sym_rotation (after (incorporate Example.one_half Example.three_halves))
      <-> 1 ∈ sym_rotation Example.three_halves \/ 1 ∈ sym_rotation Example.one_half)
  /\ interaction_efield (after (incorporate Example.one_half Example.three_halves)) = ∅
  /\ interaction_bfield (after (incorporate Example.one_half Example.three_halves)) = ∅
  /\ interaction_diamagnetism
       (after (incorporate Example.one_half Example.three_halves)) = ∅
  /\ interaction_multipole
       (after (incorporate Example.one_half Example.three_halves)) = ∅
  /\ interaction_bfield Example.magnetic <> ∅
  /\ interaction_bfield (after (incorporate Example.magnetic Example.magnetic)) = ∅.
Proof.
  assert (Hreturns : incorporate Example.one_half Example.three_halves
                     = Returns (after (incorporate Example.one_half Example.three_halves)))
    by (vm_compute; reflexivity).
  destruct (incorporate_combines_symmetries _ _ _ Hreturns)
    as (Hcompatible & _ & Hunion & _ & Hmaps).
  assert (Hbuilt : incorporate Example.magnetic Example.magnetic
                   = Returns (after (incorporate Example.magnetic Example.magnetic)))
    by (vm_compute; reflexivity).
  destruct (incorporate_combines_symmetries _ _ _ Hbuilt)
    as (_ & _ & _ & _ & _ & Hbfield & _).
  split; [|split; [|split; [|split; [|split; [|split; [|split]]]]]].
  - apply Hcompatible; vm_compute; reflexivity.
  - apply Hunion.
    + apply (bool_decide_eq_false_1 _). vm_compute. reflexivity.
    + apply (bool_decide_eq_false_1 _). vm_compute. reflexivity.
  - apply Hmaps.
  - apply Hmaps.
  - apply Hmaps.
  - apply Hmaps.
  - apply (bool_decide_eq_false_1 _). vm_compute. reflexivity.
  - exact Hbfield.
Defined.

(** ** A refused symmetry *)

(** X11: the symmetry setters are not atomic.  When
    [setConservedParityUnderReflection] throws, the refused parity is stored
    and the object is left with an incompatible pair of symmetries.  When
    [setConservedMomentaUnderRotation] throws, either the sentinel was passed
    together with other momenta and the object is untouched, or the refused
    momenta are stored and the object is left with an incompatible pair. *)
Theorem symmetry_setters_store_refused_value (s s' : SystemOne) (what : string) :
  (forall parity,
     setConservedParityUnderReflection parity s = Throws what s' ->
     sym_reflection s' = parity /\ sym_rotation s' = sym_rotation s
     /\ isRefelectionAndRotationCompatible s' = false)
  /\ (forall momenta,
        setConservedMomentaUnderRotation momenta s = Throws what s' ->
        (ARB ∈ momenta /\ (1 < length momenta)%nat /\ s' = s)
        \/ (~ (ARB ∈ momenta /\ (1 < length momenta)%nat)
            /\ sym_rotation s' = momenta /\ sym_reflection s' = sym_reflection s
            /\ isRefelectionAndRotationCompatible s' = false)).
Proof.
  split.
  - intros parity. unfold setConservedParityUnderReflection.
    destruct (isRefelectionAndRotationCompatible
                (set_sym_reflection parity (onSymmetryChange s))) eqn:Hc;
      cbn [negb]; [discriminate|].
    intros [= _ <-]. split; [reflexivity|]. split; [reflexivity | exact Hc].
  - intros momenta. unfold setConservedMomentaUnderRotation.
    destruct (negb (Nat.eqb (count ARB momenta) 0) && Nat.ltb 1 (length momenta))
      eqn:Hmisuse.
    + intros [= _ <-]. left. apply andb_true_iff in Hmisuse as (Harb & Hlen).
      apply count_nonzero in Harb. apply Nat.ltb_lt in Hlen. auto.
    + destruct (isRefelectionAndRotationCompatible
                  (set_sym_rotation momenta (onSymmetryChange s))) eqn:Hc;
        cbn [negb]; [discriminate|].
      intros [= _ <-]. right.
      split; [|split; [reflexivity|]; split; [reflexivity | exact Hc]].
      intros (Harb & Hlen). apply count_nonzero in Harb. apply Nat.ltb_lt in Hlen.
      now rewrite Harb, Hlen in Hmisuse.
Qed.

(** The conserved momentum [1/2] alone, then the even parity. *)
Lemma symmetry_setters_store_refused_value_witness :
  sym_reflection (after (setConservedParityUnderReflection EVEN Example.lopsided)) = EVEN
  /\ sym_rotation (after (setConservedParityUnderReflection EVEN Example.lopsided))
     = sym_rotation Example.lopsided
  /\ isRefelectionAndRotationCompatible
       (after (setConservedParityUnderReflection EVEN Example.lopsided)) = false.
Proof.
  apply (symmetry_setters_store_refused_value Example.lopsided _
           ("The conserved parity under reflection is not compatible to the " ++
            "previously specified conserved momenta.")).
  vm_compute. reflexivity.
Defined.

(** ** The Julia binding of the conserved momenta *)

Lemma momenta_of_array_spec momenta_jl : forall momenta,
  StronglySorted Z.lt momenta ->
  StronglySorted Z.lt (fold_left (fun momenta x => set_insert x momenta) momenta_jl momenta)
  /\ (forall v, v ∈ fold_left (fun momenta x => set_insert x momenta) momenta_jl momenta
                <-> v ∈ momenta_jl \/ v ∈ momenta).
Proof.
  induction momenta_jl as [|x l IH]; intros momenta Hsorted; cbn [fold_left].
  - split; [exact Hsorted|]. intros v. split; [auto|].
    intros [H | H]; [inversion H | exact H].
  - destruct (IH (set_insert x momenta) (set_insert_sorted x momenta Hsorted))
      as (Hs & Hin).
    split; [exact Hs|]. intros v. rewrite Hin, elem_of_set_insert, elem_of_cons. tauto.
Qed.

(** X12: the Julia binding of [setConservedMomentaUnderRotation] passes the
    set of the values of the array: for an array whose values are the
    elements of a set, in any order and with any repetition, the call is the
    call of the member function with this set. *)
Theorem julia_setConservedMomentaUnderRotation_passes_set (momenta_jl momenta : list Z)
  (s : SystemOne) :
  StronglySorted Z.lt momenta ->
  (forall v, v ∈ momenta_jl <-> v ∈ momenta) ->
  julia_setConservedMomentaUnderRotation momenta_jl s
  = setConservedMomentaUnderRotation momenta s.
Proof.
  intros Hsorted Hsame. unfold julia_setConservedMomentaUnderRotation. f_equal.
  destruct (momenta_of_array_spec momenta_jl [] (SSorted_nil _)) as (Hs & Hin).
  apply sorted_sets_equal; [exact Hs | exact Hsorted|].
  intros v. unfold momenta_of_array. rewrite Hin, <- Hsame.
  split; [intros [H | H]; [exact H | inversion H] | auto].
Qed.

(** The array [3/2, -3/2, 3/2] and the set [{-3/2, 3/2}]. *)
Lemma julia_setConservedMomentaUnderRotation_passes_set_witness :
  julia_setConservedMomentaUnderRotation [3; -3; 3] Example.fresh
  = setConservedMomentaUnderRotation [-3; 3] Example.fresh.
Proof.
  apply julia_setConservedMomentaUnderRotation_passes_set.
  - repeat constructor.
  - intros v. rewrite !elem_of_cons. split.
    + intros [-> | [-> | [-> | H]]]; [auto | auto | auto | inversion H].
    + intros [-> | [-> | H]]; [auto | auto | inversion H].
Defined.

(** ** Real and complex storage *)

Lemma paired_map c : Storage.paired (map Storage.real c) (map Storage.imag c) = c.
Proof. induction c as [|[re im] c IH]; cbn; [reflexivity | now rewrite IH]. Qed.

Lemma map_paired real_ : forall imag_,
  length imag_ = length real_ ->
  map Storage.real (Storage.paired real_ imag_) = real_
  /\ map Storage.imag (Storage.paired real_ imag_) = imag_.
Proof.
  induction real_ as [|r real_ IH]; intros [|i imag_] Hlen; cbn in *; try discriminate.
  - split; reflexivity.
  - injection Hlen as Hlen. destruct (IH imag_ Hlen) as (-> & ->). split; reflexivity.
Qed.

(** X13: for a complex scalar type, [splitComplex] and [mergeComplex] are
    inverse to each other, and both append to their target: splitting a
    vector into empty targets and merging the parts appends the vector to the
    target of the merge; merging two vectors of the same length into an
    empty target and splitting the result appends the two vectors to the
    targets of the split.  For a real scalar type the merge keeps the real
    parts only, and the split of its result has no imaginary parts. *)
Theorem splitComplex_mergeComplex_round_trip (real_ imag_ : list float) :
  length imag_ = length real_ ->
  (forall c target,
     Storage.mergeComplex_complex (fst (Storage.splitComplex_complex [] [] c))
       (snd (Storage.splitComplex_complex [] [] c)) target
     = target ++ c)
  /\ (forall real_target imag_target,
        Storage.splitComplex_complex real_target imag_target
          (Storage.mergeComplex_complex real_ imag_ [])
        = (real_target ++ real_, imag_target ++ imag_))
  /\ (forall real_target imag_target c,
        Storage.splitComplex_real real_target imag_target
          (Storage.mergeComplex_real real_ imag_ c)
        = (real_, [])).
Proof.
  intros Hlen. split; [|split].
  - intros c target. unfold Storage.mergeComplex_complex, Storage.splitComplex_complex.
    cbn. now rewrite paired_map.
  - intros real_target imag_target.
    unfold Storage.mergeComplex_complex, Storage.splitComplex_complex. cbn.
    destruct (map_paired real_ imag_ Hlen) as (-> & ->). reflexivity.
  - reflexivity.
Qed.

(** Two values. *)
Lemma splitComplex_mergeComplex_round_trip_witness :
  Storage.splitComplex_complex [] []
    (Storage.mergeComplex_complex [1; 2]%float [3; 4]%float [])
  = ([1; 2]%float, [3; 4]%float).
Proof.
  apply (splitComplex_mergeComplex_round_trip [1; 2]%float [3; 4]%float).
  reflexivity.
Defined.

(** ** A Hamiltonian without interaction *)

Lemma same_operator_cache_refl s : same_operator_cache s s.
Proof. unfold same_operator_cache. repeat split; reflexivity. Qed.

Lemma quiet_refl s : quiet s s.
Proof. split; [apply same_reads_refl|]. split; [apply same_operator_cache_refl | reflexivity]. Qed.

Lemma efield_term_quiet s0 s op i k :
  quiet s0 s ->
  above_tolerance (at_key (efield_spherical s0) k) = false ->
  quiet s0 (efield_term op i k s).
Proof.
  intros (Hr & Hc & Hh) Hoff. destruct (efield_term_spec op i k s) as (Hr' & _).
  split; [eapply same_reads_trans; eassumption|].
  destruct Hr as (He & _). unfold efield_term. rewrite He, Hoff. cbn. auto.
Qed.

Lemma bfield_term_quiet s0 s op i k :
  quiet s0 s ->
  above_tolerance (at_key (bfield_spherical s0) k) = false ->
  quiet s0 (bfield_term op i k s).
Proof.
  intros (Hr & Hc & Hh) Hoff. destruct (bfield_term_spec op i k s) as (Hr' & _).
  split; [eapply same_reads_trans; eassumption|].
  destruct Hr as (_ & Hb & _). unfold bfield_term. rewrite Hb, Hoff. cbn. auto.
Qed.

Lemma diamagnetism_term_quiet s0 s op i factor :
  quiet s0 s ->
  diamagnetism s0 = false \/ above_tolerance (at_key (diamagnetism_terms s0) i) = false ->
  quiet s0 (diamagnetism_term op i factor s).
Proof.
  intros (Hr & Hc & Hh) Hoff. destruct (diamagnetism_term_spec op i factor s) as (Hr' & _).
  split; [eapply same_reads_trans; eassumption|].
  destruct Hr as (_ & _ & Hd & _ & _ & _ & _ & Hon & _). unfold diamagnetism_term.
  rewrite Hon, Hd.
  destruct Hoff as [-> | ->]; [auto|]. destruct (diamagnetism s0); cbn; auto.
Qed.

(** X14: when no component of the electric and of the magnetic field is
    above the tolerance, diamagnetism is disabled or its six coefficients are
    not above the tolerance, and there is no charge, no distance or no order
    of the multipole expansion, [addInteraction] leaves the Hamiltonian and
    the four maps of operators as they are: no operator is read, and none is
    created. *)
Theorem addInteraction_without_terms (s : SystemOne) :
  (forall k, k ∈ spherical_keys -> above_tolerance (at_key (efield_spherical s) k) = false) ->
  (forall k, k ∈ spherical_keys -> above_tolerance (at_key (bfield_spherical s) k) = false) ->
  (diamagnetism s = false
   \/ forall k, k ∈ diamagnetism_keys ->
        above_tolerance (at_key (diamagnetism_terms s) k) = false) ->
  (charge s = 0 \/ neq (distance s) double_max = false \/ ordermax s = 0%nat) ->
  hamiltonian (addInteraction s) = hamiltonian s
  /\ same_operator_cache s (addInteraction s).
Proof.
  intros He Hb Hd Hm.
  assert (Hd' : forall k, k ∈ diamagnetism_keys ->
            diamagnetism s = false
            \/ above_tolerance (at_key (diamagnetism_terms s) k) = false).
  { intros k Hk. destruct Hd as [Hd | Hd]; [now left | right; now apply Hd]. }
  assert (Hin3 : forall k : Z, In k [-1; 0; 1] -> k ∈ spherical_keys)
    by (intros k Hk; now apply list_elem_of_In).
  assert (Hin6 : forall k, In k [(0, 0); (2, 0); (2, 1); (2, -1); (2, 2); (2, -2)] ->
                           k ∈ diamagnetism_keys)
    by (intros k Hk; now apply list_elem_of_In).
  pose proof (quiet_refl s) as H0.
  unfold addInteraction.
  apply (efield_term_quiet _ _ MinusAssign 0 0) in H0; [|apply He, Hin3; cbn; tauto].
  apply (efield_term_quiet _ _ PlusAssign 1 (-1)) in H0; [|apply He, Hin3; cbn; tauto].
  apply (efield_term_quiet _ _ PlusAssign (-1) 1) in H0; [|apply He, Hin3; cbn; tauto].
  apply (bfield_term_quiet _ _ MinusAssign 0 0) in H0; [|apply Hb, Hin3; cbn; tauto].
  apply (bfield_term_quiet _ _ PlusAssign 1 (-1)) in H0; [|apply Hb, Hin3; cbn; tauto].
  apply (bfield_term_quiet _ _ PlusAssign (-1) 1) in H0; [|apply Hb, Hin3; cbn; tauto].
  apply (diamagnetism_term_quiet _ _ PlusAssign (0, 0) None) in H0;
    [|apply Hd', Hin6; cbn; tauto].
  apply (diamagnetism_term_quiet _ _ MinusAssign (2, 0) None) in H0;
    [|apply Hd', Hin6; cbn; tauto].
  apply (diamagnetism_term_quiet _ _ PlusAssign (2, 1) (Some sqrt3)) in H0;
    [|apply Hd', Hin6; cbn; tauto].
  apply (diamagnetism_term_quiet _ _ PlusAssign (2, -1) (Some sqrt3)) in H0;
    [|apply Hd', Hin6; cbn; tauto].
  apply (diamagnetism_term_quiet _ _ MinusAssign (2, 2) (Some sqrt1_5)) in H0;
    [|apply Hd', Hin6; cbn; tauto].
  apply (diamagnetism_term_quiet _ _ MinusAssign (2, -2) (Some sqrt1_5)) in H0;
    [|apply Hd', Hin6; cbn; tauto].
  match type of H0 with quiet _ ?s12 => set (s' := s12) in * end.
  destruct H0 as (Hr & Hc & Hh).
  assert (Hcharge : charge s' = charge s) by apply Hr.
  assert (Hdistance : distance s' = distance s) by apply Hr.
  assert (Hordermax : ordermax s' = ordermax s) by apply Hr.
  rewrite Hcharge, Hdistance, Hordermax.
  destruct Hm as [-> | [-> | ->]].
  - cbn [Z.eqb negb andb]. auto.
  - rewrite andb_false_r. auto.
  - cbn [seq fold_left]. destruct (negb (charge s =? 0) && neq (distance s) double_max); auto.
Qed.

(** The system restricted to [n = 1], without fields and without an ion. *)
Lemma addInteraction_without_terms_witness :
  hamiltonian (addInteraction Example.ground) = hamiltonian Example.ground
  /\ same_operator_cache Example.ground (addInteraction Example.ground).
Proof.
  apply addInteraction_without_terms.
  - intros k Hk. apply list_elem_of_In in Hk. cbn in Hk.
    destruct Hk as [<- | [<- | [<- | []]]]; vm_compute; reflexivity.
  - intros k Hk. apply list_elem_of_In in Hk. cbn in Hk.
    destruct Hk as [<- | [<- | [<- | []]]]; vm_compute; reflexivity.
  - right. intros k Hk. apply list_elem_of_In in Hk. cbn in Hk.
    destruct Hk as [<- | [<- | [<- | [<- | [<- | [<- | []]]]]]]; vm_compute; reflexivity.
  - left. vm_compute. reflexivity.
Defined.

(** ** The states that the loops reach *)

Lemma for_each_reaches {A S} (Q : S -> Prop) (body : A -> S -> outcome S) l x :
  (forall y st, Q st -> Q (after (body y st))) ->
  x ∈ l ->
  (forall st st', body x st = Returns st' -> Q st') ->
  forall st st', for_each body l st = Returns st' -> Q st'.
Proof.
  intros Hmono. induction l as [|a l IH]; intros Hx Hbody st st' Hreturns;
    [inversion Hx|].
  cbn in Hreturns. destruct (body a st) as [st1 | e st1] eqn:E; [|discriminate].
  apply elem_of_cons in Hx as [-> | Hx].
  - pose proof (for_each_invariant Q body l Hmono st1 (Hbody _ _ E)) as Hrest.
    now rewrite Hreturns in Hrest.
  - exact (IH Hx Hbody st1 st' Hreturns).
Qed.

Lemma for_each_returns_each {A S} (body : A -> S -> outcome S) l x :
  x ∈ l ->
  forall st st', for_each body l st = Returns st' ->
  exists st1 st2, body x st1 = Returns st2.
Proof.
  induction l as [|a l IH]; intros Hx st st' Hreturns; [inversion Hx|].
  cbn in Hreturns. destruct (body a st) as [st1 | e st1] eqn:E; [|discriminate].
  apply elem_of_cons in Hx as [-> | Hx]; [eauto|].
  exact (IH Hx st1 st' Hreturns).
Qed.

Section LoopsReach.

Variable hdr : Headers.
Variable s : SystemOne.
Variables n l j m : Z.

Let state : StateOne := State.make (species s) n l j m.
Let registered (bb : basis_build) : Prop := state ∈ bb_states bb.

Lemma registered_add state' energy parity bb :
  registered bb -> registered (addSymmetrizedBasisvectors hdr state' energy parity bb).
Proof. intros Hbb. apply addSymmetrizedBasisvectors_states. now left. Qed.

Lemma registered_cerr bb cerr' :
  registered bb ->
  registered (BasisBuild (bb_states bb) (bb_idx bb) (bb_basisvectors_triplets bb)
                (bb_hamiltonian_triplets bb) cerr').
Proof. auto. Qed.

Hypothesis m_bound : Z.abs m <= j.

Lemma loop_over_m_registers energy allowed bb bb' :
  m ∈ allowed ->
  for_each (loop_m hdr s n l j energy allowed) allowed bb = Returns bb' ->
  registered bb'.
Proof.
  intros Hm Hreturns.
  assert (Hmono : forall y st, registered st ->
            registered (after (loop_m hdr s n l j energy allowed y st))).
  { intros y st. apply (loop_m_keeps hdr s registered registered_add). }
  assert (Hbound : (Z.abs m >? j) = false) by (rewrite Z.gtb_ltb; apply Z.ltb_ge; lia).
  destruct (symmetrized (sym_reflection s) state && (State.getM state <? 0)) eqn:Hskip.
  - apply andb_true_iff in Hskip as (Hsym & Hneg). cbn in Hneg. apply Z.ltb_lt in Hneg.
    assert (Hmirror : - m ∈ allowed).
    { destruct (for_each_returns_each _ _ m Hm _ _ Hreturns) as (st1 & st2 & Hstep).
      unfold loop_m in Hstep. rewrite Hbound in Hstep.
      unfold symmetrized in Hsym. fold state in Hstep. rewrite Hsym in Hstep.
      cbn [andb] in Hstep.
      destruct (Nat.eqb (count (- State.getM state) allowed) 0) eqn:Hcount;
        [discriminate|].
      apply count_nonzero. cbn in Hcount. now rewrite Hcount. }
    refine (for_each_reaches registered _ allowed (- m) Hmono Hmirror _ bb bb' Hreturns).
    intros st st' Hstep. unfold loop_m in Hstep.
    assert (Hbound' : (Z.abs (- m) >? j) = false)
      by (rewrite Z.gtb_ltb; apply Z.ltb_ge; lia).
    rewrite Hbound' in Hstep.
    match type of Hstep with
    | (if ?b then _ else _) = _ => destruct b; [discriminate|]
    end.
    injection Hstep as <-. apply addSymmetrizedBasisvectors_states. right.
    assert (Hsym' : symmetrized (sym_reflection s) (State.make (species s) n l j (- m))
                    = true).
    { unfold symmetrized in *. cbn in *. apply andb_true_iff in Hsym as (-> & Hne).
      cbn. apply negb_true_iff, Z.eqb_neq. lia. }
    rewrite Hsym'. split.
    + cbn. apply Z.ltb_ge. lia.
    + right. split; [reflexivity|]. unfold state, State.getReflected, State.make. cbn.
      now rewrite Z.opp_involutive.
  - refine (for_each_reaches registered _ allowed m Hmono Hm _ bb bb' Hreturns).
    intros st st' Hstep. unfold loop_m in Hstep. rewrite Hbound in Hstep.
    match type of Hstep with
    | (if ?b then _ else _) = _ => destruct b; [discriminate|]
    end.
    injection Hstep as <-. apply addSymmetrizedBasisvectors_states. right.
    fold state. rewrite Hskip. auto.
Qed.

Hypothesis n_in_range : n ∈ range_n s.
Hypothesis l_in_range : l ∈ range_adapted_l s n.
Hypothesis l_bounds : 0 <= l <= n - 1.
Hypothesis j_in_range : j ∈ range_adapted_j s l.
Hypothesis j_bounds : 0 <= j /\ Z.abs (j - 2 * l) <= spin_of_species (species s).
Hypothesis energy_valid :
  checkIsEnergyValid
    (getEnergy (cache s) (State.make (species s) n l j (spin_of_species (species s)))) s
  = true.
Hypothesis m_in_range : m ∈ range_allowed_m s j.

Lemma enumerate_states_registers : forall bb bb',
  enumerate_states hdr s bb = Returns bb' -> registered bb'.
Proof.
  unfold enumerate_states.
  apply (for_each_reaches registered (loop_n hdr s (spin_of_species (species s)))
           (range_n s) n); [|exact n_in_range|].
  { intros y st. apply (loop_n_keeps hdr s registered registered_add). }
  unfold loop_n. fold (range_adapted_l s n).
  apply (for_each_reaches registered (loop_l hdr s (spin_of_species (species s)) n)
           (range_adapted_l s n) l); [|exact l_in_range|].
  { intros y st. apply (loop_l_keeps hdr s registered registered_add). }
  unfold loop_l.
  assert (Hl : (l >? n - 1) || (l <? 0) = false).
  { apply orb_false_iff. rewrite Z.gtb_ltb. split; apply Z.ltb_ge; lia. }
  rewrite Hl. fold (range_adapted_j s l).
  apply (for_each_reaches registered (loop_j hdr s (spin_of_species (species s)) n l)
           (range_adapted_j s l) j); [|exact j_in_range|].
  { intros y st. apply (loop_j_keeps hdr s registered registered_add). }
  unfold loop_j.
  assert (Hj : (Z.abs (j - 2 * l) >? spin_of_species (species s)) || (j <? 0) = false).
  { apply orb_false_iff. rewrite Z.gtb_ltb. split; apply Z.ltb_ge; lia. }
  rewrite Hj, energy_valid. cbn [negb].
  intros bb bb'. apply loop_over_m_registers. exact m_in_range.
Qed.

End LoopsReach.

(** X15: when [initializeBasis] returns, the registry holds every state of
    the loops: for [n] in [range_n], [l] in the range of [l] with
    [0 <= l <= n - 1], [j] in the range of [j] with [j >= 0] and
    [|j - l| <= s], a valid energy, and [m] in the range of the allowed
    momenta with [|m| <= j], the state [(n, l, j, m)] of the species is
    registered; also when the reflection symmetry makes the loop pass over
    the state itself, which is registered as the partner of its mirror
    image. *)
Theorem initializeBasis_registers_every_state_of_the_loops (hdr : Headers)
  (s s' : SystemOne) (n l j m : Z) :
  initializeBasis hdr s = Returns s' ->
  n ∈ range_n s ->
  l ∈ range_adapted_l s n -> 0 <= l <= n - 1 ->
  j ∈ range_adapted_j s l ->
  0 <= j /\ Z.abs (j - 2 * l) <= spin_of_species (species s) ->
  checkIsEnergyValid
    (getEnergy (cache s) (State.make (species s) n l j (spin_of_species (species s)))) s
  = true ->
  m ∈ range_allowed_m s j -> Z.abs m <= j ->
  State.make (species s) n l j m ∈ states s'.
Proof.
  intros Hreturns Hn Hl Hl' Hj Hj' Henergy Hm Hm'. revert Hreturns.
  unfold initializeBasis.
  destruct (bool_decide (range_n s = [])
            && (PrimFloat.eqb (energy_min s) double_lowest
                || PrimFloat.eqb (energy_max s) double_max)); [discriminate|].
  destruct (bool_decide (range_n s = [])); [discriminate|].
  destruct (enumerate_states hdr s _) as [bb1 | e bb1] eqn:H1; [|discriminate].
  apply (enumerate_states_registers hdr s n l j m Hm' Hn Hl Hl' Hj Hj' Henergy Hm) in H1.
  pose proof (user_defined_states_keeps hdr s
                (fun bb => State.make (species s) n l j m ∈ bb_states bb)
                (registered_add hdr s n l j m) (registered_cerr s n l j m) bb1 H1) as H2.
  destruct (user_defined_states hdr s bb1) as [bb2 | e bb2]; [|discriminate].
  intros [= <-]. exact H2.
Qed.

(** The system with even parity under reflection, restricted to [n = 1]:
    the loop passes over the state with [m = -1/2]. *)
Lemma initializeBasis_registers_every_state_of_the_loops_witness :
  State.make "Rb" 1 0 1 (-1) ∈ states (after (initializeBasis Example.hdr Example.mirrored)).
Proof.
  apply (initializeBasis_registers_every_state_of_the_loops Example.hdr Example.mirrored
           _ 1 0 1 (-1)).
  - vm_compute. reflexivity.
  - apply (bool_decide_eq_true_1 _). vm_compute. reflexivity.
  - apply (bool_decide_eq_true_1 _). vm_compute. reflexivity.
  - lia.
  - apply (bool_decide_eq_true_1 _). vm_compute. reflexivity.
  - vm_compute. split; discriminate.
  - vm_compute. reflexivity.
  - apply (bool_decide_eq_true_1 _). vm_compute. reflexivity.
  - vm_compute. discriminate.
Defined.

(** ** Setting a field twice *)

Ltac lookup_inserts :=
  repeat first [rewrite lookup_insert_eq | rewrite lookup_insert_ne by congruence].

Lemma spherical_overwrite (a b c a0 b0 c0 : float) (m : gmap Z float) :
  <[0 := a]> (<[-1 := b]> (<[1 := c]> (<[0 := a0]> (<[-1 := b0]> (<[1 := c0]> m)))))
  = <[0 := a]> (<[-1 := b]> (<[1 := c]> m)).
Proof.
  apply map_eq. intros k.
  destruct (decide (k = 0)) as [-> | H0]; [now lookup_inserts|].
  destruct (decide (k = -1)) as [-> | H1]; [now lookup_inserts|].
  destruct (decide (k = 1)) as [-> | H2]; [now lookup_inserts|].
  now lookup_inserts.
Qed.

Lemma diamagnetism_terms_overwrite b b0 terms :
  diamagnetism_terms_of b (diamagnetism_terms_of b0 terms) = diamagnetism_terms_of b terms.
Proof.
  unfold diamagnetism_terms_of. apply map_eq. intros k.
  destruct (decide (k = (2, -2))) as [-> | H1]; [now lookup_inserts|].
  destruct (decide (k = (2, 2))) as [-> | H2]; [now lookup_inserts|].
  destruct (decide (k = (2, -1))) as [-> | H3]; [now lookup_inserts|].
  destruct (decide (k = (2, 1))) as [-> | H4]; [now lookup_inserts|].
  destruct (decide (k = (2, 0))) as [-> | H5]; [now lookup_inserts|].
  destruct (decide (k = (0, 0))) as [-> | H6]; [now lookup_inserts|].
  now lookup_inserts.
Qed.

(** X16: the field setters overwrite.  When [setEfield] or [setBfield]
    returns, the spherical components of the field, and for the magnetic
    field the coefficients of the diamagnetic terms, are those that the call
    computes on an object whose field was never set: nothing remains of the
    field set before, also when that call was refused. *)
Theorem field_setters_overwrite (field field0 : array3) (s : SystemOne) :
  neq (at1 field) 0%float = false ->
  (returned (setEfield field (after (setEfield field0 s))) = true
   /\ efield (after (setEfield field (after (setEfield field0 s)))) = field
   /\ efield_spherical (after (setEfield field (after (setEfield field0 s))))
      = efield_spherical (after (setEfield field s)))
  /\ (returned (setBfield field (after (setBfield field0 s))) = true
      /\ bfield (after (setBfield field (after (setBfield field0 s)))) = field
      /\ bfield_spherical (after (setBfield field (after (setBfield field0 s))))
         = bfield_spherical (after (setBfield field s))
      /\ diamagnetism_terms (after (setBfield field (after (setBfield field0 s))))
         = diamagnetism_terms (after (setBfield field s))).
Proof.
  intros Hy. split.
  - unfold setEfield, changeToSphericalbasis, onParameterChange.
    destruct (assembler s) eqn:Ha; cbn; destruct (neq (at1 field0) 0%float); cbn;
      rewrite ?Hy; cbn; rewrite ?Hy; cbn; rewrite ?Ha; cbn;
      (split; [reflexivity|]); (split; [reflexivity|]);
      first [reflexivity | apply spherical_overwrite].
  - unfold setBfield, changeToSphericalbasis, onParameterChange.
    destruct (assembler s) eqn:Ha; cbn; destruct (neq (at1 field0) 0%float); cbn;
      rewrite ?Hy; cbn; rewrite ?Hy; cbn; rewrite ?Ha; cbn;
      (split; [reflexivity|]); (split; [reflexivity|]);
      first [split; reflexivity
            | rewrite spherical_overwrite; (split; [reflexivity|]);
              apply diamagnetism_terms_overwrite].
Qed.

(** A field along x and z after a field with a component along y. *)
Lemma field_setters_overwrite_witness :
  efield_spherical
    (after (setEfield (1, 0, 2)%float (after (setEfield (3, 4, 5)%float Example.fresh))))
  = efield_spherical (after (setEfield (1, 0, 2)%float Example.fresh)).
Proof.
  apply (field_setters_overwrite (1, 0, 2)%float (3, 4, 5)%float Example.fresh).
  vm_compute. reflexivity.
Defined.

(** ** [initializeInteraction], then [addInteraction] *)

Lemma touch_present {K V} `{Countable K} (k : K) (d : V) (m : gmap K V) :
  is_Some (m !! k) -> touch k d m = m.
Proof. intros (v & Hv). unfold touch. now rewrite Hv. Qed.

Lemma cache_kept_refl s : cache_kept s s.
Proof. split; [apply same_reads_refl | apply same_operator_cache_refl]. Qed.

Lemma efield_term_cache_kept s0 s op i k :
  cache_kept s0 s ->
  (above_tolerance (at_key (efield_spherical s0) k) = true ->
   is_Some (interaction_efield s0 !! i)) ->
  cache_kept s0 (efield_term op i k s).
Proof.
  intros (Hr & Hc) Hpresent. destruct (efield_term_spec op i k s) as (Hr' & _).
  split; [eapply same_reads_trans; eassumption|].
  destruct Hr as (He & _). destruct Hc as (HE & HB & HD & HO).
  unfold efield_term. rewrite He.
  destruct (above_tolerance (at_key (efield_spherical s0) k));
    unfold same_operator_cache; cbn; [|auto].
  rewrite touch_present by (rewrite HE; auto). auto.
Qed.

Lemma bfield_term_cache_kept s0 s op i k :
  cache_kept s0 s ->
  (above_tolerance (at_key (bfield_spherical s0) k) = true ->
   is_Some (interaction_bfield s0 !! i)) ->
  cache_kept s0 (bfield_term op i k s).
Proof.
  intros (Hr & Hc) Hpresent. destruct (bfield_term_spec op i k s) as (Hr' & _).
  split; [eapply same_reads_trans; eassumption|].
  destruct Hr as (_ & Hb & _). destruct Hc as (HE & HB & HD & HO).
  unfold bfield_term. rewrite Hb.
  destruct (above_tolerance (at_key (bfield_spherical s0) k));
    unfold same_operator_cache; cbn; [|auto].
  rewrite touch_present by (rewrite HB; auto). auto.
Qed.

Lemma diamagnetism_term_cache_kept s0 s op i factor :
  cache_kept s0 s ->
  (diamagnetism s0 = true ->
   above_tolerance (at_key (diamagnetism_terms s0) i) = true ->
   is_Some (interaction_diamagnetism s0 !! i)) ->
  cache_kept s0 (diamagnetism_term op i factor s).
Proof.
  intros (Hr & Hc) Hpresent. destruct (diamagnetism_term_spec op i factor s) as (Hr' & _).
  split; [eapply same_reads_trans; eassumption|].
  destruct Hr as (_ & _ & Hd & _ & _ & _ & _ & Hon & _).
  destruct Hc as (HE & HB & HD & HO).
  unfold diamagnetism_term. rewrite Hon, Hd.
  destruct (diamagnetism s0); [|unfold same_operator_cache; auto].
  destruct (above_tolerance (at_key (diamagnetism_terms s0) i));
    unfold same_operator_cache; cbn; [|auto].
  rewrite touch_present by (rewrite HD; auto). auto.
Qed.

Lemma multipole_loop_cache_kept s0 orders : forall s,
  cache_kept s0 s ->
  (forall order, order ∈ orders -> is_Some (interaction_multipole s0 !! Z.of_nat order)) ->
  cache_kept s0 (fold_left multipole_term orders s).
Proof.
  induction orders as [|o orders IH]; intros s Hs Hpresent; cbn [fold_left]; [exact Hs|].
  apply IH; [|intros order Ho; apply Hpresent; now apply list_elem_of_further].
  destruct Hs as (Hr & HE & HB & HD & HO).
  destruct (multipole_term_spec s o) as (Hr' & _).
  split; [eapply same_reads_trans; eassumption|].
  unfold multipole_term, same_operator_cache; cbn.
  rewrite touch_present by (rewrite HO; apply Hpresent, list_elem_of_here). auto.
Qed.

(** When the operator of every term that enters the sum is stored,
    [addInteraction] creates no entry. *)
Lemma addInteraction_keeps_cache s :
  reads_marked s s -> same_operator_cache s (addInteraction s).
Proof.
  intros (He & Hb & Hd & Hm).
  assert (Hin3 : forall k : Z, In k [-1; 0; 1] -> k ∈ spherical_keys)
    by (intros k Hk; now apply list_elem_of_In).
  assert (Hin6 : forall k, In k [(0, 0); (2, 0); (2, 1); (2, -1); (2, 2); (2, -2)] ->
                           k ∈ diamagnetism_keys)
    by (intros k Hk; now apply list_elem_of_In).
  pose proof (cache_kept_refl s) as H0.
  unfold addInteraction.
  apply (efield_term_cache_kept _ _ MinusAssign 0 0) in H0;
    [|apply (He 0), Hin3; cbn; tauto].
  apply (efield_term_cache_kept _ _ PlusAssign 1 (-1)) in H0;
    [|apply (He (-1)), Hin3; cbn; tauto].
  apply (efield_term_cache_kept _ _ PlusAssign (-1) 1) in H0;
    [|apply (He 1), Hin3; cbn; tauto].
  apply (bfield_term_cache_kept _ _ MinusAssign 0 0) in H0;
    [|apply (Hb 0), Hin3; cbn; tauto].
  apply (bfield_term_cache_kept _ _ PlusAssign 1 (-1)) in H0;
    [|apply (Hb (-1)), Hin3; cbn; tauto].
  apply (bfield_term_cache_kept _ _ PlusAssign (-1) 1) in H0;
    [|apply (Hb 1), Hin3; cbn; tauto].
  apply (diamagnetism_term_cache_kept _ _ PlusAssign (0, 0) None) in H0;
    [|apply Hd, Hin6; cbn; tauto].
  apply (diamagnetism_term_cache_kept _ _ MinusAssign (2, 0) None) in H0;
    [|apply Hd, Hin6; cbn; tauto].
  apply (diamagnetism_term_cache_kept _ _ PlusAssign (2, 1) (Some sqrt3)) in H0;
    [|apply Hd, Hin6; cbn; tauto].
  apply (diamagnetism_term_cache_kept _ _ PlusAssign (2, -1) (Some sqrt3)) in H0;
    [|apply Hd, Hin6; cbn; tauto].
  apply (diamagnetism_term_cache_kept _ _ MinusAssign (2, 2) (Some sqrt1_5)) in H0;
    [|apply Hd, Hin6; cbn; tauto].
  apply (diamagnetism_term_cache_kept _ _ MinusAssign (2, -2) (Some sqrt1_5)) in H0;
    [|apply Hd, Hin6; cbn; tauto].
  match type of H0 with cache_kept _ ?s12 => set (s' := s12) in * end.
  assert (Hcharge : charge s' = charge s) by apply H0.
  assert (Hdistance : distance s' = distance s) by apply H0.
  assert (Hordermax : ordermax s' = ordermax s) by apply H0.
  rewrite Hcharge, Hdistance, Hordermax.
  destruct (negb (charge s =? 0)) eqn:Hc; cbn [andb]; [|apply H0].
  destruct (neq (distance s) double_max) eqn:Hdist; [|apply H0].
  apply negb_true_iff, Z.eqb_neq in Hc.
  apply (multipole_loop_cache_kept s _ s' H0). now apply Hm.
Qed.

Lemma efield_range_intro s k :
  0 <= k -> above_tolerance (at_key (efield_spherical s) k) = true ->
  interaction_efield s !! (- k) = None -> k ∈ efield_range s.
Proof.
  intros Hk Habove Hnone.
  destruct (above_tolerance_stored _ _ Habove) as (v & Hv).
  unfold efield_range.
  apply (in_range_of_filter _ _ (k, v)); [now apply elem_of_map_to_list|].
  cbn [fst snd]. unfold at_key in Habove. rewrite Hv in Habove.
  change (above_tolerance v = true) in Habove.
  rewrite Habove, Hnone. cbn.
  destruct (Z.ltb_spec k 0); [lia | reflexivity].
Qed.

Lemma bfield_range_intro s k :
  0 <= k -> above_tolerance (at_key (bfield_spherical s) k) = true ->
  interaction_bfield s !! (- k) = None -> k ∈ bfield_range s.
Proof.
  intros Hk Habove Hnone.
  destruct (above_tolerance_stored _ _ Habove) as (v & Hv).
  unfold bfield_range.
  apply (in_range_of_filter _ _ (k, v)); [now apply elem_of_map_to_list|].
  cbn [fst snd]. unfold at_key in Habove. rewrite Hv in Habove.
  change (above_tolerance v = true) in Habove.
  rewrite Habove, Hnone. cbn.
  destruct (Z.ltb_spec k 0); [lia | reflexivity].
Qed.

Lemma diamagnetism_range_intro s k :
  0 <= snd k -> diamagnetism s = true ->
  above_tolerance (at_key (diamagnetism_terms s) k) = true ->
  interaction_diamagnetism s !! k = None -> k ∈ diamagnetism_range s.
Proof.
  intros Hk Hon Habove Hnone.
  destruct (above_tolerance_stored _ _ Habove) as (v & Hv).
  unfold diamagnetism_range.
  apply (in_range_of_filter _ _ (k, v)); [now apply elem_of_map_to_list|].
  cbn [fst snd]. unfold at_key in Habove. rewrite Hv in Habove.
  change (above_tolerance v = true) in Habove.
  rewrite Habove, Hnone, Hon. cbn.
  destruct (Z.ltb_spec (snd k) 0); [lia | reflexivity].
Qed.

Lemma multipole_range_intro s order :
  charge s <> 0 -> order ∈ seq 1 (ordermax s) ->
  interaction_multipole s !! Z.of_nat order = None ->
  Z.of_nat order ∈ multipole_range s.
Proof.
  intros Hc Ho Hnone. unfold multipole_range.
  destruct (Z.eqb_spec (charge s) 0) as [? | _]; [contradiction|].
  apply list_elem_of_In, filter_In. split.
  - apply in_map. now apply list_elem_of_In.
  - now apply bool_decide_eq_true.
Qed.

(** After [initializeInteraction], the key of every range and its negated
    key are stored. *)
Lemma initializeInteraction_present hdr s :
  (forall k, k ∈ efield_range s ->
     is_Some (interaction_efield (initializeInteraction hdr s) !! k)
     /\ is_Some (interaction_efield (initializeInteraction hdr s) !! (- k)))
  /\ (forall k, k ∈ bfield_range s ->
        is_Some (interaction_bfield (initializeInteraction hdr s) !! k)
        /\ is_Some (interaction_bfield (initializeInteraction hdr s) !! (- k)))
  /\ (forall k, k ∈ diamagnetism_range s ->
        is_Some (interaction_diamagnetism (initializeInteraction hdr s) !! k)
        /\ is_Some (interaction_diamagnetism (initializeInteraction hdr s)
                    !! negated_component k))
  /\ (forall k, k ∈ multipole_range s ->
        is_Some (interaction_multipole (initializeInteraction hdr s) !! k)).
Proof.
  unfold initializeInteraction. cbn [erange brange drange orange compute_ranges].
  destruct (bool_decide (efield_range s = []) && bool_decide (bfield_range s = [])
            && bool_decide (diamagnetism_range s = [])
            && bool_decide (multipole_range s = [])) eqn:Hnothing.
  { apply andb_true_iff in Hnothing as (Hnothing & Ho).
    apply andb_true_iff in Hnothing as (Hnothing & Hd).
    apply andb_true_iff in Hnothing as (He & Hb).
    apply bool_decide_eq_true_1 in He, Hb, Hd, Ho. rewrite He, Hb, Hd, Ho.
    split; [|split; [|split]]; intros k Hk; inversion Hk. }
  set (rg := compute_ranges s).
  set (t := column_loop hdr (cache s) (charge s) rg (enumerated (states s))).
  destruct (build_interaction_fields rg t s) as (HE & HB & HD & HO).
  destruct (efield_range_spec s) as (HEnd & HEpos).
  destruct (bfield_range_spec s) as (HBnd & HBpos).
  destruct (diamagnetism_range_spec s) as (HDnd & HDpos).
  destruct (multipole_range_spec s) as (HOnd & HOpos).
  split; [|split; [|split]].
  - intros k Hk. rewrite HE.
    now apply (build_operators_present id Z.opp _ _ _ _ _ k opp_spec Z.opp_inj opp_zero).
  - intros k Hk. rewrite HB.
    now apply (build_operators_present id Z.opp _ _ _ _ _ k opp_spec Z.opp_inj opp_zero).
  - intros k Hk. rewrite HD.
    now apply (build_operators_present snd negated_component _ _ _ _ _ k
                 negated_component_spec negated_component_inj negated_component_zero).
  - intros k Hk. destruct (HOpos k Hk) as (_ & Hch). rewrite (HO Hch).
    apply (build_operators_present id Z.opp _ _ _ _ _ k opp_spec Z.opp_inj opp_zero);
      auto.
    intros k' Hk'. destruct (HOpos k' Hk'). unfold id. lia.
Qed.

(** X17: in the order [initializeInteraction], [addInteraction], on an
    object whose operators were deleted, [addInteraction] creates no
    operator entry: every operator that it reads for a term that enters the
    sum was built by [initializeInteraction].  The coefficients of the
    components [-1] and [-2] are assumed to be above the tolerance only if
    those of the components [1] and [2] are. *)
Theorem addInteraction_after_initializeInteraction (hdr : Headers) (s : SystemOne) :
  guards_consistent s ->
  same_operator_cache (initializeInteraction hdr (deleteInteraction s))
    (addInteraction (initializeInteraction hdr (deleteInteraction s))).
Proof.
  intros (Hge & Hgb & Hgd1 & Hgd2).
  set (s1 := deleteInteraction s).
  apply addInteraction_keeps_cache.
  destruct (initializeInteraction_present hdr s1) as (HE & HB & HD & HO).
  assert (Hframe : same_configuration s1 (initializeInteraction hdr s1)
                   /\ same_efield s1 (initializeInteraction hdr s1)
                   /\ same_bfield s1 (initializeInteraction hdr s1)
                   /\ diamagnetism_terms (initializeInteraction hdr s1)
                      = diamagnetism_terms s1).
  { unfold initializeInteraction.
    destruct (bool_decide (erange (compute_ranges s1) = [])
              && bool_decide (brange (compute_ranges s1) = [])
              && bool_decide (drange (compute_ranges s1) = [])
              && bool_decide (orange (compute_ranges s1) = [])).
    - unfold same_configuration, same_efield, same_bfield. repeat split; reflexivity.
    - destruct (build_interaction_frame (compute_ranges s1)
                  (column_loop hdr (cache s1) (charge s1) (compute_ranges s1)
                     (enumerated (states s1))) s1) as (H1 & H2 & H3 & H4 & _).
      auto. }
  destruct Hframe as (Hconf & (_ & He) & (_ & Hb) & Hd).
  destruct Hconf as (_&_&_&_&_&_&_&_&_&_&_&_&Hon&Hcharge&Hordermax&_).
  split; [|split; [|split]].
  - intros k Hk Habove. rewrite He in Habove. apply list_elem_of_In in Hk. cbn in Hk.
    destruct Hk as [<- | [<- | [<- | []]]]; cbn [Z.opp Pos.succ].
    + apply (HE 1). apply efield_range_intro; [lia | now apply Hge | reflexivity].
    + apply (HE 0). apply efield_range_intro; [lia | exact Habove | reflexivity].
    + apply (HE 1). apply efield_range_intro; [lia | exact Habove | reflexivity].
  - intros k Hk Habove. rewrite Hb in Habove. apply list_elem_of_In in Hk. cbn in Hk.
    destruct Hk as [<- | [<- | [<- | []]]]; cbn [Z.opp Pos.succ].
    + apply (HB 1). apply bfield_range_intro; [lia | now apply Hgb | reflexivity].
    + apply (HB 0). apply bfield_range_intro; [lia | exact Habove | reflexivity].
    + apply (HB 1). apply bfield_range_intro; [lia | exact Habove | reflexivity].
  - intros k Hk Henabled Habove. rewrite Hon in Henabled. rewrite Hd in Habove.
    apply list_elem_of_In in Hk. cbn in Hk.
    destruct Hk as [<- | [<- | [<- | [<- | [<- | [<- | []]]]]]].
    + apply (HD (0, 0)). now apply diamagnetism_range_intro.
    + apply (HD (2, 0)). now apply diamagnetism_range_intro.
    + apply (HD (2, 1)). now apply diamagnetism_range_intro.
    + apply (HD (2, 1)). apply diamagnetism_range_intro; cbn; auto; lia.
    + apply (HD (2, 2)). now apply diamagnetism_range_intro.
    + apply (HD (2, 2)). apply diamagnetism_range_intro; cbn; auto; lia.
  - rewrite Hcharge, Hordermax. intros Hc _ order Horder.
    apply HO. now apply multipole_range_intro.
Qed.

(** The example in a magnetic field along x and z. *)
Lemma addInteraction_after_initializeInteraction_witness :
  same_operator_cache
    (initializeInteraction Example.hdr (deleteInteraction Example.magnetic_basis))
    (addInteraction
       (initializeInteraction Example.hdr (deleteInteraction Example.magnetic_basis))).
Proof.
  apply addInteraction_after_initializeInteraction.
  unfold guards_consistent.
  split; [|split; [|split]]; [|intros _; vm_compute; reflexivity..].
  assert (Hoff : above_tolerance (at_key (efield_spherical Example.magnetic_basis) (-1))
                 = false) by (vm_compute; reflexivity).
  rewrite Hoff. discriminate.
Defined.

(** ** The spherical components that the field setters store *)

(** The sign of a quotient and of a product, in binary64. *)
Lemma float_ext (x y : float) : FloatOps.Prim2SF x = FloatOps.Prim2SF y -> x = y.
Proof.
  intros H. rewrite <- (FloatAxioms.SF2Prim_Prim2SF x), <- (FloatAxioms.SF2Prim_Prim2SF y).
  now rewrite H.
Qed.

Lemma binary_round_aux_negb prec emax s m e l :
  SpecFloat.binary_round_aux prec emax (negb s) m e l
  = SpecFloat.SFopp (SpecFloat.binary_round_aux prec emax s m e l).
Proof.
  unfold SpecFloat.binary_round_aux.
  destruct (SpecFloat.shr_fexp prec emax m e l) as [mrs' e'].
  destruct (SpecFloat.shr_fexp prec emax _ e' SpecFloat.loc_Exact) as [mrs'' e''].
  destruct (SpecFloat.shr_m mrs''); [reflexivity | | reflexivity].
  now destruct (e'' <=? emax - prec)%Z.
Qed.

Lemma SFdiv_opp prec emax x y :
  SpecFloat.SFdiv prec emax (SpecFloat.SFopp x) y
  = SpecFloat.SFopp (SpecFloat.SFdiv prec emax x y).
Proof.
  destruct x as [sx | sx | | sx mx ex], y as [sy | sy | | sy my ey]; cbn;
    try reflexivity; try (now destruct sx, sy).
  destruct (SpecFloat.SFdiv_core_binary prec emax (Z.pos mx) ex (Z.pos my) ey)
    as [[mz ez] lz].
  rewrite <- binary_round_aux_negb. now destruct sx, sy.
Qed.

Lemma SFmul_opp prec emax x y :
  SpecFloat.SFmul prec emax x (SpecFloat.SFopp y)
  = SpecFloat.SFopp (SpecFloat.SFmul prec emax x y).
Proof.
  destruct x as [sx | sx | | sx mx ex], y as [sy | sy | | sy my ey]; cbn;
    try reflexivity; try (now destruct sx, sy).
  rewrite <- binary_round_aux_negb. now destruct sx, sy.
Qed.

Lemma SFmul_opp_opp prec emax x :
  SpecFloat.SFmul prec emax (SpecFloat.SFopp x) (SpecFloat.SFopp x)
  = SpecFloat.SFmul prec emax x x.
Proof. destruct x as [sx | sx | | sx mx ex]; cbn; try reflexivity; now destruct sx. Qed.

Lemma SFabs_opp x : SpecFloat.SFabs (SpecFloat.SFopp x) = SpecFloat.SFabs x.
Proof. now destruct x. Qed.

Lemma div_opp (x y : float) : (- x / y = - (x / y))%float.
Proof.
  apply float_ext.
  rewrite FloatAxioms.div_spec, !FloatAxioms.opp_spec, FloatAxioms.div_spec.
  apply SFdiv_opp.
Qed.

Lemma mul_opp (x y : float) : (x * - y = - (x * y))%float.
Proof.
  apply float_ext.
  rewrite FloatAxioms.mul_spec, !FloatAxioms.opp_spec, FloatAxioms.mul_spec.
  apply SFmul_opp.
Qed.

Lemma mul_opp_opp (x : float) : (- x * - x = x * x)%float.
Proof.
  apply float_ext. rewrite !FloatAxioms.mul_spec, !FloatAxioms.opp_spec.
  apply SFmul_opp_opp.
Qed.

Lemma abs_opp (x : float) : PrimFloat.abs (- x) = PrimFloat.abs x.
Proof.
  apply float_ext. rewrite !FloatAxioms.abs_spec, FloatAxioms.opp_spec.
  apply SFabs_opp.
Qed.

Lemma at_key_spherical (a b c : float) (m : gmap Z float) :
  at_key (<[0 := a]> (<[-1 := b]> (<[1 := c]> m))) 1 = c
  /\ at_key (<[0 := a]> (<[-1 := b]> (<[1 := c]> m))) (-1) = b
  /\ at_key (<[0 := a]> (<[-1 := b]> (<[1 := c]> m))) 0 = a.
Proof. unfold at_key. repeat split; now lookup_inserts. Qed.

Lemma at_key_diamagnetism_terms_of b terms :
  at_key (diamagnetism_terms_of b terms) (2, -1)
  = PrimFloat.mul (at_key b 0) (at_key b 1)
  /\ at_key (diamagnetism_terms_of b terms) (2, 1)
     = PrimFloat.mul (at_key b 0) (at_key b (-1))
  /\ at_key (diamagnetism_terms_of b terms) (2, -2)
     = PrimFloat.mul (at_key b 1) (at_key b 1)
  /\ at_key (diamagnetism_terms_of b terms) (2, 2)
     = PrimFloat.mul (at_key b (-1)) (at_key b (-1)).
Proof.
  unfold diamagnetism_terms_of.
  repeat split; unfold at_key at 1; now lookup_inserts.
Qed.

Lemma above_tolerance_opp x : above_tolerance (- x) = above_tolerance x.
Proof. unfold above_tolerance. now rewrite abs_opp. Qed.

Lemma setEfield_spherical field s s' :
  setEfield field s = Returns s' ->
  exists m,
    efield_spherical s'
    = <[0 := at2 field]>
        (<[-1 := (at0 field / PrimFloat.sqrt 2)%float]>
           (<[1 := (- at0 field / PrimFloat.sqrt 2)%float]> m)).
Proof.
  unfold setEfield, changeToSphericalbasis.
  destruct (neq _ 0%float); [discriminate|]. intros [= <-]. eexists. reflexivity.
Qed.

Lemma setBfield_spherical field s s' :
  setBfield field s = Returns s' ->
  efield_spherical s' = efield_spherical s
  /\ exists m terms,
       bfield_spherical s'
       = <[0 := at2 field]>
           (<[-1 := (at0 field / PrimFloat.sqrt 2)%float]>
              (<[1 := (- at0 field / PrimFloat.sqrt 2)%float]> m))
       /\ diamagnetism_terms s' = diamagnetism_terms_of (bfield_spherical s') terms.
Proof.
  unfold setBfield, changeToSphericalbasis.
  destruct (neq _ 0%float); [discriminate|]. intros [= <-]. split.
  - cbn [efield_spherical set_diamagnetism_terms set_bfield_spherical set_bfield].
    apply (onParameterChange_frame s).
  - eexists. eexists. split; reflexivity.
Qed.

(** X18: after [setEfield] and [setBfield] have returned, the spherical
    component [1] of either field is the negative of the component [-1],
    the coefficient of the diamagnetic term [(2, -1)] is the negative of the
    coefficient of [(2, 1)], and the coefficients of [(2, -2)] and [(2, 2)]
    are equal, as binary64 values; so the coefficient that guards the reading
    of an operator in [addInteraction] is above the tolerance only if the
    coefficient is that makes [initializeInteraction] build this operator. *)
Theorem field_setters_mirror_components (field_e field_b : array3)
  (s s1 s2 : SystemOne) :
  setEfield field_e s = Returns s1 ->
  setBfield field_b s1 = Returns s2 ->
  at_key (efield_spherical s2) 1 = PrimFloat.opp (at_key (efield_spherical s2) (-1))
  /\ at_key (bfield_spherical s2) 1 = PrimFloat.opp (at_key (bfield_spherical s2) (-1))
  /\ at_key (diamagnetism_terms s2) (2, -1)
     = PrimFloat.opp (at_key (diamagnetism_terms s2) (2, 1))
  /\ at_key (diamagnetism_terms s2) (2, -2) = at_key (diamagnetism_terms s2) (2, 2)
  /\ guards_consistent s2.
Proof.
  intros He Hb.
  apply setEfield_spherical in He as (me & He).
  apply setBfield_spherical in Hb as (Hkept & mb & terms & Hb & Hd).
  assert (HE : at_key (efield_spherical s2) 1
               = PrimFloat.opp (at_key (efield_spherical s2) (-1))).
  { rewrite Hkept, He.
    destruct (at_key_spherical (at2 field_e) (at0 field_e / PrimFloat.sqrt 2)%float
                (- at0 field_e / PrimFloat.sqrt 2)%float me) as (-> & -> & _).
    apply div_opp. }
  assert (HB : at_key (bfield_spherical s2) 1
               = PrimFloat.opp (at_key (bfield_spherical s2) (-1))).
  { rewrite Hb.
    destruct (at_key_spherical (at2 field_b) (at0 field_b / PrimFloat.sqrt 2)%float
                (- at0 field_b / PrimFloat.sqrt 2)%float mb) as (-> & -> & _).
    apply div_opp. }
  destruct (at_key_diamagnetism_terms_of (bfield_spherical s2) terms)
    as (D1 & D2 & D3 & D4).
  rewrite <- Hd in D1, D2, D3, D4.
  assert (HD1 : at_key (diamagnetism_terms s2) (2, -1)
                = PrimFloat.opp (at_key (diamagnetism_terms s2) (2, 1))).
  { rewrite D1, D2, HB. apply mul_opp. }
  assert (HD2 : at_key (diamagnetism_terms s2) (2, -2)
                = at_key (diamagnetism_terms s2) (2, 2)).
  { rewrite D3, D4, HB. apply mul_opp_opp. }
  split; [exact HE|]. split; [exact HB|]. split; [exact HD1|]. split; [exact HD2|].
  unfold guards_consistent. rewrite HE, HB, HD1, HD2, !above_tolerance_opp. auto.
Qed.

(** A field along x for both setters. *)
Lemma field_setters_mirror_components_witness :
  guards_consistent
    (after (setBfield (1, 0, 1)%float (after (setEfield (1, 0, 0)%float Example.fresh)))).
Proof.
  assert (He : setEfield (1, 0, 0)%float Example.fresh
               = Returns (after (setEfield (1, 0, 0)%float Example.fresh)))
    by (vm_compute; reflexivity).
  assert (Hb : setBfield (1, 0, 1)%float (after (setEfield (1, 0, 0)%float Example.fresh))
               = Returns (after (setBfield (1, 0, 1)%float
                                   (after (setEfield (1, 0, 0)%float Example.fresh)))))
    by (vm_compute; reflexivity).
  apply (field_setters_mirror_components _ _ _ _ _ He Hb).
Defined.

(** ** Calling [initializeBasis] again *)

(** X19: [initializeBasis] cannot be called again on the object that it
    returned when it has registered a user-defined state: the registry is not
    cleared, the second call finds the state in it and throws. *)
Theorem initializeBasis_again_throws (hdr : Headers) (s s' : SystemOne)
  (state : StateOne) :
  initializeBasis hdr s = Returns s' ->
  state ∈ states_to_add s -> state ∈ states s' ->
  returned (initializeBasis hdr s') = false.
Proof.
  intros Hreturns Hadd Hregistered.
  assert (Hadd' : state ∈ states_to_add s')
    by (apply initializeBasis_returns_build_data in Hreturns as (bb & ->); exact Hadd).
  clear Hreturns Hadd. unfold initializeBasis.
  destruct (bool_decide (range_n s' = [])
            && (PrimFloat.eqb (energy_min s') double_lowest
                || PrimFloat.eqb (energy_max s') double_max)); [reflexivity|].
  destruct (bool_decide (range_n s' = [])); [reflexivity|].
  pose proof (enumerate_states_keeps hdr s' (fun bb => state ∈ bb_states bb)
                (fun state' energy parity bb H =>
                   proj2 (addSymmetrizedBasisvectors_states hdr state' energy parity bb
                            state) (or_introl H))
                (BasisBuild (states s') 0 [] [] (cerr s')) Hregistered) as H1.
  destruct (enumerate_states hdr s' _) as [bb1 | e bb1]; [|reflexivity].
  cbn [after] in H1. unfold user_defined_states.
  destruct (check_loop_spec hdr s' (states_to_add s') bb1) as (_ & Hthrows).
  destruct (for_each (check_user_state hdr s') (states_to_add s') bb1) as [bb2 | e bb2];
    [|reflexivity].
  exfalso. assert (Hfalse : returned (Returns bb2) = false) by (apply Hthrows; eauto).
  discriminate Hfalse.
Qed.

(** The system with one artificial state. *)
Lemma initializeBasis_again_throws_witness :
  returned (initializeBasis Example.hdr (after (initializeBasis Example.hdr Example.dark)))
  = false.
Proof.
  apply (initializeBasis_again_throws Example.hdr Example.dark _ (State.artificial "dark")).
  - vm_compute. reflexivity.
  - apply (bool_decide_eq_true_1 _). vm_compute. reflexivity.
  - apply (bool_decide_eq_true_1 _). vm_compute. reflexivity.
Defined.

Lemma find_state_prefix state (l registry : list StateOne) row :
  l `prefix_of` registry -> find_state state l = Some row ->
  find_state state registry = Some row.
Proof.
  intros (k & ->). unfold find_state.
  destruct (list_find (fun x => x = state) l) as [[i x]|] eqn:E; [|discriminate].
  intros [= <-]. now rewrite (list_find_app_l _ _ k _ _ E).
Qed.

Lemma find_state_new state (l registry : list StateOne) :
  l ++ [state] `prefix_of` registry -> find_state state l = None ->
  find_state state registry = Some (length l).
Proof.
  intros (k & ->). unfold find_state.
  destruct (list_find (fun x => x = state) l) as [[i x]|] eqn:E; [discriminate|].
  intros _. rewrite <- app_assoc, (list_find_app_r _ _ _ E). cbn.
  rewrite decide_True by reflexivity. reflexivity.
Qed.

Section SecondRun.

Variable hdr : Headers.
Variable s : SystemOne.
Variable registry : list StateOne.

Lemma addBasisvectors_within state idx value bb :
  bb_states (addBasisvectors state idx value bb) `prefix_of` registry ->
  bb_states bb `prefix_of` registry.
Proof.
  unfold addBasisvectors.
  destruct (find_state state (bb_states bb)); cbn; [auto|]. apply prefix_app_l.
Qed.

Lemma addBasisvectors_second_run state idx value bb bb' :
  second_run registry bb bb' ->
  bb_states (addBasisvectors state idx value bb) `prefix_of` registry ->
  second_run registry (addBasisvectors state idx value bb)
    (addBasisvectors state idx value bb').
Proof.
  intros (Hs & Hi & Ht & Hh & Hc) Hwithin.
  unfold addBasisvectors in *. rewrite Hs.
  destruct (find_state state (bb_states bb)) as [row|] eqn:E; cbn in Hwithin.
  - rewrite (find_state_prefix _ _ _ _ Hwithin E).
    unfold second_run; cbn. rewrite Hi, Ht, Hh, Hc. repeat split; reflexivity.
  - rewrite (find_state_new _ _ _ Hwithin E).
    unfold second_run; cbn. rewrite Hi, Ht, Hh, Hc. repeat split; reflexivity.
Qed.

Lemma addSymmetrizedBasisvectors_within state energy parity bb :
  bb_states (addSymmetrizedBasisvectors hdr state energy parity bb) `prefix_of` registry ->
  bb_states bb `prefix_of` registry.
Proof.
  unfold addSymmetrizedBasisvectors.
  destruct (symmetrized parity state && (State.getM state <? 0)); [auto|].
  cbn [bb_states].
  destruct (symmetrized parity state); intros H.
  - apply addBasisvectors_within, addBasisvectors_within in H. exact H.
  - apply addBasisvectors_within in H. exact H.
Qed.

Lemma addSymmetrizedBasisvectors_second_run state energy parity bb bb' :
  second_run registry bb bb' ->
  bb_states (addSymmetrizedBasisvectors hdr state energy parity bb) `prefix_of` registry ->
  second_run registry (addSymmetrizedBasisvectors hdr state energy parity bb)
    (addSymmetrizedBasisvectors hdr state energy parity bb').
Proof.
  intros Hrun. pose proof Hrun as (Hs & Hi & Ht & Hh & Hc).
  unfold addSymmetrizedBasisvectors.
  destruct (symmetrized parity state && (State.getM state <? 0)); [auto|].
  rewrite Hi, Hh.
  set (bb1 := BasisBuild (bb_states bb) (bb_idx bb) (bb_basisvectors_triplets bb)
                (bb_hamiltonian_triplets bb ++ [Triplet (bb_idx bb) (bb_idx bb) energy])
                (bb_cerr bb)).
  set (bb1' := BasisBuild (bb_states bb') (bb_idx bb) (bb_basisvectors_triplets bb')
                 (bb_hamiltonian_triplets bb ++ [Triplet (bb_idx bb) (bb_idx bb) energy])
                 (bb_cerr bb')).
  assert (H1 : second_run registry bb1 bb1')
    by (unfold second_run, bb1, bb1'; cbn; auto).
  cbn [bb_states].
  destruct (symmetrized parity state); intros Hwithin.
  - pose proof (addBasisvectors_within _ _ _ _ Hwithin) as Hwithin1.
    pose proof (addBasisvectors_second_run state (bb_idx bb) first_coefficient bb1 bb1'
                  H1 Hwithin1) as H2.
    pose proof (addBasisvectors_second_run (State.getReflected state) (bb_idx bb)
                  (second_coefficient hdr parity state) _ _ H2 Hwithin)
      as (Hs3 & Hi3 & Ht3 & Hh3 & Hc3).
    unfold second_run; cbn. auto.
  - pose proof (addBasisvectors_second_run state (bb_idx bb) 1%float bb1 bb1'
                  H1 Hwithin) as (Hs2 & Hi2 & Ht2 & Hh2 & Hc2).
    unfold second_run; cbn. auto.
Qed.

End SecondRun.

Lemma for_each_back {A S} (G : S -> Prop) (body : A -> S -> outcome S) l :
  (forall x st, G (after (body x st)) -> G st) ->
  forall st, G (after (for_each body l st)) -> G st.
Proof.
  intros Hback. induction l as [|a l IH]; intros st; cbn; [auto|].
  specialize (Hback a st).
  destruct (body a st) as [st1 | e st1]; cbn in *; auto.
Qed.

Lemma for_each_second_run {A S} (R : S -> S -> Prop) (G : S -> Prop)
  (body : A -> S -> outcome S) l :
  (forall x st, G (after (body x st)) -> G st) ->
  (forall x st st1 st', body x st = Returns st1 -> G st1 -> R st st' ->
     exists st1', body x st' = Returns st1' /\ R st1 st1') ->
  forall st stF st', for_each body l st = Returns stF -> G stF -> R st st' ->
    exists stF', for_each body l st' = Returns stF' /\ R stF stF'.
Proof.
  intros Hback Hstep. induction l as [|a l IH]; intros st stF st' Hreturns HG HR;
    cbn in *.
  - injection Hreturns as <-. eauto.
  - destruct (body a st) as [st1 | e st1] eqn:E; [|discriminate].
    assert (HG1 : G st1).
    { apply (for_each_back G body l Hback). now rewrite Hreturns. }
    destruct (Hstep a st st1 st' E HG1 HR) as (st1' & -> & HR1).
    exact (IH st1 stF st1' Hreturns HG HR1).
Qed.

Section SecondRunOfTheLoops.

Variable hdr : Headers.
Variable s : SystemOne.
Variable registry : list StateOne.

Let within (bb : basis_build) : Prop := bb_states bb `prefix_of` registry.

Lemma loop_m_within n l j energy allowed m bb :
  within (after (loop_m hdr s n l j energy allowed m bb)) -> within bb.
Proof.
  unfold loop_m. destruct (Z.abs m >? j); [auto|].
  match goal with |- context [if ?b then _ else _] => destruct b end; [auto|].
  apply addSymmetrizedBasisvectors_within.
Qed.

Lemma loop_j_within s2 n l j bb :
  within (after (loop_j hdr s s2 n l j bb)) -> within bb.
Proof.
  unfold loop_j. destruct ((Z.abs (j - 2 * l) >? s2) || (j <? 0)); [auto|].
  destruct (negb (checkIsEnergyValid _ s)); [auto|].
  apply for_each_back. intros m bb'. apply loop_m_within.
Qed.

Lemma loop_l_within s2 n l bb :
  within (after (loop_l hdr s s2 n l bb)) -> within bb.
Proof.
  unfold loop_l. destruct ((l >? n - 1) || (l <? 0)); [auto|].
  apply for_each_back. intros j bb'. apply loop_j_within.
Qed.

Lemma loop_n_within s2 n bb :
  within (after (loop_n hdr s s2 n bb)) -> within bb.
Proof. unfold loop_n. apply for_each_back. intros l bb'. apply loop_l_within. Qed.

Lemma loop_m_second_run n l j energy allowed m bb bb1 bb' :
  loop_m hdr s n l j energy allowed m bb = Returns bb1 -> within bb1 ->
  second_run registry bb bb' ->
  exists bb1', loop_m hdr s n l j energy allowed m bb' = Returns bb1'
               /\ second_run registry bb1 bb1'.
Proof.
  unfold loop_m. destruct (Z.abs m >? j); [intros [= <-]; eauto|].
  match goal with |- context [if ?b then _ else _] => destruct b end; [discriminate|].
  intros [= <-] Hwithin Hrun. eexists. split; [reflexivity|].
  now apply addSymmetrizedBasisvectors_second_run.
Qed.

Lemma loop_j_second_run s2 n l j bb bb1 bb' :
  loop_j hdr s s2 n l j bb = Returns bb1 -> within bb1 ->
  second_run registry bb bb' ->
  exists bb1', loop_j hdr s s2 n l j bb' = Returns bb1' /\ second_run registry bb1 bb1'.
Proof.
  unfold loop_j. destruct ((Z.abs (j - 2 * l) >? s2) || (j <? 0));
    [intros [= <-]; eauto|].
  destruct (negb (checkIsEnergyValid _ s)); [intros [= <-]; eauto|].
  apply (for_each_second_run (second_run registry) within).
  - intros m bb0. apply loop_m_within.
  - intros m bb0 bb2 bb0'. apply loop_m_second_run.
Qed.

Lemma loop_l_second_run s2 n l bb bb1 bb' :
  loop_l hdr s s2 n l bb = Returns bb1 -> within bb1 ->
  second_run registry bb bb' ->
  exists bb1', loop_l hdr s s2 n l bb' = Returns bb1' /\ second_run registry bb1 bb1'.
Proof.
  unfold loop_l. destruct ((l >? n - 1) || (l <? 0)); [intros [= <-]; eauto|].
  apply (for_each_second_run (second_run registry) within).
  - intros j bb0. apply loop_j_within.
  - intros j bb0 bb2 bb0'. apply loop_j_second_run.
Qed.

Lemma enumerate_states_second_run bb bb1 bb' :
  enumerate_states hdr s bb = Returns bb1 -> within bb1 ->
  second_run registry bb bb' ->
  exists bb1', enumerate_states hdr s bb' = Returns bb1' /\ second_run registry bb1 bb1'.
Proof.
  unfold enumerate_states.
  apply (for_each_second_run (second_run registry) within).
  - intros n bb0. apply loop_n_within.
  - intros n bb0 bb2 bb0'. unfold loop_n.
    apply (for_each_second_run (second_run registry) within).
    + intros l bb3. apply loop_l_within.
    + intros l bb3 bb4 bb3'. apply loop_l_second_run.
Qed.

End SecondRunOfTheLoops.

Lemma addSymmetrizedBasisvectors_cerr hdr state energy parity bb :
  bb_cerr (addSymmetrizedBasisvectors hdr state energy parity bb) = bb_cerr bb.
Proof.
  assert (Hadd : forall state idx value bb,
            bb_cerr (addBasisvectors state idx value bb) = bb_cerr bb).
  { intros state' idx value bb'. unfold addBasisvectors.
    now destruct (find_state state' (bb_states bb')). }
  unfold addSymmetrizedBasisvectors.
  destruct (symmetrized parity state && (State.getM state <? 0)); [reflexivity|].
  cbn [bb_cerr]. destruct (symmetrized parity state); now rewrite ?Hadd.
Qed.

(** X20: without user-defined states, [initializeBasis] can be called again
    on the object that it returned: the second call finds every state in the
    registry at the index that the first call gave it, builds the same basis
    vectors and the same Hamiltonian, and returns the object as it is. *)
Theorem initializeBasis_again_returns (hdr : Headers) (s s' : SystemOne) :
  initializeBasis hdr s = Returns s' ->
  states_to_add s = [] ->
  initializeBasis hdr s' = Returns s'.
Proof.
  intros Hreturns Hnone. revert Hreturns. unfold initializeBasis at 1.
  destruct (bool_decide (range_n s = [])) eqn:Hempty;
    [cbn [andb]; destruct (_ || _); discriminate|].
  cbn [andb].
  destruct (enumerate_states hdr s (BasisBuild (states s) 0 [] [] (cerr s)))
    as [bb1 | e bb1] eqn:Henum; [|discriminate].
  unfold user_defined_states. rewrite Hnone. cbn [for_each]. intros [= <-].
  assert (Hcerr : bb_cerr bb1 = cerr s).
  { pose proof (enumerate_states_keeps hdr s (fun bb => bb_cerr bb = cerr s)
                  (fun state energy parity bb H =>
                     eq_trans (addSymmetrizedBasisvectors_cerr hdr state energy parity bb) H)
                  (BasisBuild (states s) 0 [] [] (cerr s)) eq_refl) as H.
    now rewrite Henum in H. }
  destruct (enumerate_states_second_run hdr s (bb_states bb1)
              (BasisBuild (states s) 0 [] [] (cerr s)) bb1
              (BasisBuild (bb_states bb1) 0 [] [] (bb_cerr bb1)) Henum)
    as (bb1' & Henum' & Hs & Hi & Ht & Hh & Hc).
  { reflexivity. }
  { unfold second_run; cbn. auto. }
  assert (Hsame : bb1' = bb1).
  { destruct bb1, bb1'; cbn in *. congruence. }
  subst bb1'.
  unfold initializeBasis.
  change (range_n (build_data s bb1)) with (range_n s).
  change (energy_min (build_data s bb1)) with (energy_min s).
  change (energy_max (build_data s bb1)) with (energy_max s).
  rewrite Hempty. cbn [andb].
  change (states (build_data s bb1)) with (bb_states bb1).
  change (cerr (build_data s bb1)) with (bb_cerr bb1).
  change (enumerate_states hdr (build_data s bb1)
            (BasisBuild (bb_states bb1) 0 [] [] (bb_cerr bb1)))
    with (enumerate_states hdr s (BasisBuild (bb_states bb1) 0 [] [] (bb_cerr bb1))).
  rewrite Henum'. unfold user_defined_states.
  change (states_to_add (build_data s bb1)) with (states_to_add s).
  rewrite Hnone. cbn [for_each]. reflexivity.
Qed.

(** The system restricted to [n = 1]. *)
Lemma initializeBasis_again_returns_witness :
  initializeBasis Example.hdr Example.ground = Returns Example.ground.
Proof.
  apply (initializeBasis_again_returns Example.hdr (set_range_n [1] Example.fresh)).
  - vm_compute. reflexivity.
  - reflexivity.
Defined.
